(** * hipBLAS client harness: initializers, layout converters, drivers

    A shallow embedding of the host-side test harness of hipBLAS
    (clients/include): the matrix / vector initializers and the layout
    converters of the initialization header, the tolerance table of [near.h]
    and the quick-return and bad-argument paths of the [testing_*] drivers.

    Conventions.
    - A [T*] is a base address into a flat store [Z -> T]; [A[k]] reads the
      store at [A + k].  Index arithmetic is done in [Z]; the 64-bit
      conversions are written out where the source compares or multiplies a
      [size_t] with a signed operand.
    - [rand_gen()] draws from process-wide state: it is a function
      [G -> T * G] and the generator state is threaded through every loop in
      program order (the build without [_OPENMP]).
    - [template <typename T>] is a type with the operations the code applies
      to it (class [Scalar]). *)

From Stdlib Require Import ZArith List Lia Bool Ascii QArith Qabs Lqa.
Import ListNotations.
Local Open Scope Z_scope.

Set Implicit Arguments.

(** ** Counted loops *)

Section LoopDefs.
Context {St : Type}.

(** [cnt] iterations of [body], the index starting at [i]. *)
Fixpoint for_iter (cnt : nat) (i : Z) (body : Z -> St -> St) (s : St) : St :=
  match cnt with
  | O => s
  | S c => for_iter c (i + 1) body (body i s)
  end.

(** [for (i = lo; i < hi; i++) body] *)
Definition for_lt (lo hi : Z) (body : Z -> St -> St) (s : St) : St :=
  for_iter (Z.to_nat (hi - lo)) lo body s.

(** [for (i = lo; i <= hi; i++) body] *)
Definition for_le (lo hi : Z) (body : Z -> St -> St) (s : St) : St :=
  for_lt lo (hi + 1) body s.

End LoopDefs.

(** ** Integer conversions of the 64-bit target *)

(** Conversion to [size_t] (what [j < N] does to an [int64_t N] when [j] is a
    [size_t]). *)
Definition to_size_t (x : Z) : Z := x mod 2 ^ 64.

(** Conversion to [int64_t] / reinterpretation of a [size_t] offset by the
    flat 64-bit address arithmetic of [p[k]]. *)
Definition to_int64 (x : Z) : Z := (x + 2 ^ 63) mod 2 ^ 64 - 2 ^ 63.

(** Conversion to [int] ([int N = arg.N]). *)
Definition to_int (x : Z) : Z := (x + 2 ^ 31) mod 2 ^ 32 - 2 ^ 31.

(** ** Flat store *)

Section StoreDefs.
Context {T : Type}.

Definition mem := Z -> T.

(** [p[k] = v] *)
Definition upd (m : mem) (k : Z) (v : T) : mem :=
  fun x => if x =? k then v else m x.

End StoreDefs.

Arguments mem T : clear implicits.

(** ** The operations of a value type [T] *)

Class Scalar (T : Type) := {
  s_zero : T;                       (* T(0) *)
  s_one : T;                        (* T(1) *)
  s_multiplier : T;                 (* T(1.01) *)
  s_add : T -> T -> T;              (* operator+ *)
  s_mul : T -> T -> T;              (* operator* *)
  s_eqb : T -> T -> bool;           (* operator== *)
  hipblas_abs : T -> T;
  hipblas_real : T -> T;
  hipblas_conjugate : T -> T;
  hipblas_negate : T -> T
}.

(** ** Generator streams *)

Section GeneratorDefs.
Context {T G : Type}.
Variable rand_gen : G -> T * G.

(** State after [k] draws, and the value of draw number [k] (from 0). *)
Definition advance (k : nat) (g : G) : G :=
  Nat.iter k (fun h => snd (rand_gen h)) g.

Definition draw (g : G) (k : nat) : T := fst (rand_gen (advance k g)).

End GeneratorDefs.

(** ** Matrix kinds *)

Inductive hipblas_matrix_type :=
| hipblas_general_matrix
| hipblas_hermitian_matrix
| hipblas_symmetric_matrix
| hipblas_triangular_matrix
| hipblas_diagonally_dominant_triangular_matrix.

(** ** Matrix initializers *)

Section MatrixInit.
Context {T G : Type} `{Scalar T}.

(** [hipblas_init(T* A, M, N, lda, stride, batch_count)] *)
Definition hipblas_init (random_generator : G -> T * G)
    (A M N lda stride batch_count : Z) (s : mem T * G) : mem T * G :=
  for_lt 0 batch_count (fun b =>
    for_lt 0 M (fun i =>
      for_lt 0 N (fun j s =>
        let '(m, g) := s in
        let '(v, g') := random_generator g in
        (upd m (A + (i + j * lda + b * stride)) v, g')))) s.

Variable rand_gen : G -> T * G.

(** [A[i + j * lda] = rand_gen()] *)
Definition general_entry (A lda i j : Z) (s : mem T * G) : mem T * G :=
  let '(m, g) := s in
  let '(v, g') := rand_gen g in
  (upd m (A + (i + j * lda)) v, g').

(** Body of the hermitian loops. *)
Definition hermitian_entry (uplo : ascii) (A lda i j : Z) (s : mem T * G)
  : mem T * G :=
  let '(m, g) := s in
  let '(value, g') := rand_gen g in
  if i =? j then
    (upd m (A + (j + i * lda)) (hipblas_real value), g')
  else if Ascii.eqb uplo "U" then
    (upd (upd m (A + (j + i * lda)) value) (A + (i + j * lda)) s_zero, g')
  else if Ascii.eqb uplo "L" then
    (upd (upd m (A + (j + i * lda)) s_zero) (A + (i + j * lda)) value, g')
  else
    (upd (upd m (A + (j + i * lda)) value)
         (A + (i + j * lda)) (hipblas_conjugate value), g').

(** Body of the symmetric loops. *)
Definition symmetric_entry (uplo : ascii) (A lda i j : Z) (s : mem T * G)
  : mem T * G :=
  let '(m, g) := s in
  let '(value, g') := rand_gen g in
  if i =? j then
    (upd m (A + (j + i * lda)) value, g')
  else if Ascii.eqb uplo "U" then
    (upd (upd m (A + (j + i * lda)) value) (A + (i + j * lda)) s_zero, g')
  else if Ascii.eqb uplo "L" then
    (upd (upd m (A + (j + i * lda)) s_zero) (A + (i + j * lda)) value, g')
  else
    (upd (upd m (A + (j + i * lda)) value) (A + (i + j * lda)) value, g').

(** [uplo == 'U' ? (j >= i ? rand_gen() : T(0)) : (j <= i ? rand_gen() : T(0))]
    stored at offset [off] from [A]. *)
Definition triangular_entry (uplo : ascii) (A off i j : Z) (s : mem T * G)
  : mem T * G :=
  let '(m, g) := s in
  let '(value, g') :=
    if Ascii.eqb uplo "U"
    then (if j >=? i then rand_gen g else (s_zero, g))
    else (if j <=? i then rand_gen g else (s_zero, g)) in
  (upd m (A + off) value, g').

(** [acc += hipblas_abs(A[idx k])] for [k] in [lo, hi). *)
Definition abs_sum (m : mem T) (idx : Z -> Z) (lo hi : Z) : T :=
  for_lt lo hi (fun k acc => s_add acc (hipblas_abs (m (idx k)))) s_zero.

(** [(row + col) == T(0) ? T(1) : T((row + col) * multiplier)] *)
Definition dominant_value (abs_sum_off_diagonal_row abs_sum_off_diagonal_col : T)
  : T :=
  if s_eqb (s_add abs_sum_off_diagonal_row abs_sum_off_diagonal_col) s_zero
  then s_one
  else s_mul (s_add abs_sum_off_diagonal_row abs_sum_off_diagonal_col)
             s_multiplier.

(** *** [hipblas_fill_matrix_type]: the body of the batch loop

    [A] is [A_data + b * stride]; [M], [N] are [int64_t], [lda] a [size_t]. *)
Definition fill_matrix_type_batch (matrix_type : hipblas_matrix_type)
    (uplo : ascii) (A M N lda stride b : Z) (s : mem T * G) : mem T * G :=
  match matrix_type with
  | hipblas_general_matrix =>
      for_lt 0 (to_size_t N) (fun j =>
        for_lt 0 (to_size_t M) (fun i => general_entry A lda i j)) s
  | hipblas_hermitian_matrix =>
      for_lt 0 (to_size_t N) (fun i =>
        for_le 0 i (fun j => hermitian_entry uplo A lda i j)) s
  | hipblas_symmetric_matrix =>
      for_lt 0 (to_size_t N) (fun i =>
        for_le 0 i (fun j => symmetric_entry uplo A lda i j)) s
  | hipblas_triangular_matrix =>
      for_lt 0 (to_size_t M) (fun i =>
        for_lt 0 (to_size_t N) (fun j =>
          triangular_entry uplo A (i + j * lda + b * stride) i j)) s
  | hipblas_diagonally_dominant_triangular_matrix =>
      let '(m, g) :=
        for_lt 0 N (fun j =>
          for_lt 0 M (fun i => triangular_entry uplo A (i + j * lda) i j)) s in
      if Ascii.eqb uplo "U" then
        (for_lt 0 N (fun i m =>
           let abs_sum_off_diagonal_row :=
             abs_sum m (fun j => A + (i + j * lda)) (i + 1) N in
           let abs_sum_off_diagonal_col :=
             abs_sum m (fun j => A + (j + i * lda)) 0 (to_size_t i) in
           upd m (A + (i + i * lda))
               (dominant_value abs_sum_off_diagonal_row
                               abs_sum_off_diagonal_col)) m, g)
      else
        (for_lt 0 N (fun j m =>
           let abs_sum_off_diagonal_col :=
             abs_sum m (fun i => A + (i + j * lda)) (j + 1) N in
           let abs_sum_off_diagonal_row :=
             abs_sum m (fun i => A + (j + i * lda)) 0 j in
           upd m (A + (j + j * lda))
               (dominant_value abs_sum_off_diagonal_row
                               abs_sum_off_diagonal_col)) m, g)
  end.

(** [hipblas_fill_matrix_type(matrix_type, uplo, rand_gen, A_data, M, N, lda,
    stride, batch_count)]; the batch counter is a [size_t]. *)
Definition hipblas_fill_matrix_type (matrix_type : hipblas_matrix_type)
    (uplo : ascii) (A_data M N lda stride batch_count : Z) (s : mem T * G)
  : mem T * G :=
  for_lt 0 (to_size_t batch_count) (fun b =>
    fill_matrix_type_batch matrix_type uplo (A_data + b * stride)
                           M N lda stride b) s.

(** *** [hipblas_init_matrix(matrix_type, uplo, rand_gen, hA)]

    [hA] is a host batch matrix: [m()], [n()], [lda()], [batch_count()] and
    one buffer per batch index ([hA[batch_index]]).  All loop counters of
    this overload are [size_t]. *)
Record host_batch_matrix := {
  hbm_m : Z;
  hbm_n : Z;
  hbm_lda : Z;
  hbm_batch_count : Z;
  hbm_ptr : Z -> Z                   (* operator[] *)
}.

Definition init_matrix_batch (matrix_type : hipblas_matrix_type)
    (uplo : ascii) (A M N lda : Z) (s : mem T * G) : mem T * G :=
  match matrix_type with
  | hipblas_general_matrix =>
      for_lt 0 (to_size_t N) (fun j =>
        for_lt 0 (to_size_t M) (fun i => general_entry A lda i j)) s
  | hipblas_hermitian_matrix =>
      for_lt 0 (to_size_t N) (fun i =>
        for_le 0 i (fun j => hermitian_entry uplo A lda i j)) s
  | hipblas_symmetric_matrix =>
      for_lt 0 (to_size_t N) (fun i =>
        for_le 0 i (fun j => symmetric_entry uplo A lda i j)) s
  | hipblas_triangular_matrix =>
      for_lt 0 (to_size_t N) (fun j =>
        for_lt 0 (to_size_t M) (fun i =>
          triangular_entry uplo A (i + j * lda) i j)) s
  | hipblas_diagonally_dominant_triangular_matrix =>
      let '(m, g) :=
        for_lt 0 (to_size_t N) (fun j =>
          for_lt 0 (to_size_t M) (fun i =>
            triangular_entry uplo A (i + j * lda) i j)) s in
      if Ascii.eqb uplo "U" then
        (for_lt 0 (to_size_t N) (fun i m =>
           let abs_sum_off_diagonal_row :=
             abs_sum m (fun j => A + (i + j * lda)) (i + 1) (to_size_t N) in
           let abs_sum_off_diagonal_col :=
             abs_sum m (fun j => A + (j + i * lda)) 0 i in
           upd m (A + (i + i * lda))
               (dominant_value abs_sum_off_diagonal_row
                               abs_sum_off_diagonal_col)) m, g)
      else
        (for_lt 0 (to_size_t N) (fun j m =>
           let abs_sum_off_diagonal_col :=
             abs_sum m (fun i => A + (i + j * lda)) (j + 1) (to_size_t N) in
           let abs_sum_off_diagonal_row :=
             abs_sum m (fun i => A + (j + i * lda)) 0 j in
           upd m (A + (j + j * lda))
               (dominant_value abs_sum_off_diagonal_row
                               abs_sum_off_diagonal_col)) m, g)
  end.

Definition hipblas_init_matrix (matrix_type : hipblas_matrix_type)
    (uplo : ascii) (hA : host_batch_matrix) (s : mem T * G) : mem T * G :=
  for_lt 0 (hbm_batch_count hA) (fun batch_index =>
    init_matrix_batch matrix_type uplo (hbm_ptr hA batch_index)
                      (hbm_m hA) (hbm_n hA) (hbm_lda hA)) s.

End MatrixInit.

(** ** Reading a column-major matrix *)

Section MatrixReading.
Context {T : Type} `{Scalar T}.

(** Entry (row [i], column [j]) of the matrix at [A] with leading dimension
    [lda]. *)
Definition entry (m : mem T) (A lda i j : Z) : T := m (A + (i + j * lda)).

(** [sum(|A[i][j]|, j != i)] over row [i], and the same over column [j],
    accumulated left to right from [T(0)]. *)
Definition offdiag_row_sum (m : mem T) (A lda N i : Z) : T :=
  for_lt 0 N (fun j acc =>
    if j =? i then acc else s_add acc (hipblas_abs (entry m A lda i j))) s_zero.

Definition offdiag_col_sum (m : mem T) (A lda N j : Z) : T :=
  for_lt 0 N (fun i acc =>
    if i =? j then acc else s_add acc (hipblas_abs (entry m A lda i j))) s_zero.

(** The stored part of row [i] and of column [i] next to the diagonal entry
    [i], as the initializer sums them: to the right and above for ['U'],
    to the left and below otherwise. *)
Definition stored_row_sum (uplo : ascii) (m : mem T) (A lda N i : Z) : T :=
  if Ascii.eqb uplo "U"
  then abs_sum m (fun j => A + (i + j * lda)) (i + 1) N
  else abs_sum m (fun j => A + (i + j * lda)) 0 i.

Definition stored_col_sum (uplo : ascii) (m : mem T) (A lda N i : Z) : T :=
  if Ascii.eqb uplo "U"
  then abs_sum m (fun j => A + (j + i * lda)) 0 i
  else abs_sum m (fun j => A + (j + i * lda)) (i + 1) N.

(** Every diagonal entry is the dominant value of its stored row and column
    sums. *)
Definition dominant_diagonal (uplo : ascii) (m : mem T) (A lda N : Z) : Prop :=
  forall i, 0 <= i < N ->
    entry m A lda i i
    = dominant_value (stored_row_sum uplo m A lda N i)
                     (stored_col_sum uplo m A lda N i).

(** The triangle that is not stored holds [T(0)]. *)
Definition other_triangle_zero (uplo : ascii) (m : mem T) (A lda N : Z)
  : Prop :=
  forall i j, 0 <= i < N -> 0 <= j < N ->
    (if Ascii.eqb uplo "U" then j <? i else i <? j) = true ->
    entry m A lda i j = s_zero.

(** The shape shared by the hermitian and the symmetric loop bodies:
    [on_diagonal] is applied to a generated diagonal value and [mirror] to
    the value written to the mirrored position when the fill mode is neither
    ['U'] nor ['L']. *)
Definition mirrored_entry {G : Type} (rand_gen : G -> T * G)
    (on_diagonal mirror : T -> T) (uplo : ascii) (A lda i j : Z)
    (s : mem T * G) : mem T * G :=
  let '(m, g) := s in
  let '(value, g') := rand_gen g in
  if i =? j then
    (upd m (A + (j + i * lda)) (on_diagonal value), g')
  else if Ascii.eqb uplo "U" then
    (upd (upd m (A + (j + i * lda)) value) (A + (i + j * lda)) s_zero, g')
  else if Ascii.eqb uplo "L" then
    (upd (upd m (A + (j + i * lda)) s_zero) (A + (i + j * lda)) value, g')
  else
    (upd (upd m (A + (j + i * lda)) value) (A + (i + j * lda)) (mirror value),
     g').

(** What iteration ([i], [j]), [j <= i], of the hermitian / symmetric loops
    leaves in the entry (row [j], column [i]) and in its mirror image (row
    [i], column [j]), [value] being the value generated in that iteration. *)
Definition pair_filled (on_diagonal mirror : T -> T) (uplo : ascii)
    (value : T) (m : mem T) (A lda i j : Z) : Prop :=
  if i =? j then entry m A lda i i = on_diagonal value
  else if Ascii.eqb uplo "U" then
    entry m A lda j i = value /\ entry m A lda i j = s_zero
  else if Ascii.eqb uplo "L" then
    entry m A lda j i = s_zero /\ entry m A lda i j = value
  else
    entry m A lda j i = value /\ entry m A lda i j = mirror value.

(** The whole [N x N] matrix after the loops, [v i j] being the value
    generated in iteration ([i], [j]). *)
Definition triangle_filled (on_diagonal mirror : T -> T) (uplo : ascii)
    (v : Z -> Z -> T) (m : mem T) (A lda N : Z) : Prop :=
  forall i j, 0 <= j <= i -> i < N ->
    pair_filled on_diagonal mirror uplo (v i j) m A lda i j.

(** The documented reading of the hermitian and symmetric kinds: the
    position mirrored across the diagonal holds [mirror] of the entry
    generated in the triangle selected by the fill mode (['U']: the upper
    triangle, rows above the diagonal; ['L']: the lower one). *)
Definition mirror_image (mirror : T -> T) (uplo : ascii) (m : mem T)
    (A lda N : Z) : Prop :=
  forall i j, 0 <= j < i -> i < N ->
    if Ascii.eqb uplo "U"
    then entry m A lda i j = mirror (entry m A lda j i)
    else entry m A lda j i = mirror (entry m A lda i j).

End MatrixReading.

(** An order on the value type, with the laws of real arithmetic (exact, or
    rounded without NaN) that diagonal dominance rests on. *)
Class ScalarOrder (T : Type) `{Scalar T} := {
  s_le : T -> T -> Prop;
  s_le_refl : forall x, s_le x x;
  s_le_trans : forall x y z, s_le x y -> s_le y z -> s_le x z;
  s_abs_nonneg : forall x, s_le s_zero (hipblas_abs x);
  s_le_add_r : forall a b, s_le s_zero b -> s_le a (s_add a b);
  s_le_add_l : forall a b, s_le s_zero a -> s_le b (s_add a b);
  s_abs_zero : hipblas_abs s_zero = s_zero;
  s_add_zero_r : forall a, s_add a s_zero = a;
  s_eqb_zero_le : forall x, s_eqb x s_zero = true -> s_le x s_zero;
  s_scale_le : forall x, s_le s_zero x ->
                         s_le x (hipblas_abs (s_mul x s_multiplier))
}.

(** ** Vector initializers

    The initializers are written once over the store operation
    [poke s k v] ([p[k] = v] at address [k]), so that the same definition
    yields the resulting store ([upd]) and the sequence of writes
    ([log_write]). *)

Definition log_write {T : Type} (l : list (Z * T)) (k : Z) (v : T)
  : list (Z * T) := l ++ [(k, v)].

(** The store obtained by performing the logged writes in order. *)
Definition replay {T : Type} (l : list (Z * T)) (m : mem T) : mem T :=
  fold_left (fun m kv => upd m (fst kv) (snd kv)) l m.

(** The store and the write log of one run correspond (run from the store
    [m0], ending in the same generator state). *)
Definition run_matches {T G : Type} (m0 : mem T) (t1 : mem T * G)
    (t2 : list (Z * T) * G) : Prop :=
  fst t1 = replay (fst t2) m0 /\ snd t1 = snd t2.

(** Address [p + k] for a [size_t]-typed index [k]. *)
Definition size_t_index (k : Z) : Z := to_int64 (to_size_t k).

(** A host batch vector: [n()], [inc()], [batch_count()] and one buffer per
    batch index. *)
Record host_batch_vector := {
  hbv_n : Z;
  hbv_inc : Z;
  hbv_batch_count : Z;
  hbv_ptr : Z -> Z                   (* operator[] *)
}.

Section VectorInit.
Context {T G St : Type} `{Scalar T}.
Variable poke : St -> Z -> T -> St.

(** [hipblas_init_vector(rand_gen, x, N, incx)] *)
Definition hipblas_init_vector (rand_gen : G -> T * G) (x N incx : Z)
    (s : St * G) : St * G :=
  let x := if incx <? 0 then x - (N - 1) * incx else x in
  for_lt 0 N (fun j s =>
    let '(m, g) := s in
    let '(v, g') := rand_gen g in
    (poke m (x + j * incx) v, g')) s.

(** [hipblas_init_vector_alternating_sign(rand_gen, x, N, incx)] *)
Definition hipblas_init_vector_alternating_sign (rand_gen : G -> T * G)
    (x N incx : Z) (s : St * G) : St * G :=
  let x := if incx <? 0 then x - (N - 1) * incx else x in
  for_lt 0 N (fun j s =>
    let '(m, g) := s in
    let '(value, g') := rand_gen g in
    (poke m (x + j * incx)
          (if Z.land j 1 =? 0 then hipblas_negate value else value), g')) s.

(** [hipblas_init_vector_trig(x, N, incx, seedReset)]; [cos_T k] is
    [T(cos(k))], [sin_T k] is [T(sin(k))]. *)
Definition hipblas_init_vector_trig (cos_T sin_T : Z -> T) (x N incx : Z)
    (seedReset : bool) (m : St) : St :=
  let x := if incx <? 0 then x - (N - 1) * incx else x in
  for_lt 0 N (fun j m =>
    poke m (x + j * incx)
         (if seedReset then cos_T (j * incx) else sin_T (j * incx))) m.

(** [hipblas_init_template(that, rand_gen, seedReset, alternating_sign)];
    the element counter [i] is a [size_t]. *)
Definition hipblas_init_template (hipblas_seedrand : G -> G)
    (that : host_batch_vector) (rand_gen : G -> T * G)
    (seedReset alternating_sign : bool) (s : St * G) : St * G :=
  let s := if seedReset then (fst s, hipblas_seedrand (snd s)) else s in
  for_lt 0 (hbv_batch_count that) (fun batch_index s =>
    let batched_data := hbv_ptr that batch_index in
    let inc := hbv_inc that in
    let n := hbv_n that in
    let batched_data :=
      if inc <? 0 then batched_data - (n - 1) * inc else batched_data in
    if alternating_sign then
      for_lt 0 (to_size_t n) (fun i s =>
        let '(m, g) := s in
        let '(value, g') := rand_gen g in
        (poke m (batched_data + size_t_index (i * inc))
              (if Z.land (Z.lxor i 0) 1 =? 0
               then hipblas_negate value else value), g')) s
    else
      for_lt 0 (to_size_t n) (fun i s =>
        let '(m, g) := s in
        let '(v, g') := rand_gen g in
        (poke m (batched_data + size_t_index (i * inc)) v, g')) s) s.

(** [hipblas_init_alternating_template(that, rand_gen, rand_gen_alt,
    seedReset)] *)
Definition hipblas_init_alternating_template (hipblas_seedrand : G -> G)
    (that : host_batch_vector) (rand_gen rand_gen_alt : G -> T * G)
    (seedReset : bool) (s : St * G) : St * G :=
  let s := if seedReset then (fst s, hipblas_seedrand (snd s)) else s in
  for_lt 0 (hbv_batch_count that) (fun b s =>
    let batched_data := hbv_ptr that b in
    let inc := hbv_inc that in
    let n := hbv_n that in
    let batched_data :=
      if inc <? 0 then batched_data - (n - 1) * inc else batched_data in
    for_lt 0 n (fun i s =>
      let '(m, g) := s in
      let '(v, g') := if Z.rem i 2 =? 0 then rand_gen_alt g else rand_gen g in
      (poke m (batched_data + i * inc) v, g')) s) s.

(** [hipblas_init_cos(T* A, M, N, lda, stride, batch_count)] and
    [hipblas_init_sin]: every parameter and counter is a [size_t]; [trig_T]
    is [cos_T] or [sin_T]. *)
Definition hipblas_init_trig_ptr (trig_T : Z -> T)
    (A M N lda stride batch_count : Z) (m : St) : St :=
  for_lt 0 batch_count (fun i_batch =>
    for_lt 0 N (fun j m =>
      let offset := to_size_t (j * lda + i_batch * stride) in
      for_lt 0 M (fun i m =>
        poke m (A + size_t_index (i + offset))
             (trig_T (to_size_t (i + offset)))) m)) m.

(** [hipblas_init_trig(that, init_cos)] *)
Definition hipblas_init_trig (cos_T sin_T : Z -> T)
    (that : host_batch_vector) (init_cos : bool) (m : St) : St :=
  for_lt 0 (hbv_batch_count that) (fun batch_index m =>
    let batched_data := hbv_ptr that batch_index in
    let inc := hbv_inc that in
    let n := hbv_n that in
    let batched_data :=
      if inc <? 0 then batched_data - (n - 1) * inc else batched_data in
    hipblas_init_trig_ptr (if init_cos then cos_T else sin_T)
      batched_data 1 (to_size_t n) (to_size_t inc) 0 1 m) m.

End VectorInit.

(** Offsets (from the pointer handed in) at which element [j] of an
    [N]-vector with increment [inc] lives after the pointer adjustment. *)
Definition element_offset (N inc j : Z) : Z :=
  if inc <? 0 then (N - 1 - j) * Z.abs inc else j * inc.

(** ** Loops whose counter is an [int]

    [for (int i = lo; i < hi; i++) body] with [int64_t] bounds: the counter
    starts at [lo] converted to [int] and is compared as an [int64_t];
    incrementing it past [INT_MAX] is undefined, which happens when the
    loop is entered and [hi] is above [INT_MAX].  [None] stands for
    undefined behaviour. *)
Definition for_lt_int {St : Type} (lo hi : Z) (body : Z -> St -> St) (s : St)
  : option St :=
  let i0 := to_int lo in
  if (i0 <? hi) && (2 ^ 31 <=? hi) then None
  else Some (for_lt i0 hi body s).

(** [for (int i = lo; i <= hi; i++) body] *)
Definition for_le_int {St : Type} (lo hi : Z) (body : Z -> St -> St) (s : St)
  : option St :=
  let i0 := to_int lo in
  if (i0 <=? hi) && (2 ^ 31 - 1 <=? hi) then None
  else Some (for_le i0 hi body s).

(** ** Banded storage ([regular_to_banded]) *)

Section Banded.
Context {T G : Type} `{Scalar T}.
Variable random_generator : G -> T * G.

(** The body of the column loop of [regular_to_banded]. *)
Definition regular_to_banded_column (upper : bool) (A : mem T)
    (lda AB ldab n k j : Z) (s : mem T * G) : mem T * G :=
  let min1 := if upper then Z.max 0 (j - k) else j in
  let max1 := if upper then j else Z.min (n - 1) (j + k) in
  let m := if upper then k - j else - j in
  let s := for_le min1 max1 (fun i s =>
             let '(ab, g) := s in
             (upd ab (AB + (j * ldab + (m + i))) (A (j * lda + i)), g)) s in
  let min1 := if upper then k + 1 else Z.min (k + 1) (n - j) in
  let max1 := ldab - 1 in
  let s := for_le min1 max1 (fun i =>
             hipblas_init random_generator (AB + j * ldab + i) 1 1 1 0 1) s in
  if upper then
    for_lt 0 m (fun i =>
      hipblas_init random_generator (AB + j * ldab + i) 1 1 1 0 1) s
  else s.

(** [regular_to_banded(upper, A, lda, AB, ldab, n, k)]: [A] is the dense
    input buffer, the store holds the banded output at address [AB]. *)
Definition regular_to_banded (upper : bool) (A : mem T) (lda AB ldab n k : Z)
    (s : mem T * G) : mem T * G :=
  for_lt 0 n (regular_to_banded_column upper A lda AB ldab n k) s.

(** The overload on batch containers: [h_A[b]] are the dense inputs (one
    buffer each), [h_AB] the banded outputs.  [lda] and [ldab] are
    [size_t], so the indices are; the row counters are [int]s compared with
    [int64_t] bounds, and the result is [None] when one of them would
    overflow. *)
Definition regular_to_banded_batched (upper : bool)
    (h_A : Z -> mem T) (h_A_lda h_A_batch_count : Z)
    (h_AB : host_batch_matrix) (k : Z) (s : mem T * G)
  : option (mem T * G) :=
  let lda := to_size_t h_A_lda in
  let ldab := to_size_t (hbm_lda h_AB) in
  let n := hbm_n h_AB in
  for_lt 0 h_A_batch_count (fun batch_index os =>
    let A := h_A batch_index in
    let AB := hbm_ptr h_AB batch_index in
    for_lt 0 n (fun j os =>
      match os with
      | None => None
      | Some s =>
        let min1 := if upper then Z.max 0 (j - k) else j in
        let max1 := if upper then j else Z.min (n - 1) (j + k) in
        let m := if upper then k - j else - j in
        match for_le_int min1 max1 (fun i s =>
                let '(ab, g) := s in
                (upd ab (AB + size_t_index (j * ldab + (m + i)))
                     (A (size_t_index (j * lda + i))), g)) s with
        | None => None
        | Some s =>
          let min1 := if upper then k + 1 else Z.min (k + 1) (n - j) in
          let max1 := to_int64 (to_size_t (ldab - 1)) in
          match for_le_int min1 max1 (fun i =>
                  hipblas_init random_generator
                    (AB + size_t_index (j * ldab) + i) 1 1 1 0 1) s with
          | None => None
          | Some s =>
            if upper then
              for_lt_int 0 m (fun i =>
                hipblas_init random_generator
                  (AB + size_t_index (j * ldab) + i) 1 1 1 0 1) s
            else Some s
          end
        end
      end) os) (Some s).

(** Row [i] of column [j] of the dense matrix belongs to the band. *)
Definition band_row (upper : bool) (n k j i : Z) : Prop :=
  if upper then Z.max 0 (j - k) <= i <= j
  else j <= i <= Z.min (n - 1) (j + k).

(** Band membership of storage slot [r] (row of [AB]) in column [j]. *)
Definition band_slot (upper : bool) (n k j r : Z) : bool :=
  if upper then (Z.max 0 (k - j) <=? r) && (r <=? k)
  else (0 <=? r) && (r <=? Z.min (n - 1) (j + k) - j).

End Banded.

(** ** Packed triangular storage ([regular_to_packed]) *)

Section Packed.
Context {T : Type}.

(** [AP[index++] = A[j + i * n]] *)
Definition pack_step (A : mem T) (n i j : Z) (s : mem T * Z) : mem T * Z :=
  let '(AP, index) := s in (upd AP index (A (j + i * n)), index + 1).

(** [regular_to_packed(upper, A, AP, n)], with the final value of [index]. *)
Definition regular_to_packed_idx (upper : bool) (A AP : mem T) (n : Z)
  : mem T * Z :=
  let index := 0 in
  if upper then
    for_lt 0 n (fun i => for_le 0 i (fun j => pack_step A n i j)) (AP, index)
  else
    for_lt 0 n (fun i => for_lt i n (fun j => pack_step A n i j)) (AP, index).

Definition regular_to_packed (upper : bool) (A AP : mem T) (n : Z) : mem T :=
  fst (regular_to_packed_idx upper A AP n).

(** The overload on batch containers runs the same loops (counters [int],
    [index] a [size_t]) on [h_A[b]] and [h_AP[b]] for every batch index. *)
Definition regular_to_packed_batched (upper : bool)
    (h_A h_AP : Z -> mem T) (h_A_batch_count : Z) (n : Z) : Z -> mem T :=
  for_lt 0 h_A_batch_count (fun batch_index h =>
    let AP := h batch_index in
    let A := h_A batch_index in
    let AP' :=
      fst (if upper then
             for_lt 0 n (fun i =>
               for_le 0 i (fun j => pack_step A n i j)) (AP, 0)
           else
             for_lt 0 n (fun i =>
               for_lt i n (fun j => pack_step A n i j)) (AP, 0)) in
    fun b => if b =? batch_index then AP' else h b) h_AP.

(** Standard column-major packed addressing of entry (row [r], column [c]). *)
Definition packed_index (upper : bool) (n r c : Z) : Z :=
  if upper then r + c * (c + 1) / 2
  else r + c * (2 * n - c - 1) / 2.

(** Entry (row [r], column [c]) lies in the selected triangle. *)
Definition in_triangle (upper : bool) (n r c : Z) : Prop :=
  if upper then 0 <= r <= c /\ c < n else 0 <= c <= r /\ r < n.

(** Visiting orders as coordinate lists (row, column). *)
Definition zseq (lo : Z) (cnt : nat) : list Z :=
  map (fun k => lo + Z.of_nat k) (seq 0 cnt).

Definition upper_column_by_column (n : Z) : list (Z * Z) :=
  flat_map (fun c => map (fun r => (r, c)) (zseq 0 (Z.to_nat (c + 1))))
           (zseq 0 (Z.to_nat n)).

Definition lower_column_by_column (n : Z) : list (Z * Z) :=
  flat_map (fun c => map (fun r => (r, c)) (zseq c (Z.to_nat (n - c))))
           (zseq 0 (Z.to_nat n)).

Definition lower_row_by_row (n : Z) : list (Z * Z) :=
  flat_map (fun r => map (fun c => (r, c)) (zseq 0 (Z.to_nat (r + 1))))
           (zseq 0 (Z.to_nat n)).

(** The documented reading of the converter: the packed element number [t]
    is the [t]-th entry of the triangle in the stated order. *)
Definition packs_in_order (order : list (Z * Z)) (A AP' : mem T) (n : Z)
  : Prop :=
  forall t r c, nth_error order t = Some (r, c) ->
                AP' (Z.of_nat t) = A (r + c * n).

(** The inverse of the round-trip property: each packed element is put back
    at its triangle coordinate, the packed index running as in
    [regular_to_packed]. *)
Definition unpack_step (AP : mem T) (n i j : Z) (s : mem T * Z) : mem T * Z :=
  let '(B, index) := s in (upd B (j + i * n) (AP index), index + 1).

Definition packed_to_regular (upper : bool) (AP B : mem T) (n : Z) : mem T :=
  fst (if upper then
         for_lt 0 n (fun i =>
           for_le 0 i (fun j => unpack_step AP n i j)) (B, 0)
       else
         for_lt 0 n (fun i =>
           for_lt i n (fun j => unpack_step AP n i j)) (B, 0)).

End Packed.

(** ** Tolerance table ([near.h]) *)

Inductive precision :=
| half | bfloat16 | single_real | double_real | single_complex | double_complex.

(** [error_tolerance<T>]: the primary template is [0.0], the specialization
    for [hipblasHalf] the decimal literal [0.000061035]. *)
Definition error_tolerance (p : precision) : Q :=
  match p with
  | half => 61035 # 1000000000
  | _ => 0
  end.

(** [2 ^ -14], the smallest positive normal number of IEEE binary16. *)
Definition half_min_normal : Q := 1 # 16384.

(** ** Test drivers: status codes, arguments, invocations *)

Inductive hipblasStatus_t :=
| HIPBLAS_STATUS_SUCCESS
| HIPBLAS_STATUS_NOT_INITIALIZED
| HIPBLAS_STATUS_ALLOC_FAILED
| HIPBLAS_STATUS_INVALID_VALUE
| HIPBLAS_STATUS_INTERNAL_ERROR
| HIPBLAS_STATUS_NOT_SUPPORTED
| HIPBLAS_STATUS_ARCH_MISMATCH
| HIPBLAS_STATUS_INVALID_ENUM.

Definition status_eqb (a b : hipblasStatus_t) : bool :=
  match a, b with
  | HIPBLAS_STATUS_SUCCESS, HIPBLAS_STATUS_SUCCESS
  | HIPBLAS_STATUS_NOT_INITIALIZED, HIPBLAS_STATUS_NOT_INITIALIZED
  | HIPBLAS_STATUS_ALLOC_FAILED, HIPBLAS_STATUS_ALLOC_FAILED
  | HIPBLAS_STATUS_INVALID_VALUE, HIPBLAS_STATUS_INVALID_VALUE
  | HIPBLAS_STATUS_INTERNAL_ERROR, HIPBLAS_STATUS_INTERNAL_ERROR
  | HIPBLAS_STATUS_NOT_SUPPORTED, HIPBLAS_STATUS_NOT_SUPPORTED
  | HIPBLAS_STATUS_ARCH_MISMATCH, HIPBLAS_STATUS_ARCH_MISMATCH
  | HIPBLAS_STATUS_INVALID_ENUM, HIPBLAS_STATUS_INVALID_ENUM => true
  | _, _ => false
  end.

Inductive hipblasPointerMode_t :=
| HIPBLAS_POINTER_MODE_HOST | HIPBLAS_POINTER_MODE_DEVICE.

Inductive hipblasOperation_t := HIPBLAS_OP_N | HIPBLAS_OP_T | HIPBLAS_OP_C.

Inductive hipblasFillMode_t :=
| HIPBLAS_FILL_MODE_UPPER | HIPBLAS_FILL_MODE_LOWER | HIPBLAS_FILL_MODE_FULL.

(** An argument of enum type, either a value of the enum or the result of a
    C cast from the other enum ([(hipblasFillMode_t)HIPBLAS_OP_N]). *)
Inductive fill_arg :=
| fill_value (f : hipblasFillMode_t)
| fill_cast (o : hipblasOperation_t).

Inductive op_arg :=
| op_value (o : hipblasOperation_t)
| op_cast (f : hipblasFillMode_t).

Inductive hipblas_client_api := C | FORTRAN | C_64 | FORTRAN_64.

(** [arg.api & c_API_64] *)
Definition api_is_64 (api : hipblas_client_api) : bool :=
  match api with
  | C_64 | FORTRAN_64 => true
  | _ => false
  end.

(** The handle argument: [nullptr], or the local handle with the pointer
    mode last set on it. *)
Inductive handle_arg :=
| handle_nullptr
| handle_local (pointer_mode : hipblasPointerMode_t).

(** Device buffers of the drivers and operand pointers. *)
Inductive device_buffer := dA | dB | dC | dx | dy.

Inductive data_ptr :=
| nullptr
| device (b : device_buffer).

(** A scalar pointer: [nullptr], the address of a host constant, or a
    one-element device vector holding a copy of it. *)
Inductive scalar_ptr :=
| scalar_nullptr
| scalar_host (v : Q)
| scalar_device (v : Q).

Record hemv_call := {
  hemv_handle : handle_arg;
  hemv_uplo : fill_arg;
  hemv_n : Z;
  hemv_alpha : scalar_ptr;
  hemv_A : data_ptr;
  hemv_lda : Z;
  hemv_x : data_ptr;
  hemv_incx : Z;
  hemv_beta : scalar_ptr;
  hemv_y : data_ptr;
  hemv_incy : Z
}.

Record syrk_strided_batched_call := {
  syrk_handle : handle_arg;
  syrk_uplo : fill_arg;
  syrk_transA : op_arg;
  syrk_n : Z;
  syrk_k : Z;
  syrk_alpha : scalar_ptr;
  syrk_A : data_ptr;
  syrk_lda : Z;
  syrk_strideA : Z;
  syrk_beta : scalar_ptr;
  syrk_C : data_ptr;
  syrk_ldc : Z;
  syrk_strideC : Z;
  syrk_batch_count : Z
}.

Record geam_call := {
  geam_handle : handle_arg;
  geam_transA : op_arg;
  geam_transB : op_arg;
  geam_m : Z;
  geam_n : Z;
  geam_alpha : scalar_ptr;
  geam_A : data_ptr;
  geam_lda : Z;
  geam_beta : scalar_ptr;
  geam_B : data_ptr;
  geam_ldb : Z;
  geam_C : data_ptr;
  geam_ldc : Z
}.

(** The assertion wrapped around an invocation. *)
Inductive assertion :=
| EXPECT_HIPBLAS_STATUS (expected : hipblasStatus_t)
| CHECK_HIPBLAS_ERROR.

Definition expected_status (a : assertion) : hipblasStatus_t :=
  match a with
  | EXPECT_HIPBLAS_STATUS e => e
  | CHECK_HIPBLAS_ERROR => HIPBLAS_STATUS_SUCCESS
  end.

(** One asserted invocation: the entry point ([FORTRAN] binding or not,
    [_64] interface or not), the call and the assertion. *)
Record invocation (call : Type) := {
  inv_fortran : bool;
  inv_64 : bool;
  inv_call : call;
  inv_assert : assertion
}.

(** What a driver does with one case: the sanity-check branch (a single
    asserted invocation, then [return]), or the full run, whose host and
    device buffers are then allocated with the listed element counts (data
    initialization, the two runs and the comparison follow). *)
Inductive driver_path (call : Type) :=
| quick_return (i : invocation call)
| full_run (host_vectors device_vectors : list Z).

Arguments full_run {call} host_vectors device_vectors.

Definition allocations {call} (p : driver_path call) : list Z :=
  match p with
  | quick_return _ => []
  | full_run h d => h ++ d
  end.

Definition invocations {call} (p : driver_path call) : list (invocation call) :=
  match p with
  | quick_return i => [i]
  | full_run _ _ => []
  end.

(** Pointer arguments of a call, for "all operand and scalar pointers null". *)
Definition hemv_pointers_null (c : hemv_call) : bool :=
  match hemv_alpha c, hemv_A c, hemv_x c, hemv_beta c, hemv_y c with
  | scalar_nullptr, nullptr, nullptr, scalar_nullptr, nullptr => true
  | _, _, _, _, _ => false
  end.

Definition syrk_pointers_null (c : syrk_strided_batched_call) : bool :=
  match syrk_alpha c, syrk_A c, syrk_beta c, syrk_C c with
  | scalar_nullptr, nullptr, scalar_nullptr, nullptr => true
  | _, _, _, _ => false
  end.

Definition geam_pointers_null (c : geam_call) : bool :=
  match geam_alpha c, geam_A c, geam_beta c, geam_B c, geam_C c with
  | scalar_nullptr, nullptr, scalar_nullptr, nullptr, nullptr => true
  | _, _, _, _, _ => false
  end.

Definition op_eqb (a b : hipblasOperation_t) : bool :=
  match a, b with
  | HIPBLAS_OP_N, HIPBLAS_OP_N | HIPBLAS_OP_T, HIPBLAS_OP_T
  | HIPBLAS_OP_C, HIPBLAS_OP_C => true
  | _, _ => false
  end.

Definition api_eqb (a b : hipblas_client_api) : bool :=
  match a, b with
  | C, C | FORTRAN, FORTRAN | C_64, C_64 | FORTRAN_64, FORTRAN_64 => true
  | _, _ => false
  end.

(** The [int] parameters of the 32-bit entry points: an [int64_t] argument
    is converted at the call. *)
Definition narrow_hemv (c : hemv_call) : hemv_call :=
  {| hemv_handle := hemv_handle c; hemv_uplo := hemv_uplo c;
     hemv_n := to_int (hemv_n c); hemv_alpha := hemv_alpha c;
     hemv_A := hemv_A c; hemv_lda := to_int (hemv_lda c);
     hemv_x := hemv_x c; hemv_incx := to_int (hemv_incx c);
     hemv_beta := hemv_beta c; hemv_y := hemv_y c;
     hemv_incy := to_int (hemv_incy c) |}.

Definition narrow_syrk (c : syrk_strided_batched_call)
  : syrk_strided_batched_call :=
  {| syrk_handle := syrk_handle c; syrk_uplo := syrk_uplo c;
     syrk_transA := syrk_transA c;
     syrk_n := to_int (syrk_n c); syrk_k := to_int (syrk_k c);
     syrk_alpha := syrk_alpha c; syrk_A := syrk_A c;
     syrk_lda := to_int (syrk_lda c); syrk_strideA := syrk_strideA c;
     syrk_beta := syrk_beta c; syrk_C := syrk_C c;
     syrk_ldc := to_int (syrk_ldc c); syrk_strideC := syrk_strideC c;
     syrk_batch_count := to_int (syrk_batch_count c) |}.

Definition narrow_geam (c : geam_call) : geam_call :=
  {| geam_handle := geam_handle c;
     geam_transA := geam_transA c; geam_transB := geam_transB c;
     geam_m := to_int (geam_m c); geam_n := to_int (geam_n c);
     geam_alpha := geam_alpha c; geam_A := geam_A c;
     geam_lda := to_int (geam_lda c); geam_beta := geam_beta c;
     geam_B := geam_B c; geam_ldb := to_int (geam_ldb c);
     geam_C := geam_C c; geam_ldc := to_int (geam_ldc c) |}.

(** [DAPI_EXPECT] / [DAPI_CHECK]: the [_64] entry point when
    [arg.api & c_API_64], the 32-bit one otherwise; the [FORTRAN] binding
    when [arg.api] is the [FORTRAN] variant of that interface. *)
Definition DAPI {call : Type} (narrow : call -> call)
    (api : hipblas_client_api) (a : assertion) (c : call) : invocation call :=
  if api_is_64 api then
    {| inv_fortran := api_eqb api FORTRAN_64; inv_64 := true;
       inv_call := c; inv_assert := a |}
  else
    {| inv_fortran := api_eqb api FORTRAN; inv_64 := false;
       inv_call := narrow c; inv_assert := a |}.

Section Drivers.
(** [double] and the conversion [hipblasStride s = x * stride_scale]. *)
Variable double : Type.
Variable stride_of : Z -> double -> Z.
(** Helpers and constants of the client utilities used by the drivers. *)
Variable char2hipblas_fill : ascii -> hipblasFillMode_t.
Variable char2hipblas_operation : ascii -> hipblasOperation_t.
Variable c_i32_overflow : Z.

(** The fields of [Arguments] the drivers read. *)
Record Arguments := {
  arg_api : hipblas_client_api;
  arg_bad_arg_all : bool;
  arg_M : Z;
  arg_N : Z;
  arg_K : Z;
  arg_lda : Z;
  arg_ldb : Z;
  arg_ldc : Z;
  arg_incx : Z;
  arg_incy : Z;
  arg_batch_count : Z;
  arg_stride_scale : double;
  arg_uplo : ascii;
  arg_transA : ascii;
  arg_transB : ascii
}.

(** *** [testing_hemv] *)

Definition hemv_invalid_size (N lda incx incy : Z) : bool :=
  (N <? 0) || (lda <? N) || (lda <? 1) || (incx =? 0) || (incy =? 0).

Definition testing_hemv (arg : Arguments) : driver_path hemv_call :=
  let FORTRAN_ := api_eqb (arg_api arg) FORTRAN in
  let N := to_int (arg_N arg) in
  let lda := to_int (arg_lda arg) in
  let incx := to_int (arg_incx arg) in
  let incy := to_int (arg_incy arg) in
  let abs_incx := if incx >=? 0 then incx else to_int (- incx) in
  let abs_incy := if incy >=? 0 then incy else to_int (- incy) in
  let A_size := to_size_t (to_size_t lda * to_size_t N) in
  let X_size := to_size_t (to_size_t abs_incx * to_size_t N) in
  let Y_size := to_size_t (to_size_t abs_incy * to_size_t N) in
  let uplo := char2hipblas_fill (arg_uplo arg) in
  let invalid_size := hemv_invalid_size N lda incx incy in
  if invalid_size || (N =? 0) then
    quick_return
      {| inv_fortran := FORTRAN_; inv_64 := false;
         inv_call :=
           {| hemv_handle := handle_local HIPBLAS_POINTER_MODE_HOST;
              hemv_uplo := fill_value uplo; hemv_n := N;
              hemv_alpha := scalar_nullptr; hemv_A := nullptr;
              hemv_lda := lda; hemv_x := nullptr; hemv_incx := incx;
              hemv_beta := scalar_nullptr; hemv_y := nullptr;
              hemv_incy := incy |};
         inv_assert :=
           EXPECT_HIPBLAS_STATUS
             (if invalid_size then HIPBLAS_STATUS_INVALID_VALUE
              else HIPBLAS_STATUS_SUCCESS) |}
  else
    full_run [A_size; X_size; Y_size; Y_size; Y_size; Y_size]
             [A_size; X_size; Y_size; 1; 1].

(** *** [testing_syrk_strided_batched] *)

Definition syrk_invalid_size (transA : hipblasOperation_t)
    (N K lda ldc batch_count : Z) : bool :=
  (N <? 0) || (K <? 0) || (ldc <? N)
  || (op_eqb transA HIPBLAS_OP_N && (lda <? N))
  || (negb (op_eqb transA HIPBLAS_OP_N) && (lda <? K))
  || (batch_count <? 0).

Definition testing_syrk_strided_batched (arg : Arguments)
  : driver_path syrk_strided_batched_call :=
  let uplo := char2hipblas_fill (arg_uplo arg) in
  let transA := char2hipblas_operation (arg_transA arg) in
  let N := arg_N arg in
  let K := arg_K arg in
  let lda := arg_lda arg in
  let ldc := arg_ldc arg in
  let stride_scale := arg_stride_scale arg in
  let batch_count := arg_batch_count arg in
  let K1 := if op_eqb transA HIPBLAS_OP_N then K else N in
  let stride_A := stride_of (lda * K1) stride_scale in
  let stride_C := stride_of (ldc * N) stride_scale in
  let A_size := to_size_t (stride_A * batch_count) in
  let C_size := to_size_t (stride_C * batch_count) in
  let invalid_size := syrk_invalid_size transA N K lda ldc batch_count in
  if invalid_size || (N =? 0) || (batch_count =? 0) then
    quick_return
      (DAPI narrow_syrk (arg_api arg)
         (EXPECT_HIPBLAS_STATUS
            (if invalid_size then HIPBLAS_STATUS_INVALID_VALUE
             else HIPBLAS_STATUS_SUCCESS))
         {| syrk_handle := handle_local HIPBLAS_POINTER_MODE_HOST;
            syrk_uplo := fill_value uplo; syrk_transA := op_value transA;
            syrk_n := N; syrk_k := K;
            syrk_alpha := scalar_nullptr; syrk_A := nullptr;
            syrk_lda := lda; syrk_strideA := stride_A;
            syrk_beta := scalar_nullptr; syrk_C := nullptr;
            syrk_ldc := ldc; syrk_strideC := stride_C;
            syrk_batch_count := batch_count |})
  else
    full_run [A_size; C_size; C_size; C_size] [A_size; C_size; 1; 1].

(** *** [testing_geam] *)

Definition geam_invalid_size (M N lda A_row ldb B_row ldc : Z) : bool :=
  (M <? 0) || (N <? 0) || (lda <? A_row) || (ldb <? B_row) || (ldc <? M).

Definition testing_geam (arg : Arguments) : driver_path geam_call :=
  let transA := char2hipblas_operation (arg_transA arg) in
  let transB := char2hipblas_operation (arg_transB arg) in
  let M := arg_M arg in
  let N := arg_N arg in
  let lda := arg_lda arg in
  let ldb := arg_ldb arg in
  let ldc := arg_ldc arg in
  let '(A_row, A_col) := if op_eqb transA HIPBLAS_OP_N then (M, N) else (N, M) in
  let '(B_row, B_col) := if op_eqb transB HIPBLAS_OP_N then (M, N) else (N, M) in
  let A_size := to_size_t (lda * A_col) in
  let B_size := to_size_t (ldb * B_col) in
  let C_size := to_size_t (ldc * N) in
  let invalid_size := geam_invalid_size M N lda A_row ldb B_row ldc in
  if invalid_size || (N =? 0) || (M =? 0) then
    quick_return
      (DAPI narrow_geam (arg_api arg)
         (EXPECT_HIPBLAS_STATUS
            (if invalid_size then HIPBLAS_STATUS_INVALID_VALUE
             else HIPBLAS_STATUS_SUCCESS))
         {| geam_handle := handle_local HIPBLAS_POINTER_MODE_HOST;
            geam_transA := op_value transA; geam_transB := op_value transB;
            geam_m := M; geam_n := N;
            geam_alpha := scalar_nullptr; geam_A := nullptr;
            geam_lda := lda; geam_beta := scalar_nullptr;
            geam_B := nullptr; geam_ldb := ldb; geam_C := nullptr;
            geam_ldc := ldc |})
  else
    full_run [A_size; B_size; C_size; C_size; C_size]
             [A_size; B_size; C_size; 1; 1].

(** *** Bad-argument suites

    Each suite is the sequence of asserted invocations of a run in which
    every assertion holds; the scalar constants [h_alpha(1)], [h_beta(2)],
    [h_one(1)], [h_zero(0)] are passed by host address in host pointer mode
    and through their device copies in device pointer mode. *)

Definition scalar_arg (pointer_mode : hipblasPointerMode_t) (v : Q)
  : scalar_ptr :=
  match pointer_mode with
  | HIPBLAS_POINTER_MODE_HOST => scalar_host v
  | HIPBLAS_POINTER_MODE_DEVICE => scalar_device v
  end.

Definition is_host_mode (pointer_mode : hipblasPointerMode_t) : bool :=
  match pointer_mode with
  | HIPBLAS_POINTER_MODE_HOST => true
  | HIPBLAS_POINTER_MODE_DEVICE => false
  end.

Definition hemv_invoke (arg : Arguments) (a : assertion) (c : hemv_call)
  : invocation hemv_call :=
  {| inv_fortran := api_eqb (arg_api arg) FORTRAN; inv_64 := false;
     inv_call := narrow_hemv c; inv_assert := a |}.

Definition mk_hemv (handle : handle_arg) (uplo : fill_arg) (N : Z)
    (alpha : scalar_ptr) (A : data_ptr) (lda : Z) (x : data_ptr) (incx : Z)
    (beta : scalar_ptr) (y : data_ptr) (incy : Z) : hemv_call :=
  {| hemv_handle := handle; hemv_uplo := uplo; hemv_n := N;
     hemv_alpha := alpha; hemv_A := A; hemv_lda := lda; hemv_x := x;
     hemv_incx := incx; hemv_beta := beta; hemv_y := y; hemv_incy := incy |}.

Definition testing_hemv_bad_arg (arg : Arguments)
  : list (invocation hemv_call) :=
  flat_map (fun pointer_mode =>
    let handle := handle_local pointer_mode in
    let uplo := fill_value HIPBLAS_FILL_MODE_UPPER in
    let N := 100 in
    let lda := 100 in
    let incx := 1 in
    let incy := 1 in
    let alpha := scalar_arg pointer_mode 1%Q in
    let beta := scalar_arg pointer_mode 2%Q in
    let one := scalar_arg pointer_mode 1%Q in
    let zero := scalar_arg pointer_mode 0%Q in
    let dA := device dA in
    let dx := device dx in
    let dy := device dy in
    let EXPECT st c := hemv_invoke arg (EXPECT_HIPBLAS_STATUS st) c in
    let CHECK c := hemv_invoke arg CHECK_HIPBLAS_ERROR c in
    [ EXPECT HIPBLAS_STATUS_NOT_INITIALIZED
        (mk_hemv handle_nullptr uplo N alpha dA lda dx incx beta dy incy);
      EXPECT HIPBLAS_STATUS_INVALID_VALUE
        (mk_hemv handle (fill_value HIPBLAS_FILL_MODE_FULL) N alpha dA lda dx
                 incx beta dy incy);
      EXPECT HIPBLAS_STATUS_INVALID_ENUM
        (mk_hemv handle (fill_cast HIPBLAS_OP_N) N alpha dA lda dx incx beta
                 dy incy) ]
    ++ (if arg_bad_arg_all arg then
          [ EXPECT HIPBLAS_STATUS_INVALID_VALUE
              (mk_hemv handle uplo N scalar_nullptr dA lda dx incx beta dy incy);
            EXPECT HIPBLAS_STATUS_INVALID_VALUE
              (mk_hemv handle uplo N alpha dA lda dx incx scalar_nullptr dy
                       incy) ]
          ++ (if is_host_mode pointer_mode then
                [ EXPECT HIPBLAS_STATUS_INVALID_VALUE
                    (mk_hemv handle uplo N alpha nullptr lda dx incx beta dy
                             incy);
                  EXPECT HIPBLAS_STATUS_INVALID_VALUE
                    (mk_hemv handle uplo N alpha dA lda nullptr incx beta dy
                             incy);
                  EXPECT HIPBLAS_STATUS_INVALID_VALUE
                    (mk_hemv handle uplo N alpha dA lda dx incx beta nullptr
                             incy) ]
              else [])
          ++ [ CHECK (mk_hemv handle uplo N zero nullptr lda nullptr incx beta
                              dy incy);
               CHECK (mk_hemv handle uplo N zero nullptr lda nullptr incx one
                              nullptr incy) ]
        else [])
    ++ [ CHECK (mk_hemv handle uplo 0 scalar_nullptr nullptr lda nullptr incx
                        scalar_nullptr nullptr incy) ])
  [HIPBLAS_POINTER_MODE_HOST; HIPBLAS_POINTER_MODE_DEVICE].

Definition mk_syrk (handle : handle_arg) (uplo : fill_arg) (transA : op_arg)
    (N K : Z) (alpha : scalar_ptr) (A : data_ptr) (lda strideA : Z)
    (beta : scalar_ptr) (C_ : data_ptr) (ldc strideC batch_count : Z)
  : syrk_strided_batched_call :=
  {| syrk_handle := handle; syrk_uplo := uplo; syrk_transA := transA;
     syrk_n := N; syrk_k := K; syrk_alpha := alpha; syrk_A := A;
     syrk_lda := lda; syrk_strideA := strideA; syrk_beta := beta;
     syrk_C := C_; syrk_ldc := ldc; syrk_strideC := strideC;
     syrk_batch_count := batch_count |}.

Definition testing_syrk_strided_batched_bad_arg (arg : Arguments)
  : list (invocation syrk_strided_batched_call) :=
  let N := 101 in
  let K := 100 in
  let lda := 102 in
  let ldc := 104 in
  let batch_count := 2 in
  let transA := op_value HIPBLAS_OP_N in
  let uplo := fill_value HIPBLAS_FILL_MODE_LOWER in
  let cols := K in
  let strideA := cols * lda in
  let strideC := N * ldc in
  let dA := device dA in
  let dC := device dC in
  flat_map (fun pointer_mode =>
    let handle := handle_local pointer_mode in
    let alpha := scalar_arg pointer_mode 1%Q in
    let beta := scalar_arg pointer_mode 2%Q in
    let one := scalar_arg pointer_mode 1%Q in
    let zero := scalar_arg pointer_mode 0%Q in
    let EXPECT st c :=
      DAPI narrow_syrk (arg_api arg) (EXPECT_HIPBLAS_STATUS st) c in
    let CHECK c := DAPI narrow_syrk (arg_api arg) CHECK_HIPBLAS_ERROR c in
    [ EXPECT HIPBLAS_STATUS_NOT_INITIALIZED
        (mk_syrk handle_nullptr uplo transA N K alpha dA lda strideA beta dC
                 ldc strideC batch_count);
      EXPECT HIPBLAS_STATUS_INVALID_VALUE
        (mk_syrk handle (fill_value HIPBLAS_FILL_MODE_FULL) transA N K alpha dA
                 lda strideA beta dC ldc strideC batch_count);
      EXPECT HIPBLAS_STATUS_INVALID_ENUM
        (mk_syrk handle (fill_cast HIPBLAS_OP_N) transA N K alpha dA lda
                 strideA beta dC ldc strideC batch_count);
      EXPECT HIPBLAS_STATUS_INVALID_ENUM
        (mk_syrk handle uplo (op_cast HIPBLAS_FILL_MODE_FULL) N K alpha dA lda
                 strideA beta dC ldc strideC batch_count) ]
    ++ (if arg_bad_arg_all arg then
          [ EXPECT HIPBLAS_STATUS_INVALID_VALUE
              (mk_syrk handle uplo transA N K scalar_nullptr dA lda strideA
                       beta dC ldc strideC batch_count);
            EXPECT HIPBLAS_STATUS_INVALID_VALUE
              (mk_syrk handle uplo transA N K alpha dA lda strideA
                       scalar_nullptr dC ldc strideC batch_count) ]
          ++ (if is_host_mode pointer_mode then
                [ EXPECT HIPBLAS_STATUS_INVALID_VALUE
                    (mk_syrk handle uplo transA N K alpha nullptr lda strideA
                             beta dC ldc strideC batch_count);
                  EXPECT HIPBLAS_STATUS_INVALID_VALUE
                    (mk_syrk handle uplo transA N K alpha dA lda strideA beta
                             nullptr ldc strideC batch_count) ]
              else [])
          ++ [ CHECK (mk_syrk handle uplo transA N 0 alpha nullptr lda strideA
                              one nullptr ldc strideC batch_count);
               CHECK (mk_syrk handle uplo transA N K zero nullptr lda strideA
                              one nullptr ldc strideC batch_count);
               EXPECT (if api_is_64 (arg_api arg) then HIPBLAS_STATUS_SUCCESS
                       else HIPBLAS_STATUS_INVALID_VALUE)
                 (mk_syrk handle uplo transA c_i32_overflow c_i32_overflow
                          zero nullptr c_i32_overflow strideA one nullptr
                          c_i32_overflow strideC c_i32_overflow) ]
        else [])
    ++ [ CHECK (mk_syrk handle uplo transA 0 K scalar_nullptr nullptr lda
                        strideA scalar_nullptr nullptr ldc strideC batch_count);
         CHECK (mk_syrk handle uplo transA N K scalar_nullptr nullptr lda
                        strideA scalar_nullptr nullptr ldc strideC 0) ])
  [HIPBLAS_POINTER_MODE_HOST; HIPBLAS_POINTER_MODE_DEVICE].

Definition mk_geam (handle : handle_arg) (transA transB : op_arg) (M N : Z)
    (alpha : scalar_ptr) (A : data_ptr) (lda : Z) (beta : scalar_ptr)
    (B : data_ptr) (ldb : Z) (C_ : data_ptr) (ldc : Z) : geam_call :=
  {| geam_handle := handle; geam_transA := transA; geam_transB := transB;
     geam_m := M; geam_n := N; geam_alpha := alpha; geam_A := A;
     geam_lda := lda; geam_beta := beta; geam_B := B; geam_ldb := ldb;
     geam_C := C_; geam_ldc := ldc |}.

Definition testing_geam_bad_arg (arg : Arguments)
  : list (invocation geam_call) :=
  let M := 101 in
  let N := 100 in
  let lda := 102 in
  let ldb := 103 in
  let ldc := 104 in
  let transA := op_value HIPBLAS_OP_N in
  let transB := op_value HIPBLAS_OP_N in
  let dA := device dA in
  let dB := device dB in
  let dC := device dC in
  flat_map (fun pointer_mode =>
    let handle := handle_local pointer_mode in
    let alpha := scalar_arg pointer_mode 1%Q in
    let beta := scalar_arg pointer_mode 2%Q in
    let zero := scalar_arg pointer_mode 0%Q in
    let EXPECT st c :=
      DAPI narrow_geam (arg_api arg) (EXPECT_HIPBLAS_STATUS st) c in
    let CHECK c := DAPI narrow_geam (arg_api arg) CHECK_HIPBLAS_ERROR c in
    [ EXPECT HIPBLAS_STATUS_NOT_INITIALIZED
        (mk_geam handle_nullptr transA transB M N alpha dA lda beta dB ldb dC
                 ldc);
      EXPECT HIPBLAS_STATUS_INVALID_ENUM
        (mk_geam handle (op_cast HIPBLAS_FILL_MODE_FULL) transB M N alpha dA
                 lda beta dB ldb dC ldc);
      EXPECT HIPBLAS_STATUS_INVALID_ENUM
        (mk_geam handle transA (op_cast HIPBLAS_FILL_MODE_FULL) M N alpha dA
                 lda beta dB ldb dC ldc) ]
    ++ (if arg_bad_arg_all arg then
          [ EXPECT HIPBLAS_STATUS_INVALID_VALUE
              (mk_geam handle transA transB M N alpha dA lda beta dB ldb dA
                       (lda + 1));
            EXPECT HIPBLAS_STATUS_INVALID_VALUE
              (mk_geam handle transA transB M N alpha dA lda beta dB ldb dB
                       (ldb + 1));
            EXPECT HIPBLAS_STATUS_INVALID_VALUE
              (mk_geam handle transA transB M N scalar_nullptr dA lda beta dB
                       ldb dC ldc);
            EXPECT HIPBLAS_STATUS_INVALID_VALUE
              (mk_geam handle transA transB M N alpha dA lda scalar_nullptr dB
                       ldb dC ldc);
            EXPECT HIPBLAS_STATUS_INVALID_VALUE
              (mk_geam handle transA transB M N alpha dA lda beta dB ldb
                       nullptr ldc) ]
          ++ (if is_host_mode pointer_mode then
                [ EXPECT HIPBLAS_STATUS_INVALID_VALUE
                    (mk_geam handle transA transB M N alpha nullptr lda beta dB
                             ldb dC ldc);
                  EXPECT HIPBLAS_STATUS_INVALID_VALUE
                    (mk_geam handle transA transB M N alpha dA lda beta nullptr
                             ldb dC ldc) ]
              else [])
          ++ [ CHECK (mk_geam handle transA transB M N zero nullptr lda beta dB
                              ldb dC ldc);
               CHECK (mk_geam handle transA transB M N alpha dA lda zero
                              nullptr ldb dC ldc);
               EXPECT (if api_is_64 (arg_api arg) then HIPBLAS_STATUS_SUCCESS
                       else HIPBLAS_STATUS_INVALID_VALUE)
                 (mk_geam handle transA transB 0 c_i32_overflow scalar_nullptr
                          nullptr c_i32_overflow scalar_nullptr nullptr
                          c_i32_overflow nullptr c_i32_overflow);
               EXPECT (if api_is_64 (arg_api arg) then HIPBLAS_STATUS_SUCCESS
                       else HIPBLAS_STATUS_INVALID_VALUE)
                 (mk_geam handle transA transB c_i32_overflow 0 scalar_nullptr
                          nullptr c_i32_overflow scalar_nullptr nullptr
                          c_i32_overflow nullptr c_i32_overflow) ]
        else [])
    ++ [ CHECK (mk_geam handle transA transB 0 N scalar_nullptr nullptr lda
                        scalar_nullptr nullptr lda nullptr lda);
         CHECK (mk_geam handle transA transB M 0 scalar_nullptr nullptr lda
                        scalar_nullptr nullptr lda nullptr lda) ])
  [HIPBLAS_POINTER_MODE_HOST; HIPBLAS_POINTER_MODE_DEVICE].

End Drivers.

(** ** The routines under test *)

(** What an invocation does as far as the harness can observe: the status
    and whether the output operand is written. *)
Record outcome := {
  status : hipblasStatus_t;
  output_written : bool
}.

Definition rejected (st : hipblasStatus_t) : outcome :=
  {| status := st; output_written := false |}.

Definition no_op : outcome :=
  {| status := HIPBLAS_STATUS_SUCCESS; output_written := false |}.

Definition computed : outcome :=
  {| status := HIPBLAS_STATUS_SUCCESS; output_written := true |}.

Definition scalar_value (p : scalar_ptr) : option Q :=
  match p with
  | scalar_nullptr => None
  | scalar_host v | scalar_device v => Some v
  end.

Definition is_null (p : data_ptr) : bool :=
  match p with
  | nullptr => true
  | device _ => false
  end.

Definition same_buffer (p q : data_ptr) : bool :=
  match p, q with
  | nullptr, nullptr
  | device dA, device dA | device dB, device dB | device dC, device dC
  | device dx, device dx | device dy, device dy => true
  | _, _ => false
  end.

(** Classification of an enum argument: a cast from the other enum is no
    value of the type (invalid-enum); [HIPBLAS_FILL_MODE_FULL] is a value
    the triangular routines do not accept (invalid-value). *)
Definition fill_status (u : fill_arg) : option hipblasStatus_t :=
  match u with
  | fill_cast _ => Some HIPBLAS_STATUS_INVALID_ENUM
  | fill_value HIPBLAS_FILL_MODE_FULL => Some HIPBLAS_STATUS_INVALID_VALUE
  | fill_value _ => None
  end.

Definition op_status (o : op_arg) : option hipblasStatus_t :=
  match o with
  | op_cast _ => Some HIPBLAS_STATUS_INVALID_ENUM
  | op_value _ => None
  end.

Definition op_is_N (o : op_arg) : bool :=
  match o with
  | op_value HIPBLAS_OP_N => true
  | _ => false
  end.

(** Modelled from the spec: [hipblasHemv], the library routine the drivers
    call (its code is not part of the harness sources).  The spec's error
    classification, in its order: an uninitialized handle is
    not-initialized; an undefined enum value is invalid-enum; a shape
    parameter below zero, a leading dimension below the dimension extent or
    a zero increment is invalid-value; a zero shape is a successful no-op
    for which every pointer may be unset; a required pointer that is unset
    is invalid-value, data pointers being required only when the result
    depends on them (alpha = 0 frees [A] and [x]; alpha = 0 with beta = 1
    frees [y] too and leaves it untouched). *)
Definition hipblasHemv (c : hemv_call) : outcome :=
  match hemv_handle c with
  | handle_nullptr => rejected HIPBLAS_STATUS_NOT_INITIALIZED
  | handle_local _ =>
    match fill_status (hemv_uplo c) with
    | Some st => rejected st
    | None =>
      if (hemv_n c <? 0) || (hemv_lda c <? hemv_n c) || (hemv_lda c <? 1)
         || (hemv_incx c =? 0) || (hemv_incy c =? 0)
      then rejected HIPBLAS_STATUS_INVALID_VALUE
      else if hemv_n c =? 0 then no_op
      else
        match scalar_value (hemv_alpha c), scalar_value (hemv_beta c) with
        | Some alpha, Some beta =>
          if Qeq_bool alpha 0 then
            if Qeq_bool beta 1 then no_op
            else if is_null (hemv_y c)
                 then rejected HIPBLAS_STATUS_INVALID_VALUE
                 else computed
          else if is_null (hemv_A c) || is_null (hemv_x c)
                  || is_null (hemv_y c)
               then rejected HIPBLAS_STATUS_INVALID_VALUE
               else computed
        | _, _ => rejected HIPBLAS_STATUS_INVALID_VALUE
        end
    end
  end.

(** Modelled from the spec: [hipblasSyrkStridedBatched], the library routine
    (not part of the harness sources), by the same classification; the
    update [C = alpha * op(A) * op(A)^T + beta * C] does not depend on [A]
    when alpha = 0 or k = 0, and leaves [C] untouched when moreover
    beta = 1. *)
Definition hipblasSyrkStridedBatched (c : syrk_strided_batched_call)
  : outcome :=
  match syrk_handle c with
  | handle_nullptr => rejected HIPBLAS_STATUS_NOT_INITIALIZED
  | handle_local _ =>
    match fill_status (syrk_uplo c), op_status (syrk_transA c) with
    | Some st, _ => rejected st
    | None, Some st => rejected st
    | None, None =>
      if (syrk_n c <? 0) || (syrk_k c <? 0) || (syrk_ldc c <? syrk_n c)
         || (op_is_N (syrk_transA c) && (syrk_lda c <? syrk_n c))
         || (negb (op_is_N (syrk_transA c)) && (syrk_lda c <? syrk_k c))
         || (syrk_batch_count c <? 0)
      then rejected HIPBLAS_STATUS_INVALID_VALUE
      else if (syrk_n c =? 0) || (syrk_batch_count c =? 0) then no_op
      else
        match scalar_value (syrk_alpha c), scalar_value (syrk_beta c) with
        | Some alpha, Some beta =>
          if (syrk_k c =? 0) || Qeq_bool alpha 0 then
            if Qeq_bool beta 1 then no_op
            else if is_null (syrk_C c)
                 then rejected HIPBLAS_STATUS_INVALID_VALUE
                 else computed
          else if is_null (syrk_A c) || is_null (syrk_C c)
               then rejected HIPBLAS_STATUS_INVALID_VALUE
               else computed
        | _, _ => rejected HIPBLAS_STATUS_INVALID_VALUE
        end
    end
  end.

(** Modelled from the spec: [hipblasGeam], the library routine (not part of
    the harness sources), by the same classification;
    [C = alpha * op(A) + beta * op(B)] does not depend on [A] when
    alpha = 0 nor on [B] when beta = 0, and an output that is one of the
    inputs must have that input's leading dimension (the size / stride
    interaction).  The harness states that test for every call, before the
    quick return, unset pointers being equal to each other:
    [(dA == dC) => (lda == ldc) else invalid_value], and for
    [M == 0 || N == 0] the call "can have nullptrs, but quirk of needing
    lda == ldb == ldc since A == B == C" ([testing_geam_bad_arg]). *)
Definition hipblasGeam (c : geam_call) : outcome :=
  match geam_handle c with
  | handle_nullptr => rejected HIPBLAS_STATUS_NOT_INITIALIZED
  | handle_local _ =>
    match op_status (geam_transA c), op_status (geam_transB c) with
    | Some st, _ => rejected st
    | None, Some st => rejected st
    | None, None =>
      let A_row := if op_is_N (geam_transA c) then geam_m c else geam_n c in
      let B_row := if op_is_N (geam_transB c) then geam_m c else geam_n c in
      if (geam_m c <? 0) || (geam_n c <? 0) || (geam_lda c <? A_row)
         || (geam_ldb c <? B_row) || (geam_ldc c <? geam_m c)
      then rejected HIPBLAS_STATUS_INVALID_VALUE
      else if (same_buffer (geam_C c) (geam_A c)
               && negb (geam_lda c =? geam_ldc c))
              || (same_buffer (geam_C c) (geam_B c)
                  && negb (geam_ldb c =? geam_ldc c))
      then rejected HIPBLAS_STATUS_INVALID_VALUE
      else if (geam_m c =? 0) || (geam_n c =? 0) then no_op
      else
        match scalar_value (geam_alpha c), scalar_value (geam_beta c) with
        | Some alpha, Some beta =>
          if is_null (geam_C c)
             || (negb (Qeq_bool alpha 0) && is_null (geam_A c))
             || (negb (Qeq_bool beta 0) && is_null (geam_B c))
          then rejected HIPBLAS_STATUS_INVALID_VALUE
          else computed
        | _, _ => rejected HIPBLAS_STATUS_INVALID_VALUE
        end
    end
  end.

(** An asserted invocation holds of a routine when the status it returns is
    the expected one. *)
Definition assertion_holds {call : Type} (routine : call -> outcome)
    (i : invocation call) : bool :=
  status_eqb (status (routine (inv_call i))) (expected_status (inv_assert i)).

(** The value is representable as an [int] (the parameter type of the
    32-bit entry points). *)
Definition fits_int (x : Z) : Prop := - 2 ^ 31 <= x < 2 ^ 31.

(** ** Further initializers of [hipblas_init.hpp] *)

Section MoreMatrixInit.
Context {T G : Type} `{Scalar T}.

(** [hipblas_init(host_vector<T>& that, bool seedReset)]:
    [hipblas_init(that, that.size(), 1, 1)] after the optional reseeding. *)
Definition hipblas_init_host_vector (hipblas_seedrand : G -> G)
    (random_generator : G -> T * G) (that that_size : Z) (seedReset : bool)
    (s : mem T * G) : mem T * G :=
  let s := if seedReset then (fst s, hipblas_seedrand (snd s)) else s in
  hipblas_init random_generator that (to_int64 that_size) 1 1 0 1 s.

(** [if(j % 2 ^ i % 2) *p = random_generator<T>();
     else *p = random_generator_negative<T>();] *)
Definition alternating_sign_entry
    (random_generator random_generator_negative : G -> T * G) (p i j : Z)
    (s : mem T * G) : mem T * G :=
  let '(m, g) := s in
  let '(v, g') :=
    if Z.lxor (Z.rem j 2) (Z.rem i 2) =? 0
    then random_generator_negative g else random_generator g in
  (upd m p v, g').

(** [hipblas_init_alternating_sign(A, M, N, lda)] *)
Definition hipblas_init_alternating_sign
    (random_generator random_generator_negative : G -> T * G)
    (A M N lda : Z) (s : mem T * G) : mem T * G :=
  for_lt 0 M (fun i =>
    for_lt 0 N (fun j =>
      alternating_sign_entry random_generator random_generator_negative
                             (A + (i + j * lda)) i j)) s.

(** [hipblas_init_alternating_sign(A, M, N, lda, stride, batch_count)] *)
Definition hipblas_init_alternating_sign_strided
    (random_generator random_generator_negative : G -> T * G)
    (A M N lda stride batch_count : Z) (s : mem T * G) : mem T * G :=
  for_lt 0 batch_count (fun i_batch =>
    for_lt 0 M (fun i =>
      for_lt 0 N (fun j =>
        alternating_sign_entry random_generator random_generator_negative
                               (A + (i + j * lda + i_batch * stride)) i j))) s.

(** [(i ^ j) & 1 ? value : hipblas_negate(value)] *)
Definition alternate (i j : Z) (value : T) : T :=
  if Z.land (Z.lxor i j) 1 =? 0 then hipblas_negate value else value.

(** [hipblas_init_hpl(A, M, N, lda, stride, batch_count)]: every parameter
    and counter is a [size_t]. *)
Definition hipblas_init_hpl (random_hpl_generator : G -> T * G)
    (A M N lda stride batch_count : Z) (s : mem T * G) : mem T * G :=
  for_lt 0 batch_count (fun i_batch =>
    for_lt 0 M (fun i =>
      for_lt 0 N (fun j s =>
        let '(m, g) := s in
        let '(v, g') := random_hpl_generator g in
        (upd m (A + size_t_index (i + j * lda + i_batch * stride)) v, g')))) s.

(** [hipblas_init_hpl_alternating_sign(A, M, N, lda, stride, batch_count)],
    all [size_t]. *)
Definition hipblas_init_hpl_alternating_sign
    (random_hpl_generator : G -> T * G)
    (A M N lda stride batch_count : Z) (s : mem T * G) : mem T * G :=
  for_lt 0 batch_count (fun i_batch =>
    for_lt 0 N (fun j s =>
      let offset := to_size_t (j * lda + i_batch * stride) in
      for_lt 0 M (fun i s =>
        let '(m, g) := s in
        let '(value, g') := random_hpl_generator g in
        (upd m (A + size_t_index (i + offset)) (alternate i j value), g')) s)) s.

(** [hipblas_init_symmetric(A, N, lda)] *)
Definition hipblas_init_symmetric (random_generator : G -> T * G)
    (A N lda : Z) (s : mem T * G) : mem T * G :=
  for_lt 0 N (fun i =>
    for_le 0 i (fun j s =>
      let '(m, g) := s in
      let '(r, g') := random_generator g in
      (upd (upd m (A + (j + i * lda)) r) (A + (i + j * lda)) r, g'))) s.

(** [hipblas_init_symmetric(A, N, lda, strideA, batch_count)] *)
Definition hipblas_init_symmetric_strided (random_generator : G -> T * G)
    (A N lda strideA batch_count : Z) (s : mem T * G) : mem T * G :=
  for_lt 0 batch_count (fun b =>
    let off := b * strideA in
    for_lt 0 N (fun i =>
      for_le 0 i (fun j s =>
        let '(m, g) := s in
        let '(r, g') := random_generator g in
        (upd (upd m (A + (i + j * lda + off)) r) (A + (j + i * lda + off)) r,
         g')))) s.

(** [hipblas_init_matrix_alternating_sign(matrix_type, uplo, rand_gen, A, M,
    N, lda, stride, batch_count)] on a pointer: [M], [N], [lda] and the
    counters are [size_t], [stride] and [batch_count] are 64-bit signed; the
    other kinds are left alone. *)
Definition hipblas_init_matrix_alternating_sign
    (matrix_type : hipblas_matrix_type) (uplo : ascii)
    (rand_gen : G -> T * G) (A M N lda stride batch_count : Z)
    (s : mem T * G) : mem T * G :=
  match matrix_type with
  | hipblas_general_matrix =>
      for_lt 0 (to_size_t batch_count) (fun b =>
        for_lt 0 M (fun i =>
          for_lt 0 N (fun j s =>
            let '(m, g) := s in
            let '(value, g') := rand_gen g in
            (upd m (A + size_t_index (i + j * lda + b * stride))
                 (alternate i j value), g')))) s
  | hipblas_triangular_matrix =>
      for_lt 0 (to_size_t batch_count) (fun b =>
        for_lt 0 M (fun i =>
          for_lt 0 N (fun j s =>
            let '(m, g) := s in
            let '(value, g') :=
              if Ascii.eqb uplo "U"
              then (if j >=? i then rand_gen g else (s_zero, g))
              else (if j <=? i then rand_gen g else (s_zero, g)) in
            (upd m (A + size_t_index (i + j * lda + b * stride))
                 (alternate i j value), g')))) s
  | _ => s
  end.

(** Body of the hermitian and symmetric loops of [hipblas_init_matrix_trig]
    ([on_diagonal] and [mirror] are [hipblas_real] and [hipblas_conjugate]
    for the hermitian kind, the identity for the symmetric one); [trig k] is
    [T(use_cosine ? cos(k) : sin(k))]. *)
Definition trig_mirrored_entry (trig : Z -> T) (on_diagonal mirror : T -> T)
    (uplo : ascii) (A lda stride b i j : Z) (m : mem T) : mem T :=
  let value := trig (to_size_t (i + j * lda + b * stride)) in
  if i =? j then
    upd m (A + size_t_index (b * stride + j + i * lda)) (on_diagonal value)
  else if Ascii.eqb uplo "U" then
    upd (upd m (A + size_t_index (b * stride + j + i * lda)) value)
        (A + size_t_index (b * stride + i + j * lda)) s_zero
  else if Ascii.eqb uplo "L" then
    upd (upd m (A + size_t_index (b * stride + j + i * lda)) s_zero)
        (A + size_t_index (b * stride + i + j * lda)) value
  else
    upd (upd m (A + size_t_index (b * stride + j + i * lda)) value)
        (A + size_t_index (b * stride + i + j * lda)) (mirror value).

(** [hipblas_init_matrix_trig(matrix_type, uplo, A, M, N, lda, stride,
    batch_count, use_cosine)] on a pointer; [None] is the failed
    [assert(false)] of the last branch. *)
Definition hipblas_init_matrix_trig (cos_T sin_T : Z -> T)
    (matrix_type : hipblas_matrix_type) (uplo : ascii)
    (A M N lda stride batch_count : Z) (use_cosine : bool) (m : mem T)
  : option (mem T) :=
  let trig := if use_cosine then cos_T else sin_T in
  match matrix_type with
  | hipblas_general_matrix =>
      Some (for_lt 0 (to_size_t batch_count) (fun b =>
              for_lt 0 N (fun j =>
                for_lt 0 M (fun i m =>
                  upd m (A + size_t_index (i + j * lda + b * stride))
                      (trig (to_size_t (i + j * lda + b * stride)))))) m)
  | hipblas_hermitian_matrix =>
      Some (for_lt 0 (to_size_t batch_count) (fun b =>
              for_lt 0 N (fun i =>
                for_le 0 i (fun j =>
                  trig_mirrored_entry trig hipblas_real hipblas_conjugate
                                      uplo A lda stride b i j))) m)
  | hipblas_symmetric_matrix =>
      Some (for_lt 0 (to_size_t batch_count) (fun b =>
              for_lt 0 N (fun i =>
                for_le 0 i (fun j =>
                  trig_mirrored_entry trig (fun v => v) (fun v => v)
                                      uplo A lda stride b i j))) m)
  | hipblas_triangular_matrix =>
      Some (for_lt 0 (to_size_t batch_count) (fun b =>
              for_lt 0 N (fun j m =>
                let offset := to_size_t (j * lda + b * stride) in
                for_lt 0 M (fun i m =>
                  let value :=
                    if Ascii.eqb uplo "U"
                    then (if j >=? i then trig (to_size_t (i + offset))
                          else s_zero)
                    else (if j <=? i then trig (to_size_t (i + offset))
                          else s_zero) in
                  upd m (A + size_t_index (i + offset)) value) m)) m)
  | hipblas_diagonally_dominant_triangular_matrix => None
  end.

End MoreMatrixInit.

(** ** Band and unit-diagonal helpers of [hipblas_init.hpp] *)

Section BandHelpers.
Context {T G : Type} `{Scalar T}.

(** [banded_matrix_setup(upper, A, lda, n, k)]: the matrix is addressed
    with [n] as its leading dimension. *)
Definition banded_matrix_setup (upper : bool) (A lda n k : Z) (m : mem T)
  : mem T :=
  for_lt 0 n (fun i =>
    for_lt 0 n (fun j m =>
      if upper && ((j >? k + i) || (i >? j)) then
        upd m (A + (j * n + i)) s_zero
      else if negb upper && ((i >? k + j) || (j >? i)) then
        upd m (A + (j * n + i)) s_zero
      else m)) m.

(** The overload on batch containers: the counters are [int]s, the index
    [j * size_t(n) + i] a [size_t]. *)
Definition banded_matrix_setup_batched (upper : bool)
    (h_A : host_batch_matrix) (k : Z) (m : mem T) : mem T :=
  let n := hbm_n h_A in
  for_lt 0 (hbm_batch_count h_A) (fun batch_index m =>
    let A := hbm_ptr h_A batch_index in
    for_lt 0 n (fun i =>
      for_lt 0 n (fun j m =>
        if upper && ((j >? k + i) || (i >? j)) then
          upd m (A + size_t_index (j * to_size_t n + i)) s_zero
        else if negb upper && ((i >? k + j) || (j >? i)) then
          upd m (A + size_t_index (j * to_size_t n + i)) s_zero
        else m)) m) m.

(** [operator/] of the value type. *)
Variable s_div : T -> T -> T.
Variable random_generator : G -> T * G.

(** [make_unit_diagonal(uplo, hA, lda, N)] *)
Definition make_unit_diagonal (uplo : hipblasFillMode_t) (hA lda N : Z)
    (s : mem T * G) : mem T * G :=
  let '(m, g) := s in
  let m :=
    match uplo with
    | HIPBLAS_FILL_MODE_LOWER =>
        for_lt 0 N (fun i m =>
          let diag := m (hA + (i + i * lda)) in
          for_le 0 i (fun j m =>
            upd m (hA + (i + j * lda))
                (s_div (m (hA + (i + j * lda))) diag)) m) m
    | _ =>
        for_lt 0 N (fun j m =>
          let diag := m (hA + (j + j * lda)) in
          for_le 0 j (fun i m =>
            upd m (hA + (i + j * lda))
                (s_div (m (hA + (i + j * lda))) diag)) m) m
    end in
  for_lt 0 N (fun i =>
    hipblas_init random_generator (hA + i * lda + i) 1 1 1 0 1) (m, g).

(** The overload on batch containers: [N] is an [int64_t], [lda] a
    [size_t], the counters are [int]s. *)
Definition make_unit_diagonal_batched (uplo : hipblasFillMode_t)
    (h_A : host_batch_matrix) (s : mem T * G) : mem T * G :=
  let N := hbm_n h_A in
  let lda := to_size_t (hbm_lda h_A) in
  for_lt 0 (hbm_batch_count h_A) (fun batch_index s =>
    let A := hbm_ptr h_A batch_index in
    let '(m, g) := s in
    let m :=
      match uplo with
      | HIPBLAS_FILL_MODE_LOWER =>
          for_lt 0 N (fun i m =>
            let diag := m (A + size_t_index (i + i * lda)) in
            for_le 0 i (fun j m =>
              upd m (A + size_t_index (i + j * lda))
                  (s_div (m (A + size_t_index (i + j * lda))) diag)) m) m
      | _ =>
          for_lt 0 N (fun j m =>
            let diag := m (A + size_t_index (j + j * lda)) in
            for_le 0 j (fun i m =>
              upd m (A + size_t_index (i + j * lda))
                  (s_div (m (A + size_t_index (i + j * lda))) diag)) m) m
      end in
    for_lt 0 N (fun i =>
      hipblas_init random_generator (A + size_t_index (i * lda) + i)
                   1 1 1 0 1) (m, g)) s.

End BandHelpers.

(** What the triangular kind leaves in the entry (row [i], column [j]):
    zero outside the triangle selected by the fill mode (the upper one for
    ['U'], the lower one for every other character), a generated value
    inside. *)
Definition triangular_value {T G : Type} `{Scalar T} (rand_gen : G -> T * G)
    (uplo : ascii) (i j : Z) (v : T) : Prop :=
  if (if Ascii.eqb uplo "U" then j <? i else i <? j)
  then v = s_zero
  else exists h, v = fst (rand_gen h).

(** ** Choice of the matrix initializer ([hipblas_init_matrix_type]) *)

(** [hipblas_client_nan_init] *)
Inductive hipblas_client_nan_init :=
| hipblas_client_alpha_sets_nan
| hipblas_client_beta_sets_nan
| hipblas_client_never_set_nan.

(** The enumerators of [hipblas_initialization] the initializers name. *)
Inductive hipblas_initialization := rand_int | trig_float | hpl.

(** The fields of [Arguments] the initializers read: [arg.uplo],
    [hipblas_isnan(arg.alpha)], [hipblas_isnan(arg.beta)] and
    [arg.initialization]. *)
Record init_arguments := {
  init_uplo : ascii;
  init_alpha_isnan : bool;
  init_beta_isnan : bool;
  init_initialization : hipblas_initialization
}.

Section MatrixTypeDispatch.
Context {T G : Type} `{Scalar T}.
Variable hipblas_seedrand : G -> G.
Variables random_nan_generator random_hpl_generator random_generator
  : G -> T * G.
Variables cos_T sin_T : Z -> T.

(** [hipblas_init_matrix_type(matrix_type, hA, arg, M, N, lda, stride_A,
    batch_count, nan_init, seedReset, alternating_sign)]: [M], [N], [lda]
    are [size_t], [stride_A] a [hipblasStride], [batch_count] an [int].
    The arguments of each call are converted to the parameter types of the
    callee in the order in which the call lists them; for
    [hipblas_init_matrix_trig<T>] that order is [(matrix_type, arg.uplo, hA,
    seedReset, M, N, lda, stride_A, batch_count)] against the parameters
    [(matrix_type, uplo, A, M, N, lda, stride, batch_count, use_cosine)]. *)
Definition hipblas_init_matrix_type (matrix_type : hipblas_matrix_type)
    (hA : Z) (arg : init_arguments) (M N lda stride_A batch_count : Z)
    (nan_init : hipblas_client_nan_init) (seedReset alternating_sign : bool)
    (s : mem T * G) : option (mem T * G) :=
  let s := if seedReset then (fst s, hipblas_seedrand (snd s)) else s in
  let alpha_sets_nan :=
    match nan_init with hipblas_client_alpha_sets_nan => true | _ => false end in
  let beta_sets_nan :=
    match nan_init with hipblas_client_beta_sets_nan => true | _ => false end in
  if alpha_sets_nan && init_alpha_isnan arg then
    Some (hipblas_fill_matrix_type random_nan_generator matrix_type
            (init_uplo arg) hA (to_int64 M) (to_int64 N) lda stride_A
            batch_count s)
  else if beta_sets_nan && init_beta_isnan arg then
    Some (hipblas_fill_matrix_type random_nan_generator matrix_type
            (init_uplo arg) hA (to_int64 M) (to_int64 N) lda stride_A
            batch_count s)
  else
    match init_initialization arg with
    | hpl =>
        if alternating_sign then
          Some (hipblas_init_matrix_alternating_sign matrix_type
                  (init_uplo arg) random_hpl_generator hA M N lda stride_A
                  batch_count s)
        else
          Some (hipblas_fill_matrix_type random_hpl_generator matrix_type
                  (init_uplo arg) hA (to_int64 M) (to_int64 N) lda stride_A
                  batch_count s)
    | rand_int =>
        if alternating_sign then
          Some (hipblas_init_matrix_alternating_sign matrix_type
                  (init_uplo arg) random_generator hA M N lda stride_A
                  batch_count s)
        else
          Some (hipblas_fill_matrix_type random_generator matrix_type
                  (init_uplo arg) hA (to_int64 M) (to_int64 N) lda stride_A
                  batch_count s)
    | trig_float =>
        match hipblas_init_matrix_trig cos_T sin_T matrix_type (init_uplo arg)
                hA (if seedReset then 1 else 0) M N (to_int64 lda) stride_A
                (negb (batch_count =? 0)) (fst s) with
        | Some m' => Some (m', snd s)
        | None => None
        end
    end.

(** [hipblas_init_matrix(host_batch_vector<T>& hA, arg, M, N, lda, nan_init,
    matrix_type, seed_reset, alternating_sign)] *)
Definition hipblas_init_matrix_host_batch_vector (hA : Z -> Z)
    (hA_batch_count : Z) (arg : init_arguments) (M N lda : Z)
    (nan_init : hipblas_client_nan_init) (matrix_type : hipblas_matrix_type)
    (seed_reset alternating_sign : bool) (s : mem T * G)
  : option (mem T * G) :=
  for_lt 0 hA_batch_count (fun b os =>
    match os with
    | Some s =>
        hipblas_init_matrix_type matrix_type (hA b) arg M N lda 0 1 nan_init
          (seed_reset && (b =? 0)) alternating_sign s
    | None => None
    end) (Some s).

(** [hipblas_init_matrix(host_vector<T>& hA, arg, M, N, lda, stride_A,
    batch_count, nan_init, seed_reset, alternating_sign)] *)
Definition hipblas_init_matrix_host_vector (hA : Z) (arg : init_arguments)
    (M N lda stride_A batch_count : Z) (nan_init : hipblas_client_nan_init)
    (seed_reset alternating_sign : bool) (s : mem T * G)
  : option (mem T * G) :=
  hipblas_init_matrix_type hipblas_general_matrix hA arg M N lda stride_A
    batch_count nan_init seed_reset alternating_sign s.

End MatrixTypeDispatch.

(** ** [testing_syr2k_strided_batched] and the initial data of the drivers *)

(** The arguments of a [hipblasSyr2kStridedBatched] call. *)
Record syr2k_strided_batched_call := {
  syr2k_handle : handle_arg;
  syr2k_uplo : fill_arg;
  syr2k_transA : op_arg;
  syr2k_n : Z;
  syr2k_k : Z;
  syr2k_alpha : scalar_ptr;
  syr2k_A : data_ptr;
  syr2k_lda : Z;
  syr2k_strideA : Z;
  syr2k_B : data_ptr;
  syr2k_ldb : Z;
  syr2k_strideB : Z;
  syr2k_beta : scalar_ptr;
  syr2k_C : data_ptr;
  syr2k_ldc : Z;
  syr2k_strideC : Z;
  syr2k_batch_count : Z
}.

Definition narrow_syr2k (c : syr2k_strided_batched_call)
  : syr2k_strided_batched_call :=
  {| syr2k_handle := syr2k_handle c; syr2k_uplo := syr2k_uplo c;
     syr2k_transA := syr2k_transA c;
     syr2k_n := to_int (syr2k_n c); syr2k_k := to_int (syr2k_k c);
     syr2k_alpha := syr2k_alpha c; syr2k_A := syr2k_A c;
     syr2k_lda := to_int (syr2k_lda c); syr2k_strideA := syr2k_strideA c;
     syr2k_B := syr2k_B c;
     syr2k_ldb := to_int (syr2k_ldb c); syr2k_strideB := syr2k_strideB c;
     syr2k_beta := syr2k_beta c; syr2k_C := syr2k_C c;
     syr2k_ldc := to_int (syr2k_ldc c); syr2k_strideC := syr2k_strideC c;
     syr2k_batch_count := to_int (syr2k_batch_count c) |}.

Definition syr2k_pointers_null (c : syr2k_strided_batched_call) : bool :=
  match syr2k_alpha c, syr2k_A c, syr2k_B c, syr2k_beta c, syr2k_C c with
  | scalar_nullptr, nullptr, nullptr, scalar_nullptr, nullptr => true
  | _, _, _, _, _ => false
  end.

Section Syr2kDriver.
Variable double : Type.
Variable stride_of : Z -> double -> Z.
Variable char2hipblas_fill : ascii -> hipblasFillMode_t.
Variable char2hipblas_operation : ascii -> hipblasOperation_t.

Definition syr2k_invalid_size (transA : hipblasOperation_t)
    (N K lda ldb ldc batch_count : Z) : bool :=
  ((N <? 0) || (K <? 0) || (ldc <? N)
   || (op_eqb transA HIPBLAS_OP_N && ((lda <? N) || (ldb <? N)))
   || (negb (op_eqb transA HIPBLAS_OP_N) && ((lda <? K) || (ldb <? K))))
  || (batch_count <? 0).

Definition testing_syr2k_strided_batched (arg : Arguments double)
  : driver_path syr2k_strided_batched_call :=
  let uplo := char2hipblas_fill (arg_uplo arg) in
  let transA := char2hipblas_operation (arg_transA arg) in
  let N := arg_N arg in
  let K := arg_K arg in
  let lda := arg_lda arg in
  let ldb := arg_ldb arg in
  let ldc := arg_ldc arg in
  let stride_scale := arg_stride_scale arg in
  let batch_count := arg_batch_count arg in
  let K1 := if op_eqb transA HIPBLAS_OP_N then K else N in
  let stride_A := stride_of (lda * K1) stride_scale in
  let stride_B := stride_of (ldb * K1) stride_scale in
  let stride_C := stride_of (ldc * N) stride_scale in
  let A_size := to_size_t (stride_A * batch_count) in
  let B_size := to_size_t (stride_B * batch_count) in
  let C_size := to_size_t (stride_C * batch_count) in
  let invalid_size := syr2k_invalid_size transA N K lda ldb ldc batch_count in
  if invalid_size || (N =? 0) || (batch_count =? 0) then
    quick_return
      (DAPI narrow_syr2k (arg_api arg)
         (EXPECT_HIPBLAS_STATUS
            (if invalid_size then HIPBLAS_STATUS_INVALID_VALUE
             else HIPBLAS_STATUS_SUCCESS))
         {| syr2k_handle := handle_local HIPBLAS_POINTER_MODE_HOST;
            syr2k_uplo := fill_value uplo; syr2k_transA := op_value transA;
            syr2k_n := N; syr2k_k := K;
            syr2k_alpha := scalar_nullptr; syr2k_A := nullptr;
            syr2k_lda := lda; syr2k_strideA := stride_A;
            syr2k_B := nullptr;
            syr2k_ldb := ldb; syr2k_strideB := stride_B;
            syr2k_beta := scalar_nullptr; syr2k_C := nullptr;
            syr2k_ldc := ldc; syr2k_strideC := stride_C;
            syr2k_batch_count := batch_count |})
  else
    full_run [A_size; B_size; C_size; C_size; C_size]
             [A_size; B_size; C_size; 1; 1].

(** The first statement after the allocations of a full run, in
    [testing_syrk_strided_batched] ([nan_init] is
    [hipblas_client_alpha_sets_nan]) and in [testing_syr2k_strided_batched]
    ([hipblas_client_never_set_nan]):
    [hipblas_init_matrix(hA, arg, N, K1, lda, stride_A, batch_count,
    nan_init, true)].  The [int64_t] sizes become [size_t] parameters, the
    batch count an [int]; [iarg] holds the fields of [arg] the initializer
    reads. *)
Definition init_operand_A {T G : Type} `{Scalar T} (hipblas_seedrand : G -> G)
    (random_nan_generator random_hpl_generator random_generator : G -> T * G)
    (cos_T sin_T : Z -> T) (nan_init : hipblas_client_nan_init)
    (arg : Arguments double) (iarg : init_arguments) (hA : Z)
    (s : mem T * G) : option (mem T * G) :=
  let transA := char2hipblas_operation (arg_transA arg) in
  let N := arg_N arg in
  let K := arg_K arg in
  let lda := arg_lda arg in
  let K1 := if op_eqb transA HIPBLAS_OP_N then K else N in
  let stride_A := stride_of (lda * K1) (arg_stride_scale arg) in
  hipblas_init_matrix_host_vector hipblas_seedrand random_nan_generator
    random_hpl_generator random_generator cos_T sin_T hA iarg
    (to_size_t N) (to_size_t K1) (to_size_t lda) stride_A
    (to_int (arg_batch_count arg)) nan_init true false s.

End Syr2kDriver.

(** ** Concrete value types, generators and helpers (for examples) *)

(** Real values as rationals. *)
#[export] Instance Q_scalar : Scalar Q := {|
  s_zero := 0%Q;
  s_one := 1%Q;
  s_multiplier := (101 # 100)%Q;
  s_add := Qplus;
  s_mul := Qmult;
  s_eqb := Qeq_bool;
  hipblas_abs := Qabs;
  hipblas_real := fun x => x;
  hipblas_conjugate := fun x => x;
  hipblas_negate := Qopp
|}.

(** Integer values (a value type without fractions: [T(1.01)] is [1]). *)
#[export] Instance Z_scalar : Scalar Z := {|
  s_zero := 0;
  s_one := 1;
  s_multiplier := 1;
  s_add := Z.add;
  s_mul := Z.mul;
  s_eqb := Z.eqb;
  hipblas_abs := Z.abs;
  hipblas_real := fun x => x;
  hipblas_conjugate := fun x => x;
  hipblas_negate := Z.opp
|}.

(** Complex values with integer parts (real part, imaginary part); the
    absolute value is taken part-wise. *)
#[export] Instance ZZ_scalar : Scalar (Z * Z) := {|
  s_zero := (0, 0);
  s_one := (1, 0);
  s_multiplier := (1, 0);
  s_add := fun a b => (fst a + fst b, snd a + snd b);
  s_mul := fun a b => (fst a * fst b - snd a * snd b,
                       fst a * snd b + snd a * fst b);
  s_eqb := fun a b => (fst a =? fst b) && (snd a =? snd b);
  hipblas_abs := fun a => (Z.abs (fst a), Z.abs (snd a));
  hipblas_real := fun a => (fst a, 0);
  hipblas_conjugate := fun a => (fst a, - snd a);
  hipblas_negate := fun a => (- fst a, - snd a)
|}.

(** A counter generator: draw number [g] yields a value in 1..10. *)
Definition counter_gen (g : Z) : Z * Z := (g mod 10 + 1, g + 1).

Definition counter_gen_Q (g : Z) : Q * Z := (inject_Z (g mod 10 + 1), g + 1).

(** A complex counter generator. *)
Definition counter_gen_ZZ (g : Z) : (Z * Z) * Z :=
  ((g mod 10 + 1, g mod 7 + 1), g + 1).

(** The usual reading of a fill / operation character. *)
Definition example_char2hipblas_fill (c : ascii) : hipblasFillMode_t :=
  if Ascii.eqb c "U" then HIPBLAS_FILL_MODE_UPPER
  else if Ascii.eqb c "L" then HIPBLAS_FILL_MODE_LOWER
  else HIPBLAS_FILL_MODE_FULL.

Definition example_char2hipblas_operation (c : ascii) : hipblasOperation_t :=
  if Ascii.eqb c "T" then HIPBLAS_OP_T
  else if Ascii.eqb c "C" then HIPBLAS_OP_C
  else HIPBLAS_OP_N.

(** Product with a rational scale, truncated toward zero. *)
Definition example_stride_of (x : Z) (scale : Q) : Z :=
  let q := (inject_Z x * scale)%Q in
  Z.quot (Qnum q) (Z.pos (Qden q)).

Definition example_arguments : Arguments Q :=
  {| arg_api := C; arg_bad_arg_all := true;
     arg_M := 1; arg_N := 2; arg_K := 1;
     arg_lda := 1; arg_ldb := 1; arg_ldc := 1;
     arg_incx := 1; arg_incy := 1; arg_batch_count := 1;
     arg_stride_scale := 1%Q;
     arg_uplo := "U"%char; arg_transA := "N"%char; arg_transB := "N"%char |}.

(** A transposed operand ([K x N], leading dimension [K]) with [K < N]. *)
Definition example_transposed_arguments : Arguments Q :=
  {| arg_api := C; arg_bad_arg_all := true;
     arg_M := 1; arg_N := 3; arg_K := 1;
     arg_lda := 1; arg_ldb := 1; arg_ldc := 3;
     arg_incx := 1; arg_incy := 1; arg_batch_count := 2;
     arg_stride_scale := 1%Q;
     arg_uplo := "U"%char; arg_transA := "T"%char; arg_transB := "N"%char |}.

Definition example_init_arguments : init_arguments :=
  {| init_uplo := "U"%char; init_alpha_isnan := false;
     init_beta_isnan := false; init_initialization := rand_int |}.

(** A well-formed case with N = 0. *)
Definition example_zero_shape_arguments : Arguments Q :=
  {| arg_api := C; arg_bad_arg_all := true;
     arg_M := 1; arg_N := 0; arg_K := 1;
     arg_lda := 1; arg_ldb := 1; arg_ldc := 1;
     arg_incx := 1; arg_incy := 1; arg_batch_count := 1;
     arg_stride_scale := 1%Q;
     arg_uplo := "U"%char; arg_transA := "N"%char; arg_transB := "N"%char |}.

(** * Properties *)

(** ** Loops *)

Section LoopFacts.
Context {St : Type}.
Implicit Types (body : Z -> St -> St) (s : St).

Lemma for_iter_snoc cnt : forall i body s,
  for_iter (S cnt) i body s = body (i + Z.of_nat cnt) (for_iter cnt i body s).
Proof.
  induction cnt as [|c IH]; intros i body s.
  - simpl. now rewrite Z.add_0_r.
  - change (for_iter (S (S c)) i body s)
      with (for_iter (S c) (i + 1) body (body i s)).
    rewrite IH. simpl for_iter at 2.
    f_equal. lia.
Qed.

Lemma for_lt_empty lo hi body s : hi <= lo -> for_lt lo hi body s = s.
Proof.
  intros Hle. unfold for_lt.
  replace (Z.to_nat (hi - lo)) with O by lia. reflexivity.
Qed.

Lemma for_lt_last lo hi body s :
  lo <= hi -> for_lt lo (hi + 1) body s = body hi (for_lt lo hi body s).
Proof.
  intros Hle. unfold for_lt.
  replace (Z.to_nat (hi + 1 - lo)) with (S (Z.to_nat (hi - lo))) by lia.
  rewrite for_iter_snoc. f_equal. lia.
Qed.

Lemma for_lt_first lo hi body s :
  lo < hi -> for_lt lo hi body s = for_lt (lo + 1) hi body (body lo s).
Proof.
  intros Hlt. unfold for_lt.
  replace (Z.to_nat (hi - lo)) with (S (Z.to_nat (hi - (lo + 1)))) by lia.
  reflexivity.
Qed.

Lemma for_lt_one lo body s : for_lt lo (lo + 1) body s = body lo s.
Proof. rewrite for_lt_last by lia. now rewrite for_lt_empty by lia. Qed.

(** Invariant rule for [for (i = lo; i < hi; i++)]. *)
Lemma for_lt_inv (P : Z -> St -> Prop) lo hi body s :
  lo <= hi ->
  P lo s ->
  (forall i t, lo <= i < hi -> P i t -> P (i + 1) (body i t)) ->
  P hi (for_lt lo hi body s).
Proof.
  intros Hle H0 Hstep.
  assert (Hgen : forall k : nat, lo + Z.of_nat k <= hi ->
             P (lo + Z.of_nat k) (for_lt lo (lo + Z.of_nat k) body s)).
  { induction k as [|k IH]; intros Hk.
    - rewrite Z.add_0_r. rewrite for_lt_empty by lia. exact H0.
    - replace (lo + Z.of_nat (S k)) with (lo + Z.of_nat k + 1) by lia.
      rewrite for_lt_last by lia.
      apply Hstep; [lia | apply IH; lia]. }
  specialize (Hgen (Z.to_nat (hi - lo))).
  replace (lo + Z.of_nat (Z.to_nat (hi - lo))) with hi in Hgen by lia.
  apply Hgen. lia.
Qed.

Lemma for_le_inv (P : Z -> St -> Prop) lo hi body s :
  lo <= hi + 1 ->
  P lo s ->
  (forall i t, lo <= i <= hi -> P i t -> P (i + 1) (body i t)) ->
  P (hi + 1) (for_le lo hi body s).
Proof.
  intros Hle H0 Hstep. unfold for_le.
  apply for_lt_inv; auto. intros i t Hi. apply Hstep. lia.
Qed.

(** A property kept by every iteration is kept by the loop. *)
Lemma for_lt_preserves (P : St -> Prop) lo hi body s :
  P s ->
  (forall i t, lo <= i < hi -> P t -> P (body i t)) ->
  P (for_lt lo hi body s).
Proof.
  intros H0 Hstep.
  destruct (Z_le_gt_dec lo hi) as [Hle|Hgt].
  - apply (for_lt_inv (fun _ t => P t)); auto.
  - now rewrite for_lt_empty by lia.
Qed.

Lemma for_lt_ext lo hi body body' s :
  (forall i t, lo <= i < hi -> body i t = body' i t) ->
  for_lt lo hi body s = for_lt lo hi body' s.
Proof.
  intros Hext.
  destruct (Z_le_gt_dec lo hi) as [Hle|Hgt].
  - apply (for_lt_inv (fun i t => t = for_lt lo i body' s)); auto.
    + now rewrite for_lt_empty by lia.
    + intros i t Hi ->. rewrite for_lt_last by lia. now apply Hext.
  - now rewrite !for_lt_empty by lia.
Qed.

End LoopFacts.

(** ** Integer conversions *)

Lemma to_size_t_id x : 0 <= x < 2 ^ 64 -> to_size_t x = x.
Proof. intros Hx. unfold to_size_t. now apply Z.mod_small. Qed.

Lemma to_int64_id x : - 2 ^ 63 <= x < 2 ^ 63 -> to_int64 x = x.
Proof.
  intros Hx. unfold to_int64. rewrite Z.mod_small; lia.
Qed.

Lemma to_int_id x : - 2 ^ 31 <= x < 2 ^ 31 -> to_int x = x.
Proof.
  intros Hx. unfold to_int. rewrite Z.mod_small; lia.
Qed.

Lemma size_t_index_id k : - 2 ^ 63 <= k < 2 ^ 63 -> size_t_index k = k.
Proof.
  intros Hk. unfold size_t_index, to_int64, to_size_t.
  rewrite Zplus_mod_idemp_l. rewrite Z.mod_small; lia.
Qed.

(** ** Store *)

Section StoreFacts.
Context {T : Type}.
Implicit Types (m : mem T).

Lemma upd_same m k v : upd m k v k = v.
Proof. unfold upd. now rewrite Z.eqb_refl. Qed.

Lemma upd_eq m k v x : x = k -> upd m k v x = v.
Proof. intros ->. apply upd_same. Qed.

Lemma upd_other m k v x : x <> k -> upd m k v x = m x.
Proof. unfold upd. intros Hne. destruct (Z.eqb_spec x k); congruence. Qed.

End StoreFacts.

(** ** Triangular numbers *)

Lemma half_even x : Z.even x = true -> 2 * (x / 2) = x.
Proof.
  intros He. apply Z.even_spec in He. destruct He as [y ->].
  replace (2 * y) with (y * 2) by lia. rewrite Z.div_mul; lia.
Qed.

Lemma even_consecutive c : Z.even (c * (c + 1)) = true.
Proof.
  rewrite Z.even_mul. replace (c + 1) with (Z.succ c) by lia.
  rewrite Z.even_succ, <- Z.negb_even. now destruct (Z.even c).
Qed.

Lemma tri_double c : 2 * (c * (c + 1) / 2) = c * (c + 1).
Proof. apply half_even, even_consecutive. Qed.

Lemma low_double n c : 2 * (c * (2 * n - c - 1) / 2) = c * (2 * n - c - 1).
Proof.
  apply half_even. rewrite Z.even_mul.
  replace (2 * n - c - 1) with (Z.succ c + 2 * (n - c - 1)) by lia.
  rewrite Z.even_add_mul_2, Z.even_succ, <- Z.negb_even.
  now destruct (Z.even c).
Qed.

Lemma tri_succ c : (c + 1) * (c + 1 + 1) / 2 = c * (c + 1) / 2 + c + 1.
Proof.
  pose proof (tri_double c). pose proof (tri_double (c + 1)). nia.
Qed.

Lemma tri_zero : 0 * (0 + 1) / 2 = 0.
Proof. reflexivity. Qed.

Lemma tri_mono a b : 0 <= a <= b -> a * (a + 1) / 2 <= b * (b + 1) / 2.
Proof.
  intros Hab. pose proof (tri_double a). pose proof (tri_double b). nia.
Qed.

Lemma low_succ n c :
  (c + 1) * (2 * n - (c + 1) - 1) / 2 = c * (2 * n - c - 1) / 2 + n - c - 1.
Proof.
  pose proof (low_double n c). pose proof (low_double n (c + 1)). nia.
Qed.

Lemma low_zero n : 0 * (2 * n - 0 - 1) / 2 = 0.
Proof. reflexivity. Qed.

Lemma low_mono n a b :
  0 <= a <= b -> b <= n ->
  a * (2 * n - a - 1) / 2 + a <= b * (2 * n - b - 1) / 2 + b.
Proof.
  intros Hab Hb. pose proof (low_double n a). pose proof (low_double n b).
  nia.
Qed.

(** ** [regular_to_packed] *)

Section PackedFacts.
Context {T : Type}.
Implicit Types (A AP B : mem T).

Local Abbreviation tri c := (c * (c + 1) / 2).
Local Abbreviation low n c := (c * (2 * n - c - 1) / 2).

Lemma pack_upper_column A n i (s : mem T * Z) AP0 :
  0 <= i ->
  snd s = tri i ->
  (forall r c, 0 <= r <= c -> c < i -> fst s (r + tri c) = A (r + c * n)) ->
  (forall t, t < 0 \/ tri i <= t -> fst s t = AP0 t) ->
  let s' := for_le 0 i (fun j => pack_step A n i j) s in
  snd s' = tri (i + 1) /\
  (forall r c, 0 <= r <= c -> c < i + 1 -> fst s' (r + tri c) = A (r + c * n)) /\
  (forall t, t < 0 \/ tri (i + 1) <= t -> fst s' t = AP0 t).
Proof.
  intros Hi Hidx Hold Hframe s'.
  pose (P := fun j (q : mem T * Z) =>
       snd q = tri i + j /\
       (forall r c, 0 <= r <= c -> c < i \/ (c = i /\ r < j) ->
                    fst q (r + tri c) = A (r + c * n)) /\
       (forall t, t < 0 \/ tri i + j <= t -> fst q t = AP0 t)).
  assert (Hinv : P (i + 1) s').
  { unfold s'. apply (for_le_inv P); unfold P.
    - lia.
    - repeat split.
      + lia.
      + intros r c Hrc [Hc|[-> Hr]]; [now apply Hold | lia].
      + intros t Ht. apply Hframe. lia.
    - intros j [AP' index] Hj (Hq1 & Hq2 & Hq3).
      unfold pack_step. cbn [fst snd] in *. subst index.
      repeat split.
      + lia.
      + intros r c Hrc Hc.
        destruct (Z.eq_dec c i) as [->|Hne].
        * destruct (Z.eq_dec r j) as [->|Hrj].
          -- rewrite upd_eq by lia. reflexivity.
          -- rewrite upd_other by lia. apply Hq2; lia.
        * rewrite upd_other.
          -- apply Hq2; lia.
          -- assert (Hm : tri (c + 1) <= tri i) by (apply tri_mono; lia).
             rewrite tri_succ in Hm. lia.
      + intros t Ht.
        assert (0 <= tri i) by (apply (@tri_mono 0 i); lia).
        rewrite upd_other by lia. apply Hq3. lia. }
  destruct Hinv as (H1 & H2 & H3). rewrite tri_succ. repeat split.
  - lia.
  - intros r c Hrc Hc. apply H2; lia.
  - intros t Ht. apply H3. lia.
Qed.

Lemma regular_to_packed_upper A AP n :
  0 <= n ->
  let s' := regular_to_packed_idx true A AP n in
  snd s' = tri n /\
  (forall r c, 0 <= r <= c -> c < n -> fst s' (r + tri c) = A (r + c * n)) /\
  (forall t, t < 0 \/ tri n <= t -> fst s' t = AP t).
Proof.
  intros Hn. unfold regular_to_packed_idx.
  apply (for_lt_inv (fun i (q : mem T * Z) =>
    snd q = tri i /\
    (forall r c, 0 <= r <= c -> c < i -> fst q (r + tri c) = A (r + c * n)) /\
    (forall t, t < 0 \/ tri i <= t -> fst q t = AP t))).
  - exact Hn.
  - simpl. split; [reflexivity | split; intros; [lia | reflexivity]].
  - intros i q Hi (H1 & H2 & H3).
    apply pack_upper_column; auto. lia.
Qed.

Lemma pack_lower_column A n i (s : mem T * Z) AP0 :
  0 <= i < n ->
  snd s = low n i + i ->
  (forall r c, 0 <= c <= r -> r < n -> c < i ->
               fst s (r + low n c) = A (r + c * n)) ->
  (forall t, t < 0 \/ low n i + i <= t -> fst s t = AP0 t) ->
  let s' := for_lt i n (fun j => pack_step A n i j) s in
  snd s' = low n (i + 1) + (i + 1) /\
  (forall r c, 0 <= c <= r -> r < n -> c < i + 1 ->
               fst s' (r + low n c) = A (r + c * n)) /\
  (forall t, t < 0 \/ low n (i + 1) + (i + 1) <= t -> fst s' t = AP0 t).
Proof.
  intros Hi Hidx Hold Hframe s'.
  pose (P := fun j (q : mem T * Z) =>
       snd q = low n i + j /\
       (forall r c, 0 <= c <= r -> r < n -> c < i \/ (c = i /\ r < j) ->
                    fst q (r + low n c) = A (r + c * n)) /\
       (forall t, t < 0 \/ low n i + j <= t -> fst q t = AP0 t)).
  assert (Hinv : P n s').
  { unfold s'. apply (for_lt_inv P); unfold P.
    - lia.
    - repeat split.
      + exact Hidx.
      + intros r c Hrc Hr [Hc|[-> Hr']]; [now apply Hold | lia].
      + intros t Ht. apply Hframe. lia.
    - intros j [AP' index] Hj (Hq1 & Hq2 & Hq3).
      unfold pack_step. cbn [fst snd] in *. subst index.
      assert (H0 : 0 <= low n i + i)
        by (pose proof (@low_mono n 0 i); rewrite low_zero in *; lia).
      repeat split.
      + lia.
      + intros r c Hrc Hr Hc.
        destruct (Z.eq_dec c i) as [->|Hne].
        * destruct (Z.eq_dec r j) as [->|Hrj].
          -- rewrite upd_eq by lia. reflexivity.
          -- rewrite upd_other by lia. apply Hq2; lia.
        * rewrite upd_other.
          -- apply Hq2; lia.
          -- assert (Hm : low n (c + 1) + (c + 1) <= low n i + i)
               by (apply low_mono; lia).
             rewrite low_succ in Hm. lia.
      + intros t Ht. rewrite upd_other by lia. apply Hq3. lia. }
  destruct Hinv as (H1 & H2 & H3). rewrite low_succ. repeat split.
  - lia.
  - intros r c Hrc Hr Hc. apply H2; lia.
  - intros t Ht. apply H3. lia.
Qed.

Lemma regular_to_packed_lower A AP n :
  0 <= n ->
  let s' := regular_to_packed_idx false A AP n in
  snd s' = tri n /\
  (forall r c, 0 <= c <= r -> r < n -> fst s' (r + low n c) = A (r + c * n)) /\
  (forall t, t < 0 \/ tri n <= t -> fst s' t = AP t).
Proof.
  intros Hn s'.
  assert (Hend : low n n + n = tri n).
  { pose proof (low_double n n). pose proof (tri_double n). nia. }
  pose (P := fun i (q : mem T * Z) =>
    snd q = low n i + i /\
    (forall r c, 0 <= c <= r -> r < n -> c < i ->
                 fst q (r + low n c) = A (r + c * n)) /\
    (forall t, t < 0 \/ low n i + i <= t -> fst q t = AP t)).
  assert (Hinv : P n s').
  { unfold s', regular_to_packed_idx. apply (for_lt_inv P); unfold P.
    - exact Hn.
    - cbn [fst snd]. split; [reflexivity | split; intros; [lia | reflexivity]].
    - intros i q Hi (H1 & H2 & H3).
      apply pack_lower_column; auto. }
  destruct Hinv as (H1 & H2 & H3). rewrite <- Hend. repeat split.
  - exact H1.
  - intros r c Hrc Hr. apply H2; lia.
  - exact H3.
Qed.

End PackedFacts.

Lemma cell_inj n r c r' c' :
  0 <= r < n -> 0 <= r' < n -> r + c * n = r' + c' * n -> r = r' /\ c = c'.
Proof. intros Hr Hr' Heq. assert (c = c') by nia. subst c'. lia. Qed.

Section UnpackFacts.
Context {T : Type}.
Implicit Types (A AP B : mem T).

Local Abbreviation tri c := (c * (c + 1) / 2).
Local Abbreviation low n c := (c * (2 * n - c - 1) / 2).

Lemma unpack_upper_column AP n i (s : mem T * Z) :
  0 <= i < n ->
  snd s = tri i ->
  (forall r c, 0 <= r <= c -> c < i -> fst s (r + c * n) = AP (r + tri c)) ->
  let s' := for_le 0 i (fun j => unpack_step AP n i j) s in
  snd s' = tri (i + 1) /\
  (forall r c, 0 <= r <= c -> c < i + 1 ->
               fst s' (r + c * n) = AP (r + tri c)).
Proof.
  intros Hi Hidx Hold s'.
  pose (P := fun j (q : mem T * Z) =>
       snd q = tri i + j /\
       (forall r c, 0 <= r <= c -> c < i \/ (c = i /\ r < j) ->
                    fst q (r + c * n) = AP (r + tri c))).
  assert (Hinv : P (i + 1) s').
  { unfold s'. apply (for_le_inv P); unfold P.
    - lia.
    - split.
      + lia.
      + intros r c Hrc [Hc|[-> Hr]]; [now apply Hold | lia].
    - intros j [B' index] Hj (Hq1 & Hq2).
      unfold unpack_step. cbn [fst snd] in *. subst index. split.
      + lia.
      + intros r c Hrc Hc.
        destruct (Z.eq_dec c i) as [->|Hne].
        * destruct (Z.eq_dec r j) as [->|Hrj].
          -- rewrite upd_eq by lia. f_equal. lia.
          -- rewrite upd_other by lia. apply Hq2; lia.
        * rewrite upd_other.
          -- apply Hq2; lia.
          -- intros Heq. apply cell_inj in Heq; lia. }
  destruct Hinv as (H1 & H2). rewrite tri_succ. split.
  - lia.
  - intros r c Hrc Hc. apply H2; lia.
Qed.

Lemma packed_to_regular_upper AP B n r c :
  0 <= r <= c -> c < n ->
  packed_to_regular true AP B n (r + c * n) = AP (r + tri c).
Proof.
  intros Hrc Hc. unfold packed_to_regular.
  pose (P := fun i (q : mem T * Z) =>
    snd q = tri i /\
    (forall r c, 0 <= r <= c -> c < i -> fst q (r + c * n) = AP (r + tri c))).
  assert (Hinv : P n (for_lt 0 n (fun i =>
                        for_le 0 i (fun j => unpack_step AP n i j)) (B, 0))).
  { apply (for_lt_inv P); unfold P.
    - lia.
    - cbn [fst snd]. split; [reflexivity | intros; lia].
    - intros i q Hi (H1 & H2). apply unpack_upper_column; auto. }
  destruct Hinv as (_ & H2). now apply H2.
Qed.

Lemma unpack_lower_column AP n i (s : mem T * Z) :
  0 <= i < n ->
  snd s = low n i + i ->
  (forall r c, 0 <= c <= r -> r < n -> c < i ->
               fst s (r + c * n) = AP (r + low n c)) ->
  let s' := for_lt i n (fun j => unpack_step AP n i j) s in
  snd s' = low n (i + 1) + (i + 1) /\
  (forall r c, 0 <= c <= r -> r < n -> c < i + 1 ->
               fst s' (r + c * n) = AP (r + low n c)).
Proof.
  intros Hi Hidx Hold s'.
  pose (P := fun j (q : mem T * Z) =>
       snd q = low n i + j /\
       (forall r c, 0 <= c <= r -> r < n -> c < i \/ (c = i /\ r < j) ->
                    fst q (r + c * n) = AP (r + low n c))).
  assert (Hinv : P n s').
  { unfold s'. apply (for_lt_inv P); unfold P.
    - lia.
    - split.
      + exact Hidx.
      + intros r c Hrc Hr [Hc|[-> Hr']]; [now apply Hold | lia].
    - intros j [B' index] Hj (Hq1 & Hq2).
      unfold unpack_step. cbn [fst snd] in *. subst index. split.
      + lia.
      + intros r c Hrc Hr Hc.
        destruct (Z.eq_dec c i) as [->|Hne].
        * destruct (Z.eq_dec r j) as [->|Hrj].
          -- rewrite upd_eq by lia. f_equal. lia.
          -- rewrite upd_other by lia. apply Hq2; lia.
        * rewrite upd_other.
          -- apply Hq2; lia.
          -- intros Heq. apply cell_inj in Heq; lia. }
  destruct Hinv as (H1 & H2). rewrite low_succ. split.
  - lia.
  - intros r c Hrc Hr Hc. apply H2; lia.
Qed.

Lemma packed_to_regular_lower AP B n r c :
  0 <= c <= r -> r < n ->
  packed_to_regular false AP B n (r + c * n) = AP (r + low n c).
Proof.
  intros Hrc Hr. unfold packed_to_regular.
  pose (P := fun i (q : mem T * Z) =>
    snd q = low n i + i /\
    (forall r c, 0 <= c <= r -> r < n -> c < i ->
                 fst q (r + c * n) = AP (r + low n c))).
  assert (Hinv : P n (for_lt 0 n (fun i =>
                        for_lt i n (fun j => unpack_step AP n i j)) (B, 0))).
  { apply (for_lt_inv P); unfold P.
    - lia.
    - cbn [fst snd]. split; [reflexivity | intros; lia].
    - intros i q Hi (H1 & H2). apply unpack_lower_column; auto. }
  destruct Hinv as (_ & H2). apply H2; lia.
Qed.

End UnpackFacts.

(** ** Visiting orders *)

Lemma zseq_length lo cnt : length (zseq lo cnt) = cnt.
Proof. unfold zseq. now rewrite length_map, length_seq. Qed.

Lemma zseq_S lo cnt : zseq lo (S cnt) = zseq lo cnt ++ [lo + Z.of_nat cnt].
Proof. unfold zseq. rewrite seq_S, map_app. reflexivity. Qed.

Lemma zseq_nth lo cnt t x :
  nth_error (zseq lo cnt) t = Some x -> x = lo + Z.of_nat t /\ (t < cnt)%nat.
Proof.
  unfold zseq. intros Hnth.
  rewrite nth_error_map, nth_error_seq in Hnth.
  destruct (Nat.ltb_spec t cnt) as [Hlt|Hge]; [|discriminate].
  cbn in Hnth. injection Hnth as <-. split; [lia | exact Hlt].
Qed.

Lemma upper_order_prefix (k : nat) :
  let L := flat_map (fun c => map (fun r => (r, c)) (zseq 0 (Z.to_nat (c + 1))))
                    (zseq 0 k) in
  Z.of_nat (length L) = Z.of_nat k * (Z.of_nat k + 1) / 2 /\
  forall t r c, nth_error L t = Some (r, c) ->
    0 <= r <= c /\ c < Z.of_nat k /\ Z.of_nat t = r + c * (c + 1) / 2.
Proof.
  induction k as [|k [IHlen IHnth]].
  - split; [reflexivity | intros [|t] r c; discriminate].
  - cbv zeta in *. rewrite zseq_S, flat_map_app. cbn [flat_map].
    rewrite app_nil_r, Z.add_0_l.
    set (L := flat_map _ (zseq 0 k)) in *.
    replace (Z.of_nat (S k)) with (Z.of_nat k + 1) by lia.
    split.
    + rewrite length_app, length_map, zseq_length, tri_succ. lia.
    + intros t r c Hnth. rewrite nth_error_app in Hnth.
      destruct (Nat.ltb_spec t (length L)) as [Hlt|Hge].
      * apply IHnth in Hnth. lia.
      * rewrite nth_error_map in Hnth.
        destruct (nth_error (zseq 0 (Z.to_nat (Z.of_nat k + 1))) (t - length L))
          as [x|] eqn:Hx; [|discriminate].
        cbn in Hnth. injection Hnth as <- <-.
        apply zseq_nth in Hx. lia.
Qed.

Lemma lower_order_prefix n (k : nat) :
  Z.of_nat k <= n ->
  let L := flat_map (fun c => map (fun r => (r, c)) (zseq c (Z.to_nat (n - c))))
                    (zseq 0 k) in
  Z.of_nat (length L)
  = Z.of_nat k * (2 * n - Z.of_nat k - 1) / 2 + Z.of_nat k /\
  forall t r c, nth_error L t = Some (r, c) ->
    0 <= c <= r /\ r < n /\ c < Z.of_nat k
    /\ Z.of_nat t = r + c * (2 * n - c - 1) / 2.
Proof.
  induction k as [|k IH]; intros Hk.
  - split; [reflexivity | intros [|t] r c; discriminate].
  - destruct IH as [IHlen IHnth]; [lia|].
    cbv zeta in *. rewrite zseq_S, flat_map_app. cbn [flat_map].
    rewrite app_nil_r, Z.add_0_l.
    set (L := flat_map _ (zseq 0 k)) in *.
    replace (Z.of_nat (S k)) with (Z.of_nat k + 1) by lia.
    split.
    + rewrite length_app, length_map, zseq_length, low_succ. lia.
    + intros t r c Hnth. rewrite nth_error_app in Hnth.
      destruct (Nat.ltb_spec t (length L)) as [Hlt|Hge].
      * apply IHnth in Hnth. lia.
      * rewrite nth_error_map in Hnth.
        destruct (nth_error (zseq (Z.of_nat k) (Z.to_nat (n - Z.of_nat k)))
                            (t - length L))
          as [x|] eqn:Hx; [|discriminate].
        cbn in Hnth. injection Hnth as <- <-.
        apply zseq_nth in Hx. lia.
Qed.

Lemma regular_to_packed_batched_member {T : Type} upper
    (h_A h_AP : Z -> mem T) batch_count n b :
  0 <= b < batch_count ->
  regular_to_packed_batched upper h_A h_AP batch_count n b
  = regular_to_packed upper (h_A b) (h_AP b) n.
Proof.
  intros Hb. unfold regular_to_packed_batched.
  pose (P := fun i (h : Z -> mem T) =>
    forall b, (0 <= b < i ->
               h b = regular_to_packed upper (h_A b) (h_AP b) n)
              /\ (i <= b -> h b = h_AP b)).
  assert (Hinv : P batch_count
    (for_lt 0 batch_count (fun batch_index h =>
       let AP := h batch_index in
       let A := h_A batch_index in
       let AP' :=
         fst (if upper then
                for_lt 0 n (fun i =>
                  for_le 0 i (fun j => pack_step A n i j)) (AP, 0)
              else
                for_lt 0 n (fun i =>
                  for_lt i n (fun j => pack_step A n i j)) (AP, 0)) in
       fun b => if b =? batch_index then AP' else h b) h_AP)).
  { apply (for_lt_inv P); unfold P.
    - lia.
    - intros b'. split; [lia | reflexivity].
    - intros i h Hi IH b'. cbv zeta. split.
      + intros Hb'. destruct (Z.eqb_spec b' i) as [->|Hne].
        * destruct (IH i) as [_ ->]; [|lia].
          unfold regular_to_packed, regular_to_packed_idx.
          now destruct upper.
        * apply IH. lia.
      + intros Hb'. destruct (Z.eqb_spec b' i) as [->|Hne]; [lia|].
        apply IH. lia. }
  now apply Hinv.
Qed.

(** C6 (as stated), refuted: with the lower triangle selected the packed
    elements are not in row-by-row order.  For [n = 3] the third packed
    element is [A[2 + 0 * 3]] (row 2 of column 0), while the third entry of
    the lower triangle taken row by row is (1, 1), i.e. [A[1 + 1 * 3]]. *)
Lemma regular_to_packed_lower_not_row_by_row :
  ~ (forall (n : Z) (A AP : mem Z),
       packs_in_order (lower_row_by_row n) A
                      (regular_to_packed false A AP n) n).
Proof.
  intros Hclaim.
  specialize (Hclaim 3 (fun k => k) (fun _ => 0) 2%nat 1 1 eq_refl).
  vm_compute in Hclaim. discriminate.
Qed.

(** C6 (amended): [regular_to_packed] linearizes the selected triangle of an
    [n x n] column-major matrix column by column for both fill modes (for
    the lower triangle each column from its diagonal entry downward); the
    packed index advances by one per stored entry, so entry (r, c) lands at
    the standard packed address [r + c(c+1)/2] (upper) or
    [r + c(2n-c-1)/2] (lower), [n(n+1)/2] elements are written and the rest
    of [AP] is left as it was; the batched overload does the same for every
    batch member. *)
Theorem regular_to_packed_column_major :
  forall (T : Type) (upper : bool) (A AP : mem T) (n : Z),
    0 <= n ->
    let AP' := regular_to_packed upper A AP n in
    packs_in_order (if upper then upper_column_by_column n
                    else lower_column_by_column n) A AP' n
    /\ (forall r c, in_triangle upper n r c ->
                    AP' (packed_index upper n r c) = A (r + c * n))
    /\ snd (regular_to_packed_idx upper A AP n) = n * (n + 1) / 2
    /\ (forall t, t < 0 \/ n * (n + 1) / 2 <= t -> AP' t = AP t)
    /\ (forall (h_A h_AP : Z -> mem T) batch_count b,
          0 <= b < batch_count ->
          regular_to_packed_batched upper h_A h_AP batch_count n b
          = regular_to_packed upper (h_A b) (h_AP b) n).
Proof.
  intros T upper A AP n Hn AP'. unfold AP', regular_to_packed.
  destruct upper.
  - destruct (regular_to_packed_upper A AP Hn) as (Hidx & Hval & Hframe).
    repeat split.
    + intros t r c Hnth.
      destruct (upper_order_prefix (Z.to_nat n)) as [_ Hord].
      apply Hord in Hnth. destruct Hnth as (Hrc & Hc & ->).
      apply Hval; lia.
    + intros r c [Hrc Hc]. unfold packed_index. now apply Hval.
    + exact Hidx.
    + exact Hframe.
    + intros. now apply regular_to_packed_batched_member.
  - destruct (regular_to_packed_lower A AP Hn) as (Hidx & Hval & Hframe).
    repeat split.
    + intros t r c Hnth.
      destruct (@lower_order_prefix n (Z.to_nat n)) as [_ Hord]; [lia|].
      apply Hord in Hnth. destruct Hnth as (Hrc & Hr & Hc & ->).
      apply Hval; lia.
    + intros r c [Hrc Hr]. unfold packed_index. now apply Hval.
    + exact Hidx.
    + exact Hframe.
    + intros. now apply regular_to_packed_batched_member.
Qed.

Lemma regular_to_packed_column_major_witness :
  0 <= 3 /\
  regular_to_packed false (fun k : Z => k) (fun _ => 0) 3 2 = 2.
Proof.
  split; [lia|].
  destruct (@regular_to_packed_column_major Z false (fun k => k) (fun _ => 0) 3)
    as (_ & Hval & _); [lia|].
  apply (Hval 2 0). unfold in_triangle. lia.
Defined.

(** C7: for every [n] (in particular every [N] in [1, 65]), either fill
    mode and every input matrix, packing with [regular_to_packed] and
    putting each packed element back at its triangle coordinate gives back
    every entry of the selected triangle unchanged. *)
Theorem packed_round_trip :
  forall (T : Type) (upper : bool) (A AP B : mem T) (n r c : Z),
    in_triangle upper n r c ->
    packed_to_regular upper (regular_to_packed upper A AP n) B n (r + c * n)
    = A (r + c * n).
Proof.
  intros T upper A AP B n r c Htri.
  assert (Hn : 0 <= n) by (destruct upper; unfold in_triangle in Htri; lia).
  destruct upper; unfold in_triangle in Htri.
  - rewrite packed_to_regular_upper by lia.
    destruct (regular_to_packed_upper A AP Hn) as (_ & Hval & _).
    apply Hval; lia.
  - rewrite packed_to_regular_lower by lia.
    destruct (regular_to_packed_lower A AP Hn) as (_ & Hval & _).
    apply Hval; lia.
Qed.

Lemma packed_round_trip_witness :
  in_triangle true 65 3 40 /\
  packed_to_regular true
    (regular_to_packed true (fun k : Z => 7 * k + 1) (fun _ => 0) 65)
    (fun _ => 0) 65 (3 + 40 * 65)
  = 7 * (3 + 40 * 65) + 1.
Proof.
  assert (Htri : in_triangle true 65 3 40) by (unfold in_triangle; lia).
  split; [exact Htri|].
  exact (@packed_round_trip Z true (fun k => 7 * k + 1) (fun _ => 0)
                            (fun _ => 0) 65 3 40 Htri).
Defined.

(** ** Tolerance table *)

(** C9: the entry for half precision is the literal [0.000061035], which is
    not [2^-14 = 0.00006103515625] (the value the comment next to it
    names) but [1.5625e-10] below it; every other precision maps to zero. *)
Theorem error_tolerance_half_below_min_normal :
  error_tolerance half = (61035 # 1000000000)%Q
  /\ (error_tolerance half < half_min_normal)%Q
  /\ ~ (error_tolerance half == half_min_normal)%Q
  /\ (half_min_normal - error_tolerance half == 15625 # 100000000000000)%Q
  /\ error_tolerance bfloat16 = 0%Q
  /\ error_tolerance single_real = 0%Q
  /\ error_tolerance double_real = 0%Q
  /\ error_tolerance single_complex = 0%Q
  /\ error_tolerance double_complex = 0%Q.
Proof.
  repeat split; try reflexivity.
  intros Heq. vm_compute in Heq. discriminate.
Qed.

(** ** Vector initializers *)

Section LogFacts.
Context {St1 St2 : Type}.

(** Relational invariant for two loops run in lock step. *)
Lemma for_lt_rel (R : St1 -> St2 -> Prop) lo hi
    (b1 : Z -> St1 -> St1) (b2 : Z -> St2 -> St2) s1 s2 :
  R s1 s2 ->
  (forall i t1 t2, lo <= i < hi -> R t1 t2 -> R (b1 i t1) (b2 i t2)) ->
  R (for_lt lo hi b1 s1) (for_lt lo hi b2 s2).
Proof.
  intros H0 Hstep.
  destruct (Z_le_gt_dec lo hi) as [Hle|Hgt].
  - apply (for_lt_inv (fun i t1 => R t1 (for_lt lo i b2 s2))); auto.
    + now rewrite for_lt_empty by lia.
    + intros i t1 Hi HR. rewrite for_lt_last by lia. now apply Hstep.
  - now rewrite !for_lt_empty by lia.
Qed.

(** A loop whose iteration [i] appends [block i] to a projected list. *)
Lemma for_lt_blocks {A : Type} (proj : St1 -> list A) (block : Z -> list A)
    lo hi (body : Z -> St1 -> St1) s :
  (forall i t, lo <= i < hi -> proj (body i t) = proj t ++ block i) ->
  proj (for_lt lo hi body s)
  = proj s ++ flat_map block (zseq lo (Z.to_nat (hi - lo))).
Proof.
  intros Hstep.
  destruct (Z_le_gt_dec lo hi) as [Hle|Hgt].
  - apply (for_lt_inv (fun i t =>
      proj t = proj s ++ flat_map block (zseq lo (Z.to_nat (i - lo))))).
    + exact Hle.
    + rewrite Z.sub_diag. cbn. now rewrite app_nil_r.
    + intros i t Hi IH. rewrite Hstep, IH by lia.
      replace (Z.to_nat (i + 1 - lo)) with (S (Z.to_nat (i - lo))) by lia.
      rewrite zseq_S, flat_map_app, <- app_assoc. cbn [flat_map].
      rewrite app_nil_r. do 3 f_equal. lia.
  - rewrite for_lt_empty by lia.
    replace (Z.to_nat (hi - lo)) with O by lia. cbn. now rewrite app_nil_r.
Qed.

Lemma for_lt_addresses {A : Type} (proj : St1 -> list A) (addr : Z -> A)
    lo hi (body : Z -> St1 -> St1) s :
  (forall i t, lo <= i < hi -> proj (body i t) = proj t ++ [addr i]) ->
  proj (for_lt lo hi body s)
  = proj s ++ map addr (zseq lo (Z.to_nat (hi - lo))).
Proof.
  intros Hstep. rewrite (for_lt_blocks proj (fun i => [addr i])) by exact Hstep.
  assert (Hmap : forall l : list Z, flat_map (fun i => [addr i]) l = map addr l).
  { induction l as [|a l IH]; cbn; [reflexivity | now rewrite IH]. }
  now rewrite Hmap.
Qed.

End LogFacts.

Lemma zseq_In lo cnt x : In x (zseq lo cnt) -> lo <= x < lo + Z.of_nat cnt.
Proof.
  unfold zseq. rewrite in_map_iff. intros (k & <- & Hk).
  apply in_seq in Hk. lia.
Qed.

Lemma replay_snoc {T : Type} (l : list (Z * T)) k v m :
  replay (log_write l k v) m = upd (replay l m) k v.
Proof. unfold replay, log_write. now rewrite fold_left_app. Qed.

Lemma element_offset_address x N inc j :
  (if inc <? 0 then x - (N - 1) * inc else x) + j * inc
  = x + element_offset N inc j.
Proof. unfold element_offset. destruct (Z.ltb_spec inc 0); lia. Qed.

Lemma element_offset_bounds N inc j :
  inc <> 0 -> 0 <= j < N ->
  0 <= element_offset N inc j <= (N - 1) * Z.abs inc.
Proof.
  intros Hinc Hj. unfold element_offset.
  destruct (Z.ltb_spec inc 0); nia.
Qed.

Lemma element_offset_mirror N inc j :
  element_offset N inc j
  = element_offset N (Z.abs inc) (if inc <? 0 then N - 1 - j else j).
Proof.
  unfold element_offset.
  destruct (Z.ltb_spec inc 0) as [Hneg|Hpos];
    destruct (Z.ltb_spec (Z.abs inc) 0); lia.
Qed.

Lemma trig_index j inc :
  - 2 ^ 63 <= j * inc < 2 ^ 63 ->
  size_t_index (0 + to_size_t (j * to_size_t inc + 0 * 0)) = j * inc.
Proof.
  intros Hr. unfold size_t_index, to_size_t.
  rewrite Z.mul_0_l, Z.add_0_r, Z.add_0_l, Z.mod_mod by lia.
  rewrite Z.mul_mod_idemp_r by lia.
  fold (to_size_t (j * inc)). fold (size_t_index (j * inc)).
  now apply size_t_index_id.
Qed.

Section VectorInitFacts.
Context {T G : Type} `{Scalar T}.
Implicit Types (rand_gen : G -> T * G) (l : list (Z * T)) (g : G) (m : mem T).

Local Abbreviation addrs s := (map fst (fst s)).

Ltac log_step :=
  let i := fresh "i" in
  let l := fresh "l" in
  let g := fresh "g" in
  let v := fresh "v" in
  let g' := fresh "g'" in
  intros i [l g] _; cbn [fst snd];
  repeat match goal with
         | |- context [let '(_, _) := ?r ?g0 in _] => destruct (r g0) as [v g']
         | |- context [if ?b then _ else _] => destruct b
         end;
  cbn [fst snd]; unfold log_write; rewrite map_app; reflexivity.

Lemma init_vector_addresses rand_gen x N incx l g :
  addrs (hipblas_init_vector log_write rand_gen x N incx (l, g))
  = map fst l ++ map (fun j => x + element_offset N incx j)
                     (zseq 0 (Z.to_nat N)).
Proof.
  unfold hipblas_init_vector.
  rewrite (for_lt_addresses (fun s : list (Z * T) * G => addrs s)
             (fun j => (if incx <? 0 then x - (N - 1) * incx else x)
                       + j * incx)).
  - cbn [fst]. rewrite Z.sub_0_r. f_equal. apply map_ext.
    intros j. apply element_offset_address.
  - log_step.
Qed.

Lemma init_vector_alternating_sign_addresses rand_gen x N incx l g :
  addrs (hipblas_init_vector_alternating_sign log_write rand_gen x N incx
           (l, g))
  = map fst l ++ map (fun j => x + element_offset N incx j)
                     (zseq 0 (Z.to_nat N)).
Proof.
  unfold hipblas_init_vector_alternating_sign.
  rewrite (for_lt_addresses (fun s : list (Z * T) * G => addrs s)
             (fun j => (if incx <? 0 then x - (N - 1) * incx else x)
                       + j * incx)).
  - cbn [fst]. rewrite Z.sub_0_r. f_equal. apply map_ext.
    intros j. apply element_offset_address.
  - intros i [l' g'] _. cbn [fst snd].
    destruct (rand_gen g') as [v g'']. cbn [fst].
    unfold log_write. now rewrite map_app.
Qed.

Lemma init_vector_trig_addresses (cos_T sin_T : Z -> T) x N incx seedReset l :
  map fst (hipblas_init_vector_trig log_write cos_T sin_T x N incx seedReset l)
  = map fst l ++ map (fun j => x + element_offset N incx j)
                     (zseq 0 (Z.to_nat N)).
Proof.
  unfold hipblas_init_vector_trig.
  rewrite (for_lt_addresses (fun s : list (Z * T) => map fst s)
             (fun j => (if incx <? 0 then x - (N - 1) * incx else x)
                       + j * incx)).
  - rewrite Z.sub_0_r. f_equal. apply map_ext.
    intros j. apply element_offset_address.
  - intros i l' _. unfold log_write. now rewrite map_app.
Qed.

(** Addresses written for a batch container. *)
Local Abbreviation batch_addresses that :=
  (flat_map (fun b => map (fun i => hbv_ptr that b
                                    + element_offset (hbv_n that) (hbv_inc that) i)
                          (zseq 0 (Z.to_nat (hbv_n that))))
            (zseq 0 (Z.to_nat (hbv_batch_count that)))).

Lemma init_template_addresses (hipblas_seedrand : G -> G) that rand_gen
    seedReset alternating_sign l g :
  0 <= hbv_n that < 2 ^ 63 ->
  hbv_n that * Z.abs (hbv_inc that) <= 2 ^ 63 ->
  addrs (hipblas_init_template log_write hipblas_seedrand that rand_gen
           seedReset alternating_sign (l, g))
  = map fst l ++ batch_addresses that.
Proof.
  intros Hn Hrange. unfold hipblas_init_template.
  rewrite (for_lt_blocks (fun s : list (Z * T) * G => addrs s)
             (fun b => map (fun i => hbv_ptr that b
                              + element_offset (hbv_n that) (hbv_inc that) i)
                           (zseq 0 (Z.to_nat (hbv_n that))))).
  - rewrite Z.sub_0_r. f_equal. now destruct seedReset.
  - intros b [l' g'] _. cbv zeta.
    rewrite to_size_t_id by lia.
    set (p := if hbv_inc that <? 0 then _ else _).
    assert (Haddr : forall i, In i (zseq 0 (Z.to_nat (hbv_n that))) ->
              p + size_t_index (i * hbv_inc that)
              = hbv_ptr that b
                + element_offset (hbv_n that) (hbv_inc that) i).
    { intros i Hi. apply zseq_In in Hi.
      rewrite size_t_index_id by nia.
      unfold p. apply element_offset_address. }
    rewrite <- (map_ext_in _ _ _ Haddr).
    replace (Z.to_nat (hbv_n that)) with (Z.to_nat (hbv_n that - 0))
      by (f_equal; lia).
    destruct alternating_sign.
    + apply (for_lt_addresses (fun s : list (Z * T) * G => addrs s)
               (fun i => p + size_t_index (i * hbv_inc that))).
      intros i [l'' g''] _. cbn [fst snd].
      destruct (rand_gen g'') as [v g3]. cbn [fst].
      unfold log_write. now rewrite map_app.
    + apply (for_lt_addresses (fun s : list (Z * T) * G => addrs s)
               (fun i => p + size_t_index (i * hbv_inc that))).
      intros i [l'' g''] _. cbn [fst snd].
      destruct (rand_gen g'') as [v g3]. cbn [fst].
      unfold log_write. now rewrite map_app.
Qed.

Lemma init_alternating_template_addresses (hipblas_seedrand : G -> G) that
    rand_gen (rand_gen_alt : G -> T * G) seedReset l g :
  addrs (hipblas_init_alternating_template log_write hipblas_seedrand that
           rand_gen rand_gen_alt seedReset (l, g))
  = map fst l ++ batch_addresses that.
Proof.
  unfold hipblas_init_alternating_template.
  rewrite (for_lt_blocks (fun s : list (Z * T) * G => addrs s)
             (fun b => map (fun i => hbv_ptr that b
                              + element_offset (hbv_n that) (hbv_inc that) i)
                           (zseq 0 (Z.to_nat (hbv_n that))))).
  - rewrite Z.sub_0_r. f_equal. now destruct seedReset.
  - intros b [l' g'] _. cbv zeta.
    set (p := if hbv_inc that <? 0 then _ else _).
    rewrite <- (map_ext _ _ (fun i => element_offset_address
                    (hbv_ptr that b) (hbv_n that) (hbv_inc that) i)).
    replace (Z.to_nat (hbv_n that)) with (Z.to_nat (hbv_n that - 0))
      by (f_equal; lia).
    apply (for_lt_addresses (fun s : list (Z * T) * G => addrs s)
             (fun i => p + i * hbv_inc that)).
    intros i [l'' g''] _. cbn [fst snd].
    destruct (Z.rem i 2 =? 0);
      [destruct (rand_gen_alt g'') as [v g3] | destruct (rand_gen g'') as [v g3]];
      cbn [fst]; unfold log_write; now rewrite map_app.
Qed.

Lemma init_trig_addresses (cos_T sin_T : Z -> T) that init_cos l :
  0 <= hbv_n that < 2 ^ 63 ->
  hbv_n that * Z.abs (hbv_inc that) <= 2 ^ 63 ->
  map fst (hipblas_init_trig log_write cos_T sin_T that init_cos l)
  = map fst l ++ batch_addresses that.
Proof.
  intros Hn Hrange. unfold hipblas_init_trig.
  rewrite (for_lt_blocks (fun s : list (Z * T) => map fst s)
             (fun b => map (fun i => hbv_ptr that b
                              + element_offset (hbv_n that) (hbv_inc that) i)
                           (zseq 0 (Z.to_nat (hbv_n that))))).
  - rewrite Z.sub_0_r. reflexivity.
  - intros b l' _. cbv zeta.
    rewrite to_size_t_id by lia.
    set (p := if hbv_inc that <? 0 then _ else _).
    unfold hipblas_init_trig_ptr. rewrite for_lt_one.
    assert (Haddr : forall j, In j (zseq 0 (Z.to_nat (hbv_n that))) ->
              p + size_t_index
                    (0 + to_size_t (j * to_size_t (hbv_inc that) + 0 * 0))
              = hbv_ptr that b
                + element_offset (hbv_n that) (hbv_inc that) j).
    { intros j Hj. apply zseq_In in Hj.
      rewrite trig_index by nia.
      unfold p. apply element_offset_address. }
    rewrite <- (map_ext_in _ _ _ Haddr).
    replace (Z.to_nat (hbv_n that)) with (Z.to_nat (hbv_n that - 0))
      by (f_equal; lia).
    apply (for_lt_addresses (fun s : list (Z * T) => map fst s)
             (fun j => p + size_t_index
                        (0 + to_size_t (j * to_size_t (hbv_inc that) + 0 * 0)))).
    intros j l'' _. rewrite for_lt_one.
    unfold log_write. now rewrite map_app.
Qed.

End VectorInitFacts.

Section ReplayFacts.
Context {T G : Type} `{Scalar T}.
Implicit Types (rand_gen : G -> T * G) (l : list (Z * T)) (g : G) (m : mem T).

Lemma run_matches_gen (m0 : mem T) (gen : G -> T * G) (f : T -> T) k
    (t1 : mem T * G) (t2 : list (Z * T) * G) :
  run_matches m0 t1 t2 ->
  run_matches m0
    (let '(m, g) := t1 in let '(v, g') := gen g in (upd m k (f v), g'))
    (let '(l, g) := t2 in let '(v, g') := gen g in (log_write l k (f v), g')).
Proof.
  destruct t1 as [m g1], t2 as [l g2]. intros [Hm Hg].
  cbn [fst snd] in *. subst g2 m. destruct (gen g1) as [v g'].
  split; [cbn [fst]; now rewrite replay_snoc | reflexivity].
Qed.

Lemma init_vector_replay rand_gen x N incx m g :
  run_matches m (hipblas_init_vector upd rand_gen x N incx (m, g))
                (hipblas_init_vector log_write rand_gen x N incx ([], g)).
Proof.
  unfold hipblas_init_vector. apply for_lt_rel.
  - split; reflexivity.
  - intros j t1 t2 _ HR.
    apply (run_matches_gen rand_gen (fun v => v) _ HR).
Qed.

Lemma init_vector_alternating_sign_replay rand_gen x N incx m g :
  run_matches m
    (hipblas_init_vector_alternating_sign upd rand_gen x N incx (m, g))
    (hipblas_init_vector_alternating_sign log_write rand_gen x N incx ([], g)).
Proof.
  unfold hipblas_init_vector_alternating_sign. apply for_lt_rel.
  - split; reflexivity.
  - intros j t1 t2 _ HR.
    apply (run_matches_gen rand_gen
             (fun v => if Z.land j 1 =? 0 then hipblas_negate v else v) _ HR).
Qed.

Lemma init_vector_trig_replay (cos_T sin_T : Z -> T) x N incx seedReset m :
  hipblas_init_vector_trig upd cos_T sin_T x N incx seedReset m
  = replay (hipblas_init_vector_trig log_write cos_T sin_T x N incx seedReset [])
           m.
Proof.
  unfold hipblas_init_vector_trig.
  apply (for_lt_rel (fun (t1 : mem T) (t2 : list (Z * T)) => t1 = replay t2 m)).
  - reflexivity.
  - intros j t1 t2 _ ->. symmetry. apply replay_snoc.
Qed.

Lemma init_template_replay (hipblas_seedrand : G -> G) that rand_gen
    seedReset alternating_sign m g :
  run_matches m
    (hipblas_init_template upd hipblas_seedrand that rand_gen seedReset
                           alternating_sign (m, g))
    (hipblas_init_template log_write hipblas_seedrand that rand_gen seedReset
                           alternating_sign ([], g)).
Proof.
  unfold hipblas_init_template. apply for_lt_rel.
  - destruct seedReset; split; reflexivity.
  - intros b t1 t2 _ HR. cbv zeta.
    destruct alternating_sign; apply for_lt_rel; auto.
    + intros i u1 u2 _ HR'.
      apply (run_matches_gen rand_gen
               (fun v => if Z.land (Z.lxor i 0) 1 =? 0
                         then hipblas_negate v else v) _ HR').
    + intros i u1 u2 _ HR'.
      apply (run_matches_gen rand_gen (fun v => v) _ HR').
Qed.

Lemma init_alternating_template_replay (hipblas_seedrand : G -> G) that
    rand_gen (rand_gen_alt : G -> T * G) seedReset m g :
  run_matches m
    (hipblas_init_alternating_template upd hipblas_seedrand that rand_gen
                                       rand_gen_alt seedReset (m, g))
    (hipblas_init_alternating_template log_write hipblas_seedrand that rand_gen
                                       rand_gen_alt seedReset ([], g)).
Proof.
  unfold hipblas_init_alternating_template. apply for_lt_rel.
  - destruct seedReset; split; reflexivity.
  - intros b t1 t2 _ HR. cbv zeta. apply for_lt_rel; auto.
    intros i u1 u2 _ HR'.
    apply (run_matches_gen
             (fun g => if Z.rem i 2 =? 0 then rand_gen_alt g else rand_gen g)
             (fun v => v) _ HR').
Qed.

Lemma init_trig_replay (cos_T sin_T : Z -> T) that init_cos m :
  hipblas_init_trig upd cos_T sin_T that init_cos m
  = replay (hipblas_init_trig log_write cos_T sin_T that init_cos []) m.
Proof.
  pose (R := fun (t1 : mem T) (t2 : list (Z * T)) => t1 = replay t2 m).
  change (R (hipblas_init_trig upd cos_T sin_T that init_cos m)
            (hipblas_init_trig log_write cos_T sin_T that init_cos [])).
  unfold hipblas_init_trig, hipblas_init_trig_ptr.
  apply (for_lt_rel R); [reflexivity|].
  intros b t1 t2 _ HR. cbv zeta.
  apply (for_lt_rel R); [exact HR|]. intros i_batch u1 u2 _ HR1.
  apply (for_lt_rel R); [exact HR1|]. intros j w1 w2 _ HR2.
  apply (for_lt_rel R); [exact HR2|]. intros i y1 y2 _ HR3.
  unfold R in *. subst y1. symmetry. apply replay_snoc.
Qed.

End ReplayFacts.

Lemma zseq_In_intro lo cnt x : lo <= x < lo + Z.of_nat cnt -> In x (zseq lo cnt).
Proof.
  intros Hx. unfold zseq. apply in_map_iff.
  exists (Z.to_nat (x - lo)). split; [lia | apply in_seq; lia].
Qed.

Lemma element_offset_same_footprint N inc k :
  In k (map (element_offset N inc) (zseq 0 (Z.to_nat N)))
  <-> In k (map (element_offset N (Z.abs inc)) (zseq 0 (Z.to_nat N))).
Proof.
  rewrite !in_map_iff. split; intros (j & <- & Hj).
  - exists (if inc <? 0 then N - 1 - j else j). split.
    + symmetry. apply element_offset_mirror.
    + apply zseq_In in Hj. apply zseq_In_intro.
      destruct (inc <? 0); lia.
  - exists (if inc <? 0 then N - 1 - j else j). split.
    + rewrite (element_offset_mirror N inc).
      destruct (Z.ltb_spec inc 0); f_equal; lia.
    + apply zseq_In in Hj. apply zseq_In_intro.
      destruct (inc <? 0); lia.
Qed.

(** C10: every vector initializer that takes an increment first moves the
    pointer by [-(N-1)*inc] when [inc] is negative, so that element [j] is
    written at offset [(N-1-j)*|inc|]: the sequence of written addresses is
    [x + element_offset N inc j] for j = 0 .. N-1 (per batch member for the
    container initializers), the store an initializer produces is the replay
    of exactly these writes, and for a nonzero increment every offset lies
    in [0, (N-1)*|inc|] and the set of offsets is that of [|inc|]. *)
Theorem vector_init_negative_increment :
  forall (T G : Type) (ops : Scalar T) (rand_gen rand_gen_alt : G -> T * G)
         (cos_T sin_T : Z -> T) (hipblas_seedrand : G -> G),
    (forall x N incx g (m : mem T) seedReset,
       let footprint :=
         map (fun j => x + element_offset N incx j) (zseq 0 (Z.to_nat N)) in
       map fst (fst (hipblas_init_vector log_write rand_gen x N incx ([], g)))
       = footprint
       /\ map fst (fst (hipblas_init_vector_alternating_sign
                          log_write rand_gen x N incx ([], g)))
          = footprint
       /\ map fst (hipblas_init_vector_trig log_write cos_T sin_T x N incx
                                            seedReset [])
          = footprint
       /\ run_matches m
            (hipblas_init_vector upd rand_gen x N incx (m, g))
            (hipblas_init_vector log_write rand_gen x N incx ([], g))
       /\ run_matches m
            (hipblas_init_vector_alternating_sign upd rand_gen x N incx (m, g))
            (hipblas_init_vector_alternating_sign log_write rand_gen x N incx
                                                  ([], g))
       /\ hipblas_init_vector_trig upd cos_T sin_T x N incx seedReset m
          = replay (hipblas_init_vector_trig log_write cos_T sin_T x N incx
                                             seedReset []) m)
    /\ (forall that seedReset alternating_sign init_cos g (m : mem T),
          0 <= hbv_n that < 2 ^ 63 ->
          hbv_n that * Z.abs (hbv_inc that) <= 2 ^ 63 ->
          let footprint :=
            flat_map (fun b =>
              map (fun i => hbv_ptr that b
                            + element_offset (hbv_n that) (hbv_inc that) i)
                  (zseq 0 (Z.to_nat (hbv_n that))))
              (zseq 0 (Z.to_nat (hbv_batch_count that))) in
          map fst (fst (hipblas_init_template log_write hipblas_seedrand that
                          rand_gen seedReset alternating_sign ([], g)))
          = footprint
          /\ map fst (fst (hipblas_init_alternating_template log_write
                             hipblas_seedrand that rand_gen rand_gen_alt
                             seedReset ([], g)))
             = footprint
          /\ map fst (hipblas_init_trig log_write cos_T sin_T that init_cos [])
             = footprint
          /\ run_matches m
               (hipblas_init_template upd hipblas_seedrand that rand_gen
                                      seedReset alternating_sign (m, g))
               (hipblas_init_template log_write hipblas_seedrand that rand_gen
                                      seedReset alternating_sign ([], g))
          /\ run_matches m
               (hipblas_init_alternating_template upd hipblas_seedrand that
                  rand_gen rand_gen_alt seedReset (m, g))
               (hipblas_init_alternating_template log_write hipblas_seedrand
                  that rand_gen rand_gen_alt seedReset ([], g))
          /\ hipblas_init_trig upd cos_T sin_T that init_cos m
             = replay (hipblas_init_trig log_write cos_T sin_T that init_cos [])
                      m)
    /\ (forall N inc j,
          inc <> 0 -> 0 <= j < N ->
          0 <= element_offset N inc j <= (N - 1) * Z.abs inc
          /\ (inc < 0 -> element_offset N inc j = (N - 1 - j) * Z.abs inc)
          /\ (forall k,
                In k (map (element_offset N inc) (zseq 0 (Z.to_nat N)))
                <-> In k (map (element_offset N (Z.abs inc))
                              (zseq 0 (Z.to_nat N))))).
Proof.
  intros T G ops rand_gen rand_gen_alt cos_T sin_T hipblas_seedrand.
  split; [|split].
  - intros x N incx g m seedReset footprint. unfold footprint.
    repeat split.
    + apply (init_vector_addresses rand_gen x N incx [] g).
    + apply (init_vector_alternating_sign_addresses rand_gen x N incx [] g).
    + apply (init_vector_trig_addresses cos_T sin_T x N incx seedReset []).
    + apply init_vector_replay.
    + apply init_vector_replay.
    + apply init_vector_alternating_sign_replay.
    + apply init_vector_alternating_sign_replay.
    + apply init_vector_trig_replay.
  - intros that seedReset alternating_sign init_cos g m Hn Hrange footprint.
    unfold footprint. repeat split.
    + apply (init_template_addresses hipblas_seedrand that rand_gen seedReset
               alternating_sign [] g Hn Hrange).
    + apply (init_alternating_template_addresses hipblas_seedrand that rand_gen
               rand_gen_alt seedReset [] g).
    + apply (init_trig_addresses cos_T sin_T that init_cos [] Hn Hrange).
    + apply init_template_replay.
    + apply init_template_replay.
    + apply init_alternating_template_replay.
    + apply init_alternating_template_replay.
    + apply init_trig_replay.
  - intros N inc j Hinc Hj. split; [|split].
    + now apply element_offset_bounds.
    + intros Hneg. unfold element_offset.
      destruct (Z.ltb_spec inc 0); [reflexivity | lia].
    + intros k. apply element_offset_same_footprint.
Qed.

Lemma vector_init_negative_increment_witness :
  - 2 <> 0 /\ 0 <= 0 < 3 /\ 0 <= element_offset 3 (- 2) 0 <= (3 - 1) * Z.abs (- 2).
Proof.
  assert (Hinc : - 2 <> 0) by lia.
  assert (Hj : 0 <= 0 < 3) by lia.
  split; [exact Hinc | split; [exact Hj|]].
  exact (proj1 (proj2 (proj2 (@vector_init_negative_increment
                  Z Z Z_scalar counter_gen counter_gen
                  (fun k => k) (fun k => k) (fun g => g)))
                  3 (- 2) 0 Hinc Hj)).
Defined.

Example init_vector_reverse_example :
  hipblas_init_vector log_write counter_gen 0 3 (- 2) ([], 0)
  = ([(4, 1); (2, 2); (0, 3)], 3).
Proof. reflexivity. Qed.

(** ** [regular_to_banded] *)

Section BandedFacts.
Context {T G : Type} `{Scalar T}.
Variable random_generator : G -> T * G.
Implicit Types (ab : mem T) (g : G).

Lemma advance_S k g :
  advance random_generator (S k) g
  = snd (random_generator (advance random_generator k g)).
Proof. reflexivity. Qed.

Lemma hipblas_init_one p (s : mem T * G) :
  hipblas_init random_generator p 1 1 1 0 1 s
  = (upd (fst s) p (fst (random_generator (snd s))),
     snd (random_generator (snd s))).
Proof.
  unfold hipblas_init.
  rewrite (for_lt_one 0), (for_lt_one 0), (for_lt_one 0).
  destruct s as [m g]. cbn [fst snd].
  destruct (random_generator g) as [v g']. cbn [fst snd].
  f_equal. f_equal. lia.
Qed.

(** A run of single-element random fills over slots [lo, hi) of [base]. *)
Lemma random_fill_range base lo hi ab0 g d :
  let s' := for_lt lo hi (fun i =>
              hipblas_init random_generator (base + i) 1 1 1 0 1)
              (ab0, advance random_generator d g) in
  snd s' = advance random_generator (d + Z.to_nat (hi - lo)) g
  /\ (forall i, lo <= i < hi ->
        fst s' (base + i) = draw random_generator g (d + Z.to_nat (i - lo)))
  /\ (forall a, a < base + lo \/ base + hi <= a -> fst s' a = ab0 a).
Proof.
  intros s'. destruct (Z_le_gt_dec lo hi) as [Hle|Hgt].
  - pose (P := fun i (q : mem T * G) =>
      snd q = advance random_generator (d + Z.to_nat (i - lo)) g
      /\ (forall i', lo <= i' < i ->
            fst q (base + i')
            = draw random_generator g (d + Z.to_nat (i' - lo)))
      /\ (forall a, a < base + lo \/ base + i <= a -> fst q a = ab0 a)).
    assert (Hinv : P hi s').
    { unfold s'. apply (for_lt_inv P); unfold P.
      - exact Hle.
      - cbn [fst snd]. rewrite Z.sub_diag, Nat.add_0_r.
        split; [reflexivity | split; intros; [lia | reflexivity]].
      - intros i q Hi (Hg & Hval & Hframe).
        rewrite hipblas_init_one. cbn [fst snd]. rewrite Hg.
        replace (d + Z.to_nat (i + 1 - lo))%nat
          with (S (d + Z.to_nat (i - lo))) by lia.
        split; [reflexivity | split].
        + intros i' Hi'. destruct (Z.eq_dec i' i) as [->|Hne].
          * now rewrite upd_same.
          * rewrite upd_other by lia. apply Hval. lia.
        + intros a Ha. rewrite upd_other by lia. apply Hframe. lia. }
    exact Hinv.
  - unfold s'. rewrite for_lt_empty by lia. cbn [fst snd].
    replace (Z.to_nat (hi - lo)) with O by lia. rewrite Nat.add_0_r.
    split; [reflexivity | split; intros; [lia | reflexivity]].
Qed.

(** The copy loop of one column. *)
Lemma copy_band_range (A : mem T) (dst src : Z) lo hi ab0 g :
  let s' := for_le lo hi (fun i (s : mem T * G) =>
              let '(ab, g) := s in (upd ab (dst + i) (A (src + i)), g))
              (ab0, g) in
  snd s' = g
  /\ (forall i, lo <= i <= hi -> fst s' (dst + i) = A (src + i))
  /\ (forall a, a < dst + lo \/ dst + hi < a -> fst s' a = ab0 a).
Proof.
  intros s'. destruct (Z_le_gt_dec lo (hi + 1)) as [Hle|Hgt].
  - pose (P := fun i (q : mem T * G) =>
      snd q = g
      /\ (forall i', lo <= i' < i -> fst q (dst + i') = A (src + i'))
      /\ (forall a, a < dst + lo \/ dst + i <= a -> fst q a = ab0 a)).
    assert (Hinv : P (hi + 1) s').
    { unfold s'. apply (for_le_inv P); unfold P.
      - exact Hle.
      - cbn [fst snd].
        split; [reflexivity | split; intros; [lia | reflexivity]].
      - intros i [ab g0] Hi (Hg & Hval & Hframe). cbn [fst snd] in *.
        split; [exact Hg | split].
        + intros i' Hi'. destruct (Z.eq_dec i' i) as [->|Hne].
          * now rewrite upd_same.
          * rewrite upd_other by lia. apply Hval. lia.
        + intros a Ha. rewrite upd_other by lia. apply Hframe. lia. }
    destruct Hinv as (Hg & Hval & Hframe). split; [exact Hg | split].
    + intros i Hi. apply Hval. lia.
    + intros a Ha. apply Hframe. lia.
  - unfold s', for_le. rewrite for_lt_empty by lia. cbn [fst snd].
    split; [reflexivity | split; intros; [lia | reflexivity]].
Qed.

End BandedFacts.

Section BandedColumns.
Context {T G : Type} `{Scalar T}.
Variable random_generator : G -> T * G.
Implicit Types (ab : mem T) (g : G) (A : mem T).

(** What one column of [regular_to_banded] leaves behind. *)
Lemma regular_to_banded_column_spec upper A lda AB ldab n k j ab0 g d :
  0 <= j < n -> 0 <= k -> k + 1 <= ldab ->
  let s' := regular_to_banded_column random_generator upper A lda AB ldab n k
              j (ab0, advance random_generator d g) in
  (exists d', snd s' = advance random_generator d' g)
  /\ (forall i, band_row upper n k j i ->
        fst s' (AB + (j * ldab + ((if upper then k - j else - j) + i)))
        = A (j * lda + i))
  /\ (forall r, 0 <= r < ldab -> band_slot upper n k j r = false ->
        exists t, fst s' (AB + (j * ldab + r)) = draw random_generator g t)
  /\ (forall a, a < AB + j * ldab \/ AB + (j + 1) * ldab <= a ->
        fst s' a = ab0 a).
Proof.
  intros Hj Hk Hldab. unfold regular_to_banded_column.
  destruct upper; cbv zeta.
  - (* upper *)
    set (copy := for_le (Z.max 0 (j - k)) j _ _).
    assert (Hcopy : copy
      = for_le (Z.max 0 (j - k)) j (fun i (s : mem T * G) =>
          let '(ab, g) := s in
          (upd ab (AB + j * ldab + (k - j) + i) (A (j * lda + i)), g))
          (ab0, advance random_generator d g)).
    { unfold copy, for_le. apply for_lt_ext. intros i [ab g0] _.
      do 2 f_equal. lia. }
    destruct (copy_band_range A (AB + j * ldab + (k - j)) (j * lda)
                (Z.max 0 (j - k)) j ab0 (advance random_generator d g))
      as (Hg1 & Hv1 & Hf1).
    rewrite <- Hcopy in Hg1, Hv1, Hf1. clearbody copy. clear Hcopy.
    destruct copy as [ab1 g1]. cbn [fst snd] in *. subst g1.
    unfold for_le.
    destruct (random_fill_range random_generator (AB + j * ldab) (k + 1)
                (ldab - 1 + 1) ab1 g d) as (Hg2 & Hv2 & Hf2).
    destruct (for_lt (k + 1) (ldab - 1 + 1) _ _) as [ab2 g2].
    cbn [fst snd] in *. subst g2.
    destruct (random_fill_range random_generator (AB + j * ldab) 0 (k - j)
                ab2 g (d + Z.to_nat (ldab - 1 + 1 - (k + 1))))
      as (Hg3 & Hv3 & Hf3).
    destruct (for_lt 0 (k - j) _ _) as [ab3 g3].
    cbn [fst snd] in *. subst g3.
    split; [eexists; reflexivity | split; [|split]].
    + intros i Hi. unfold band_row in Hi.
      rewrite Hf3 by lia. rewrite Hf2 by lia.
      replace (AB + (j * ldab + (k - j + i)))
        with (AB + j * ldab + (k - j) + i) by lia.
      apply Hv1. lia.
    + intros r Hr Hband. unfold band_slot in Hband.
      apply andb_false_iff in Hband.
      replace (AB + (j * ldab + r)) with (AB + j * ldab + r) by lia.
      destruct Hband as [Hlow|Hhigh].
      * apply Z.leb_gt in Hlow. eexists. apply Hv3. lia.
      * apply Z.leb_gt in Hhigh. eexists.
        rewrite Hf3 by lia. apply Hv2. lia.
    + intros a Ha. rewrite Hf3 by lia. rewrite Hf2 by lia.
      apply Hf1. lia.
  - (* lower *)
    set (copy := for_le j (Z.min (n - 1) (j + k)) _ _).
    assert (Hcopy : copy
      = for_le j (Z.min (n - 1) (j + k)) (fun i (s : mem T * G) =>
          let '(ab, g) := s in
          (upd ab (AB + j * ldab + (- j) + i) (A (j * lda + i)), g))
          (ab0, advance random_generator d g)).
    { unfold copy, for_le. apply for_lt_ext. intros i [ab g0] _.
      do 2 f_equal. lia. }
    destruct (copy_band_range A (AB + j * ldab + (- j)) (j * lda)
                j (Z.min (n - 1) (j + k)) ab0 (advance random_generator d g))
      as (Hg1 & Hv1 & Hf1).
    rewrite <- Hcopy in Hg1, Hv1, Hf1. clearbody copy. clear Hcopy.
    destruct copy as [ab1 g1]. cbn [fst snd] in *. subst g1.
    unfold for_le.
    destruct (random_fill_range random_generator (AB + j * ldab)
                (Z.min (k + 1) (n - j)) (ldab - 1 + 1) ab1 g d)
      as (Hg2 & Hv2 & Hf2).
    destruct (for_lt (Z.min (k + 1) (n - j)) (ldab - 1 + 1) _ _) as [ab2 g2].
    cbn [fst snd] in *. subst g2.
    split; [eexists; reflexivity | split; [|split]].
    + intros i Hi. unfold band_row in Hi.
      rewrite Hf2 by lia.
      replace (AB + (j * ldab + (- j + i)))
        with (AB + j * ldab + (- j) + i) by lia.
      apply Hv1. lia.
    + intros r Hr Hband. unfold band_slot in Hband.
      apply andb_false_iff in Hband.
      replace (AB + (j * ldab + r)) with (AB + j * ldab + r) by lia.
      destruct Hband as [Hlow|Hhigh].
      * apply Z.leb_gt in Hlow. lia.
      * apply Z.leb_gt in Hhigh. eexists. apply Hv2. lia.
    + intros a Ha. rewrite Hf2 by lia. apply Hf1. lia.
Qed.

End BandedColumns.

Section BandedWhole.
Context {T G : Type} `{Scalar T}.
Variable random_generator : G -> T * G.
Implicit Types (ab : mem T) (g : G) (A : mem T).

Lemma band_row_slot upper n k j i :
  0 <= j < n -> 0 <= k -> band_row upper n k j i ->
  0 <= (if upper then k - j else - j) + i <= k.
Proof. unfold band_row. destruct upper; lia. Qed.

Lemma regular_to_banded_whole upper A lda AB ldab n k ab0 g :
  0 <= n -> 0 <= k -> k + 1 <= ldab ->
  let s' := regular_to_banded random_generator upper A lda AB ldab n k
              (ab0, g) in
  (forall j i, 0 <= j < n -> band_row upper n k j i ->
     fst s' (AB + (j * ldab + ((if upper then k - j else - j) + i)))
     = A (j * lda + i))
  /\ (forall j r, 0 <= j < n -> 0 <= r < ldab ->
        band_slot upper n k j r = false ->
        exists t, fst s' (AB + (j * ldab + r)) = draw random_generator g t)
  /\ (forall a, a < AB \/ AB + n * ldab <= a -> fst s' a = ab0 a).
Proof.
  intros Hn Hk Hldab s'.
  pose (P := fun j (q : mem T * G) =>
    (exists d, snd q = advance random_generator d g)
    /\ (forall c i, 0 <= c < j -> band_row upper n k c i ->
          fst q (AB + (c * ldab + ((if upper then k - c else - c) + i)))
          = A (c * lda + i))
    /\ (forall c r, 0 <= c < j -> 0 <= r < ldab ->
          band_slot upper n k c r = false ->
          exists t, fst q (AB + (c * ldab + r)) = draw random_generator g t)
    /\ (forall a, a < AB \/ AB + j * ldab <= a -> fst q a = ab0 a)).
  assert (Hinv : P n s').
  { unfold s', regular_to_banded. apply (for_lt_inv P); unfold P.
    - exact Hn.
    - cbn [fst snd]. split; [exists O; reflexivity|].
      split; [intros; lia | split; [intros; lia | reflexivity]].
    - intros j [abq gq] Hj ([d Hd] & Hband & Hrand & Hframe).
      cbn [fst snd] in *. subst gq.
      destruct (@regular_to_banded_column_spec T G random_generator upper A
                  lda AB ldab n k j abq g d)
        as (Hg' & Hband' & Hrand' & Hframe'); try lia.
      split; [exact Hg' | split; [|split]].
      + intros c i Hc Hi. destruct (Z.eq_dec c j) as [->|Hne].
        * now apply Hband'.
        * assert (Hs := @band_row_slot upper n k c i ltac:(lia) Hk Hi).
          assert (Hcol : (c + 1) * ldab <= j * ldab) by nia.
          rewrite Hframe' by lia. apply Hband; [lia | assumption].
      + intros c r Hc Hr Hslot. destruct (Z.eq_dec c j) as [->|Hne].
        * now apply Hrand'.
        * assert (Hcol : (c + 1) * ldab <= j * ldab) by nia.
          rewrite Hframe' by lia. apply Hrand; [lia | assumption..].
      + intros a Ha.
        assert (Hcol : 0 <= j * ldab <= (j + 1) * ldab) by nia.
        rewrite Hframe' by lia. apply Hframe. lia. }
  destruct Hinv as (_ & Hband & Hrand & Hframe).
  split; [|split]; assumption.
Qed.

Lemma for_lt_some {St : Type} lo hi (body : Z -> St -> St)
    (body' : Z -> option St -> option St) (s : St) :
  (forall i t, lo <= i < hi -> body' i (Some t) = Some (body i t)) ->
  for_lt lo hi body' (Some s) = Some (for_lt lo hi body s).
Proof.
  intros Hstep.
  destruct (Z_le_gt_dec lo hi) as [Hle|Hgt].
  - apply (for_lt_inv (fun i t => t = Some (for_lt lo i body s))); auto.
    + now rewrite for_lt_empty by lia.
    + intros i t Hi ->. rewrite for_lt_last by lia. now apply Hstep.
  - now rewrite !for_lt_empty by lia.
Qed.

Lemma for_le_int_defined {St : Type} lo hi (body : Z -> St -> St) (s : St) :
  - 2 ^ 31 <= lo < 2 ^ 31 -> hi < 2 ^ 31 - 1 ->
  for_le_int lo hi body s = Some (for_le lo hi body s).
Proof.
  intros Hlo Hhi. unfold for_le_int. cbv zeta. rewrite to_int_id by exact Hlo.
  destruct (Z.leb_spec (2 ^ 31 - 1) hi); [lia|].
  now rewrite andb_false_r.
Qed.

Lemma for_lt_int_defined {St : Type} lo hi (body : Z -> St -> St) (s : St) :
  - 2 ^ 31 <= lo < 2 ^ 31 -> hi < 2 ^ 31 ->
  for_lt_int lo hi body s = Some (for_lt lo hi body s).
Proof.
  intros Hlo Hhi. unfold for_lt_int. cbv zeta. rewrite to_int_id by exact Hlo.
  destruct (Z.leb_spec (2 ^ 31) hi); [lia|].
  now rewrite andb_false_r.
Qed.

(** While no [int] counter overflows and the [size_t] indices stay below
    2^63, the overload on batch containers runs the pointer overload on the
    members, one after the other. *)
Lemma regular_to_banded_batched_members upper (h_A : Z -> mem T) h_A_lda
    h_A_batch_count h_AB k (s : mem T * G) :
  0 <= k -> hbm_n h_AB + k < 2 ^ 31 ->
  0 <= h_A_lda < 2 ^ 31 -> k + 1 <= hbm_lda h_AB < 2 ^ 31 ->
  regular_to_banded_batched random_generator upper h_A h_A_lda h_A_batch_count
                            h_AB k s
  = Some (for_lt 0 h_A_batch_count (fun b =>
            regular_to_banded random_generator upper (h_A b) h_A_lda
              (hbm_ptr h_AB b) (hbm_lda h_AB) (hbm_n h_AB) k) s).
Proof.
  intros Hk Hrange Hlda Hldab. unfold regular_to_banded_batched. cbv zeta.
  rewrite !to_size_t_id by lia. rewrite to_int64_id by lia.
  apply for_lt_some. intros b t _. unfold regular_to_banded.
  apply for_lt_some. intros j u Hj. unfold regular_to_banded_column.
  cbv zeta.
  assert (Hcol : 0 <= j * hbm_lda h_AB < 2 ^ 62) by nia.
  assert (Hrow : 0 <= j * h_A_lda < 2 ^ 62) by nia.
  rewrite (@size_t_index_id (j * hbm_lda h_AB)) by lia.
  destruct upper.
  - rewrite !for_le_int_defined, for_lt_int_defined by lia.
    f_equal. f_equal. f_equal. unfold for_le.
    apply for_lt_ext. intros i [ab g] Hi.
    rewrite !size_t_index_id by lia. reflexivity.
  - rewrite !for_le_int_defined by lia.
    f_equal. f_equal. unfold for_le.
    apply for_lt_ext. intros i [ab g] Hi.
    rewrite !size_t_index_id by lia. reflexivity.
Qed.

(** What the overload on batch containers leaves in every member, whatever
    the order in which the members are treated: the band of the member's
    input, generated values in the other slots, and nothing outside the
    members. *)
Lemma regular_to_banded_batched_spec upper (h_A : Z -> mem T) lda
    h_A_batch_count h_AB k (s : mem T * G) :
  let n := hbm_n h_AB in
  let ldab := hbm_lda h_AB in
  0 <= n -> 0 <= k -> n + k < 2 ^ 31 ->
  0 <= lda < 2 ^ 31 -> k + 1 <= ldab < 2 ^ 31 ->
  (forall b1 b2, 0 <= b1 < h_A_batch_count -> 0 <= b2 < h_A_batch_count ->
     b1 <> b2 ->
     hbm_ptr h_AB b1 + n * ldab <= hbm_ptr h_AB b2
     \/ hbm_ptr h_AB b2 + n * ldab <= hbm_ptr h_AB b1) ->
  exists s',
    regular_to_banded_batched random_generator upper h_A lda h_A_batch_count
                              h_AB k s = Some s'
    /\ (forall b j i, 0 <= b < h_A_batch_count -> 0 <= j < n ->
          band_row upper n k j i ->
          fst s' (hbm_ptr h_AB b
                  + (j * ldab + ((if upper then k - j else - j) + i)))
          = h_A b (j * lda + i))
    /\ (forall b j r, 0 <= b < h_A_batch_count -> 0 <= j < n ->
          0 <= r < ldab -> band_slot upper n k j r = false ->
          exists h, fst s' (hbm_ptr h_AB b + (j * ldab + r))
                    = fst (random_generator h))
    /\ (forall a,
          (forall b, 0 <= b < h_A_batch_count ->
             a < hbm_ptr h_AB b \/ hbm_ptr h_AB b + n * ldab <= a) ->
          fst s' a = fst s a).
Proof.
  intros n ldab Hn Hk Hrange Hlda Hldab Hdisj.
  rewrite regular_to_banded_batched_members by (assumption || lia).
  fold n ldab. eexists. split; [reflexivity|].
  destruct (Z_le_gt_dec 0 h_A_batch_count) as [HB|HB].
  2:{ rewrite for_lt_empty by lia.
      repeat split; try reflexivity; intros; lia. }
  assert (Hcell : forall j r, 0 <= j < n -> 0 <= r < ldab ->
            0 <= j * ldab + r < n * ldab) by (intros; nia).
  pose (P := fun (c : Z) (t : mem T * G) =>
    (forall b j i, 0 <= b < c -> 0 <= j < n -> band_row upper n k j i ->
       fst t (hbm_ptr h_AB b
              + (j * ldab + ((if upper then k - j else - j) + i)))
       = h_A b (j * lda + i))
    /\ (forall b j r, 0 <= b < c -> 0 <= j < n -> 0 <= r < ldab ->
          band_slot upper n k j r = false ->
          exists h, fst t (hbm_ptr h_AB b + (j * ldab + r))
                    = fst (random_generator h))
    /\ (forall a,
          (forall b, 0 <= b < c ->
             a < hbm_ptr h_AB b \/ hbm_ptr h_AB b + n * ldab <= a) ->
          fst t a = fst s a)).
  assert (Hinv : P h_A_batch_count
            (for_lt 0 h_A_batch_count (fun b =>
               regular_to_banded random_generator upper (h_A b) lda
                 (hbm_ptr h_AB b) ldab n k) s)).
  { apply (for_lt_inv P); unfold P; [exact HB| |].
    - repeat split; try reflexivity; intros; lia.
    - intros c [abq gq] Hc (Hband & Hrand & Hframe).
      destruct (@regular_to_banded_whole upper (h_A c) lda (hbm_ptr h_AB c)
                  ldab n k abq gq Hn Hk ltac:(lia))
        as (Hband' & Hrand' & Hframe').
      cbn [fst snd] in *.
      assert (Hold : forall b off, 0 <= b < c -> 0 <= off < n * ldab ->
                fst (regular_to_banded random_generator upper (h_A c) lda
                       (hbm_ptr h_AB c) ldab n k (abq, gq))
                    (hbm_ptr h_AB b + off)
                = abq (hbm_ptr h_AB b + off)).
      { intros b off Hb Hoff. apply Hframe'.
        destruct (Hdisj b c) as [Hd|Hd]; lia. }
      split; [|split].
      + intros b j i Hb Hj Hi. destruct (Z.eq_dec b c) as [->|Hne].
        * now apply Hband'.
        * assert (Hs := @band_row_slot upper n k j i Hj Hk Hi).
          rewrite Hold by (try apply Hcell; lia).
          apply Hband; [lia|assumption..].
      + intros b j r Hb Hj Hr Hslot. destruct (Z.eq_dec b c) as [->|Hne].
        * destruct (Hrand' j r Hj Hr Hslot) as [t Ht].
          exists (advance random_generator t gq). exact Ht.
        * rewrite Hold by (try apply Hcell; lia).
          apply Hrand; [lia|assumption..].
      + intros a Ha. rewrite Hframe' by (apply Ha; lia).
        apply Hframe. intros b Hb. apply Ha. lia. }
  exact Hinv.
Qed.

End BandedWhole.



Example regular_to_banded_example :
  let ab := fst (regular_to_banded counter_gen true (fun a => 100 + a) 3 0 3 3 1
                   (fun _ => 0, 0)) in
  map ab [0; 1; 2; 3; 4; 5; 6; 7; 8]
  = [2; 100; 1; 103; 104; 3; 107; 108; 4].
Proof. reflexivity. Qed.

(** ** Matrix initializers *)

Section LoopSplit.
Context {St : Type}.

Lemma for_lt_split lo mid hi (body : Z -> St -> St) s :
  lo <= mid <= hi ->
  for_lt lo hi body s = for_lt mid hi body (for_lt lo mid body s).
Proof.
  intros Hm. symmetry.
  apply (for_lt_inv (fun i t => t = for_lt lo i body s)).
  - lia.
  - reflexivity.
  - intros i t Hi ->. rewrite for_lt_last by lia. reflexivity.
Qed.

End LoopSplit.

Lemma offdiag_ne lda N r c i :
  0 <= r < N -> 0 <= i < N -> N <= lda -> r <> c ->
  r + c * lda <> i + i * lda.
Proof.
  intros Hr Hi Hlda Hne Heq.
  apply cell_inj in Heq; lia.
Qed.

Lemma diag_inj lda N i i' :
  0 <= i < N -> 0 <= i' < N -> N <= lda ->
  i + i * lda = i' + i' * lda -> i = i'.
Proof. intros Hi Hi' Hlda Heq. apply cell_inj in Heq; lia. Qed.

Section DominantFacts.
Context {T G : Type} `{Scalar T}.
Variable rand_gen : G -> T * G.
Implicit Types (m : mem T) (g : G).

Lemma abs_sum_ext m m' (idx : Z -> Z) lo hi :
  (forall k, lo <= k < hi -> m (idx k) = m' (idx k)) ->
  abs_sum m idx lo hi = abs_sum m' idx lo hi.
Proof.
  intros Hext. unfold abs_sum. apply for_lt_ext.
  intros k acc Hk. now rewrite Hext.
Qed.

(** A loop that overwrites the diagonal with values computed from the
    off-diagonal cells only. *)
Lemma diag_loop_spec A lda N (value : Z -> mem T -> T) m0 :
  0 <= N <= lda ->
  (forall i m m', 0 <= i < N ->
     (forall a, (forall i', 0 <= i' < N -> a <> A + (i' + i' * lda)) ->
                m a = m' a) ->
     value i m = value i m') ->
  let m' := for_lt 0 N (fun i m => upd m (A + (i + i * lda)) (value i m)) m0 in
  (forall a, (forall i, 0 <= i < N -> a <> A + (i + i * lda)) -> m' a = m0 a)
  /\ (forall i, 0 <= i < N -> m' (A + (i + i * lda)) = value i m').
Proof.
  intros HN Hlocal m'.
  pose (P := fun i (q : mem T) =>
    (forall a, (forall i', 0 <= i' < i -> a <> A + (i' + i' * lda)) ->
               q a = m0 a)
    /\ (forall i', 0 <= i' < i -> q (A + (i' + i' * lda)) = value i' m0)).
  assert (Hinv : P N m').
  { unfold m'. apply (for_lt_inv P); unfold P.
    - lia.
    - split; [reflexivity | intros; lia].
    - intros i q Hi [Hoff Hdiag]. split.
      + intros a Ha. rewrite upd_other by (apply Ha; lia).
        apply Hoff. intros i' Hi'. apply Ha. lia.
      + intros i' Hi'. destruct (Z.eq_dec i' i) as [->|Hne].
        * rewrite upd_same. apply Hlocal; [lia|].
          intros a Ha. apply Hoff. intros i' Hi''. apply Ha. lia.
        * rewrite upd_other.
          -- apply Hdiag. lia.
          -- intros Heq. apply Hne.
             apply (@diag_inj lda N); lia. }
  destruct Hinv as [Hoff Hdiag]. split; [exact Hoff|].
  intros i Hi. rewrite Hdiag by lia. apply Hlocal; [lia|].
  intros a Ha. symmetry. now apply Hoff.
Qed.

(** One column of the triangular fill. *)
Lemma triangular_column_spec uplo A M lda j (s : mem T * G) :
  let s' := for_lt 0 M (fun i =>
              triangular_entry rand_gen uplo A (i + j * lda) i j) s in
  (forall i, 0 <= i < M ->
     (if Ascii.eqb uplo "U" then j <? i else i <? j) = true ->
     fst s' (A + (i + j * lda)) = s_zero)
  /\ (forall a, a < A + j * lda \/ A + j * lda + M <= a ->
        fst s' a = fst s a).
Proof.
  intros s'.
  destruct (Z_le_gt_dec 0 M) as [HM|HM].
  - pose (P := fun i (q : mem T * G) =>
      (forall i', 0 <= i' < i ->
         (if Ascii.eqb uplo "U" then j <? i' else i' <? j) = true ->
         fst q (A + (i' + j * lda)) = s_zero)
      /\ (forall a, a < A + j * lda \/ A + j * lda + i <= a ->
            fst q a = fst s a)).
    assert (Hinv : P M s').
    { unfold s'. apply (for_lt_inv P); unfold P.
      - exact HM.
      - split; [intros; lia | reflexivity].
      - intros i [m g] Hi [Hz Hf]. unfold triangular_entry. cbn [fst snd] in *.
        set (r := if Ascii.eqb uplo "U" then _ else _).
        assert (Hr : (if Ascii.eqb uplo "U" then j <? i else i <? j) = true ->
                     fst r = s_zero).
        { unfold r. destruct (Ascii.eqb uplo "U"); intros Hout.
          - apply Z.ltb_lt in Hout.
            destruct (Z.geb_spec j i); [lia | reflexivity].
          - apply Z.ltb_lt in Hout.
            destruct (Z.leb_spec j i); [lia | reflexivity]. }
        destruct r as [value g']. cbn [fst snd] in *. split.
        + intros i' Hi' Hout. destruct (Z.eq_dec i' i) as [->|Hne].
          * rewrite upd_same. now apply Hr.
          * rewrite upd_other by lia. apply Hz; [lia | exact Hout].
        + intros a Ha. rewrite upd_other by lia. apply Hf. lia. }
    destruct Hinv as [Hz Hf]. split; [exact Hz|].
    intros a Ha. apply Hf. lia.
  - unfold s'. rewrite for_lt_empty by lia.
    split; [intros; lia | reflexivity].
Qed.

(** The triangular fill that precedes the diagonal pass. *)
Lemma triangular_fill_spec uplo A M N lda (s : mem T * G) :
  0 <= M <= lda -> 0 <= N ->
  let s' := for_lt 0 N (fun j =>
              for_lt 0 M (fun i =>
                triangular_entry rand_gen uplo A (i + j * lda) i j)) s in
  (forall i j, 0 <= i < M -> 0 <= j < N ->
     (if Ascii.eqb uplo "U" then j <? i else i <? j) = true ->
     fst s' (A + (i + j * lda)) = s_zero)
  /\ (forall a, a < A \/ A + N * lda <= a -> fst s' a = fst s a).
Proof.
  intros HM HN s'.
  pose (P := fun j (q : mem T * G) =>
    (forall i c, 0 <= i < M -> 0 <= c < j ->
       (if Ascii.eqb uplo "U" then c <? i else i <? c) = true ->
       fst q (A + (i + c * lda)) = s_zero)
    /\ (forall a, a < A \/ A + j * lda <= a -> fst q a = fst s a)).
  assert (Hinv : P N s').
  { unfold s'. apply (for_lt_inv P); unfold P.
    - exact HN.
    - split; [intros; lia | reflexivity].
    - intros j q Hj [Hz Hf].
      destruct (triangular_column_spec uplo A M lda j q) as [Hz' Hf'].
      split.
      + intros i c Hi Hc Hout. destruct (Z.eq_dec c j) as [->|Hne].
        * now apply Hz'.
        * assert (Hcol : (c + 1) * lda <= j * lda) by nia.
          rewrite Hf' by lia. apply Hz; [lia | lia | exact Hout].
      + intros a Ha.
        assert (Hcol : 0 <= j * lda <= (j + 1) * lda) by nia.
        rewrite Hf' by lia. apply Hf. lia. }
  exact Hinv.
Qed.

End DominantFacts.

Section DominantBatch.
Context {T G : Type} `{Scalar T}.
Variable rand_gen : G -> T * G.
Implicit Types (m : mem T) (g : G).

Lemma entry_in_region A lda N i j :
  0 <= i < N -> 0 <= j < N -> N <= lda ->
  A <= A + (i + j * lda) < A + N * lda.
Proof. intros Hi Hj Hlda. nia. Qed.

(** The diagonal pass, for either fill mode. *)
Lemma diagonal_pass_spec uplo A N lda m1 (value : Z -> mem T -> T) :
  0 <= N <= lda ->
  (forall i m, 0 <= i < N ->
     value i m = dominant_value (stored_row_sum uplo m A lda N i)
                                (stored_col_sum uplo m A lda N i)) ->
  let m' := for_lt 0 N (fun i m => upd m (A + (i + i * lda)) (value i m)) m1 in
  dominant_diagonal uplo m' A lda N
  /\ (forall a, (forall i, 0 <= i < N -> a <> A + (i + i * lda)) ->
        m' a = m1 a).
Proof.
  intros HN Hvalue m'.
  destruct (@diag_loop_spec T A lda N value m1 HN) as [Hoff Hdiag].
  - intros i m m2 Hi Hagree. rewrite !Hvalue by lia.
    unfold stored_row_sum, stored_col_sum.
    destruct (Ascii.eqb uplo "U"); f_equal; apply abs_sum_ext; intros k Hk;
      apply Hagree; intros i' Hi' Heq;
      assert (Heq' : forall r c, A + (r + c * lda) = A + (i' + i' * lda) ->
                                 r + c * lda = i' + i' * lda)
        by (intros; lia);
      apply Heq' in Heq; revert Heq; apply (@offdiag_ne lda N); lia.
  - split; [|exact Hoff].
    intros i Hi. unfold entry. fold m'. rewrite Hdiag by lia.
    now apply Hvalue.
Qed.

(** One batch member of [hipblas_fill_matrix_type] with the diagonally
    dominant kind. *)
Lemma dominant_batch_spec uplo A N lda stride b (s : mem T * G) :
  0 <= N <= lda -> N < 2 ^ 64 ->
  let s' := fill_matrix_type_batch rand_gen
              hipblas_diagonally_dominant_triangular_matrix uplo
              A N N lda stride b s in
  dominant_diagonal uplo (fst s') A lda N
  /\ other_triangle_zero uplo (fst s') A lda N
  /\ (forall a, a < A \/ A + N * lda <= a -> fst s' a = fst s a).
Proof.
  intros HN Hbig. unfold fill_matrix_type_batch.
  destruct (@triangular_fill_spec T G _ rand_gen uplo A N N lda s)
    as [Hzero Hframe]; [lia | lia |].
  destruct (for_lt 0 N _ s) as [m1 g1]. cbn [fst snd] in Hzero, Hframe.
  assert (Hpass : forall value,
    (forall i m, 0 <= i < N ->
       value i m = dominant_value (stored_row_sum uplo m A lda N i)
                                  (stored_col_sum uplo m A lda N i)) ->
    let m' := for_lt 0 N (fun i m => upd m (A + (i + i * lda)) (value i m)) m1 in
    dominant_diagonal uplo m' A lda N
    /\ other_triangle_zero uplo m' A lda N
    /\ (forall a, a < A \/ A + N * lda <= a -> m' a = fst s a)).
  { intros value Hvalue m'.
    destruct (@diagonal_pass_spec uplo A N lda m1 value HN Hvalue)
      as [Hdom Hoff].
    fold m' in Hdom, Hoff. split; [exact Hdom | split].
    - intros i j Hi Hj Hout. unfold entry. rewrite Hoff.
      + now apply Hzero.
      + intros i' Hi' Heq.
        assert (Heq' : i + j * lda = i' + i' * lda) by lia.
        revert Heq'. apply (@offdiag_ne lda N); try lia.
        destruct (Ascii.eqb uplo "U"); apply Z.ltb_lt in Hout; lia.
    - intros a Ha. rewrite Hoff.
      + now apply Hframe.
      + intros i Hi Heq.
        pose proof (@entry_in_region A lda N i i). lia. }
  destruct (Ascii.eqb uplo "U") eqn:Hu; cbn [fst snd].
  - apply (Hpass (fun i m =>
      dominant_value (abs_sum m (fun j => A + (i + j * lda)) (i + 1) N)
                     (abs_sum m (fun j => A + (j + i * lda)) 0 (to_size_t i)))).
    intros i m Hi. unfold stored_row_sum, stored_col_sum. rewrite Hu.
    now rewrite to_size_t_id by lia.
  - apply (Hpass (fun j m =>
      dominant_value (abs_sum m (fun i => A + (j + i * lda)) 0 j)
                     (abs_sum m (fun i => A + (i + j * lda)) (j + 1) N))).
    intros i m Hi. unfold stored_row_sum, stored_col_sum. now rewrite Hu.
Qed.

(** The same member in [hipblas_init_matrix] computes the same store. *)
Lemma init_matrix_batch_dominant uplo A N lda stride b (s : mem T * G) :
  0 <= N < 2 ^ 64 ->
  init_matrix_batch rand_gen hipblas_diagonally_dominant_triangular_matrix
                    uplo A N N lda s
  = fill_matrix_type_batch rand_gen
      hipblas_diagonally_dominant_triangular_matrix uplo A N N lda stride b s.
Proof.
  intros HN. unfold init_matrix_batch, fill_matrix_type_batch.
  rewrite !(@to_size_t_id N) by lia.
  destruct (for_lt 0 N _ s) as [m1 g1].
  destruct (Ascii.eqb uplo "U"); f_equal; apply for_lt_ext; intros i m Hi;
    rewrite ?to_size_t_id by lia; reflexivity.
Qed.

Lemma dominant_local uplo A N lda m m' :
  0 <= N <= lda ->
  (forall a, A <= a < A + N * lda -> m' a = m a) ->
  dominant_diagonal uplo m A lda N /\ other_triangle_zero uplo m A lda N ->
  dominant_diagonal uplo m' A lda N /\ other_triangle_zero uplo m' A lda N.
Proof.
  intros HN Hagree [Hdom Hzero]. split.
  - intros i Hi. unfold entry.
    rewrite Hagree by (apply entry_in_region; lia).
    specialize (Hdom i Hi). unfold entry in Hdom. rewrite Hdom.
    unfold stored_row_sum, stored_col_sum.
    destruct (Ascii.eqb uplo "U"); f_equal; apply abs_sum_ext; intros k Hk;
      symmetry; apply Hagree; apply entry_in_region; lia.
  - intros i j Hi Hj Hout. unfold entry.
    rewrite Hagree by (apply entry_in_region; lia).
    now apply Hzero.
Qed.

End DominantBatch.

(** ** Batch loops *)

Section BatchLoop.
Context {T G : Type}.
Implicit Types (s : mem T * G).

(** A loop over batch members whose regions are pairwise disjoint: what each
    member's step establishes on its own region still holds at the end. *)
Lemma batch_loop_post (body : Z -> mem T * G -> mem T * G) (ptr : Z -> Z)
    (size count : Z) (Q : Z -> G -> mem T -> Prop) s0 :
  (forall b s, 0 <= b < count -> Q b (snd s) (fst (body b s))) ->
  (forall b s a, 0 <= b < count -> a < ptr b \/ ptr b + size <= a ->
                 fst (body b s) a = fst s a) ->
  (forall b g m m', Q b g m ->
     (forall a, ptr b <= a < ptr b + size -> m' a = m a) -> Q b g m') ->
  (forall b b', 0 <= b < count -> 0 <= b' < count -> b <> b' ->
                ptr b + size <= ptr b' \/ ptr b' + size <= ptr b) ->
  forall b, 0 <= b < count ->
    Q b (snd (for_lt 0 b body s0)) (fst (for_lt 0 count body s0)).
Proof.
  intros Hpost Hframe Hlocal Hdisj b Hb.
  pose (P := fun i s =>
    s = for_lt 0 i body s0
    /\ forall b', 0 <= b' < i -> Q b' (snd (for_lt 0 b' body s0)) (fst s)).
  assert (Hinv : P count (for_lt 0 count body s0)).
  { apply (for_lt_inv P); unfold P.
    - lia.
    - split; [now rewrite for_lt_empty by lia | intros; lia].
    - intros i s Hi [-> HQ]. split.
      + now rewrite for_lt_last by lia.
      + intros b' Hb'. destruct (Z.eq_dec b' i) as [->|Hne].
        * now apply Hpost.
        * apply Hlocal with (m := fst (for_lt 0 i body s0)).
          -- apply HQ. lia.
          -- intros a Ha. apply Hframe; [lia|].
             destruct (Hdisj b' i) as [Hd|Hd]; lia. }
  destruct Hinv as [_ HQ]. now apply HQ.
Qed.

End BatchLoop.

(** ** Diagonal dominance *)

Section Dominance.
Context {T : Type} {ops : Scalar T} {ord : @ScalarOrder T ops}.
Implicit Types (m : mem T).

Lemma abs_sum_nonneg m (idx : Z -> Z) lo hi :
  s_le s_zero (abs_sum m idx lo hi).
Proof.
  unfold abs_sum. apply for_lt_preserves.
  - apply s_le_refl.
  - intros k acc _ Hacc. eapply s_le_trans; [exact Hacc|].
    apply s_le_add_r, s_abs_nonneg.
Qed.

Lemma dominant_value_dominates (R C : T) :
  s_le s_zero R -> s_le s_zero C ->
  s_le R (hipblas_abs (dominant_value R C))
  /\ s_le C (hipblas_abs (dominant_value R C)).
Proof.
  intros HR HC.
  assert (HRs : s_le R (s_add R C)) by now apply s_le_add_r.
  assert (HCs : s_le C (s_add R C)) by now apply s_le_add_l.
  assert (Hsum : s_le (s_add R C) (hipblas_abs (dominant_value R C))).
  { unfold dominant_value. destruct (s_eqb (s_add R C) s_zero) eqn:Hz.
    - eapply s_le_trans; [now apply s_eqb_zero_le | apply s_abs_nonneg].
    - apply s_scale_le. eapply s_le_trans; [exact HR | exact HRs]. }
  split; eapply s_le_trans; eassumption.
Qed.

(** Summing a line whose entries before, or after, position [i] are zero. *)
Lemma offdiag_sum_zero_before (f : Z -> T) N i :
  0 <= i < N ->
  (forall j, 0 <= j < i -> f j = s_zero) ->
  for_lt 0 N (fun j acc =>
    if j =? i then acc else s_add acc (hipblas_abs (f j))) s_zero
  = for_lt (i + 1) N (fun j acc => s_add acc (hipblas_abs (f j))) s_zero.
Proof.
  intros Hi Hzero.
  rewrite (@for_lt_split _ 0 (i + 1) N) by lia.
  rewrite for_lt_last by lia. rewrite Z.eqb_refl.
  assert (Hpre : for_lt 0 i (fun j acc =>
            if j =? i then acc else s_add acc (hipblas_abs (f j))) s_zero
          = s_zero).
  { apply (for_lt_preserves (fun acc => acc = s_zero)); [reflexivity|].
    intros j acc Hj ->. destruct (Z.eqb_spec j i); [reflexivity|].
    now rewrite Hzero, s_abs_zero, s_add_zero_r by lia. }
  rewrite Hpre. apply for_lt_ext. intros j acc Hj.
  destruct (Z.eqb_spec j i); [lia | reflexivity].
Qed.

Lemma offdiag_sum_zero_after (f : Z -> T) N i :
  0 <= i < N ->
  (forall j, i < j < N -> f j = s_zero) ->
  for_lt 0 N (fun j acc =>
    if j =? i then acc else s_add acc (hipblas_abs (f j))) s_zero
  = for_lt 0 i (fun j acc => s_add acc (hipblas_abs (f j))) s_zero.
Proof.
  intros Hi Hzero.
  rewrite (@for_lt_split _ 0 (i + 1) N) by lia.
  rewrite for_lt_last by lia. rewrite Z.eqb_refl.
  assert (Hpre : for_lt 0 i (fun j acc =>
            if j =? i then acc else s_add acc (hipblas_abs (f j))) s_zero
          = for_lt 0 i (fun j acc => s_add acc (hipblas_abs (f j))) s_zero).
  { apply for_lt_ext. intros j acc Hj.
    destruct (Z.eqb_spec j i); [lia | reflexivity]. }
  rewrite Hpre.
  apply (for_lt_preserves (fun acc =>
    acc = for_lt 0 i (fun j acc => s_add acc (hipblas_abs (f j))) s_zero));
    [reflexivity|].
  intros j acc Hj ->. destruct (Z.eqb_spec j i); [lia|].
  now rewrite Hzero, s_abs_zero, s_add_zero_r by lia.
Qed.

(** A matrix whose diagonal holds the dominant values and whose other
    triangle is zero is diagonally dominant by rows and by columns. *)
Lemma dominant_diagonal_dominates uplo m A lda N i :
  0 <= i < N ->
  dominant_diagonal uplo m A lda N ->
  other_triangle_zero uplo m A lda N ->
  s_le (offdiag_row_sum m A lda N i) (hipblas_abs (entry m A lda i i))
  /\ s_le (offdiag_col_sum m A lda N i) (hipblas_abs (entry m A lda i i)).
Proof.
  intros Hi Hdom Hzero. rewrite (Hdom i Hi).
  assert (Hrow : offdiag_row_sum m A lda N i = stored_row_sum uplo m A lda N i).
  { unfold offdiag_row_sum, stored_row_sum.
    destruct (Ascii.eqb uplo "U") eqn:Hu.
    - apply (offdiag_sum_zero_before (fun j => entry m A lda i j)); [lia|].
      intros j Hj. apply Hzero; try lia. rewrite Hu. apply Z.ltb_lt. lia.
    - apply (offdiag_sum_zero_after (fun j => entry m A lda i j)); [lia|].
      intros j Hj. apply Hzero; try lia. rewrite Hu. apply Z.ltb_lt. lia. }
  assert (Hcol : offdiag_col_sum m A lda N i = stored_col_sum uplo m A lda N i).
  { unfold offdiag_col_sum, stored_col_sum.
    destruct (Ascii.eqb uplo "U") eqn:Hu.
    - apply (offdiag_sum_zero_after (fun r => entry m A lda r i)); [lia|].
      intros r Hr. apply Hzero; try lia. rewrite Hu. apply Z.ltb_lt. lia.
    - apply (offdiag_sum_zero_before (fun r => entry m A lda r i)); [lia|].
      intros r Hr. apply Hzero; try lia. rewrite Hu. apply Z.ltb_lt. lia. }
  rewrite Hrow, Hcol. apply dominant_value_dominates.
  - unfold stored_row_sum. destruct (Ascii.eqb uplo "U"); apply abs_sum_nonneg.
  - unfold stored_col_sum. destruct (Ascii.eqb uplo "U"); apply abs_sum_nonneg.
Qed.

End Dominance.

Section DominantWhole.
Context {T G : Type} {ops : Scalar T}.
Variable rand_gen : G -> T * G.

Lemma fill_matrix_type_dominant uplo A_data N lda stride batch_count
    (m : mem T) (g : G) b :
  0 <= N <= lda -> N < 2 ^ 64 -> 0 <= batch_count < 2 ^ 64 ->
  batch_count <= 1 \/ N * lda <= stride ->
  0 <= b < batch_count ->
  let m' := fst (hipblas_fill_matrix_type rand_gen
                   hipblas_diagonally_dominant_triangular_matrix uplo
                   A_data N N lda stride batch_count (m, g)) in
  dominant_diagonal uplo m' (A_data + b * stride) lda N
  /\ other_triangle_zero uplo m' (A_data + b * stride) lda N.
Proof.
  intros HN Hbig Hbc Hstride Hb m'. unfold m', hipblas_fill_matrix_type.
  rewrite to_size_t_id by lia.
  apply (batch_loop_post
    (fun b => fill_matrix_type_batch rand_gen
                hipblas_diagonally_dominant_triangular_matrix uplo
                (A_data + b * stride) N N lda stride b)
    (fun b => A_data + b * stride) (N * lda)
    (fun b (_ : G) m => dominant_diagonal uplo m (A_data + b * stride) lda N
                        /\ other_triangle_zero uplo m (A_data + b * stride)
                                               lda N)).
  - intros b' s Hb'.
    destruct (@dominant_batch_spec T G ops rand_gen uplo
                (A_data + b' * stride) N lda stride b' s HN Hbig)
      as (Hd & Hz & _).
    now split.
  - intros b' s a Hb' Ha.
    destruct (@dominant_batch_spec T G ops rand_gen uplo
                (A_data + b' * stride) N lda stride b' s HN Hbig)
      as (_ & _ & Hf).
    now apply Hf.
  - intros b' _ m1 m2 HQ Hagree.
    apply (@dominant_local T ops uplo (A_data + b' * stride) N lda m1 m2);
      assumption.
  - intros b1 b2 Hb1 Hb2 Hne. destruct Hstride as [Hone|Hs]; [lia | nia].
  - exact Hb.
Qed.

Lemma init_matrix_dominant uplo (hA : host_batch_matrix) (m : mem T) (g : G) b :
  let N := hbm_n hA in
  let lda := hbm_lda hA in
  hbm_m hA = N -> 0 <= N <= lda -> N < 2 ^ 64 ->
  (forall b1 b2, 0 <= b1 < hbm_batch_count hA ->
                 0 <= b2 < hbm_batch_count hA -> b1 <> b2 ->
                 hbm_ptr hA b1 + N * lda <= hbm_ptr hA b2
                 \/ hbm_ptr hA b2 + N * lda <= hbm_ptr hA b1) ->
  0 <= b < hbm_batch_count hA ->
  let m' := fst (hipblas_init_matrix rand_gen
                   hipblas_diagonally_dominant_triangular_matrix uplo hA
                   (m, g)) in
  dominant_diagonal uplo m' (hbm_ptr hA b) lda N
  /\ other_triangle_zero uplo m' (hbm_ptr hA b) lda N.
Proof.
  intros N lda HM HN Hbig Hdisj Hb m'. unfold m', hipblas_init_matrix.
  rewrite HM. fold N lda.
  apply (batch_loop_post
    (fun b => init_matrix_batch rand_gen
                hipblas_diagonally_dominant_triangular_matrix uplo
                (hbm_ptr hA b) N N lda)
    (hbm_ptr hA) (N * lda)
    (fun b (_ : G) m => dominant_diagonal uplo m (hbm_ptr hA b) lda N
                        /\ other_triangle_zero uplo m (hbm_ptr hA b) lda N)).
  - intros b' s Hb'.
    rewrite (@init_matrix_batch_dominant T G ops rand_gen uplo (hbm_ptr hA b')
               N lda 0 0 s) by lia.
    destruct (@dominant_batch_spec T G ops rand_gen uplo (hbm_ptr hA b')
                N lda 0 0 s HN Hbig) as (Hd & Hz & _).
    now split.
  - intros b' s a Hb' Ha.
    rewrite (@init_matrix_batch_dominant T G ops rand_gen uplo (hbm_ptr hA b')
               N lda 0 0 s) by lia.
    destruct (@dominant_batch_spec T G ops rand_gen uplo (hbm_ptr hA b')
                N lda 0 0 s HN Hbig) as (_ & _ & Hf).
    now apply Hf.
  - intros b' _ m1 m2 HQ Hagree.
    apply (@dominant_local T ops uplo (hbm_ptr hA b') N lda m1 m2); assumption.
  - exact Hdisj.
  - exact Hb.
Qed.

End DominantWhole.

(** The rationals satisfy the order laws. *)

Lemma Q_le_add_r (a b : Q) : (0 <= b)%Q -> (a <= a + b)%Q.
Proof.
  intros Hb. rewrite <- (Qplus_0_r a) at 1.
  apply Qplus_le_compat; [apply Qle_refl | exact Hb].
Qed.

Lemma Q_le_add_l (a b : Q) : (0 <= a)%Q -> (b <= a + b)%Q.
Proof.
  intros Ha. rewrite <- (Qplus_0_l b) at 1.
  apply Qplus_le_compat; [exact Ha | apply Qle_refl].
Qed.

Lemma Q_add_zero_r (a : Q) : (a + 0)%Q = a.
Proof.
  destruct a as [p q]. unfold Qplus. cbn [Qnum Qden].
  f_equal; [lia | apply Pos.mul_1_r].
Qed.

Lemma Q_eqb_zero_le (x : Q) : Qeq_bool x 0 = true -> (x <= 0)%Q.
Proof.
  intros Hx. apply Qeq_bool_iff in Hx. rewrite Hx. apply Qle_refl.
Qed.

Lemma Q_scale_le (x : Q) : (0 <= x)%Q -> (x <= Qabs (x * (101 # 100)))%Q.
Proof.
  intros Hx.
  assert (Hprod : (x <= x * (101 # 100))%Q).
  { lra. }
  rewrite Qabs_pos; [exact Hprod|].
  eapply Qle_trans; [exact Hx | exact Hprod].
Qed.

#[export] Instance Q_order : @ScalarOrder Q Q_scalar := {|
  s_le := Qle;
  s_le_refl := Qle_refl;
  s_le_trans := Qle_trans;
  s_abs_nonneg := Qabs_nonneg;
  s_le_add_r := Q_le_add_r;
  s_le_add_l := Q_le_add_l;
  s_abs_zero := eq_refl;
  s_add_zero_r := Q_add_zero_r;
  s_eqb_zero_le := Q_eqb_zero_le;
  s_scale_le := Q_scale_le
|}.

(** C2: for every batch member, either fill mode and every [N x N] shape
    with [lda >= N] (members not overlapping), after the initializer has run
    with the diagonally dominant triangular kind each diagonal entry is
    [T(1.01)] times the sum of the absolute values of the off-diagonal
    entries of its stored row and column, or [T(1)] when that sum is zero;
    hence, over an ordered value type, [|A[i][i]|] is at least the sum of
    [|A[i][j]|] over [j != i], by rows and by columns.  This holds for
    [hipblas_fill_matrix_type] and for [hipblas_init_matrix]. *)
Theorem diagonally_dominant_triangular_init :
  forall (T G : Type) (ops : Scalar T) (ord : @ScalarOrder T ops)
         (rand_gen : G -> T * G) (uplo : ascii) (N lda : Z)
         (m : mem T) (g : G),
    0 <= N <= lda -> N < 2 ^ 64 ->
    (forall A_data stride batch_count b i,
       0 <= batch_count < 2 ^ 64 ->
       batch_count <= 1 \/ N * lda <= stride ->
       0 <= b < batch_count -> 0 <= i < N ->
       let m' := fst (hipblas_fill_matrix_type rand_gen
                        hipblas_diagonally_dominant_triangular_matrix uplo
                        A_data N N lda stride batch_count (m, g)) in
       let A := A_data + b * stride in
       entry m' A lda i i
       = dominant_value (stored_row_sum uplo m' A lda N i)
                        (stored_col_sum uplo m' A lda N i)
       /\ s_le (offdiag_row_sum m' A lda N i) (hipblas_abs (entry m' A lda i i))
       /\ s_le (offdiag_col_sum m' A lda N i)
               (hipblas_abs (entry m' A lda i i)))
    /\ (forall (hA : host_batch_matrix) b i,
          hbm_m hA = N -> hbm_n hA = N -> hbm_lda hA = lda ->
          (forall b1 b2, 0 <= b1 < hbm_batch_count hA ->
                         0 <= b2 < hbm_batch_count hA -> b1 <> b2 ->
                         hbm_ptr hA b1 + N * lda <= hbm_ptr hA b2
                         \/ hbm_ptr hA b2 + N * lda <= hbm_ptr hA b1) ->
          0 <= b < hbm_batch_count hA -> 0 <= i < N ->
          let m' := fst (hipblas_init_matrix rand_gen
                           hipblas_diagonally_dominant_triangular_matrix uplo
                           hA (m, g)) in
          let A := hbm_ptr hA b in
          entry m' A lda i i
          = dominant_value (stored_row_sum uplo m' A lda N i)
                           (stored_col_sum uplo m' A lda N i)
          /\ s_le (offdiag_row_sum m' A lda N i)
                  (hipblas_abs (entry m' A lda i i))
          /\ s_le (offdiag_col_sum m' A lda N i)
                  (hipblas_abs (entry m' A lda i i))).
Proof.
  intros T G ops ord rand_gen uplo N lda m g HN Hbig. split.
  - intros A_data stride batch_count b i Hbc Hstride Hb Hi m' A.
    destruct (@fill_matrix_type_dominant T G ops rand_gen uplo A_data N lda
                stride batch_count m g b HN Hbig Hbc Hstride Hb)
      as [Hdom Hzero].
    fold m' A in Hdom, Hzero.
    split; [now apply Hdom|].
    now apply (@dominant_diagonal_dominates T ops ord uplo).
  - intros hA b i HM HNn Hlda Hdisj Hb Hi m' A.
    destruct (@init_matrix_dominant T G ops rand_gen uplo hA m g b)
      as [Hdom Hzero]; rewrite ?HM, ?HNn, ?Hlda; auto.
    fold m' A in Hdom, Hzero. rewrite HNn, Hlda in Hdom, Hzero.
    split; [now apply Hdom|].
    now apply (@dominant_diagonal_dominates T ops ord uplo).
Qed.

Lemma diagonally_dominant_triangular_init_witness :
  (0 <= 3 <= 4 /\ 3 < 2 ^ 64 /\ 0 <= 2 < 2 ^ 64
   /\ (2 <= 1 \/ 3 * 4 <= 12) /\ 0 <= 1 < 2 /\ 0 <= 0 < 3) /\
  let m' := fst (hipblas_fill_matrix_type counter_gen_Q
                   hipblas_diagonally_dominant_triangular_matrix "U"%char
                   0 3 3 4 12 2 (fun _ => 0%Q, 0)) in
  (offdiag_row_sum m' (0 + 1 * 12) 4 3 0
   <= hipblas_abs (entry m' (0 + 1 * 12) 4 0 0))%Q.
Proof.
  assert (HN : 0 <= 3 <= 4) by lia.
  assert (Hbig : 3 < 2 ^ 64) by lia.
  assert (Hbc : 0 <= 2 < 2 ^ 64) by lia.
  assert (Hstride : 2 <= 1 \/ 3 * 4 <= 12) by (right; lia).
  assert (Hb : 0 <= 1 < 2) by lia.
  assert (Hi : 0 <= 0 < 3) by lia.
  split; [repeat split; try lia; exact Hstride|].
  destruct (@diagonally_dominant_triangular_init Q Z Q_scalar Q_order
              counter_gen_Q "U"%char 3 4 (fun _ => 0%Q) 0 HN Hbig)
    as [Hfill _].
  exact (proj1 (proj2 (Hfill 0 12 2 1 0 Hbc Hstride Hb Hi))).
Defined.

Example diagonally_dominant_example :
  let m' := fst (hipblas_fill_matrix_type counter_gen
                   hipblas_diagonally_dominant_triangular_matrix "U"%char
                   0 3 3 3 9 1 (fun _ => 0, 0)) in
  map m' [0; 1; 2; 3; 4; 5; 6; 7; 8] = [6; 0; 0; 2; 7; 0; 4; 5; 9].
Proof. reflexivity. Qed.

(** ** Hermitian and symmetric kinds *)

Section GeneratorFacts.
Context {T G : Type}.
Variable rand_gen : G -> T * G.

Lemma advance_add k l (g : G) :
  advance rand_gen (k + l) g = advance rand_gen k (advance rand_gen l g).
Proof. unfold advance. apply Nat.iter_add. Qed.

Lemma draw_advance k l (g : G) :
  draw rand_gen (advance rand_gen l g) k = draw rand_gen g (k + l).
Proof. unfold draw. now rewrite advance_add. Qed.

End GeneratorFacts.

Section MirroredFacts.
Context {T G : Type} {ops : Scalar T}.
Variable rand_gen : G -> T * G.
Variables on_diagonal mirror : T -> T.
Implicit Types (m : mem T) (g : G).

Lemma hermitian_entry_shape uplo A lda i j (s : mem T * G) :
  hermitian_entry rand_gen uplo A lda i j s
  = mirrored_entry rand_gen hipblas_real hipblas_conjugate uplo A lda i j s.
Proof. reflexivity. Qed.

Lemma symmetric_entry_shape uplo A lda i j (s : mem T * G) :
  symmetric_entry rand_gen uplo A lda i j s
  = mirrored_entry rand_gen (fun v => v) (fun v => v) uplo A lda i j s.
Proof. reflexivity. Qed.

Lemma pair_filled_local uplo value m m' A lda i j :
  m' (A + (j + i * lda)) = m (A + (j + i * lda)) ->
  m' (A + (i + j * lda)) = m (A + (i + j * lda)) ->
  pair_filled on_diagonal mirror uplo value m A lda i j ->
  pair_filled on_diagonal mirror uplo value m' A lda i j.
Proof.
  unfold pair_filled, entry. intros H1 H2.
  destruct (Z.eqb_spec i j) as [->|Hne].
  - now rewrite H1.
  - now rewrite H1, H2.
Qed.

(** One iteration. *)
Lemma mirrored_entry_step uplo A lda N i j m g :
  0 <= j <= i -> i < N -> N <= lda ->
  let s' := mirrored_entry rand_gen on_diagonal mirror uplo A lda i j (m, g) in
  snd s' = snd (rand_gen g)
  /\ pair_filled on_diagonal mirror uplo (fst (rand_gen g)) (fst s') A lda i j
  /\ (forall a, a <> A + (j + i * lda) -> a <> A + (i + j * lda) ->
        fst s' a = m a).
Proof.
  intros Hj Hi Hlda. unfold mirrored_entry, pair_filled, entry.
  destruct (rand_gen g) as [value g']. cbn [fst snd].
  destruct (Z.eqb_spec i j) as [->|Hne]; cbn [fst snd].
  - split; [reflexivity | split].
    + apply upd_same.
    + intros a Ha _. now apply upd_other.
  - assert (Hdist : A + (j + i * lda) <> A + (i + j * lda)) by nia.
    destruct (Ascii.eqb uplo "U"); [|destruct (Ascii.eqb uplo "L")];
      cbn [fst snd]; (split; [reflexivity | split; [split|]]);
      try apply upd_same;
      try (rewrite upd_other by exact Hdist; apply upd_same);
      intros a Ha1 Ha2; now rewrite !upd_other.
Qed.

Lemma pair_cells_distinct lda N i j c r :
  0 <= j <= i -> i < N -> 0 <= r <= c -> c < N -> N <= lda ->
  (c, r) <> (i, j) ->
  forall A, (A + (r + c * lda) <> A + (j + i * lda)
             /\ A + (r + c * lda) <> A + (i + j * lda))
            /\ (A + (c + r * lda) <> A + (j + i * lda)
                /\ A + (c + r * lda) <> A + (i + j * lda)).
Proof.
  intros Hj Hi Hr Hc Hlda Hne A.
  assert (Hne' : c <> i \/ r <> j).
  { destruct (Z.eq_dec c i) as [->|]; [|now left].
    destruct (Z.eq_dec r j) as [->|]; [now contradiction Hne | now right]. }
  repeat split; intros Heq;
    match type of Heq with
    | A + ?x = A + ?y => assert (Heq' : x = y) by lia
    end;
    apply cell_inj in Heq'; lia.
Qed.

Local Abbreviation tri c := (c * (c + 1) / 2).

(** The loops over one matrix. *)
Lemma mirrored_fill_spec uplo A lda N m0 g :
  0 <= N <= lda ->
  let s' := for_lt 0 N (fun i =>
              for_le 0 i (fun j =>
                mirrored_entry rand_gen on_diagonal mirror uplo A lda i j))
              (m0, g) in
  snd s' = advance rand_gen (Z.to_nat (tri N)) g
  /\ triangle_filled on_diagonal mirror uplo
       (fun i j => draw rand_gen g (Z.to_nat (tri i + j))) (fst s') A lda N
  /\ (forall a, a < A \/ A + N * lda <= a -> fst s' a = m0 a).
Proof.
  intros HN s'.
  pose (P := fun i (q : mem T * G) =>
    snd q = advance rand_gen (Z.to_nat (tri i)) g
    /\ (forall c r, 0 <= r <= c -> c < i ->
          pair_filled on_diagonal mirror uplo
            (draw rand_gen g (Z.to_nat (tri c + r))) (fst q) A lda c r)
    /\ (forall a, a < A \/ A + N * lda <= a -> fst q a = m0 a)).
  assert (Hinv : P N s').
  { unfold s'. apply (for_lt_inv P); unfold P.
    - lia.
    - cbn [fst snd]. split; [reflexivity | split; intros; [lia | reflexivity]].
    - intros i q Hi (Hg & Hfill & Hframe).
      pose (Q := fun j (q' : mem T * G) =>
        snd q' = advance rand_gen (Z.to_nat (tri i + j)) g
        /\ (forall c r, 0 <= r <= c -> c < i \/ (c = i /\ r < j) ->
              pair_filled on_diagonal mirror uplo
                (draw rand_gen g (Z.to_nat (tri c + r))) (fst q') A lda c r)
        /\ (forall a, a < A \/ A + N * lda <= a -> fst q' a = m0 a)).
      assert (Hinner : Q (i + 1)
                (for_le 0 i (fun j =>
                   mirrored_entry rand_gen on_diagonal mirror uplo A lda i j)
                   q)).
      { apply (for_le_inv Q); unfold Q.
        - lia.
        - rewrite Z.add_0_r. split; [exact Hg | split; [|exact Hframe]].
          intros c r Hr [Hc|[-> Hr']]; [now apply Hfill | lia].
        - intros j [m gq] Hj (Hgq & Hfillq & Hframeq). cbn [fst snd] in *.
          subst gq.
          assert (Htri : 0 <= tri i) by (apply (@tri_mono 0 i); lia).
          destruct (@mirrored_entry_step uplo A lda N i j m
                      (advance rand_gen (Z.to_nat (tri i + j)) g))
            as (Hg' & Hpair & Hother); try lia.
          split; [|split].
          + rewrite Hg'.
            replace (Z.to_nat (tri i + (j + 1)))
              with (S (Z.to_nat (tri i + j))) by lia.
            reflexivity.
          + intros c r Hr Hc.
            destruct (Z.eq_dec c i) as [->|Hci];
              [destruct (Z.eq_dec r j) as [->|Hrj]|].
            * exact Hpair.
            * destruct (@pair_cells_distinct lda N i j i r) with (A := A)
                as [[H1 H2] [H3 H4]]; try lia; [congruence|].
              apply pair_filled_local with (m := m);
                [now apply Hother | now apply Hother | apply Hfillq; lia].
            * destruct (@pair_cells_distinct lda N i j c r) with (A := A)
                as [[H1 H2] [H3 H4]]; try lia; [congruence|].
              apply pair_filled_local with (m := m);
                [now apply Hother | now apply Hother | apply Hfillq; lia].
          + intros a Ha. rewrite Hother.
            * now apply Hframeq.
            * pose proof (@entry_in_region A lda N j i). lia.
            * pose proof (@entry_in_region A lda N i j). lia. }
      destruct Hinner as (Hg' & Hfill' & Hframe').
      rewrite tri_succ. split; [|split].
      + rewrite Hg'. f_equal. lia.
      + intros c r Hr Hc. apply Hfill'; lia.
      + exact Hframe'. }
  destruct Hinv as (Hg & Hfill & Hframe). split; [exact Hg | split].
  - intros i j Hj Hi. now apply Hfill.
  - exact Hframe.
Qed.

Lemma triangle_filled_local uplo v m m' A lda N :
  0 <= N <= lda ->
  (forall a, A <= a < A + N * lda -> m' a = m a) ->
  triangle_filled on_diagonal mirror uplo v m A lda N ->
  triangle_filled on_diagonal mirror uplo v m' A lda N.
Proof.
  intros HN Hagree Hfill i j Hj Hi.
  apply pair_filled_local with (m := m).
  - apply Hagree. apply entry_in_region; lia.
  - apply Hagree. apply entry_in_region; lia.
  - now apply Hfill.
Qed.

End MirroredFacts.

Section BatchGenerator.
Context {T G : Type}.
Variable rand_gen : G -> T * G.

(** Generator state at the start of batch member [b] when every member
    draws [cnt] values. *)
Lemma batch_generator (body : Z -> mem T * G -> mem T * G) (cnt : nat)
    count s0 b :
  (forall b s, 0 <= b < count ->
               snd (body b s) = advance rand_gen cnt (snd s)) ->
  0 <= b <= count ->
  snd (for_lt 0 b body s0) = advance rand_gen (Z.to_nat b * cnt) (snd s0).
Proof.
  intros Hstep Hb.
  apply (for_lt_inv (fun i s =>
    snd s = advance rand_gen (Z.to_nat i * cnt) (snd s0))).
  - lia.
  - reflexivity.
  - intros i s Hi Hs. rewrite Hstep, Hs by lia. rewrite <- advance_add.
    f_equal. lia.
Qed.

End BatchGenerator.

Section MirroredWhole.
Context {T G : Type} {ops : Scalar T}.
Variable rand_gen : G -> T * G.
Implicit Types (m : mem T) (g : G).

Local Abbreviation tri c := (c * (c + 1) / 2).

(** Kind, diagonal treatment and mirror function of the two kinds. *)
Local Abbreviation kind_of hermitian :=
  (if hermitian then hipblas_hermitian_matrix else hipblas_symmetric_matrix).
Local Abbreviation diagonal_of hermitian :=
  (if hermitian then hipblas_real else fun v : T => v).
Local Abbreviation mirror_of hermitian :=
  (if hermitian then hipblas_conjugate else fun v : T => v).

Lemma mirrored_batch_shape (hermitian : bool) uplo A M N lda stride b
    (s : mem T * G) :
  0 <= N < 2 ^ 64 ->
  fill_matrix_type_batch rand_gen (kind_of hermitian) uplo A M N lda stride b s
  = for_lt 0 N (fun i =>
      for_le 0 i (fun j =>
        mirrored_entry rand_gen (diagonal_of hermitian) (mirror_of hermitian)
                       uplo A lda i j)) s
  /\ init_matrix_batch rand_gen (kind_of hermitian) uplo A M N lda s
     = for_lt 0 N (fun i =>
         for_le 0 i (fun j =>
           mirrored_entry rand_gen (diagonal_of hermitian)
                          (mirror_of hermitian) uplo A lda i j)) s.
Proof.
  intros HN. destruct hermitian;
    unfold fill_matrix_type_batch, init_matrix_batch;
    rewrite to_size_t_id by lia; split; reflexivity.
Qed.

Lemma mirrored_batches (hermitian : bool) uplo N lda
    (body : Z -> mem T * G -> mem T * G) (ptr : Z -> Z) count m g b :
  0 <= N <= lda ->
  (forall b s, body b s
     = for_lt 0 N (fun i =>
         for_le 0 i (fun j =>
           mirrored_entry rand_gen (diagonal_of hermitian)
                          (mirror_of hermitian) uplo (ptr b) lda i j)) s) ->
  (forall b1 b2, 0 <= b1 < count -> 0 <= b2 < count -> b1 <> b2 ->
                 ptr b1 + N * lda <= ptr b2 \/ ptr b2 + N * lda <= ptr b1) ->
  0 <= b < count ->
  triangle_filled (diagonal_of hermitian) (mirror_of hermitian) uplo
    (fun i j => draw rand_gen g
                  (Z.to_nat (tri i + j) + Z.to_nat b * Z.to_nat (tri N)))
    (fst (for_lt 0 count body (m, g))) (ptr b) lda N.
Proof.
  intros HN Hbody Hdisj Hb.
  assert (Hgen : forall b s, 0 <= b < count ->
            snd (body b s) = advance rand_gen (Z.to_nat (tri N)) (snd s)).
  { intros b' [m' g'] _. rewrite Hbody.
    now destruct (@mirrored_fill_spec T G ops rand_gen (diagonal_of hermitian)
                    (mirror_of hermitian) uplo (ptr b') lda N m' g' HN)
      as (Hg & _). }
  pose proof (@batch_loop_post T G body ptr (N * lda) count
    (fun b g' m' =>
       triangle_filled (diagonal_of hermitian) (mirror_of hermitian) uplo
         (fun i j => draw rand_gen g' (Z.to_nat (tri i + j))) m' (ptr b) lda N)
    (m, g)) as Hloop.
  assert (Hfinal := Hloop).
  specialize (Hfinal
    ltac:(intros b' [m' g'] _; rewrite Hbody;
          now destruct (@mirrored_fill_spec T G ops rand_gen
                          (diagonal_of hermitian) (mirror_of hermitian) uplo
                          (ptr b') lda N m' g' HN) as (_ & Hf & _))
    ltac:(intros b' [m' g'] a _ Ha; rewrite Hbody;
          destruct (@mirrored_fill_spec T G ops rand_gen
                      (diagonal_of hermitian) (mirror_of hermitian) uplo
                      (ptr b') lda N m' g' HN) as (_ & _ & Hf);
          now apply Hf)
    ltac:(intros b' g' m1 m2 HQ Hagree;
          now apply (@triangle_filled_local T ops (diagonal_of hermitian)
                       (mirror_of hermitian) uplo _ m1 m2 (ptr b') lda N))
    Hdisj b Hb).
  rewrite (@batch_generator T G rand_gen body (Z.to_nat (tri N)) count (m, g) b)
    in Hfinal by (auto; lia).
  cbn [snd] in Hfinal. cbv beta in Hfinal.
  intros i j Hj Hi. specialize (Hfinal i j Hj Hi). cbv beta in Hfinal.
  now rewrite draw_advance in Hfinal.
Qed.

End MirroredWhole.

(** C3 (as stated), refuted: with fill mode ['U'] the position mirrored
    across the diagonal does not receive the conjugate (hermitian) or a copy
    (symmetric) of the generated entry; it is set to zero.  For [N = 2] the
    entry (0, 1) is the generated value and the entry (1, 0) is [T(0)]. *)
Lemma hermitian_mirror_is_not_conjugate :
  ~ mirror_image hipblas_conjugate "U"%char
      (fst (hipblas_fill_matrix_type counter_gen_ZZ hipblas_hermitian_matrix
              "U"%char 0 2 2 2 0 1 (fun _ => (0, 0), 0))) 0 2 2
  /\ ~ mirror_image (fun v => v) "U"%char
         (fst (hipblas_fill_matrix_type counter_gen hipblas_symmetric_matrix
                 "U"%char 0 2 2 2 0 1 (fun _ => 0, 0))) 0 2 2.
Proof.
  split; intros Hclaim; specialize (Hclaim 1 0 ltac:(lia) ltac:(lia));
    vm_compute in Hclaim; discriminate.
Qed.

(** C3 (amended): for the hermitian and the symmetric kind the initializer
    draws one value per entry of a triangle, iteration ([i], [j]), [j <= i],
    of batch member [b] receiving draw number [b * N(N+1)/2 + i(i+1)/2 + j].
    A diagonal value is stored through [hipblas_real] (hermitian) or as it
    is (symmetric).  With fill mode ['U'] an off-diagonal value goes to the
    entry above the diagonal and the mirrored entry below is set to zero;
    with ['L'] the value goes below and the mirrored entry above is zero.
    Only when the fill mode is neither ['U'] nor ['L'] does the mirrored
    entry receive the conjugate (hermitian) or a copy (symmetric) of the
    generated value.  This holds for [hipblas_fill_matrix_type] and for
    [hipblas_init_matrix], for every batch member. *)
Theorem hermitian_symmetric_init :
  forall (T G : Type) (ops : Scalar T) (rand_gen : G -> T * G)
         (hermitian : bool) (uplo : ascii) (N lda : Z) (m : mem T) (g : G),
    0 <= N <= lda -> N < 2 ^ 64 ->
    let kind := if hermitian then hipblas_hermitian_matrix
                else hipblas_symmetric_matrix in
    let on_diagonal := if hermitian then hipblas_real else fun v : T => v in
    let mirror := if hermitian then hipblas_conjugate else fun v : T => v in
    let v (b : Z) (i j : Z) :=
      draw rand_gen g (Z.to_nat (i * (i + 1) / 2 + j)
                       + Z.to_nat b * Z.to_nat (N * (N + 1) / 2)) in
    (forall A_data M stride batch_count b,
       0 <= batch_count < 2 ^ 64 ->
       batch_count <= 1 \/ N * lda <= stride ->
       0 <= b < batch_count ->
       triangle_filled on_diagonal mirror uplo (v b)
         (fst (hipblas_fill_matrix_type rand_gen kind uplo A_data M N lda
                                        stride batch_count (m, g)))
         (A_data + b * stride) lda N)
    /\ (forall (hA : host_batch_matrix) b,
          hbm_n hA = N -> hbm_lda hA = lda ->
          (forall b1 b2, 0 <= b1 < hbm_batch_count hA ->
                         0 <= b2 < hbm_batch_count hA -> b1 <> b2 ->
                         hbm_ptr hA b1 + N * lda <= hbm_ptr hA b2
                         \/ hbm_ptr hA b2 + N * lda <= hbm_ptr hA b1) ->
          0 <= b < hbm_batch_count hA ->
          triangle_filled on_diagonal mirror uplo (v b)
            (fst (hipblas_init_matrix rand_gen kind uplo hA (m, g)))
            (hbm_ptr hA b) lda N).
Proof.
  intros T G ops rand_gen hermitian uplo N lda m g HN Hbig
         kind on_diagonal mirror v.
  subst kind on_diagonal mirror v. cbv beta.
  split.
  - intros A_data M stride batch_count b Hbc Hstride Hb.
    unfold hipblas_fill_matrix_type. rewrite to_size_t_id by lia.
    apply (@mirrored_batches T G ops rand_gen hermitian uplo N lda
             (fun b => fill_matrix_type_batch rand_gen
                         (if hermitian then hipblas_hermitian_matrix
                          else hipblas_symmetric_matrix) uplo
                         (A_data + b * stride) M N lda stride b)
             (fun b => A_data + b * stride) batch_count m g b HN).
    + intros b' s.
      now destruct (@mirrored_batch_shape T G ops rand_gen hermitian uplo
                      (A_data + b' * stride) M N lda stride b' s) as [-> _];
        [lia|].
    + intros b1 b2 Hb1 Hb2 Hne. destruct Hstride as [Hone|Hs]; [lia | nia].
    + exact Hb.
  - intros hA b HNn Hlda Hdisj Hb.
    unfold hipblas_init_matrix. rewrite HNn, Hlda.
    apply (@mirrored_batches T G ops rand_gen hermitian uplo N lda
             (fun b => init_matrix_batch rand_gen
                         (if hermitian then hipblas_hermitian_matrix
                          else hipblas_symmetric_matrix) uplo (hbm_ptr hA b)
                         (hbm_m hA) N lda)
             (hbm_ptr hA) (hbm_batch_count hA) m g b HN).
    + intros b' s.
      now destruct (@mirrored_batch_shape T G ops rand_gen hermitian uplo
                      (hbm_ptr hA b') (hbm_m hA) N lda 0 0 s) as [_ ->];
        [lia|].
    + exact Hdisj.
    + exact Hb.
Qed.

Lemma hermitian_symmetric_init_witness :
  (0 <= 2 <= 2 /\ 2 < 2 ^ 64 /\ 0 <= 1 < 2 ^ 64 /\ (1 <= 1 \/ 2 * 2 <= 0)
   /\ 0 <= 0 < 1) /\
  let m' := fst (hipblas_fill_matrix_type counter_gen_ZZ
                   hipblas_hermitian_matrix "U"%char 0 2 2 2 0 1
                   (fun _ => (0, 0), 0)) in
  entry m' 0 2 0 1 = (2, 2) /\ entry m' 0 2 1 0 = (0, 0).
Proof.
  assert (HN : 0 <= 2 <= 2) by lia.
  assert (Hbig : 2 < 2 ^ 64) by lia.
  assert (Hbc : 0 <= 1 < 2 ^ 64) by lia.
  assert (Hstride : 1 <= 1 \/ 2 * 2 <= 0) by (left; lia).
  assert (Hb : 0 <= 0 < 1) by lia.
  split; [repeat split; try lia; exact Hstride|].
  destruct (@hermitian_symmetric_init (Z * Z) Z ZZ_scalar counter_gen_ZZ true
              "U"%char 2 2 (fun _ => (0, 0)) 0 HN Hbig) as [Hfill _].
  exact (Hfill 0 2 0 1 0 Hbc Hstride Hb 1 0 ltac:(lia) ltac:(lia)).
Defined.

(** ** Drivers *)

Lemma status_eqb_eq a b : status_eqb a b = true <-> a = b.
Proof. destruct a, b; cbn; split; intros Heq; congruence. Qed.

Lemma op_eqb_eq a b : op_eqb a b = true <-> a = b.
Proof. destruct a, b; cbn; split; intros Heq; congruence. Qed.

(** The modelled routines pass every assertion of the three bad-argument
    suites, for every interface and either setting of [bad_arg_all]. *)
Lemma bad_arg_suites_hold (double : Type) (arg : Arguments double) :
  forallb (assertion_holds hipblasHemv) (testing_hemv_bad_arg arg) = true
  /\ forallb (assertion_holds hipblasSyrkStridedBatched)
             (testing_syrk_strided_batched_bad_arg (2 ^ 31) arg) = true
  /\ forallb (assertion_holds hipblasGeam)
             (testing_geam_bad_arg (2 ^ 31) arg) = true.
Proof.
  destruct arg as [api bad_arg_all M N K lda ldb ldc incx incy batch_count
                   stride_scale uplo transA transB].
  destruct api, bad_arg_all; vm_compute; repeat split.
Qed.

Lemma hemv_invalid_size_true N lda incx incy :
  hemv_invalid_size N lda incx incy = true
  <-> N < 0 \/ lda < N \/ lda < 1 \/ incx = 0 \/ incy = 0.
Proof.
  unfold hemv_invalid_size.
  rewrite !orb_true_iff, !Z.ltb_lt, !Z.eqb_eq. tauto.
Qed.

Lemma syrk_invalid_size_true transA N K lda ldc batch_count :
  syrk_invalid_size transA N K lda ldc batch_count = true
  <-> N < 0 \/ K < 0 \/ ldc < N \/ (transA = HIPBLAS_OP_N /\ lda < N)
      \/ (transA <> HIPBLAS_OP_N /\ lda < K) \/ batch_count < 0.
Proof.
  unfold syrk_invalid_size.
  rewrite !orb_true_iff, !andb_true_iff, negb_true_iff, !Z.ltb_lt.
  rewrite <- not_true_iff_false, op_eqb_eq. tauto.
Qed.

Lemma geam_invalid_size_true M N lda A_row ldb B_row ldc :
  geam_invalid_size M N lda A_row ldb B_row ldc = true
  <-> M < 0 \/ N < 0 \/ lda < A_row \/ ldb < B_row \/ ldc < M.
Proof.
  unfold geam_invalid_size.
  rewrite !orb_true_iff, !Z.ltb_lt. tauto.
Qed.

Section DriverFacts.
Variable double : Type.
Variable stride_of : Z -> double -> Z.
Variable char2hipblas_fill : ascii -> hipblasFillMode_t.
Variable char2hipblas_operation : ascii -> hipblasOperation_t.
Implicit Types (arg : Arguments double).

(** The quick-return branch of [testing_hemv]. *)
Lemma testing_hemv_quick arg :
  let N := to_int (arg_N arg) in
  let lda := to_int (arg_lda arg) in
  let incx := to_int (arg_incx arg) in
  let incy := to_int (arg_incy arg) in
  hemv_invalid_size N lda incx incy || (N =? 0) = true ->
  exists i,
    testing_hemv char2hipblas_fill arg = quick_return i
    /\ hemv_pointers_null (inv_call i) = true
    /\ inv_assert i
       = EXPECT_HIPBLAS_STATUS
           (if hemv_invalid_size N lda incx incy
            then HIPBLAS_STATUS_INVALID_VALUE else HIPBLAS_STATUS_SUCCESS)
    /\ hipblasHemv (inv_call i)
       = match char2hipblas_fill (arg_uplo arg) with
         | HIPBLAS_FILL_MODE_FULL => rejected HIPBLAS_STATUS_INVALID_VALUE
         | _ => if hemv_invalid_size N lda incx incy
                then rejected HIPBLAS_STATUS_INVALID_VALUE else no_op
         end.
Proof.
  intros N lda incx incy Hq. unfold testing_hemv. cbv zeta.
  fold N lda incx incy. rewrite Hq.
  eexists. split; [reflexivity|]. cbn [inv_call inv_assert].
  split; [reflexivity | split; [reflexivity|]].
  unfold hipblasHemv. cbn [hemv_handle hemv_uplo hemv_n hemv_lda hemv_incx
                           hemv_incy fill_status].
  unfold hemv_invalid_size in *.
  destruct (char2hipblas_fill (arg_uplo arg)); try reflexivity;
    destruct ((N <? 0) || (lda <? N) || (lda <? 1) || (incx =? 0)
              || (incy =? 0)); try reflexivity;
    cbn [orb] in Hq; now rewrite Hq.
Qed.

(** The quick-return branch of [testing_syrk_strided_batched]. *)
Lemma testing_syrk_quick arg :
  let transA := char2hipblas_operation (arg_transA arg) in
  let N := arg_N arg in
  let K := arg_K arg in
  let lda := arg_lda arg in
  let ldc := arg_ldc arg in
  let batch_count := arg_batch_count arg in
  syrk_invalid_size transA N K lda ldc batch_count || (N =? 0)
    || (batch_count =? 0) = true ->
  exists i,
    testing_syrk_strided_batched stride_of char2hipblas_fill
                                 char2hipblas_operation arg = quick_return i
    /\ syrk_pointers_null (inv_call i) = true
    /\ inv_assert i
       = EXPECT_HIPBLAS_STATUS
           (if syrk_invalid_size transA N K lda ldc batch_count
            then HIPBLAS_STATUS_INVALID_VALUE else HIPBLAS_STATUS_SUCCESS)
    /\ (api_is_64 (arg_api arg) = true
        \/ (fits_int N /\ fits_int K /\ fits_int lda /\ fits_int ldc
            /\ fits_int batch_count) ->
        hipblasSyrkStridedBatched (inv_call i)
        = match char2hipblas_fill (arg_uplo arg) with
          | HIPBLAS_FILL_MODE_FULL => rejected HIPBLAS_STATUS_INVALID_VALUE
          | _ => if syrk_invalid_size transA N K lda ldc batch_count
                 then rejected HIPBLAS_STATUS_INVALID_VALUE else no_op
          end).
Proof.
  intros transA N K lda ldc batch_count Hq.
  unfold testing_syrk_strided_batched. cbv zeta.
  fold transA N K lda ldc batch_count. rewrite Hq.
  eexists. split; [reflexivity|].
  assert (Hmodel : forall c,
    syrk_handle c = handle_local HIPBLAS_POINTER_MODE_HOST ->
    syrk_uplo c = fill_value (char2hipblas_fill (arg_uplo arg)) ->
    syrk_transA c = op_value transA ->
    syrk_n c = N -> syrk_k c = K -> syrk_lda c = lda -> syrk_ldc c = ldc ->
    syrk_batch_count c = batch_count ->
    hipblasSyrkStridedBatched c
    = match char2hipblas_fill (arg_uplo arg) with
      | HIPBLAS_FILL_MODE_FULL => rejected HIPBLAS_STATUS_INVALID_VALUE
      | _ => if syrk_invalid_size transA N K lda ldc batch_count
             then rejected HIPBLAS_STATUS_INVALID_VALUE else no_op
      end).
  { intros c Hh Hu Ht Hn Hk Hl Hc Hbc. unfold hipblasSyrkStridedBatched.
    rewrite Hh, Hu, Ht, Hn, Hk, Hl, Hc, Hbc. cbn [fill_status op_status op_is_N].
    replace (match transA with HIPBLAS_OP_N => true | _ => false end)
      with (op_eqb transA HIPBLAS_OP_N) by now destruct transA.
    unfold syrk_invalid_size in *.
    destruct (char2hipblas_fill (arg_uplo arg)); try reflexivity;
      destruct ((N <? 0) || (K <? 0) || (ldc <? N)
                || op_eqb transA HIPBLAS_OP_N && (lda <? N)
                || negb (op_eqb transA HIPBLAS_OP_N) && (lda <? K)
                || (batch_count <? 0)); try reflexivity;
      cbn [orb] in Hq; now rewrite Hq. }
  unfold DAPI. destruct (api_is_64 (arg_api arg)) eqn:H64;
    cbn [inv_call inv_assert]; (split; [reflexivity | split; [reflexivity|]]).
  - intros _. now apply Hmodel.
  - intros [Hfalse | (HfN & HfK & Hfl & Hfc & Hfb)]; [discriminate|].
    apply Hmodel; cbn; try reflexivity; now apply to_int_id.
Qed.

(** The quick-return branch of [testing_geam]. *)
Lemma testing_geam_quick arg :
  let transA := char2hipblas_operation (arg_transA arg) in
  let transB := char2hipblas_operation (arg_transB arg) in
  let M := arg_M arg in
  let N := arg_N arg in
  let lda := arg_lda arg in
  let ldb := arg_ldb arg in
  let ldc := arg_ldc arg in
  let A_row := if op_eqb transA HIPBLAS_OP_N then M else N in
  let B_row := if op_eqb transB HIPBLAS_OP_N then M else N in
  geam_invalid_size M N lda A_row ldb B_row ldc || (N =? 0) || (M =? 0)
    = true ->
  exists i,
    testing_geam char2hipblas_operation arg = quick_return i
    /\ geam_pointers_null (inv_call i) = true
    /\ inv_assert i
       = EXPECT_HIPBLAS_STATUS
           (if geam_invalid_size M N lda A_row ldb B_row ldc
            then HIPBLAS_STATUS_INVALID_VALUE else HIPBLAS_STATUS_SUCCESS)
    /\ (api_is_64 (arg_api arg) = true
        \/ (fits_int M /\ fits_int N /\ fits_int lda /\ fits_int ldb
            /\ fits_int ldc) ->
        hipblasGeam (inv_call i)
        = if geam_invalid_size M N lda A_row ldb B_row ldc
          then rejected HIPBLAS_STATUS_INVALID_VALUE
          else if (lda =? ldc) && (ldb =? ldc) then no_op
          else rejected HIPBLAS_STATUS_INVALID_VALUE).
Proof.
  intros transA transB M N lda ldb ldc A_row B_row Hq.
  unfold testing_geam. cbv zeta.
  fold transA transB M N lda ldb ldc.
  assert (HA : (let '(A_row, _) := if op_eqb transA HIPBLAS_OP_N
                                   then (M, N) else (N, M) in A_row) = A_row)
    by (unfold A_row; now destruct (op_eqb transA HIPBLAS_OP_N)).
  assert (HB : (let '(B_row, _) := if op_eqb transB HIPBLAS_OP_N
                                   then (M, N) else (N, M) in B_row) = B_row)
    by (unfold B_row; now destruct (op_eqb transB HIPBLAS_OP_N)).
  assert (Hmodel : forall c,
    geam_handle c = handle_local HIPBLAS_POINTER_MODE_HOST ->
    geam_transA c = op_value transA -> geam_transB c = op_value transB ->
    geam_m c = M -> geam_n c = N -> geam_lda c = lda -> geam_ldb c = ldb ->
    geam_ldc c = ldc ->
    geam_A c = nullptr -> geam_B c = nullptr -> geam_C c = nullptr ->
    hipblasGeam c
    = if geam_invalid_size M N lda A_row ldb B_row ldc
      then rejected HIPBLAS_STATUS_INVALID_VALUE
      else if (lda =? ldc) && (ldb =? ldc) then no_op
      else rejected HIPBLAS_STATUS_INVALID_VALUE).
  { intros c Hh Hta Htb Hm Hn Hl Hlb Hc HpA HpB HpC. unfold hipblasGeam.
    rewrite Hh, Hta, Htb, Hm, Hn, Hl, Hlb, Hc, HpA, HpB, HpC.
    cbn [op_status op_is_N same_buffer andb].
    replace (match transA with HIPBLAS_OP_N => true | _ => false end)
      with (op_eqb transA HIPBLAS_OP_N) by now destruct transA.
    replace (match transB with HIPBLAS_OP_N => true | _ => false end)
      with (op_eqb transB HIPBLAS_OP_N) by now destruct transB.
    fold A_row B_row. unfold geam_invalid_size in *.
    destruct ((M <? 0) || (N <? 0) || (lda <? A_row) || (ldb <? B_row)
              || (ldc <? M)); [reflexivity|].
    cbn [orb] in Hq. rewrite orb_comm in Hq. rewrite Hq.
    now destruct (lda =? ldc), (ldb =? ldc). }
  destruct (op_eqb transA HIPBLAS_OP_N) eqn:HtA;
    destruct (op_eqb transB HIPBLAS_OP_N) eqn:HtB;
    cbn [fst snd] in *; subst A_row B_row; cbv zeta; rewrite Hq;
    (eexists; split; [reflexivity|]);
    unfold DAPI; destruct (api_is_64 (arg_api arg)) eqn:H64;
    cbn [inv_call inv_assert];
    (split; [reflexivity | split; [reflexivity|]]);
    try (intros _; now apply Hmodel);
    (intros [Hfalse | (HfM & HfN & Hfl & Hflb & Hfc)]; [discriminate|]);
    apply Hmodel; cbn; try reflexivity; now apply to_int_id.
Qed.

End DriverFacts.



Lemma hemv_invalid_size_false N lda incx incy :
  0 <= N -> N <= lda -> 1 <= lda -> incx <> 0 -> incy <> 0 ->
  hemv_invalid_size N lda incx incy = false.
Proof.
  intros. apply not_true_is_false. rewrite hemv_invalid_size_true. lia.
Qed.

Lemma syrk_invalid_size_false transA N K lda ldc batch_count :
  0 <= N -> 0 <= K -> N <= ldc -> (transA = HIPBLAS_OP_N -> N <= lda) ->
  (transA <> HIPBLAS_OP_N -> K <= lda) -> 0 <= batch_count ->
  syrk_invalid_size transA N K lda ldc batch_count = false.
Proof.
  intros HN HK Hldc HlN HlK Hbc.
  apply not_true_is_false. rewrite syrk_invalid_size_true.
  intros [H|[H|[H|[[Ht H]|[[Ht H]|H]]]]]; try lia.
  - specialize (HlN Ht). lia.
  - specialize (HlK Ht). lia.
Qed.

Lemma geam_invalid_size_false M N lda A_row ldb B_row ldc :
  0 <= M -> 0 <= N -> A_row <= lda -> B_row <= ldb -> M <= ldc ->
  geam_invalid_size M N lda A_row ldb B_row ldc = false.
Proof.
  intros. apply not_true_is_false. rewrite geam_invalid_size_true. lia.
Qed.



Lemma scalar_value_scalar_arg pointer_mode v :
  scalar_value (scalar_arg pointer_mode v) = Some v.
Proof. now destruct pointer_mode. Qed.

Lemma fill_status_triangle uplo :
  uplo <> HIPBLAS_FILL_MODE_FULL -> fill_status (fill_value uplo) = None.
Proof. destruct uplo; [reflexivity|reflexivity|congruence]. Qed.

Lemma is_null_false p : p <> nullptr -> is_null p = false.
Proof. destruct p; [congruence|reflexivity]. Qed.

(** C5: an invocation with alpha = 0 returns success although the operand
    pointers its result does not depend on are null: for hemv [A] and [x]
    (and [y] too when beta = 1, the output then being left unchanged), for
    the rank-k update [A] when alpha = 0 or K = 0 (and [C] too when
    beta = 1), for geam [A] when alpha = 0 and [B] when beta = 0; the
    bad-argument suites make these invocations, in both pointer modes, under
    an assertion of success. *)
Theorem irrelevant_operands_may_be_null :
  forall (double : Type) (c_i32_overflow : Z) (arg : Arguments double),
    (forall pointer_mode uplo N lda incx incy alpha beta y,
       uplo <> HIPBLAS_FILL_MODE_FULL ->
       0 <= N -> N <= lda -> 1 <= lda -> incx <> 0 -> incy <> 0 ->
       (alpha == 0)%Q ->
       let call y := mk_hemv (handle_local pointer_mode) (fill_value uplo) N
                       (scalar_arg pointer_mode alpha) nullptr lda nullptr
                       incx (scalar_arg pointer_mode beta) y incy in
       (y <> nullptr ->
        status (hipblasHemv (call y)) = HIPBLAS_STATUS_SUCCESS)
       /\ ((beta == 1)%Q -> hipblasHemv (call nullptr) = no_op))
    /\ (forall pointer_mode uplo transA N K lda strideA ldc strideC
               batch_count alpha beta C_,
          uplo <> HIPBLAS_FILL_MODE_FULL ->
          0 <= N -> 0 <= K -> N <= ldc ->
          (transA = HIPBLAS_OP_N -> N <= lda) ->
          (transA <> HIPBLAS_OP_N -> K <= lda) ->
          0 <= batch_count ->
          (alpha == 0)%Q \/ K = 0 ->
          let call C_ := mk_syrk (handle_local pointer_mode) (fill_value uplo)
                           (op_value transA) N K
                           (scalar_arg pointer_mode alpha) nullptr lda strideA
                           (scalar_arg pointer_mode beta) C_ ldc strideC
                           batch_count in
          (C_ <> nullptr ->
           status (hipblasSyrkStridedBatched (call C_))
             = HIPBLAS_STATUS_SUCCESS)
          /\ ((beta == 1)%Q ->
              hipblasSyrkStridedBatched (call nullptr) = no_op))
    /\ (forall pointer_mode transA transB M N lda ldb ldc alpha beta
               (operand : device_buffer),
          let A_row := if op_eqb transA HIPBLAS_OP_N then M else N in
          let B_row := if op_eqb transB HIPBLAS_OP_N then M else N in
          0 <= M -> 0 <= N -> A_row <= lda -> B_row <= ldb -> M <= ldc ->
          operand <> dC ->
          ((alpha == 0)%Q ->
           status (hipblasGeam
                     (mk_geam (handle_local pointer_mode) (op_value transA)
                        (op_value transB) M N (scalar_arg pointer_mode alpha)
                        nullptr lda (scalar_arg pointer_mode beta)
                        (device operand) ldb (device dC) ldc))
             = HIPBLAS_STATUS_SUCCESS)
          /\ ((beta == 0)%Q ->
              status (hipblasGeam
                        (mk_geam (handle_local pointer_mode) (op_value transA)
                           (op_value transB) M N
                           (scalar_arg pointer_mode alpha) (device operand)
                           lda (scalar_arg pointer_mode beta) nullptr ldb
                           (device dC) ldc))
                = HIPBLAS_STATUS_SUCCESS))
    /\ (arg_bad_arg_all arg = true ->
        forall pointer_mode,
          let handle := handle_local pointer_mode in
          let zero := scalar_arg pointer_mode 0%Q in
          let one := scalar_arg pointer_mode 1%Q in
          let alpha := scalar_arg pointer_mode 1%Q in
          let beta := scalar_arg pointer_mode 2%Q in
          let hemv c := hemv_invoke arg CHECK_HIPBLAS_ERROR c in
          let syrk c := DAPI narrow_syrk (arg_api arg) CHECK_HIPBLAS_ERROR c in
          let geam c := DAPI narrow_geam (arg_api arg) CHECK_HIPBLAS_ERROR c in
          let upper := fill_value HIPBLAS_FILL_MODE_UPPER in
          let lower := fill_value HIPBLAS_FILL_MODE_LOWER in
          let op_n := op_value HIPBLAS_OP_N in
          Forall (fun i => In i (testing_hemv_bad_arg arg)
                           /\ status (hipblasHemv (inv_call i))
                              = HIPBLAS_STATUS_SUCCESS)
            [ hemv (mk_hemv handle upper 100 zero nullptr 100 nullptr 1 beta
                            (device dy) 1);
              hemv (mk_hemv handle upper 100 zero nullptr 100 nullptr 1 one
                            nullptr 1) ]
          /\ Forall (fun i =>
                       In i (testing_syrk_strided_batched_bad_arg
                               c_i32_overflow arg)
                       /\ status (hipblasSyrkStridedBatched (inv_call i))
                          = HIPBLAS_STATUS_SUCCESS)
               [ syrk (mk_syrk handle lower op_n 101 0 alpha nullptr 102
                               (100 * 102) one nullptr 104 (101 * 104) 2);
                 syrk (mk_syrk handle lower op_n 101 100 zero nullptr 102
                               (100 * 102) one nullptr 104 (101 * 104) 2) ]
          /\ Forall (fun i =>
                       In i (testing_geam_bad_arg c_i32_overflow arg)
                       /\ status (hipblasGeam (inv_call i))
                          = HIPBLAS_STATUS_SUCCESS)
               [ geam (mk_geam handle op_n op_n 101 100 zero nullptr 102 beta
                               (device dB) 103 (device dC) 104);
                 geam (mk_geam handle op_n op_n 101 100 alpha (device dA) 102
                               zero nullptr 103 (device dC) 104) ]).
Proof.
  intros double c_i32_overflow arg.
  split; [|split; [|split]].
  - intros pointer_mode uplo N lda incx incy alpha beta y
           Hfill HN Hlda Hlda1 Hincx Hincy Halpha call.
    apply Qeq_bool_iff in Halpha.
    unfold call, hipblasHemv, mk_hemv.
    cbn [hemv_handle hemv_uplo hemv_n hemv_alpha hemv_A hemv_lda hemv_x
         hemv_incx hemv_beta hemv_y hemv_incy].
    rewrite (fill_status_triangle Hfill), !scalar_value_scalar_arg, Halpha.
    destruct (Z.ltb_spec N 0); [lia|].
    destruct (Z.ltb_spec lda N); [lia|].
    destruct (Z.ltb_spec lda 1); [lia|].
    destruct (Z.eqb_spec incx 0); [lia|].
    destruct (Z.eqb_spec incy 0); [lia|].
    cbn [orb]. split.
    + intros Hy. rewrite (is_null_false Hy).
      now destruct (N =? 0), (Qeq_bool beta 1).
    + intros Hbeta. apply Qeq_bool_iff in Hbeta. rewrite Hbeta.
      now destruct (N =? 0).
  - intros pointer_mode uplo transA N K lda strideA ldc strideC batch_count
           alpha beta C_ Hfill HN HK Hldc HlN HlK Hbc Hfree call.
    assert (Hzero : (K =? 0) || Qeq_bool alpha 0 = true).
    { apply orb_true_iff. destruct Hfree as [Ha|Hk].
      - right. now apply Qeq_bool_iff.
      - left. now apply Z.eqb_eq. }
    assert (Hvalid := @syrk_invalid_size_false transA N K lda ldc batch_count
                        HN HK Hldc HlN HlK Hbc).
    unfold syrk_invalid_size in Hvalid.
    unfold call, hipblasSyrkStridedBatched, mk_syrk.
    cbn [syrk_handle syrk_uplo syrk_transA syrk_n syrk_k syrk_alpha syrk_A
         syrk_lda syrk_strideA syrk_beta syrk_C syrk_ldc syrk_strideC
         syrk_batch_count op_status].
    rewrite (fill_status_triangle Hfill), !scalar_value_scalar_arg, Hzero.
    destruct (Z.ltb_spec N 0); [lia|].
    destruct (Z.ltb_spec K 0); [lia|].
    destruct (Z.ltb_spec ldc N); [lia|].
    destruct (Z.ltb_spec batch_count 0); [lia|].
    assert (Hlda : op_is_N (op_value transA) && (lda <? N) = false).
    { destruct transA; cbn [op_is_N andb]; try reflexivity.
      apply Z.ltb_ge. now apply HlN. }
    assert (Hldk : negb (op_is_N (op_value transA)) && (lda <? K) = false).
    { destruct transA; cbn [op_is_N andb negb]; try reflexivity;
        apply Z.ltb_ge; apply HlK; discriminate. }
    rewrite Hlda, Hldk. cbn [orb]. split.
    + intros HC. rewrite (is_null_false HC).
      now destruct ((N =? 0) || (batch_count =? 0)), (Qeq_bool beta 1).
    + intros Hbeta. apply Qeq_bool_iff in Hbeta. rewrite Hbeta.
      now destruct ((N =? 0) || (batch_count =? 0)).
  - intros pointer_mode transA transB M N lda ldb ldc alpha beta operand
           A_row B_row HM HN HA HB HC Hoperand.
    assert (HopA : op_is_N (op_value transA) = op_eqb transA HIPBLAS_OP_N)
      by now destruct transA.
    assert (HopB : op_is_N (op_value transB) = op_eqb transB HIPBLAS_OP_N)
      by now destruct transB.
    assert (Hsame : same_buffer (device dC) (device operand) = false)
      by (destruct operand; try reflexivity; congruence).
    unfold hipblasGeam, mk_geam.
    cbn [geam_handle geam_transA geam_transB geam_m geam_n geam_alpha geam_A
         geam_lda geam_beta geam_B geam_ldb geam_C geam_ldc op_status].
    cbv zeta. rewrite HopA, HopB, !scalar_value_scalar_arg, Hsame.
    fold A_row B_row.
    destruct (Z.ltb_spec M 0); [lia|].
    destruct (Z.ltb_spec N 0); [lia|].
    destruct (Z.ltb_spec lda A_row); [lia|].
    destruct (Z.ltb_spec ldb B_row); [lia|].
    destruct (Z.ltb_spec ldc M); [lia|].
    cbn [orb is_null same_buffer andb negb]. split.
    + intros Halpha. apply Qeq_bool_iff in Halpha. rewrite Halpha.
      cbn [negb andb orb].
      now destruct ((M =? 0) || (N =? 0)), (Qeq_bool beta 0).
    + intros Hbeta. apply Qeq_bool_iff in Hbeta. rewrite Hbeta.
      cbn [negb andb orb]. rewrite !andb_false_r.
      now destruct ((M =? 0) || (N =? 0)), (Qeq_bool alpha 0).
  - intros Hall pointer_mode handle zero one alpha beta hemv syrk geam
           upper lower op_n.
    split; [|split].
    + repeat apply Forall_cons; try apply Forall_nil; (split;
        [ unfold testing_hemv_bad_arg; cbv zeta; rewrite Hall;
          apply in_flat_map; exists pointer_mode;
          split; [destruct pointer_mode; cbn; auto|];
          apply in_or_app; right; apply in_or_app; left;
          apply in_or_app; right; apply in_or_app; right;
          cbn [In]; auto
        | now destruct pointer_mode ]).
    + repeat apply Forall_cons; try apply Forall_nil; (split;
        [ unfold testing_syrk_strided_batched_bad_arg; cbv zeta; rewrite Hall;
          apply in_flat_map; exists pointer_mode;
          split; [destruct pointer_mode; cbn; auto|];
          apply in_or_app; right; apply in_or_app; left;
          apply in_or_app; right; apply in_or_app; right;
          cbn [In]; auto
        | unfold syrk, DAPI;
          now destruct (api_is_64 (arg_api arg)), pointer_mode ]).
    + repeat apply Forall_cons; try apply Forall_nil; (split;
        [ unfold testing_geam_bad_arg; cbv zeta; rewrite Hall;
          apply in_flat_map; exists pointer_mode;
          split; [destruct pointer_mode; cbn; auto|];
          apply in_or_app; right; apply in_or_app; left;
          apply in_or_app; right; apply in_or_app; right;
          cbn [In]; auto
        | unfold geam, DAPI;
          now destruct (api_is_64 (arg_api arg)), pointer_mode ]).
Qed.

Lemma irrelevant_operands_may_be_null_witness :
  arg_bad_arg_all example_arguments = true
  /\ hipblasHemv
       (mk_hemv (handle_local HIPBLAS_POINTER_MODE_HOST)
          (fill_value HIPBLAS_FILL_MODE_UPPER) 100 (scalar_host 0%Q) nullptr
          100 nullptr 1 (scalar_host 1%Q) nullptr 1) = no_op
  /\ hipblasSyrkStridedBatched
       (mk_syrk (handle_local HIPBLAS_POINTER_MODE_HOST)
          (fill_value HIPBLAS_FILL_MODE_LOWER) (op_value HIPBLAS_OP_N) 101 0
          (scalar_host 1%Q) nullptr 102 10200 (scalar_host 1%Q) nullptr 104
          10504 2) = no_op
  /\ status
       (hipblasGeam
          (mk_geam (handle_local HIPBLAS_POINTER_MODE_HOST)
             (op_value HIPBLAS_OP_N) (op_value HIPBLAS_OP_N) 101 100
             (scalar_host 0%Q) nullptr 102 (scalar_host 2%Q) (device dB) 103
             (device dC) 104)) = HIPBLAS_STATUS_SUCCESS
  /\ In (hemv_invoke example_arguments CHECK_HIPBLAS_ERROR
           (mk_hemv (handle_local HIPBLAS_POINTER_MODE_HOST)
              (fill_value HIPBLAS_FILL_MODE_UPPER) 100 (scalar_host 0%Q)
              nullptr 100 nullptr 1 (scalar_host 1%Q) nullptr 1))
        (testing_hemv_bad_arg example_arguments).
Proof.
  destruct (@irrelevant_operands_may_be_null Q (2 ^ 31) example_arguments)
    as (Hhemv & Hsyrk & Hgeam & Hsuite).
  split; [reflexivity|]. split; [|split; [|split]].
  - apply (Hhemv HIPBLAS_POINTER_MODE_HOST HIPBLAS_FILL_MODE_UPPER 100 100 1 1
             0%Q 1%Q nullptr); try lia; try discriminate; reflexivity.
  - apply (Hsyrk HIPBLAS_POINTER_MODE_HOST HIPBLAS_FILL_MODE_LOWER
             HIPBLAS_OP_N 101 0 102 10200 104 10504 2 1%Q 1%Q nullptr);
      try lia; try discriminate; try reflexivity;
      first [ intros _; lia | intros H; now elim H | now right ].
  - apply (Hgeam HIPBLAS_POINTER_MODE_HOST HIPBLAS_OP_N HIPBLAS_OP_N 101 100
             102 103 104 0%Q 2%Q dB);
      try (cbn; lia); try discriminate; reflexivity.
  - destruct (Hsuite eq_refl HIPBLAS_POINTER_MODE_HOST) as (Hin & _).
    apply Forall_cons_iff in Hin. destruct Hin as (_ & Hin).
    apply Forall_cons_iff in Hin. destruct Hin as ((Hin & _) & _).
    exact Hin.
Defined.

(** ** Loop nests and sequences of writes *)

Section LoopNest.
Context {St : Type}.
Implicit Types (s : St).

Lemma for_iter_ext cnt : forall i (body body' : Z -> St -> St) s,
  (forall k t, body k t = body' k t) ->
  for_iter cnt i body s = for_iter cnt i body' s.
Proof.
  induction cnt as [|c IH]; intros i body body' s Hext; [reflexivity|].
  cbn [for_iter]. rewrite Hext. now apply IH.
Qed.

Lemma for_iter_shift cnt : forall i (body : Z -> St -> St) s,
  for_iter cnt i body s = for_iter cnt 0 (fun k => body (i + k)) s.
Proof.
  induction cnt as [|c IH]; intros i body s; [reflexivity|].
  cbn [for_iter]. rewrite IH.
  rewrite (IH (0 + 1) (fun k => body (i + k))).
  rewrite Z.add_0_r. apply for_iter_ext.
  intros k t. f_equal. lia.
Qed.

Lemma for_lt_shift lo hi (body : Z -> St -> St) s :
  for_lt lo hi body s = for_lt 0 (hi - lo) (fun k => body (lo + k)) s.
Proof.
  unfold for_lt. rewrite Z.sub_0_r. apply for_iter_shift.
Qed.

Lemma for_lt_nop lo hi (body : Z -> St -> St) s :
  (forall i t, lo <= i < hi -> body i t = t) -> for_lt lo hi body s = s.
Proof.
  intros Hnop. apply (for_lt_preserves (fun t => t = s)); [reflexivity|].
  intros i t Hi ->. now apply Hnop.
Qed.

(** A rectangular loop nest is one loop over the row-major index. *)
Lemma for_lt_nest P Q (body : Z -> Z -> St -> St) s :
  0 <= P -> 0 <= Q ->
  for_lt 0 P (fun a => for_lt 0 Q (body a)) s
  = for_lt 0 (P * Q) (fun k => body (k / Q) (k mod Q)) s.
Proof.
  intros HP HQ.
  destruct (Z.eq_dec Q 0) as [->|HQ0].
  { rewrite Z.mul_0_r, (@for_lt_empty _ 0 0) by lia.
    apply for_lt_nop. intros i t _. now apply for_lt_empty. }
  revert s. pattern P. apply natlike_ind; [| |exact HP].
  - intros s. now rewrite !for_lt_empty by lia.
  - intros p Hp IH s. rewrite <- Z.add_1_r.
    rewrite for_lt_last by lia. rewrite IH.
    rewrite (@for_lt_split _ 0 (p * Q) ((p + 1) * Q)) by nia.
    rewrite (for_lt_shift (p * Q)).
    replace ((p + 1) * Q - p * Q) with Q by lia.
    apply for_lt_ext. intros k t Hk.
    rewrite Z.div_add_l, Z.div_small, Z.add_0_r by lia.
    rewrite Z.add_comm, Z.mod_add, Z.mod_small by lia.
    reflexivity.
Qed.

End LoopNest.

Lemma nest_index a b Q :
  0 <= b < Q -> (a * Q + b) / Q = a /\ (a * Q + b) mod Q = b.
Proof.
  intros Hb. split.
  - rewrite Z.div_add_l, Z.div_small by lia. lia.
  - rewrite Z.add_comm, Z.mod_add, Z.mod_small by lia. reflexivity.
Qed.

Lemma nest_bounds k P Q :
  0 < Q -> 0 <= k < P * Q -> 0 <= k / Q < P /\ 0 <= k mod Q < Q.
Proof.
  intros HQ Hk. split.
  - split; [apply Z.div_pos; lia|apply Z.div_lt_upper_bound; lia].
  - apply Z.mod_pos_bound; lia.
Qed.

Section SeqFill.
Context {T G : Type}.
Variable rand_gen : G -> T * G.
Implicit Types (m : mem T) (g : G).

(** A loop whose iteration [k] stores (a function of) the next generated
    value at [addr k], the addresses being pairwise distinct. *)
Lemma seq_fill_spec (addr : Z -> Z) (f : Z -> T -> T) n m0 g d :
  0 <= n ->
  (forall k k', 0 <= k < n -> 0 <= k' < n -> addr k = addr k' -> k = k') ->
  let s' := for_lt 0 n (fun k (s : mem T * G) =>
              let '(m, g) := s in
              let '(v, g') := rand_gen g in
              (upd m (addr k) (f k v), g'))
              (m0, advance rand_gen d g) in
  snd s' = advance rand_gen (d + Z.to_nat n) g
  /\ (forall k, 0 <= k < n ->
        fst s' (addr k) = f k (draw rand_gen g (d + Z.to_nat k)))
  /\ (forall x, (forall k, 0 <= k < n -> x <> addr k) -> fst s' x = m0 x).
Proof.
  intros Hn Hinj.
  pose (P := fun (i : Z) (s : mem T * G) =>
    snd s = advance rand_gen (d + Z.to_nat i) g
    /\ (forall k, 0 <= k < i ->
          fst s (addr k) = f k (draw rand_gen g (d + Z.to_nat k)))
    /\ (forall x, (forall k, 0 <= k < i -> x <> addr k) -> fst s x = m0 x)).
  apply (for_lt_inv P); unfold P; [exact Hn| |].
  - cbn [fst snd]. rewrite Nat.add_0_r.
    split; [reflexivity|]. split; [intros k Hk; lia|reflexivity].
  - intros i [m g1] Hi (Hg & Hcell & Hframe). cbn [fst snd] in *. subst g1.
    destruct (rand_gen (advance rand_gen (d + Z.to_nat i) g)) as [v g'] eqn:E.
    cbn [fst snd].
    assert (Hv : draw rand_gen g (d + Z.to_nat i) = v)
      by (unfold draw; now rewrite E).
    split; [|split].
    + replace (d + Z.to_nat (i + 1))%nat with (S (d + Z.to_nat i)) by lia.
      now rewrite advance_S, E.
    + intros k Hk. destruct (Z.eq_dec k i) as [->|Hne].
      * now rewrite upd_same, Hv.
      * rewrite upd_other; [apply Hcell; lia|].
        intros Heq. apply Hne. apply Hinj; [lia|lia|exact Heq].
    + intros x Hx. rewrite upd_other by (apply Hx; lia).
      apply Hframe. intros k Hk. apply Hx. lia.
Qed.

(** The same for any loop body that writes one cell per iteration: what
    each write establishes at its cell still holds at the end. *)
Lemma seq_write_spec (addr : Z -> Z) (good : Z -> T -> Prop)
    (body : Z -> mem T * G -> mem T * G) n (s0 : mem T * G) :
  0 <= n ->
  (forall k k', 0 <= k < n -> 0 <= k' < n -> addr k = addr k' -> k = k') ->
  (forall k s, 0 <= k < n -> good k (fst (body k s) (addr k))) ->
  (forall k s x, 0 <= k < n -> x <> addr k -> fst (body k s) x = fst s x) ->
  let s' := for_lt 0 n body s0 in
  (forall k, 0 <= k < n -> good k (fst s' (addr k)))
  /\ (forall x, (forall k, 0 <= k < n -> x <> addr k) -> fst s' x = fst s0 x).
Proof.
  intros Hn Hinj Hgood Hother.
  pose (P := fun (i : Z) (s : mem T * G) =>
    (forall k, 0 <= k < i -> good k (fst s (addr k)))
    /\ (forall x, (forall k, 0 <= k < i -> x <> addr k) -> fst s x = fst s0 x)).
  apply (for_lt_inv P); unfold P; [exact Hn| |].
  - split; [intros k Hk; lia|reflexivity].
  - intros i t Hi (Hcell & Hframe). split.
    + intros k Hk. destruct (Z.eq_dec k i) as [->|Hne].
      * now apply Hgood.
      * rewrite Hother; [apply Hcell; lia|lia|].
        intros Heq. apply Hne. apply Hinj; [lia|lia|exact Heq].
    + intros x Hx. rewrite Hother; [|lia|apply Hx; lia].
      apply Hframe. intros k Hk. apply Hx. lia.
Qed.

End SeqFill.

(** ** Values stored by the vector initializers *)

Section VectorValues.
Context {T G : Type} {ops : Scalar T}.
Variable rand_gen : G -> T * G.
Implicit Types (m : mem T) (g : G).

Lemma element_offset_inj N inc j j' :
  inc <> 0 -> element_offset N inc j = element_offset N inc j' -> j = j'.
Proof.
  unfold element_offset. intros Hinc.
  destruct (Z.ltb_spec inc 0); intros Heq; nia.
Qed.

(** [x[j * incx] = f j (rand_gen())] for [j] in [0, N), [incx] nonzero. *)
Lemma strided_fill_spec (f : Z -> T -> T) x N incx m g :
  incx <> 0 ->
  let s' := for_lt 0 N (fun j (s : mem T * G) =>
              let '(m, g) := s in
              let '(v, g') := rand_gen g in
              (upd m ((if incx <? 0 then x - (N - 1) * incx else x) + j * incx)
                   (f j v), g')) (m, g) in
  snd s' = advance rand_gen (Z.to_nat N) g
  /\ (forall j, 0 <= j < N ->
        fst s' (x + element_offset N incx j)
        = f j (draw rand_gen g (Z.to_nat j)))
  /\ (forall a, (forall j, 0 <= j < N -> a <> x + element_offset N incx j) ->
        fst s' a = m a).
Proof.
  intros Hinc.
  destruct (Z.le_gt_cases 0 N) as [HN|HN].
  - rewrite (for_lt_ext _ (fun j (s : mem T * G) =>
        let '(m, g) := s in
        let '(v, g') := rand_gen g in
        (upd m (x + element_offset N incx j) (f j v), g')))
      by (intros j [m1 g1] _; now rewrite element_offset_address).
    apply (@seq_fill_spec T G rand_gen
             (fun j => x + element_offset N incx j) f N m g 0%nat HN).
    intros k k' _ _ Heq. apply (@element_offset_inj N incx); [exact Hinc|lia].
  - rewrite for_lt_empty by lia. cbn [fst snd].
    replace (Z.to_nat N) with 0%nat by lia.
    split; [reflexivity|]. split; [intros j Hj; lia|reflexivity].
Qed.

(** With a zero increment every write lands on [x[0]]. *)
Lemma zero_increment_fill_spec (f : Z -> T -> T) x N m g :
  0 < N ->
  let s' := for_lt 0 N (fun j (s : mem T * G) =>
              let '(m, g) := s in
              let '(v, g') := rand_gen g in
              (upd m (x + j * 0) (f j v), g')) (m, g) in
  snd s' = advance rand_gen (Z.to_nat N) g
  /\ fst s' x = f (N - 1) (draw rand_gen g (Z.to_nat (N - 1)))
  /\ (forall a, a <> x -> fst s' a = m a).
Proof.
  intros HN.
  pose (P := fun (i : Z) (s : mem T * G) =>
    snd s = advance rand_gen (Z.to_nat i) g
    /\ (0 < i -> fst s x = f (i - 1) (draw rand_gen g (Z.to_nat (i - 1))))
    /\ (forall a, a <> x -> fst s a = m a)).
  assert (Hinv : P N (for_lt 0 N (fun j (s : mem T * G) =>
              let '(m, g) := s in
              let '(v, g') := rand_gen g in
              (upd m (x + j * 0) (f j v), g')) (m, g))).
  { apply (for_lt_inv P); unfold P; [lia| |].
    - cbn [fst snd]. split; [reflexivity|]. split; [lia|reflexivity].
    - intros i [m1 g1] Hi (Hg & _ & Hframe). cbn [fst snd] in *. subst g1.
      destruct (rand_gen (advance rand_gen (Z.to_nat i) g)) as [v g'] eqn:E.
      cbn [fst snd]. replace (x + i * 0) with x by lia.
      split; [|split].
      + replace (Z.to_nat (i + 1)) with (S (Z.to_nat i)) by lia.
        now rewrite advance_S, E.
      + intros _. rewrite upd_same. replace (i + 1 - 1) with i by lia.
        unfold draw. now rewrite E.
      + intros a Ha. rewrite upd_other by exact Ha. now apply Hframe. }
  destruct Hinv as (Hg & Hx & Hframe).
  split; [exact Hg|]. split; [now apply Hx|exact Hframe].
Qed.

End VectorValues.

(** When the iterations run in program order (a build without OpenMP),
    [hipblas_init_vector] stores the [j]-th generated value in element [j]
    of the strided vector, [hipblas_init_vector_alternating_sign] the same
    values with the even-numbered ones negated, and with a zero increment
    [x[0]] ends up holding the last value. *)
Lemma init_vector_in_order :
  forall (T G : Type) (ops : Scalar T) (rand_gen : G -> T * G)
         (x N incx : Z) (m : mem T) (g : G),
    let s' := hipblas_init_vector upd rand_gen x N incx (m, g) in
    let a' := hipblas_init_vector_alternating_sign upd rand_gen x N incx
                (m, g) in
    snd s' = advance rand_gen (Z.to_nat N) g
    /\ snd a' = advance rand_gen (Z.to_nat N) g
    /\ (incx <> 0 ->
        (forall j, 0 <= j < N ->
           fst s' (x + element_offset N incx j)
           = draw rand_gen g (Z.to_nat j)
           /\ fst a' (x + element_offset N incx j)
              = (if Z.even j then hipblas_negate (draw rand_gen g (Z.to_nat j))
                 else draw rand_gen g (Z.to_nat j)))
        /\ (forall a,
              (forall j, 0 <= j < N -> a <> x + element_offset N incx j) ->
              fst s' a = m a /\ fst a' a = m a))
    /\ (incx = 0 -> 0 < N ->
        fst s' x = draw rand_gen g (Z.to_nat (N - 1))
        /\ (forall a, a <> x -> fst s' a = m a)).
Proof.
  intros T G ops rand_gen x N incx m g s' a'.
  assert (Hsign : forall j v,
            (if Z.land j 1 =? 0 then hipblas_negate v else v)
            = (if Z.even j then hipblas_negate v else v)).
  { intros j v. change 1 with (Z.ones 1). rewrite Z.land_ones by lia.
    change (2 ^ 1) with 2. rewrite Zeven_mod.
    reflexivity. }
  destruct (Z.eq_dec incx 0) as [->|Hinc].
  - destruct (Z.le_gt_cases N 0) as [HN|HN].
    + subst s' a'. unfold hipblas_init_vector,
        hipblas_init_vector_alternating_sign.
      rewrite !for_lt_empty by lia. cbn [fst snd].
      replace (Z.to_nat N) with 0%nat by lia.
      repeat split; try reflexivity; try lia.
    + destruct (@zero_increment_fill_spec T G rand_gen (fun _ v => v) x N m g)
        as (Hg & Hx & Hframe); [lia|].
      destruct (@zero_increment_fill_spec T G rand_gen
                  (fun j v => if Z.land j 1 =? 0 then hipblas_negate v else v)
                  x N m g) as (Hg' & _ & _); [lia|].
      split; [exact Hg|]. split; [exact Hg'|].
      split; [intros Habs; now elim Habs|].
      intros _ _. split; [exact Hx|exact Hframe].
  - destruct (@strided_fill_spec T G rand_gen (fun _ v => v) x N incx m g Hinc)
      as (Hg & Hcell & Hframe).
    destruct (@strided_fill_spec T G rand_gen
                (fun j v => if Z.land j 1 =? 0 then hipblas_negate v else v)
                x N incx m g Hinc) as (Hg' & Hcell' & Hframe').
    split; [exact Hg|]. split; [exact Hg'|].
    split; [|intros Habs; now elim Hinc].
    intros _. split.
    + intros j Hj. split; [now apply Hcell|].
      rewrite <- Hsign. now apply Hcell'.
    + intros a Ha. split; [now apply Hframe|now apply Hframe'].
Qed.



(** ** Three-level loop nests *)

Lemma box_decode k B P Q :
  0 <= B -> 0 <= P -> 0 <= Q ->
  0 <= k < B * (P * Q) ->
  0 <= k / (P * Q) < B
  /\ 0 <= (k mod (P * Q)) / Q < P
  /\ 0 <= (k mod (P * Q)) mod Q < Q
  /\ k = (k / (P * Q) * P + (k mod (P * Q)) / Q) * Q + (k mod (P * Q)) mod Q.
Proof.
  intros HB HP HQ0 Hk.
  assert (HPQ : 0 < P * Q) by nia.
  assert (HQ : 0 < Q) by nia.
  destruct (@nest_bounds k B (P * Q) HPQ Hk) as (Hb & Hr).
  destruct (@nest_bounds (k mod (P * Q)) P Q HQ Hr) as (Hp & Hq).
  repeat split; try lia.
  assert (E1 := Z.div_mod k (P * Q) ltac:(lia)).
  assert (E2 := Z.div_mod (k mod (P * Q)) Q ltac:(lia)).
  nia.
Qed.

Lemma box_encode b p q P Q :
  0 <= p < P -> 0 <= q < Q ->
  let k := (b * P + p) * Q + q in
  k / (P * Q) = b /\ (k mod (P * Q)) / Q = p /\ (k mod (P * Q)) mod Q = q.
Proof.
  intros Hp Hq k.
  assert (Hk : k = b * (P * Q) + (p * Q + q)) by (unfold k; ring).
  assert (Hr : 0 <= p * Q + q < P * Q) by nia.
  destruct (@nest_index b (p * Q + q) (P * Q) Hr) as (E1 & E2).
  destruct (@nest_index p q Q Hq) as (E3 & E4).
  rewrite Hk, E1, E2, E3, E4. auto.
Qed.

Lemma box_index_bounds b p q B P Q :
  0 <= b < B -> 0 <= p < P -> 0 <= q < Q ->
  0 <= (b * P + p) * Q + q < B * (P * Q).
Proof.
  intros Hb Hp Hq.
  assert (H1 : 0 <= b * P + p) by nia.
  assert (H2 : b * P + p + 1 <= B * P) by nia.
  assert (H3 : (b * P + p + 1) * Q <= B * P * Q) by nia.
  nia.
Qed.

Section BoxFill.
Context {T G : Type}.
Variable rand_gen : G -> T * G.
Implicit Types (m : mem T) (g : G).

Lemma for_lt_box {St : Type} B P Q (body : Z -> Z -> Z -> St -> St) (s : St) :
  0 <= B -> 0 <= P -> 0 <= Q ->
  for_lt 0 B (fun b => for_lt 0 P (fun p => for_lt 0 Q (body b p))) s
  = for_lt 0 (B * (P * Q)) (fun k =>
      body (k / (P * Q)) ((k mod (P * Q)) / Q) ((k mod (P * Q)) mod Q)) s.
Proof.
  intros HB HP HQ.
  rewrite (for_lt_ext _ (fun b => for_lt 0 (P * Q) (fun k =>
             body b (k / Q) (k mod Q))))
    by (intros b t _; now apply for_lt_nest).
  apply (for_lt_nest (fun b k => body b (k / Q) (k mod Q))); nia.
Qed.

(** Three nested loops storing (a function of) the next generated value in
    a cell of their own each: cell ([b], [p], [q]) receives draw number
    [(b * P + p) * Q + q]. *)
Lemma box_fill_spec (addr : Z -> Z -> Z -> Z) (f : Z -> Z -> Z -> T -> T)
    B P Q m0 g :
  0 <= B -> 0 <= P -> 0 <= Q ->
  (forall b p q b' p' q',
     0 <= b < B -> 0 <= p < P -> 0 <= q < Q ->
     0 <= b' < B -> 0 <= p' < P -> 0 <= q' < Q ->
     addr b p q = addr b' p' q' -> b = b' /\ p = p' /\ q = q') ->
  let s' := for_lt 0 B (fun b => for_lt 0 P (fun p => for_lt 0 Q (fun q
              (s : mem T * G) =>
              let '(m, g) := s in
              let '(v, g') := rand_gen g in
              (upd m (addr b p q) (f b p q v), g')))) (m0, g) in
  snd s' = advance rand_gen (Z.to_nat (B * P * Q)) g
  /\ (forall b p q, 0 <= b < B -> 0 <= p < P -> 0 <= q < Q ->
        fst s' (addr b p q)
        = f b p q (draw rand_gen g (Z.to_nat ((b * P + p) * Q + q))))
  /\ (forall x,
        (forall b p q, 0 <= b < B -> 0 <= p < P -> 0 <= q < Q ->
                       x <> addr b p q) -> fst s' x = m0 x).
Proof.
  intros HB HP HQ Hinj.
  rewrite (for_lt_box (fun b p q (s : mem T * G) =>
              let '(m, g) := s in
              let '(v, g') := rand_gen g in
              (upd m (addr b p q) (f b p q v), g')) (m0, g) HB HP HQ).
  cbv zeta.
  assert (Hseq := @seq_fill_spec T G rand_gen
              (fun k => addr (k / (P * Q)) ((k mod (P * Q)) / Q)
                             ((k mod (P * Q)) mod Q))
              (fun k => f (k / (P * Q)) ((k mod (P * Q)) / Q)
                          ((k mod (P * Q)) mod Q))
              (B * (P * Q)) m0 g 0%nat).
  change (advance rand_gen 0 g) with g in Hseq. cbv zeta in Hseq.
  destruct Hseq as (Hg & Hcell & Hframe).
  { nia. }
  { intros k k' Hk Hk' Heq.
    destruct (@box_decode k B P Q HB HP HQ Hk) as (Hb & Hp & Hq & Ek).
    destruct (@box_decode k' B P Q HB HP HQ Hk') as (Hb' & Hp' & Hq' & Ek').
    destruct (Hinj _ _ _ _ _ _ Hb Hp Hq Hb' Hp' Hq' Heq) as (E1 & E2 & E3).
    rewrite Ek, Ek', E1, E2, E3. reflexivity. }
  cbn [Nat.add] in Hg, Hcell.
  split; [|split].
  - rewrite Hg. f_equal. f_equal. ring.
  - intros b p q Hb Hp Hq.
    destruct (@box_encode b p q P Q Hp Hq) as (E1 & E2 & E3).
    assert (Hk : 0 <= (b * P + p) * Q + q < B * (P * Q))
      by now apply box_index_bounds.
    specialize (Hcell _ Hk). rewrite E1, E2, E3 in Hcell. exact Hcell.
  - intros x Hx. apply Hframe. intros k Hk.
    destruct (@box_decode k B P Q HB HP HQ Hk) as (Hb & Hp & Hq & _).
    now apply Hx.
Qed.

(** The same for loop bodies that write one cell each, whatever they store
    there. *)
Lemma box_write_spec (addr : Z -> Z -> Z -> Z) (good : Z -> Z -> Z -> T -> Prop)
    (body : Z -> Z -> Z -> mem T * G -> mem T * G) B P Q (s0 : mem T * G) :
  0 <= B -> 0 <= P -> 0 <= Q ->
  (forall b p q b' p' q',
     0 <= b < B -> 0 <= p < P -> 0 <= q < Q ->
     0 <= b' < B -> 0 <= p' < P -> 0 <= q' < Q ->
     addr b p q = addr b' p' q' -> b = b' /\ p = p' /\ q = q') ->
  (forall b p q s, 0 <= b < B -> 0 <= p < P -> 0 <= q < Q ->
     good b p q (fst (body b p q s) (addr b p q))) ->
  (forall b p q s x, 0 <= b < B -> 0 <= p < P -> 0 <= q < Q ->
     x <> addr b p q -> fst (body b p q s) x = fst s x) ->
  let s' := for_lt 0 B (fun b => for_lt 0 P (fun p => for_lt 0 Q (body b p)))
              s0 in
  (forall b p q, 0 <= b < B -> 0 <= p < P -> 0 <= q < Q ->
     good b p q (fst s' (addr b p q)))
  /\ (forall x,
        (forall b p q, 0 <= b < B -> 0 <= p < P -> 0 <= q < Q ->
                       x <> addr b p q) -> fst s' x = fst s0 x).
Proof.
  intros HB HP HQ Hinj Hgood Hother.
  rewrite (for_lt_box body s0 HB HP HQ). cbv zeta.
  destruct (@seq_write_spec T G
              (fun k => addr (k / (P * Q)) ((k mod (P * Q)) / Q)
                             ((k mod (P * Q)) mod Q))
              (fun k => good (k / (P * Q)) ((k mod (P * Q)) / Q)
                             ((k mod (P * Q)) mod Q))
              (fun k => body (k / (P * Q)) ((k mod (P * Q)) / Q)
                             ((k mod (P * Q)) mod Q))
              (B * (P * Q)) s0) as (Hcell & Hframe).
  { nia. }
  { intros k k' Hk Hk' Heq.
    destruct (@box_decode k B P Q HB HP HQ Hk) as (Hb & Hp & Hq & Ek).
    destruct (@box_decode k' B P Q HB HP HQ Hk') as (Hb' & Hp' & Hq' & Ek').
    destruct (Hinj _ _ _ _ _ _ Hb Hp Hq Hb' Hp' Hq' Heq) as (E1 & E2 & E3).
    rewrite Ek, Ek', E1, E2, E3. reflexivity. }
  { intros k s Hk.
    destruct (@box_decode k B P Q HB HP HQ Hk) as (Hb & Hp & Hq & _).
    now apply Hgood. }
  { intros k s x Hk Hx.
    destruct (@box_decode k B P Q HB HP HQ Hk) as (Hb & Hp & Hq & _).
    now apply Hother. }
  split.
  - intros b p q Hb Hp Hq.
    destruct (@box_encode b p q P Q Hp Hq) as (E1 & E2 & E3).
    assert (Hk : 0 <= (b * P + p) * Q + q < B * (P * Q))
      by now apply box_index_bounds.
    specialize (Hcell _ Hk). cbv beta in Hcell.
    rewrite E1, E2, E3 in Hcell. exact Hcell.
  - intros x Hx. apply Hframe. intros k Hk.
    destruct (@box_decode k B P Q HB HP HQ Hk) as (Hb & Hp & Hq & _).
    now apply Hx.
Qed.

End BoxFill.

(** ** Order in which the matrix initializers hand out generated values *)

Lemma strided_cell_inj lda stride M N B b i j b' i' j' :
  0 <= lda -> M <= lda \/ N <= 1 ->
  B <= 1 \/ (N - 1) * lda + M <= stride ->
  0 <= b < B -> 0 <= i < M -> 0 <= j < N ->
  0 <= b' < B -> 0 <= i' < M -> 0 <= j' < N ->
  i + j * lda + b * stride = i' + j' * lda + b' * stride ->
  b = b' /\ i = i' /\ j = j'.
Proof.
  intros Hlda Hshape Hstride Hb Hi Hj Hb' Hi' Hj' Heq.
  assert (Hr : 0 <= i + j * lda < (N - 1) * lda + M) by nia.
  assert (Hr' : 0 <= i' + j' * lda < (N - 1) * lda + M) by nia.
  assert (Ebb : b = b').
  { destruct Hstride as [HB|Hs]; [lia|].
    destruct (Z.lt_trichotomy b b') as [Hlt|[E|Hgt]]; [|exact E|]; nia. }
  subst b'. split; [reflexivity|].
  assert (Ecell : i + j * lda = i' + j' * lda) by lia.
  destruct Hshape as [HM|HN].
  - destruct (@cell_inj lda i j i' j') as (E1 & E2); [lia|lia|lia|].
    now split.
  - assert (j = 0) by lia. assert (j' = 0) by lia. subst j j'. lia.
Qed.

(** X2: [hipblas_init(A, M, N, lda, stride, batch_count)] consumes
    [batch_count * M * N] generated values and hands them out member by
    member and, within a member, row by row: entry (row [i], column [j]) of
    member [b] receives value number [(b * M + i) * N + j]; no other cell is
    written.  (The cells are distinct when [M <= lda] or [N <= 1], and the
    members when [stride] is at least the extent of one member.)
    [hipblas_init_hpl] is the same loop on [size_t] operands, and
    [hipblas_init(host_vector&, seedReset)] fills the vector in order after
    the optional reseeding. *)
Theorem hipblas_init_row_major :
  forall (T G : Type) (ops : Scalar T) (random_generator : G -> T * G)
         (hipblas_seedrand : G -> G) (A M N lda stride batch_count : Z)
         (m : mem T) (g : G),
    0 <= M -> 0 <= N -> 0 <= lda -> M <= lda \/ N <= 1 ->
    0 <= batch_count ->
    batch_count <= 1 \/ (N - 1) * lda + M <= stride ->
    let s' := hipblas_init random_generator A M N lda stride batch_count
                (m, g) in
    snd s' = advance random_generator (Z.to_nat (batch_count * M * N)) g
    /\ (forall b i j, 0 <= b < batch_count -> 0 <= i < M -> 0 <= j < N ->
          fst s' (A + (i + j * lda + b * stride))
          = draw random_generator g (Z.to_nat ((b * M + i) * N + j)))
    /\ (forall a,
          (forall b i j, 0 <= b < batch_count -> 0 <= i < M -> 0 <= j < N ->
                         a <> A + (i + j * lda + b * stride)) ->
          fst s' a = m a)
    /\ (0 <= stride -> M + N * lda + batch_count * stride < 2 ^ 63 ->
        hipblas_init_hpl random_generator A M N lda stride batch_count (m, g)
        = s')
    /\ (forall that seedReset i,
          N = 1 -> lda = 1 -> batch_count = 1 -> M < 2 ^ 63 -> 0 <= i < M ->
          fst (hipblas_init_host_vector hipblas_seedrand random_generator
                 that M seedReset (m, g)) (that + i)
          = draw random_generator
                 (if seedReset then hipblas_seedrand g else g) (Z.to_nat i)).
Proof.
  intros T G ops random_generator hipblas_seedrand A M N lda stride
         batch_count m g HM HN Hlda Hshape HB Hstride.
  assert (Hbox : forall A0 g0,
    let t := hipblas_init random_generator A0 M N lda stride batch_count
               (m, g0) in
    snd t = advance random_generator (Z.to_nat (batch_count * M * N)) g0
    /\ (forall b i j, 0 <= b < batch_count -> 0 <= i < M -> 0 <= j < N ->
          fst t (A0 + (i + j * lda + b * stride))
          = draw random_generator g0 (Z.to_nat ((b * M + i) * N + j)))
    /\ (forall a,
          (forall b i j, 0 <= b < batch_count -> 0 <= i < M -> 0 <= j < N ->
                         a <> A0 + (i + j * lda + b * stride)) ->
          fst t a = m a)).
  { intros A0 g0.
    assert (Hfill := @box_fill_spec T G random_generator
              (fun b i j => A0 + (i + j * lda + b * stride))
              (fun _ _ _ v => v) batch_count M N m g0 HB HM HN).
    cbv beta in Hfill. apply Hfill.
    intros b i j b' i' j' Hb Hi Hj Hb' Hi' Hj' Heq.
    apply (@strided_cell_inj lda stride M N batch_count); try assumption.
    lia. }
  intros s'.
  destruct (Hbox A g) as (Hg & Hcell & Hframe).
  split; [exact Hg|]. split; [exact Hcell|]. split; [exact Hframe|].
  split.
  - intros Hs Hfit. unfold s', hipblas_init_hpl, hipblas_init.
    apply for_lt_ext. intros b t Hb.
    apply for_lt_ext. intros i t' Hi.
    apply for_lt_ext. intros j [m1 g1] Hj.
    rewrite size_t_index_id; [reflexivity|]. split; nia.
  - intros that seedReset i -> -> -> HM63 Hi.
    unfold hipblas_init_host_vector. cbn [fst snd].
    rewrite to_int64_id by lia.
    destruct (Hbox that (if seedReset then hipblas_seedrand g else g))
      as (_ & Hcell' & _).
    specialize (Hcell' 0 i 0 ltac:(lia) Hi ltac:(lia)).
    replace (that + (i + 0 * 1 + 0 * stride)) with (that + i) in Hcell' by lia.
    replace ((0 * M + i) * 1 + 0) with i in Hcell' by lia.
    destruct seedReset; exact Hcell'.
Qed.

Lemma hipblas_init_row_major_witness :
  (0 <= 2 /\ 0 <= 3 /\ 0 <= 2 /\ (2 <= 2 \/ 3 <= 1) /\ 0 <= 2
   /\ (2 <= 1 \/ (3 - 1) * 2 + 2 <= 6))
  /\ fst (hipblas_init counter_gen 0 2 3 2 6 2 (fun _ => 0, 0))
         (0 + (1 + 2 * 2 + 1 * 6))
     = draw counter_gen 0 (Z.to_nat ((1 * 2 + 1) * 3 + 2)).
Proof.
  split; [lia|].
  destruct (@hipblas_init_row_major Z Z Z_scalar counter_gen (fun g => g)
              0 2 3 2 6 2 (fun _ => 0) 0) as (_ & Hcell & _); try lia.
  apply (Hcell 1 1 2); lia.
Defined.

(** When the iterations run in program order (a build without OpenMP), the
    general kind of [hipblas_fill_matrix_type] and of [hipblas_init_matrix]
    hands the generated values out column by column: entry (row [i], column
    [j]) of member [b] receives value number [(b * N + j) * M + i]. *)
Lemma general_matrix_in_order :
  forall (T G : Type) (ops : Scalar T) (rand_gen : G -> T * G)
         (uplo : ascii) (M N lda : Z) (m : mem T) (g : G),
    0 <= M < 2 ^ 64 -> 0 <= N < 2 ^ 64 -> M <= lda ->
    (forall A_data stride batch_count,
       0 <= batch_count < 2 ^ 64 ->
       batch_count <= 1 \/ (N - 1) * lda + M <= stride ->
       let s' := hipblas_fill_matrix_type rand_gen hipblas_general_matrix
                   uplo A_data M N lda stride batch_count (m, g) in
       snd s' = advance rand_gen (Z.to_nat (batch_count * N * M)) g
       /\ (forall b i j, 0 <= b < batch_count -> 0 <= i < M -> 0 <= j < N ->
             entry (fst s') (A_data + b * stride) lda i j
             = draw rand_gen g (Z.to_nat ((b * N + j) * M + i)))
       /\ (forall a,
             (forall b i j, 0 <= b < batch_count -> 0 <= i < M ->
                            0 <= j < N ->
                            a <> A_data + b * stride + (i + j * lda)) ->
             fst s' a = m a))
    /\ (forall hA : host_batch_matrix,
          hbm_m hA = M -> hbm_n hA = N -> hbm_lda hA = lda ->
          (forall b1 b2, 0 <= b1 < hbm_batch_count hA ->
                         0 <= b2 < hbm_batch_count hA -> b1 <> b2 ->
                         hbm_ptr hA b1 + N * lda <= hbm_ptr hA b2
                         \/ hbm_ptr hA b2 + N * lda <= hbm_ptr hA b1) ->
          let s' := hipblas_init_matrix rand_gen hipblas_general_matrix uplo
                      hA (m, g) in
          forall b i j, 0 <= b < hbm_batch_count hA -> 0 <= i < M ->
                        0 <= j < N ->
            entry (fst s') (hbm_ptr hA b) lda i j
            = draw rand_gen g (Z.to_nat ((b * N + j) * M + i))).
Proof.
  intros T G ops rand_gen uplo M N lda m g HM HN Hlda. split.
  - intros A_data stride batch_count HB Hstride.
    unfold hipblas_fill_matrix_type, fill_matrix_type_batch, general_entry,
      entry.
    rewrite !to_size_t_id by lia.
    assert (Hfill := @box_fill_spec T G rand_gen
              (fun b j i => A_data + b * stride + (i + j * lda))
              (fun _ _ _ v => v) batch_count N M m g
              ltac:(lia) ltac:(lia) ltac:(lia)).
    cbv beta zeta in Hfill. cbv zeta.
    destruct Hfill as (Hg & Hcell & Hframe).
    { intros b j i b' j' i' Hb Hj Hi Hb' Hj' Hi' Heq.
      destruct (@strided_cell_inj lda stride M N batch_count b i j b' i' j')
        as (E1 & E2 & E3); try assumption; try lia. }
    split; [exact Hg|]. split.
    + intros b i j Hb Hi Hj. now apply Hcell.
    + intros a Ha. apply Hframe. intros b j i Hb Hj Hi. now apply Ha.
  - intros hA Em En El Hdisj.
    unfold hipblas_init_matrix, init_matrix_batch, general_entry, entry.
    rewrite Em, En, El, !to_size_t_id by lia.
    destruct (Z.le_gt_cases 0 (hbm_batch_count hA)) as [HB|HB].
    + assert (Hfill := @box_fill_spec T G rand_gen
                (fun b j i => hbm_ptr hA b + (i + j * lda))
                (fun _ _ _ v => v) (hbm_batch_count hA) N M m g
                HB ltac:(lia) ltac:(lia)).
      cbv beta zeta in Hfill. cbv zeta.
      destruct Hfill as (_ & Hcell & _).
      { intros b1 j1 i1 b2 j2 i2 Hb1 Hj1 Hi1 Hb2 Hj2 Hi2 Heq.
        assert (Hr1 : 0 <= i1 + j1 * lda < N * lda) by nia.
        assert (Hr2 : 0 <= i2 + j2 * lda < N * lda) by nia.
        destruct (Z.eq_dec b1 b2) as [->|Hne].
        * destruct (@cell_inj lda i1 j1 i2 j2) as (E1 & E2); [lia|lia|lia|].
          auto.
        * destruct (Hdisj b1 b2 Hb1 Hb2 Hne); lia. }
      intros b i j Hb Hi Hj. now apply Hcell.
    + cbv zeta. intros b i j Hb. lia.
Qed.



(** ** [hipblas_init_symmetric] *)

Section SymmetricInit.
Context {T G : Type} {ops : Scalar T}.
Variable random_generator : G -> T * G.
Implicit Types (m : mem T) (g : G) (t : mem T * G).

Local Abbreviation tri c := (c * (c + 1) / 2).

(** Two runs that agree on every cell and on the generator state. *)
Local Abbreviation same_run t1 t2 :=
  ((forall a : Z, fst t1 a = fst t2 a) /\ snd t1 = snd t2).

Lemma symmetric_pair_same p q A lda i j t1 t2 :
  p = A + (j + i * lda) -> q = A + (i + j * lda) ->
  same_run t1 t2 ->
  same_run (let '(m, g) := t1 in
            let '(r, g') := random_generator g in
            (upd (upd m p r) q r, g'))
           (mirrored_entry random_generator (fun v => v) (fun v => v)
                           "F" A lda i j t2)
  /\ same_run (let '(m, g) := t1 in
               let '(r, g') := random_generator g in
               (upd (upd m q r) p r, g'))
              (mirrored_entry random_generator (fun v => v) (fun v => v)
                              "F" A lda i j t2).
Proof.
  intros -> -> [Hm Hg]. destruct t1 as [m1 g1], t2 as [m2 g2].
  cbn [fst snd] in *. subst g2. unfold mirrored_entry.
  destruct (random_generator g1) as [r g'].
  change (Ascii.eqb "F" "U") with false.
  change (Ascii.eqb "F" "L") with false.
  destruct (Z.eqb_spec i j) as [->|Hne]; cbn [fst snd];
    (split; (split; [|reflexivity]); intros a; unfold upd;
     repeat match goal with
            | |- context [?x =? ?y] => destruct (Z.eqb_spec x y)
            end; try reflexivity; try lia; apply Hm).
Qed.

Lemma init_symmetric_same A N lda t :
  same_run (hipblas_init_symmetric random_generator A N lda t)
           (for_lt 0 N (fun i =>
              for_le 0 i (fun j =>
                mirrored_entry random_generator (fun v => v) (fun v => v)
                               "F" A lda i j)) t).
Proof.
  unfold hipblas_init_symmetric.
  pose (R := fun t1 t2 : mem T * G => same_run t1 t2).
  change (R (for_lt 0 N (fun i =>
               for_le 0 i (fun j (s : mem T * G) =>
                 let '(m, g) := s in
                 let '(r, g') := random_generator g in
                 (upd (upd m (A + (j + i * lda)) r) (A + (i + j * lda)) r,
                  g'))) t)
            (for_lt 0 N (fun i =>
               for_le 0 i (fun j =>
                 mirrored_entry random_generator (fun v => v) (fun v => v)
                                "F" A lda i j)) t)).
  apply (for_lt_rel R); [unfold R; auto|].
  intros i t1 t2 _ Ht. unfold for_le.
  apply (for_lt_rel R); [exact Ht|].
  intros j u1 u2 _ Hu. unfold R in *.
  now apply (@symmetric_pair_same _ _ A lda i j u1 u2 eq_refl eq_refl).
Qed.

Lemma init_symmetric_strided_same A N lda strideA batch_count t :
  same_run (hipblas_init_symmetric_strided random_generator A N lda strideA
                                           batch_count t)
           (for_lt 0 batch_count (fun b =>
              for_lt 0 N (fun i =>
                for_le 0 i (fun j =>
                  mirrored_entry random_generator (fun v => v) (fun v => v)
                                 "F" (A + b * strideA) lda i j))) t).
Proof.
  unfold hipblas_init_symmetric_strided.
  pose (R := fun t1 t2 : mem T * G => same_run t1 t2).
  change (R (for_lt 0 batch_count (fun b =>
               let off := b * strideA in
               for_lt 0 N (fun i =>
                 for_le 0 i (fun j (s : mem T * G) =>
                   let '(m, g) := s in
                   let '(r, g') := random_generator g in
                   (upd (upd m (A + (i + j * lda + off)) r)
                        (A + (j + i * lda + off)) r, g')))) t)
            (for_lt 0 batch_count (fun b =>
               for_lt 0 N (fun i =>
                 for_le 0 i (fun j =>
                   mirrored_entry random_generator (fun v => v) (fun v => v)
                                  "F" (A + b * strideA) lda i j))) t)).
  apply (for_lt_rel R); [unfold R; auto|].
  intros b t1 t2 _ Ht. cbv zeta.
  apply (for_lt_rel R); [exact Ht|].
  intros i u1 u2 _ Hu. unfold for_le.
  apply (for_lt_rel R); [exact Hu|].
  intros j w1 w2 _ Hw. unfold R in *.
  apply (@symmetric_pair_same (A + (j + i * lda + b * strideA))
           (A + (i + j * lda + b * strideA)) (A + b * strideA) lda i j w1 w2);
    [lia|lia|exact Hw].
Qed.

Lemma symmetric_pair_filled v m A lda i j :
  0 <= j <= i ->
  pair_filled (fun x : T => x) (fun x : T => x) "F" v m A lda i j ->
  entry m A lda i j = v /\ entry m A lda j i = v.
Proof.
  intros Hij. unfold pair_filled.
  change (Ascii.eqb "F" "U") with false.
  change (Ascii.eqb "F" "L") with false.
  destruct (Z.eqb_spec i j) as [->|Hne]; cbn; tauto.
Qed.

End SymmetricInit.

(** X4: [hipblas_init_symmetric] generates one value per entry of a triangle
    (row by row, [N * (N + 1) / 2] values per matrix) and stores it at the
    entry and at its mirror image, so that the [N x N] matrix is symmetric:
    for [j <= i] the entries (i, j) and (j, i) both hold value number
    [i * (i + 1) / 2 + j] of the member.  The strided overload does this for
    every member, provided the members do not overlap. *)
Theorem init_symmetric_is_symmetric :
  forall (T G : Type) (ops : Scalar T) (random_generator : G -> T * G)
         (A N lda : Z) (m : mem T) (g : G),
    0 <= N <= lda ->
    (let s' := hipblas_init_symmetric random_generator A N lda (m, g) in
     snd s' = advance random_generator (Z.to_nat (N * (N + 1) / 2)) g
     /\ (forall i j, 0 <= j <= i -> i < N ->
           entry (fst s') A lda i j
           = draw random_generator g (Z.to_nat (i * (i + 1) / 2 + j))
           /\ entry (fst s') A lda j i = entry (fst s') A lda i j)
     /\ (forall a, a < A \/ A + N * lda <= a -> fst s' a = m a))
    /\ (forall strideA batch_count b i j,
          batch_count <= 1 \/ N * lda <= strideA ->
          0 <= b < batch_count -> 0 <= j <= i -> i < N ->
          let s' := hipblas_init_symmetric_strided random_generator A N lda
                      strideA batch_count (m, g) in
          entry (fst s') (A + b * strideA) lda i j
          = draw random_generator g
                 (Z.to_nat (i * (i + 1) / 2 + j)
                  + Z.to_nat b * Z.to_nat (N * (N + 1) / 2))
          /\ entry (fst s') (A + b * strideA) lda j i
             = entry (fst s') (A + b * strideA) lda i j).
Proof.
  intros T G ops random_generator A N lda m g HN. split.
  - cbv zeta.
    destruct (@init_symmetric_same T G ops random_generator A N lda (m, g))
      as (Hm & Hg).
    destruct (@mirrored_fill_spec T G ops random_generator
                (fun v => v) (fun v => v) "F"%char A lda N m g HN)
      as (Hg' & Hfill & Hframe).
    split; [now rewrite Hg|]. split.
    + intros i j Hij Hi. unfold entry. rewrite !Hm.
      destruct (@symmetric_pair_filled T ops _ _ A lda i j Hij
                  (Hfill i j Hij Hi)) as (E1 & E2).
      unfold entry in E1, E2. rewrite E1, E2. auto.
    + intros a Ha. rewrite Hm. now apply Hframe.
  - intros strideA batch_count b i j Hstride Hb Hij Hi. cbv zeta.
    destruct (@init_symmetric_strided_same T G ops random_generator A N lda
                strideA batch_count (m, g)) as (Hm & _).
    assert (Hfill := @mirrored_batches T G ops random_generator false
              "F"%char N lda
              (fun b => for_lt 0 N (fun i =>
                 for_le 0 i (fun j =>
                   mirrored_entry random_generator (fun v => v) (fun v => v)
                                  "F" (A + b * strideA) lda i j)))
              (fun b => A + b * strideA) batch_count m g b HN
              (fun _ _ => eq_refl)).
    cbv beta in Hfill.
    assert (Hdisj : forall b1 b2, 0 <= b1 < batch_count ->
              0 <= b2 < batch_count -> b1 <> b2 ->
              A + b1 * strideA + N * lda <= A + b2 * strideA
              \/ A + b2 * strideA + N * lda <= A + b1 * strideA).
    { intros b1 b2 Hb1 Hb2 Hne. destruct Hstride as [H1|Hs]; [lia|].
      assert (H0 : 0 <= N * lda) by nia.
      destruct (Z.lt_trichotomy b1 b2) as [Hlt|[E|Hgt]]; [left|lia|right];
        nia. }
    specialize (Hfill Hdisj Hb i j Hij Hi).
    destruct (@symmetric_pair_filled T ops _ _ (A + b * strideA) lda i j Hij
                Hfill) as (E1 & E2).
    unfold entry in *. rewrite !Hm, E1, E2. auto.
Qed.

Lemma init_symmetric_is_symmetric_witness :
  0 <= 3 <= 3
  /\ entry (fst (hipblas_init_symmetric counter_gen 0 3 3 (fun _ => 0, 0)))
           0 3 0 2
     = entry (fst (hipblas_init_symmetric counter_gen 0 3 3 (fun _ => 0, 0)))
             0 3 2 0.
Proof.
  split; [lia|].
  destruct (@init_symmetric_is_symmetric Z Z Z_scalar counter_gen 0 3 3
              (fun _ => 0) 0) as (Hsingle & _); [lia|].
  destruct Hsingle as (_ & Hcell & _).
  apply (Hcell 2 0); lia.
Defined.

(** ** Alternating signs *)

Lemma parity_rem_lxor i j :
  0 <= i -> 0 <= j ->
  (Z.lxor (Z.rem j 2) (Z.rem i 2) =? 0) = Z.even (i + j).
Proof.
  intros Hi Hj. rewrite !Z.rem_mod_nonneg by lia.
  rewrite (Zeven_mod (i + j)), Zplus_mod.
  assert (Ei : i mod 2 = 0 \/ i mod 2 = 1)
    by (pose proof (Z.mod_pos_bound i 2); lia).
  assert (Ej : j mod 2 = 0 \/ j mod 2 = 1)
    by (pose proof (Z.mod_pos_bound j 2); lia).
  destruct Ei as [-> | ->], Ej as [-> | ->]; reflexivity.
Qed.

Lemma parity_land_lxor i j :
  (Z.land (Z.lxor i j) 1 =? 0) = Z.even (i + j).
Proof.
  change 1 with (Z.ones 1). rewrite Z.land_ones by lia.
  change (2 ^ 1) with 2. rewrite <- Zeven_mod.
  rewrite <- !Z.negb_odd. f_equal.
  rewrite <- (Z.bit0_odd (Z.lxor i j)), Z.lxor_spec, !Z.bit0_odd.
  now rewrite Z.odd_add.
Qed.

Lemma alternate_parity {T : Type} {ops : Scalar T} i j (v : T) :
  alternate i j v = if Z.odd (i + j) then v else hipblas_negate v.
Proof.
  unfold alternate. rewrite parity_land_lxor, <- Z.negb_odd.
  now destruct (Z.odd (i + j)).
Qed.

Section AlternatingSign.
Context {T G : Type} {ops : Scalar T}.
Implicit Types (m : mem T) (g : G).

Lemma init_alternating_sign_one_member
    (random_generator random_generator_negative : G -> T * G)
    A M N lda stride (s : mem T * G) :
  hipblas_init_alternating_sign random_generator random_generator_negative
                                A M N lda s
  = hipblas_init_alternating_sign_strided random_generator
      random_generator_negative A M N lda stride 1 s.
Proof.
  unfold hipblas_init_alternating_sign, hipblas_init_alternating_sign_strided.
  rewrite (for_lt_one 0).
  apply for_lt_ext. intros i t _. apply for_lt_ext. intros j u _.
  now replace (A + (i + j * lda + 0 * stride)) with (A + (i + j * lda)) by lia.
Qed.

Lemma init_hpl_alternating_sign_nest (random_hpl_generator : G -> T * G)
    A M N lda stride batch_count (s : mem T * G) :
  0 <= lda -> 0 <= stride ->
  M + N * lda + batch_count * stride < 2 ^ 63 ->
  hipblas_init_hpl_alternating_sign random_hpl_generator A M N lda stride
                                    batch_count s
  = for_lt 0 batch_count (fun b => for_lt 0 N (fun j => for_lt 0 M (fun i
      (s : mem T * G) =>
      let '(m, g) := s in
      let '(v, g') := random_hpl_generator g in
      (upd m (A + (i + j * lda + b * stride)) (alternate i j v), g')))) s.
Proof.
  intros Hlda Hs Hfit. unfold hipblas_init_hpl_alternating_sign.
  apply for_lt_ext. intros b t Hb.
  apply for_lt_ext. intros j u Hj. cbv zeta.
  apply for_lt_ext. intros i [m1 g1] Hi.
  assert (Hoff : 0 <= j * lda + b * stride < 2 ^ 63) by nia.
  rewrite (@to_size_t_id (j * lda + b * stride)) by lia.
  rewrite size_t_index_id by nia.
  now replace (i + (j * lda + b * stride)) with (i + j * lda + b * stride)
    by lia.
Qed.

Lemma init_matrix_alternating_sign_nest (rand_gen : G -> T * G) uplo
    A M N lda stride batch_count (s : mem T * G) :
  0 <= lda -> 0 <= stride -> 0 <= batch_count < 2 ^ 64 ->
  M + N * lda + batch_count * stride < 2 ^ 63 ->
  hipblas_init_matrix_alternating_sign hipblas_general_matrix uplo rand_gen
    A M N lda stride batch_count s
  = for_lt 0 batch_count (fun b => for_lt 0 M (fun i => for_lt 0 N (fun j
      (s : mem T * G) =>
      let '(m, g) := s in
      let '(v, g') := rand_gen g in
      (upd m (A + (i + j * lda + b * stride)) (alternate i j v), g')))) s.
Proof.
  intros Hlda Hs HB Hfit. unfold hipblas_init_matrix_alternating_sign.
  rewrite to_size_t_id by lia.
  apply for_lt_ext. intros b t Hb.
  apply for_lt_ext. intros i u Hi.
  apply for_lt_ext. intros j [m1 g1] Hj.
  rewrite size_t_index_id by nia. reflexivity.
Qed.

End AlternatingSign.

(** X5: [hipblas_init_alternating_sign] takes the entry (row [i], column
    [j]) from [random_generator] when [i + j] is odd and from
    [random_generator_negative] when it is even, so that whatever holds of
    all values of the one generator ([positive]) and of the other
    ([negative]) alternates along every row and column, in every member;
    no cell outside the [M x N] entries of the members is written, and the
    overload without batches is the strided one with a single member. *)
Theorem init_alternating_sign_pattern :
  forall (T G : Type) (ops : Scalar T)
         (random_generator random_generator_negative : G -> T * G)
         (positive negative : T -> Prop)
         (A M N lda stride batch_count : Z) (m : mem T) (g : G),
    (forall h, positive (fst (random_generator h))) ->
    (forall h, negative (fst (random_generator_negative h))) ->
    0 <= M <= lda -> 0 <= N -> 0 <= batch_count ->
    batch_count <= 1 \/ N * lda <= stride ->
    let s' := hipblas_init_alternating_sign_strided random_generator
                random_generator_negative A M N lda stride batch_count
                (m, g) in
    (forall b i j, 0 <= b < batch_count -> 0 <= i < M -> 0 <= j < N ->
       if Z.odd (i + j)
       then positive (fst s' (A + (i + j * lda + b * stride)))
       else negative (fst s' (A + (i + j * lda + b * stride))))
    /\ (forall a,
          (forall b i j, 0 <= b < batch_count -> 0 <= i < M -> 0 <= j < N ->
                         a <> A + (i + j * lda + b * stride)) ->
          fst s' a = m a)
    /\ hipblas_init_alternating_sign random_generator
         random_generator_negative A M N lda (m, g)
       = hipblas_init_alternating_sign_strided random_generator
           random_generator_negative A M N lda stride 1 (m, g).
Proof.
  intros T G ops random_generator random_generator_negative positive negative
         A M N lda stride batch_count m g Hpos Hneg HM HN HB Hstride s'.
  assert (Hbox := @box_write_spec T G
            (fun b i j => A + (i + j * lda + b * stride))
            (fun _ i j v => if Z.odd (i + j) then positive v else negative v)
            (fun b i j => alternating_sign_entry random_generator
                            random_generator_negative
                            (A + (i + j * lda + b * stride)) i j)
            batch_count M N (m, g) HB ltac:(lia) HN).
  cbv beta zeta in Hbox.
  destruct Hbox as (Hcell & Hframe).
  - intros b i j b' i' j' Hb Hi Hj Hb' Hi' Hj' Heq.
    apply (@strided_cell_inj lda stride M N batch_count); try assumption;
      try lia.
  - intros b i j [m1 g1] Hb Hi Hj. unfold alternating_sign_entry.
    rewrite parity_rem_lxor by lia. rewrite <- Z.negb_odd.
    destruct (Z.odd (i + j)); cbn [negb].
    + specialize (Hpos g1). destruct (random_generator g1) as [v g'].
      cbn [fst snd] in *. now rewrite upd_same.
    + specialize (Hneg g1). destruct (random_generator_negative g1) as [v g'].
      cbn [fst snd] in *. now rewrite upd_same.
  - intros b i j [m1 g1] x Hb Hi Hj Hx. unfold alternating_sign_entry.
    destruct (Z.lxor (Z.rem j 2) (Z.rem i 2) =? 0);
      [destruct (random_generator_negative g1) as [v g']
      |destruct (random_generator g1) as [v g']];
      cbn [fst snd]; now rewrite upd_other.
  - split; [exact Hcell|]. split; [exact Hframe|].
    apply init_alternating_sign_one_member.
Qed.

Lemma init_alternating_sign_pattern_witness :
  ((forall h, 0 < fst (counter_gen h))
   /\ (forall h, fst ((fun k : Z => (- (k mod 10) - 1, k + 1)) h) < 0)
   /\ 0 <= 2 <= 2 /\ 0 <= 2 /\ 0 <= 1 /\ (1 <= 1 \/ 2 * 2 <= 0))
  /\ fst (hipblas_init_alternating_sign_strided counter_gen
            (fun k : Z => (- (k mod 10) - 1, k + 1)) 0 2 2 2 0 1
            (fun _ => 0, 0)) (0 + (0 + 1 * 2 + 0 * 0)) > 0.
Proof.
  assert (Hpos : forall h, 0 < fst (counter_gen h)).
  { intros h. unfold counter_gen. cbn [fst].
    pose proof (Z.mod_pos_bound h 10). lia. }
  assert (Hneg : forall h,
            fst ((fun k : Z => (- (k mod 10) - 1, k + 1)) h) < 0).
  { intros h. cbn [fst]. pose proof (Z.mod_pos_bound h 10). lia. }
  split; [repeat split; try lia; assumption|].
  destruct (@init_alternating_sign_pattern Z Z Z_scalar counter_gen
              (fun k : Z => (- (k mod 10) - 1, k + 1))
              (fun v => v > 0) (fun v => v < 0) 0 2 2 2 0 1 (fun _ => 0) 0)
    as (Hcell & _); try lia.
  - intros h. specialize (Hpos h). lia.
  - exact Hneg.
  - apply (Hcell 0 0 1); lia.
Defined.

(** When the iterations run in program order (a build without OpenMP),
    [hipblas_init_hpl_alternating_sign] walks each member column by column
    (entry (i, j) of member [b] receives value number
    [(b * N + j) * M + i]) and the general kind of
    [hipblas_init_matrix_alternating_sign] row by row (value number
    [(b * M + i) * N + j]); both negate the value where [i + j] is even. *)
Lemma alternating_sign_in_order :
  forall (T G : Type) (ops : Scalar T) (rand_gen : G -> T * G) (uplo : ascii)
         (A M N lda stride batch_count : Z) (m : mem T) (g : G),
    0 <= M <= lda -> 0 <= N -> 0 <= batch_count < 2 ^ 64 -> 0 <= stride ->
    batch_count <= 1 \/ N * lda <= stride ->
    M + N * lda + batch_count * stride < 2 ^ 63 ->
    (let s' := hipblas_init_hpl_alternating_sign rand_gen A M N lda stride
                 batch_count (m, g) in
     snd s' = advance rand_gen (Z.to_nat (batch_count * N * M)) g
     /\ forall b i j, 0 <= b < batch_count -> 0 <= i < M -> 0 <= j < N ->
          fst s' (A + (i + j * lda + b * stride))
          = (if Z.odd (i + j)
             then draw rand_gen g (Z.to_nat ((b * N + j) * M + i))
             else hipblas_negate
                    (draw rand_gen g (Z.to_nat ((b * N + j) * M + i)))))
    /\ (let s' := hipblas_init_matrix_alternating_sign hipblas_general_matrix
                    uplo rand_gen A M N lda stride batch_count (m, g) in
        snd s' = advance rand_gen (Z.to_nat (batch_count * M * N)) g
        /\ forall b i j, 0 <= b < batch_count -> 0 <= i < M -> 0 <= j < N ->
             fst s' (A + (i + j * lda + b * stride))
             = (if Z.odd (i + j)
                then draw rand_gen g (Z.to_nat ((b * M + i) * N + j))
                else hipblas_negate
                       (draw rand_gen g (Z.to_nat ((b * M + i) * N + j))))).
Proof.
  intros T G ops rand_gen uplo A M N lda stride batch_count m g
         HM HN HB Hs Hstride Hfit.
  assert (Hinj : forall b i j b' i' j',
            0 <= b < batch_count -> 0 <= i < M -> 0 <= j < N ->
            0 <= b' < batch_count -> 0 <= i' < M -> 0 <= j' < N ->
            A + (i + j * lda + b * stride) = A + (i' + j' * lda + b' * stride)
            -> b = b' /\ i = i' /\ j = j').
  { intros b i j b' i' j' Hb Hi Hj Hb' Hi' Hj' Heq.
    apply (@strided_cell_inj lda stride M N batch_count); try assumption;
      try lia. }
  split.
  - cbv zeta. rewrite init_hpl_alternating_sign_nest by lia.
    destruct (@box_fill_spec T G rand_gen
                (fun b j i => A + (i + j * lda + b * stride))
                (fun _ j i v => alternate i j v) batch_count N M m g)
      as (Hg & Hcell & _); try lia.
    { intros b j i b' j' i' Hb Hj Hi Hb' Hj' Hi' Heq.
      destruct (Hinj b i j b' i' j') as (E1 & E2 & E3); auto. }
    split; [exact Hg|].
    intros b i j Hb Hi Hj. rewrite <- alternate_parity. now apply Hcell.
  - cbv zeta. rewrite init_matrix_alternating_sign_nest by lia.
    destruct (@box_fill_spec T G rand_gen
                (fun b i j => A + (i + j * lda + b * stride))
                (fun _ i j v => alternate i j v) batch_count M N m g)
      as (Hg & Hcell & _); try lia.
    { exact Hinj. }
    split; [exact Hg|].
    intros b i j Hb Hi Hj. rewrite <- alternate_parity. now apply Hcell.
Qed.



(** ** Two-level loop nests and generator-free writes *)

Section RectFill.
Context {T G : Type}.
Variable rand_gen : G -> T * G.
Implicit Types (m : mem T) (g : G).

Lemma rect_decode k P Q :
  0 <= P -> 0 <= Q -> 0 <= k < P * Q ->
  0 <= k / Q < P /\ 0 <= k mod Q < Q /\ k = k / Q * Q + k mod Q.
Proof.
  intros HP HQ Hk. assert (HQ0 : 0 < Q) by nia.
  destruct (@nest_bounds k P Q HQ0 Hk) as (Hp & Hq).
  pose proof (Z.div_mod k Q ltac:(lia)). repeat split; lia.
Qed.

Lemma rect_fill_spec (addr : Z -> Z -> Z) (f : Z -> Z -> T -> T) P Q m0 g :
  0 <= P -> 0 <= Q ->
  (forall p q p' q', 0 <= p < P -> 0 <= q < Q -> 0 <= p' < P -> 0 <= q' < Q ->
     addr p q = addr p' q' -> p = p' /\ q = q') ->
  let s' := for_lt 0 P (fun p => for_lt 0 Q (fun q (s : mem T * G) =>
              let '(m, g) := s in
              let '(v, g') := rand_gen g in
              (upd m (addr p q) (f p q v), g'))) (m0, g) in
  snd s' = advance rand_gen (Z.to_nat (P * Q)) g
  /\ (forall p q, 0 <= p < P -> 0 <= q < Q ->
        fst s' (addr p q) = f p q (draw rand_gen g (Z.to_nat (p * Q + q))))
  /\ (forall x, (forall p q, 0 <= p < P -> 0 <= q < Q -> x <> addr p q) ->
        fst s' x = m0 x).
Proof.
  intros HP HQ Hinj.
  rewrite (for_lt_nest (fun p q (s : mem T * G) =>
              let '(m, g) := s in
              let '(v, g') := rand_gen g in
              (upd m (addr p q) (f p q v), g')) (m0, g) HP HQ).
  cbv zeta.
  assert (Hseq := @seq_fill_spec T G rand_gen
              (fun k => addr (k / Q) (k mod Q))
              (fun k => f (k / Q) (k mod Q)) (P * Q) m0 g 0%nat).
  change (advance rand_gen 0 g) with g in Hseq. cbv zeta in Hseq.
  destruct Hseq as (Hg & Hcell & Hframe).
  { nia. }
  { intros k k' Hk Hk' Heq.
    destruct (@rect_decode k P Q HP HQ Hk) as (Hp & Hq & Ek).
    destruct (@rect_decode k' P Q HP HQ Hk') as (Hp' & Hq' & Ek').
    destruct (Hinj _ _ _ _ Hp Hq Hp' Hq' Heq) as (E1 & E2).
    rewrite Ek, Ek', E1, E2. reflexivity. }
  cbn [Nat.add] in Hg, Hcell.
  split; [exact Hg|]. split.
  - intros p q Hp Hq.
    destruct (@nest_index p q Q Hq) as (E1 & E2).
    assert (Hk : 0 <= p * Q + q < P * Q) by nia.
    specialize (Hcell _ Hk). rewrite E1, E2 in Hcell. exact Hcell.
  - intros x Hx. apply Hframe. intros k Hk.
    destruct (@rect_decode k P Q HP HQ Hk) as (Hp & Hq & _).
    now apply Hx.
Qed.

Lemma rect_write_spec (addr : Z -> Z -> Z) (good : Z -> Z -> T -> Prop)
    (body : Z -> Z -> mem T * G -> mem T * G) P Q (s0 : mem T * G) :
  0 <= P -> 0 <= Q ->
  (forall p q p' q', 0 <= p < P -> 0 <= q < Q -> 0 <= p' < P -> 0 <= q' < Q ->
     addr p q = addr p' q' -> p = p' /\ q = q') ->
  (forall p q s, 0 <= p < P -> 0 <= q < Q ->
     good p q (fst (body p q s) (addr p q))) ->
  (forall p q s x, 0 <= p < P -> 0 <= q < Q -> x <> addr p q ->
     fst (body p q s) x = fst s x) ->
  let s' := for_lt 0 P (fun p => for_lt 0 Q (body p)) s0 in
  (forall p q, 0 <= p < P -> 0 <= q < Q -> good p q (fst s' (addr p q)))
  /\ (forall x, (forall p q, 0 <= p < P -> 0 <= q < Q -> x <> addr p q) ->
        fst s' x = fst s0 x).
Proof.
  intros HP HQ Hinj Hgood Hother.
  rewrite (for_lt_nest body s0 HP HQ). cbv zeta.
  destruct (@seq_write_spec T G
              (fun k => addr (k / Q) (k mod Q))
              (fun k => good (k / Q) (k mod Q))
              (fun k => body (k / Q) (k mod Q)) (P * Q) s0)
    as (Hcell & Hframe).
  { nia. }
  { intros k k' Hk Hk' Heq.
    destruct (@rect_decode k P Q HP HQ Hk) as (Hp & Hq & Ek).
    destruct (@rect_decode k' P Q HP HQ Hk') as (Hp' & Hq' & Ek').
    destruct (Hinj _ _ _ _ Hp Hq Hp' Hq' Heq) as (E1 & E2).
    rewrite Ek, Ek', E1, E2. reflexivity. }
  { intros k s Hk.
    destruct (@rect_decode k P Q HP HQ Hk) as (Hp & Hq & _).
    now apply Hgood. }
  { intros k s x Hk Hx.
    destruct (@rect_decode k P Q HP HQ Hk) as (Hp & Hq & _).
    now apply Hother. }
  split.
  - intros p q Hp Hq.
    destruct (@nest_index p q Q Hq) as (E1 & E2).
    assert (Hk : 0 <= p * Q + q < P * Q) by nia.
    specialize (Hcell _ Hk). cbv beta in Hcell.
    rewrite E1, E2 in Hcell. exact Hcell.
  - intros x Hx. apply Hframe. intros k Hk.
    destruct (@rect_decode k P Q HP HQ Hk) as (Hp & Hq & _).
    now apply Hx.
Qed.

(** Writes whose value is determined by the address need not be distinct. *)
Lemma seq_store_spec (addr : Z -> Z) (val : Z -> T) n m0 :
  0 <= n ->
  (forall k k', 0 <= k < n -> 0 <= k' < n -> addr k = addr k' ->
                val k = val k') ->
  let m' := for_lt 0 n (fun k m => upd m (addr k) (val k)) m0 in
  (forall k, 0 <= k < n -> m' (addr k) = val k)
  /\ (forall x, (forall k, 0 <= k < n -> x <> addr k) -> m' x = m0 x).
Proof.
  intros Hn Hsame.
  pose (P := fun (i : Z) (m : mem T) =>
    (forall k, 0 <= k < i -> m (addr k) = val k)
    /\ (forall x, (forall k, 0 <= k < i -> x <> addr k) -> m x = m0 x)).
  apply (for_lt_inv P); unfold P; [exact Hn| |].
  - split; [intros k Hk; lia|reflexivity].
  - intros i m Hi (Hcell & Hframe). split.
    + intros k Hk. unfold upd.
      destruct (Z.eqb_spec (addr k) (addr i)) as [E|Hne].
      * symmetry. apply Hsame; [lia|lia|exact E].
      * apply Hcell. destruct (Z.eq_dec k i) as [->|]; [now elim Hne|lia].
    + intros x Hx. rewrite upd_other by (apply Hx; lia).
      apply Hframe. intros k Hk. apply Hx. lia.
Qed.

End RectFill.

(** ** Trigonometric initializers *)

(** X7: [hipblas_init_cos] / [hipblas_init_sin] store in every cell they
    reach the cosine / sine of the cell's own offset from [A] (as long as
    the offsets stay below 2^63), whatever the shape: overlapping columns
    or members rewrite a cell with the same value; no other cell is
    written. *)
Theorem trig_values_by_offset :
  forall (T : Type) (trig_T : Z -> T) (A M N lda stride batch_count : Z)
         (m : mem T),
    0 <= M -> 0 <= N -> 0 <= lda -> 0 <= stride -> 0 <= batch_count ->
    M + N * lda + batch_count * stride < 2 ^ 63 ->
    let m' := hipblas_init_trig_ptr upd trig_T A M N lda stride batch_count m in
    (forall b i j, 0 <= b < batch_count -> 0 <= i < M -> 0 <= j < N ->
       m' (A + (i + j * lda + b * stride))
       = trig_T (i + j * lda + b * stride))
    /\ (forall a,
          (forall b i j, 0 <= b < batch_count -> 0 <= i < M -> 0 <= j < N ->
                         a <> A + (i + j * lda + b * stride)) ->
          m' a = m a).
Proof.
  intros T trig_T A M N lda stride batch_count m HM HN Hlda Hs HB Hfit m'.
  assert (Enest : m' = for_lt 0 batch_count (fun b => for_lt 0 N (fun j =>
            for_lt 0 M (fun i m =>
              upd m (A + (i + j * lda + b * stride))
                  (trig_T (i + j * lda + b * stride))))) m).
  { unfold m', hipblas_init_trig_ptr.
    apply for_lt_ext. intros b t Hb.
    apply for_lt_ext. intros j u Hj. cbv zeta.
    apply for_lt_ext. intros i w Hi.
    assert (Hoff : 0 <= j * lda + b * stride < 2 ^ 63) by nia.
    rewrite (@to_size_t_id (j * lda + b * stride)) by lia.
    rewrite size_t_index_id by nia. rewrite to_size_t_id by nia.
    now replace (i + (j * lda + b * stride)) with (i + j * lda + b * stride)
      by lia. }
  rewrite Enest.
  rewrite (for_lt_box (fun b j i (m : mem T) =>
              upd m (A + (i + j * lda + b * stride))
                  (trig_T (i + j * lda + b * stride))) m HB HN HM).
  destruct (@seq_store_spec T
              (fun k => A + ((k mod (N * M)) mod M + (k mod (N * M)) / M * lda
                             + k / (N * M) * stride))
              (fun k => trig_T ((k mod (N * M)) mod M
                                + (k mod (N * M)) / M * lda
                                + k / (N * M) * stride))
              (batch_count * (N * M)) m) as (Hcell & Hframe).
  { nia. }
  { intros k k' _ _ Heq. f_equal. lia. }
  split.
  - intros b i j Hb Hi Hj.
    destruct (@box_encode b j i N M Hj Hi) as (E1 & E2 & E3).
    assert (Hk : 0 <= (b * N + j) * M + i < batch_count * (N * M))
      by now apply box_index_bounds.
    specialize (Hcell _ Hk). cbv beta in Hcell.
    rewrite E1, E2, E3 in Hcell. exact Hcell.
  - intros a Ha. apply Hframe. intros k Hk.
    destruct (@box_decode k batch_count N M HB HN HM Hk) as (Hb & Hj & Hi & _).
    now apply Ha.
Qed.

Lemma trig_values_by_offset_witness :
  (0 <= 2 /\ 0 <= 2 /\ 0 <= 1 /\ 0 <= 0 /\ 0 <= 3
   /\ 2 + 2 * 1 + 3 * 0 < 2 ^ 63)
  /\ hipblas_init_trig_ptr upd (fun k : Z => 10 * k) 0 2 2 1 0 3 (fun _ => 0)
       (0 + (1 + 0 * 1 + 2 * 0)) = 10 * (1 + 0 * 1 + 2 * 0).
Proof.
  split; [lia|].
  destruct (@trig_values_by_offset Z (fun k : Z => 10 * k) 0 2 2 1 0 3
              (fun _ => 0)) as (Hcell & _); try lia.
  apply (Hcell 2 1 0); lia.
Defined.

Lemma trig_argument j inc :
  to_size_t (0 + to_size_t (j * to_size_t inc + 0 * 0)) = to_size_t (j * inc).
Proof.
  unfold to_size_t. rewrite Z.add_0_l, Z.mul_0_l, Z.add_0_r, Z.mod_mod by lia.
  now rewrite Z.mul_mod_idemp_r by lia.
Qed.

(** X8: on every member, [hipblas_init_trig] writes the cells
    [hipblas_init_vector_trig] writes, with the cosine / sine of the element
    offset [j * inc] taken as a [size_t]: for a non-negative increment the
    two initializers agree, for a negative one the container version
    evaluates the function at [j * inc + 2^64] instead of [j * inc]. *)
Theorem init_trig_container_and_pointer :
  forall (T : Type) (cos_T sin_T : Z -> T) (that : host_batch_vector)
         (init_cos : bool) (m : mem T),
    0 <= hbv_n that < 2 ^ 63 ->
    hbv_n that * Z.abs (hbv_inc that) <= 2 ^ 63 ->
    hipblas_init_trig upd cos_T sin_T that init_cos m
    = for_lt 0 (hbv_batch_count that) (fun b =>
        hipblas_init_vector_trig upd
          (fun k => cos_T (to_size_t k)) (fun k => sin_T (to_size_t k))
          (hbv_ptr that b) (hbv_n that) (hbv_inc that) init_cos) m
    /\ (0 <= hbv_inc that ->
        hipblas_init_trig upd cos_T sin_T that init_cos m
        = for_lt 0 (hbv_batch_count that) (fun b =>
            hipblas_init_vector_trig upd cos_T sin_T
              (hbv_ptr that b) (hbv_n that) (hbv_inc that) init_cos) m)
    /\ (forall j, hbv_inc that < 0 -> 0 < j < hbv_n that ->
        to_size_t (j * hbv_inc that) = j * hbv_inc that + 2 ^ 64).
Proof.
  intros T cos_T sin_T that init_cos m Hn Hfit.
  assert (Hmain : hipblas_init_trig upd cos_T sin_T that init_cos m
    = for_lt 0 (hbv_batch_count that) (fun b =>
        hipblas_init_vector_trig upd
          (fun k => cos_T (to_size_t k)) (fun k => sin_T (to_size_t k))
          (hbv_ptr that b) (hbv_n that) (hbv_inc that) init_cos) m).
  { unfold hipblas_init_trig, hipblas_init_vector_trig, hipblas_init_trig_ptr.
    apply for_lt_ext. intros b t Hb. cbv zeta.
    rewrite (for_lt_one 0). rewrite to_size_t_id by lia.
    apply for_lt_ext. intros j u Hj.
    rewrite (for_lt_one 0).
    rewrite trig_index by nia. rewrite trig_argument.
    now destruct init_cos. }
  split; [exact Hmain|]. split.
  - intros Hinc. rewrite Hmain.
    apply for_lt_ext. intros b t Hb. unfold hipblas_init_vector_trig.
    apply for_lt_ext. intros j u Hj.
    rewrite to_size_t_id by nia. reflexivity.
  - intros j Hinc Hj. unfold to_size_t.
    rewrite <- (Z.mod_add _ 1) by lia.
    rewrite Z.mod_small; nia.
Qed.

Lemma init_trig_container_and_pointer_witness :
  (0 <= 3 < 2 ^ 63 /\ 3 * Z.abs (- 2) <= 2 ^ 63)
  /\ hipblas_init_trig upd (fun k : Z => k) (fun k : Z => - k)
       {| hbv_n := 3; hbv_inc := - 2; hbv_batch_count := 1;
          hbv_ptr := fun _ => 0 |} true (fun _ => 0) 2
     = 2 ^ 64 - 2.
Proof.
  split; [lia|].
  destruct (@init_trig_container_and_pointer Z (fun k : Z => k)
              (fun k : Z => - k)
              {| hbv_n := 3; hbv_inc := - 2; hbv_batch_count := 1;
                 hbv_ptr := fun _ => 0 |} true (fun _ => 0)) as (Hmain & _);
    cbn [hbv_n hbv_inc]; try lia.
  rewrite Hmain. reflexivity.
Defined.

(** ** Values stored by the container initializers *)

Section TemplateValues.
Context {T G : Type} {ops : Scalar T}.
Implicit Types (m : mem T) (g : G) (that : host_batch_vector).

Lemma member_cell_inj that b i b' i' :
  hbv_inc that <> 0 ->
  (forall b1 b2, 0 <= b1 < hbv_batch_count that ->
                 0 <= b2 < hbv_batch_count that -> b1 <> b2 ->
     hbv_ptr that b1 + (hbv_n that - 1) * Z.abs (hbv_inc that) < hbv_ptr that b2
     \/ hbv_ptr that b2 + (hbv_n that - 1) * Z.abs (hbv_inc that)
        < hbv_ptr that b1) ->
  0 <= b < hbv_batch_count that -> 0 <= i < hbv_n that ->
  0 <= b' < hbv_batch_count that -> 0 <= i' < hbv_n that ->
  hbv_ptr that b + element_offset (hbv_n that) (hbv_inc that) i
  = hbv_ptr that b' + element_offset (hbv_n that) (hbv_inc that) i' ->
  b = b' /\ i = i'.
Proof.
  intros Hinc Hdisj Hb Hi Hb' Hi' Heq.
  pose proof (@element_offset_bounds (hbv_n that) (hbv_inc that) i Hinc Hi).
  pose proof (@element_offset_bounds (hbv_n that) (hbv_inc that) i' Hinc Hi').
  destruct (Z.eq_dec b b') as [->|Hne].
  - split; [reflexivity|].
    apply (@element_offset_inj (hbv_n that) (hbv_inc that)); [exact Hinc|lia].
  - destruct (Hdisj b b' Hb Hb' Hne); lia.
Qed.

Lemma init_template_nest (hipblas_seedrand : G -> G) that
    (rand_gen : G -> T * G) seedReset alternating_sign m g :
  0 <= hbv_n that < 2 ^ 63 ->
  hbv_n that * Z.abs (hbv_inc that) <= 2 ^ 63 ->
  hipblas_init_template upd hipblas_seedrand that rand_gen seedReset
                        alternating_sign (m, g)
  = for_lt 0 (hbv_batch_count that) (fun b =>
      for_lt 0 (hbv_n that) (fun i (s : mem T * G) =>
        let '(m, g) := s in
        let '(v, g') := rand_gen g in
        (upd m (hbv_ptr that b
                + element_offset (hbv_n that) (hbv_inc that) i)
             (if alternating_sign && Z.even i then hipblas_negate v else v),
         g')))
      (m, if seedReset then hipblas_seedrand g else g).
Proof.
  intros Hn Hfit. unfold hipblas_init_template.
  replace (if seedReset then (fst (m, g), hipblas_seedrand (snd (m, g)))
           else (m, g))
    with (m, if seedReset then hipblas_seedrand g else g)
    by now destruct seedReset.
  apply for_lt_ext. intros b t Hb. cbv zeta.
  rewrite to_size_t_id by lia.
  destruct alternating_sign; apply for_lt_ext; intros i [m1 g1] Hi;
    rewrite size_t_index_id by nia;
    rewrite element_offset_address; cbn [andb].
  - rewrite parity_land_lxor, Z.add_0_r. reflexivity.
  - reflexivity.
Qed.

End TemplateValues.

(** X9: [hipblas_init_template] reseeds the generator when asked to, then
    consumes [batch_count * n] values and stores value number [b * n + i] in
    element [i] of member [b] (negated at the even [i] when
    [alternating_sign] is set; for a negative increment element [i] lies at
    offset [(n - 1 - i) * |inc|]); no other cell is written.  The members
    must not overlap and the increment must not be zero. *)
Theorem init_template_values :
  forall (T G : Type) (ops : Scalar T) (hipblas_seedrand : G -> G)
         (rand_gen : G -> T * G) (that : host_batch_vector)
         (seedReset alternating_sign : bool) (m : mem T) (g : G),
    0 <= hbv_n that < 2 ^ 63 ->
    hbv_n that * Z.abs (hbv_inc that) <= 2 ^ 63 ->
    hbv_inc that <> 0 ->
    0 <= hbv_batch_count that ->
    (forall b1 b2, 0 <= b1 < hbv_batch_count that ->
                   0 <= b2 < hbv_batch_count that -> b1 <> b2 ->
       hbv_ptr that b1 + (hbv_n that - 1) * Z.abs (hbv_inc that)
       < hbv_ptr that b2
       \/ hbv_ptr that b2 + (hbv_n that - 1) * Z.abs (hbv_inc that)
          < hbv_ptr that b1) ->
    let g0 := if seedReset then hipblas_seedrand g else g in
    let s' := hipblas_init_template upd hipblas_seedrand that rand_gen
                seedReset alternating_sign (m, g) in
    snd s' = advance rand_gen
               (Z.to_nat (hbv_batch_count that * hbv_n that)) g0
    /\ (forall b i, 0 <= b < hbv_batch_count that -> 0 <= i < hbv_n that ->
          fst s' (hbv_ptr that b
                  + element_offset (hbv_n that) (hbv_inc that) i)
          = (if alternating_sign && Z.even i
             then hipblas_negate
                    (draw rand_gen g0 (Z.to_nat (b * hbv_n that + i)))
             else draw rand_gen g0 (Z.to_nat (b * hbv_n that + i))))
    /\ (forall a,
          (forall b i, 0 <= b < hbv_batch_count that -> 0 <= i < hbv_n that ->
             a <> hbv_ptr that b
                  + element_offset (hbv_n that) (hbv_inc that) i) ->
          fst s' a = m a).
Proof.
  intros T G ops hipblas_seedrand rand_gen that seedReset alternating_sign
         m g Hn Hfit Hinc HB Hdisj g0 s'.
  unfold s'. rewrite init_template_nest by assumption. fold g0.
  destruct (@rect_fill_spec T G rand_gen
              (fun b i => hbv_ptr that b
                          + element_offset (hbv_n that) (hbv_inc that) i)
              (fun _ i v => if alternating_sign && Z.even i
                            then hipblas_negate v else v)
              (hbv_batch_count that) (hbv_n that) m g0)
    as (Hg & Hcell & Hframe); [exact HB|lia| |].
  { intros b i b' i' Hb Hi Hb' Hi'.
    now apply member_cell_inj. }
  split; [exact Hg|]. split; [|exact Hframe].
  intros b i Hb Hi. rewrite (Hcell b i Hb Hi).
  now destruct (alternating_sign && Z.even i).
Qed.

Lemma init_template_values_witness :
  (0 <= 2 < 2 ^ 63 /\ 2 * Z.abs (- 1) <= 2 ^ 63 /\ - 1 <> 0 /\ 0 <= 2)
  /\ fst (hipblas_init_template upd (fun _ : Z => 0)
            {| hbv_n := 2; hbv_inc := - 1; hbv_batch_count := 2;
               hbv_ptr := fun b => 10 * b |} counter_gen true true
            (fun _ => 0, 5))
         (10 * 1 + element_offset 2 (- 1) 0)
     = hipblas_negate (draw counter_gen 0 (Z.to_nat (1 * 2 + 0))).
Proof.
  split; [lia|].
  destruct (@init_template_values Z Z Z_scalar (fun _ : Z => 0) counter_gen
              {| hbv_n := 2; hbv_inc := - 1; hbv_batch_count := 2;
                 hbv_ptr := fun b => 10 * b |} true true (fun _ => 0) 5)
    as (_ & Hcell & _); cbn [hbv_n hbv_inc hbv_batch_count hbv_ptr]; try lia.
  apply (Hcell 1 0); cbn [hbv_n hbv_batch_count]; lia.
Defined.

(** ** [banded_matrix_setup] *)

Section StoreUpdates.
Context {T : Type}.
Implicit Types (m : mem T).

(** A loop whose iteration [k] rewrites the cell [addr k] only, the cells
    being pairwise distinct: every cell is rewritten once, from its initial
    value. *)
Lemma seq_update_spec (addr : Z -> Z) (step : Z -> T -> T -> Prop)
    (body : Z -> mem T -> mem T) n m0 :
  0 <= n ->
  (forall k k', 0 <= k < n -> 0 <= k' < n -> addr k = addr k' -> k = k') ->
  (forall k m, 0 <= k < n -> step k (m (addr k)) (body k m (addr k))) ->
  (forall k m x, 0 <= k < n -> x <> addr k -> body k m x = m x) ->
  let m' := for_lt 0 n body m0 in
  (forall k, 0 <= k < n -> step k (m0 (addr k)) (m' (addr k)))
  /\ (forall x, (forall k, 0 <= k < n -> x <> addr k) -> m' x = m0 x).
Proof.
  intros Hn Hinj Hstep Hother.
  pose (P := fun (i : Z) (m : mem T) =>
    (forall k, 0 <= k < i -> step k (m0 (addr k)) (m (addr k)))
    /\ (forall x, (forall k, 0 <= k < i -> x <> addr k) -> m x = m0 x)).
  apply (for_lt_inv P); unfold P; [exact Hn| |].
  - split; [intros k Hk; lia|reflexivity].
  - intros i m Hi (Hcell & Hframe). split.
    + intros k Hk. destruct (Z.eq_dec k i) as [->|Hne].
      * rewrite <- (Hframe (addr i)); [now apply Hstep|].
        intros k Hk' Heq. assert (i = k) by (apply Hinj; [lia|lia|exact Heq]).
        lia.
      * rewrite Hother; [apply Hcell; lia|lia|].
        intros Heq. apply Hne. apply Hinj; [lia|lia|exact Heq].
    + intros x Hx. rewrite Hother; [|lia|apply Hx; lia].
      apply Hframe. intros k Hk. apply Hx. lia.
Qed.

End StoreUpdates.

Section BandedSetup.
Context {T : Type} {ops : Scalar T}.
Implicit Types (m : mem T).

Lemma band_row_dec (upper : bool) n k i j :
  0 <= i < n -> 0 <= j < n ->
  (if upper then orb (j >? k + i) (i >? j) else orb (i >? k + j) (j >? i))
  = false <-> band_row upper n k j i.
Proof.
  intros Hi Hj. unfold band_row.
  destruct upper; rewrite orb_false_iff, !Z.gtb_ltb, !Z.ltb_ge; lia.
Qed.

Lemma banded_setup_entry upper A n k i j m :
  0 <= i < n -> 0 <= j < n ->
  let m' := if upper && ((j >? k + i) || (i >? j)) then
              upd m (A + (j * n + i)) s_zero
            else if negb upper && ((i >? k + j) || (j >? i)) then
              upd m (A + (j * n + i)) s_zero
            else m in
  (band_row upper n k j i -> m' (A + (j * n + i)) = m (A + (j * n + i)))
  /\ (~ band_row upper n k j i -> m' (A + (j * n + i)) = s_zero)
  /\ (forall x, x <> A + (j * n + i) -> m' x = m x).
Proof.
  intros Hi Hj m'.
  pose proof (@band_row_dec upper n k i j Hi Hj) as Hdec.
  subst m'. destruct upper; cbn [andb negb] in *.
  - destruct ((j >? k + i) || (i >? j)).
    + split; [intros Hb; apply Hdec in Hb; discriminate|].
      split; [intros _; apply upd_same|intros x Hx; now apply upd_other].
    + split; [reflexivity|]. split; [|reflexivity].
      intros Hn. elim Hn. now apply Hdec.
  - destruct ((i >? k + j) || (j >? i)).
    + split; [intros Hb; apply Hdec in Hb; discriminate|].
      split; [intros _; apply upd_same|intros x Hx; now apply upd_other].
    + split; [reflexivity|]. split; [|reflexivity].
      intros Hn. elim Hn. now apply Hdec.
Qed.

Lemma banded_matrix_setup_spec upper A lda n k m :
  0 <= n ->
  let m' := banded_matrix_setup upper A lda n k m in
  (forall i j, 0 <= i < n -> 0 <= j < n ->
     (band_row upper n k j i -> m' (A + (j * n + i)) = m (A + (j * n + i)))
     /\ (~ band_row upper n k j i -> m' (A + (j * n + i)) = s_zero))
  /\ (forall a, a < A \/ A + n * n <= a -> m' a = m a).
Proof.
  intros Hn m'. unfold m', banded_matrix_setup.
  rewrite (for_lt_nest (fun i j (m : mem T) =>
              if upper && ((j >? k + i) || (i >? j)) then
                upd m (A + (j * n + i)) s_zero
              else if negb upper && ((i >? k + j) || (j >? i)) then
                upd m (A + (j * n + i)) s_zero
              else m) m Hn Hn).
  destruct (@seq_update_spec T
              (fun q => A + (q mod n * n + q / n))
              (fun q old new =>
                 (band_row upper n k (q mod n) (q / n) -> new = old)
                 /\ (~ band_row upper n k (q mod n) (q / n) -> new = s_zero))
              (fun q (m : mem T) =>
                 if upper && ((q mod n >? k + q / n) || (q / n >? q mod n))
                 then upd m (A + (q mod n * n + q / n)) s_zero
                 else if negb upper
                         && ((q / n >? k + q mod n) || (q mod n >? q / n))
                 then upd m (A + (q mod n * n + q / n)) s_zero
                 else m)
              (n * n) m) as (Hcell & Hframe).
  - nia.
  - intros q q' Hq Hq' Heq.
    destruct (@rect_decode q n n Hn Hn Hq) as (Hi & Hj & Eq).
    destruct (@rect_decode q' n n Hn Hn Hq') as (Hi' & Hj' & Eq').
    destruct (@cell_inj n (q / n) (q mod n) (q' / n) (q' mod n))
      as (E1 & E2); [lia|lia|lia|].
    rewrite Eq, Eq', E1, E2. reflexivity.
  - intros q m1 Hq.
    destruct (@rect_decode q n n Hn Hn Hq) as (Hi & Hj & _).
    destruct (@banded_setup_entry upper A n k (q / n) (q mod n) m1 Hi Hj)
      as (Hin & Hout & _). split; assumption.
  - intros q m1 x Hq Hx.
    destruct (@rect_decode q n n Hn Hn Hq) as (Hi & Hj & _).
    destruct (@banded_setup_entry upper A n k (q / n) (q mod n) m1 Hi Hj)
      as (_ & _ & Hother). now apply Hother.
  - split.
    + intros i j Hi Hj.
      destruct (@nest_index i j n Hj) as (E1 & E2).
      assert (Hq : 0 <= i * n + j < n * n) by nia.
      specialize (Hcell _ Hq). cbv beta in Hcell.
      rewrite E1, E2 in Hcell. exact Hcell.
    + intros a Ha. apply Hframe. intros q Hq.
      destruct (@rect_decode q n n Hn Hn Hq) as (Hi & Hj & _). nia.
Qed.

End BandedSetup.

(** X10: [banded_matrix_setup] addresses the [n x n] matrix with [n] as its
    leading dimension (the [lda] argument is not used): it sets every entry
    outside the band of [k] super-diagonals (upper) or sub-diagonals (lower)
    to zero, leaves the band entries and everything outside the [n * n]
    cells as they were, and running it a second time changes nothing; the
    overload on batch containers does this for every member. *)
Theorem banded_matrix_setup_band :
  forall (T : Type) (ops : Scalar T) (upper : bool) (A lda n k : Z)
         (m : mem T),
    0 <= n ->
    let m' := banded_matrix_setup upper A lda n k m in
    (forall i j, 0 <= i < n -> 0 <= j < n ->
       (band_row upper n k j i -> m' (A + (j * n + i)) = m (A + (j * n + i)))
       /\ (~ band_row upper n k j i -> m' (A + (j * n + i)) = s_zero))
    /\ (forall a, a < A \/ A + n * n <= a -> m' a = m a)
    /\ (forall a, banded_matrix_setup upper A lda n k m' a = m' a)
    /\ (forall h_A : host_batch_matrix,
          hbm_n h_A = n -> n * n < 2 ^ 63 ->
          banded_matrix_setup_batched upper h_A k m
          = for_lt 0 (hbm_batch_count h_A) (fun b =>
              banded_matrix_setup upper (hbm_ptr h_A b) lda n k) m).
Proof.
  intros T ops upper A lda n k m Hn m'.
  destruct (@banded_matrix_setup_spec T ops upper A lda n k m Hn)
    as (Hcell & Hframe).
  destruct (@banded_matrix_setup_spec T ops upper A lda n k m' Hn)
    as (Hcell' & Hframe').
  fold m' in Hcell, Hframe.
  split; [exact Hcell|]. split; [exact Hframe|]. split.
  - intros a.
    destruct (Z.lt_ge_cases a A) as [Hlo|Hlo]; [apply Hframe'; lia|].
    destruct (Z.le_gt_cases (A + n * n) a) as [Hhi|Hhi];
      [apply Hframe'; lia|].
    assert (Hq : 0 <= a - A < n * n) by lia.
    destruct (@rect_decode (a - A) n n Hn Hn Hq) as (Hj & Hi & Eq).
    assert (Ea : a = A + ((a - A) / n * n + (a - A) mod n)) by lia.
    rewrite Ea.
    destruct (Hcell _ _ Hi Hj) as (Hin & Hout).
    destruct (Hcell' _ _ Hi Hj) as (Hin' & Hout').
    destruct (@band_row_dec upper n k ((a - A) mod n) ((a - A) / n) Hi Hj)
      as (Hdec & _).
    destruct (if upper
              then (((a - A) / n >? k + (a - A) mod n)
                    || ((a - A) mod n >? (a - A) / n))
              else (((a - A) mod n >? k + (a - A) / n)
                    || ((a - A) / n >? (a - A) mod n))) eqn:E.
    + assert (Hnot : ~ band_row upper n k ((a - A) / n) ((a - A) mod n)).
      { intros Hb.
        destruct (@band_row_dec upper n k ((a - A) mod n) ((a - A) / n)
                    Hi Hj) as (_ & Hback).
        rewrite (Hback Hb) in E. discriminate. }
      now rewrite (Hout' Hnot), (Hout Hnot).
    + now apply Hin', Hdec.
  - intros h_A En Hfit.
    unfold banded_matrix_setup_batched, banded_matrix_setup. rewrite En.
    apply for_lt_ext. intros b t Hb. cbv zeta.
    apply for_lt_ext. intros i u Hi.
    apply for_lt_ext. intros j w Hj.
    rewrite to_size_t_id by lia.
    rewrite size_t_index_id by nia. reflexivity.
Qed.

Lemma banded_matrix_setup_band_witness :
  (0 <= 3 /\ 0 <= 2 < 3 /\ 0 <= 0 < 3 /\ ~ band_row false 3 1 0 2)
  /\ banded_matrix_setup false 0 7 3 1 (fun a => a + 1) (0 + (0 * 3 + 2)) = 0.
Proof.
  assert (Hout : ~ band_row false 3 1 0 2) by (unfold band_row; lia).
  split; [repeat split; try lia; exact Hout|].
  destruct (@banded_matrix_setup_band Z Z_scalar false 0 7 3 1
              (fun a => a + 1)) as (Hcell & _); [lia|].
  destruct (Hcell 2 0) as (_ & Hzero); [lia|lia|].
  now apply Hzero.
Defined.

(** X11: [regular_to_banded] reads the band entries of its input only, so
    converting a matrix prepared by [banded_matrix_setup] gives the same
    banded matrix (and leaves the generator in the same state) as
    converting the original one. *)
Theorem regular_to_banded_after_setup :
  forall (T G : Type) (ops : Scalar T) (random_generator : G -> T * G)
         (upper : bool) (A lda AB ldab n k : Z) (m : mem T) (s : mem T * G),
    0 <= n -> 0 <= k ->
    regular_to_banded random_generator upper
      (fun x => banded_matrix_setup upper A lda n k m (A + x)) n AB ldab n k s
    = regular_to_banded random_generator upper (fun x => m (A + x)) n AB ldab
                        n k s.
Proof.
  intros T G ops random_generator upper A lda AB ldab n k m s Hn Hk.
  destruct (@banded_matrix_setup_spec T ops upper A lda n k m Hn)
    as (Hcell & _).
  unfold regular_to_banded. apply for_lt_ext. intros j t Hj.
  unfold regular_to_banded_column. cbv zeta.
  assert (Ecopy :
    for_le (if upper then Z.max 0 (j - k) else j)
           (if upper then j else Z.min (n - 1) (j + k))
      (fun i (s : mem T * G) =>
         let '(ab, g) := s in
         (upd ab (AB + (j * ldab + ((if upper then k - j else - j) + i)))
              (banded_matrix_setup upper A lda n k m (A + (j * n + i))), g)) t
    = for_le (if upper then Z.max 0 (j - k) else j)
             (if upper then j else Z.min (n - 1) (j + k))
        (fun i (s : mem T * G) =>
           let '(ab, g) := s in
           (upd ab (AB + (j * ldab + ((if upper then k - j else - j) + i)))
                (m (A + (j * n + i))), g)) t).
  { unfold for_le. apply for_lt_ext. intros i [ab g] Hi.
    assert (Hband : band_row upper n k j i)
      by (unfold band_row; destruct upper; lia).
    assert (Hi' : 0 <= i < n) by (destruct upper; lia).
    destruct (Hcell i j Hi' Hj) as (Hin & _).
    now rewrite (Hin Hband). }
  rewrite Ecopy. reflexivity.
Qed.

Lemma regular_to_banded_after_setup_witness :
  (0 <= 3 /\ 0 <= 1)
  /\ fst (regular_to_banded counter_gen true
            (fun x => banded_matrix_setup true 0 3 3 1 (fun a => a + 1) (0 + x))
            3 0 3 3 1 (fun _ => 0, 0)) 4
     = fst (regular_to_banded counter_gen true (fun x => (0 + x) + 1)
              3 0 3 3 1 (fun _ => 0, 0)) 4.
Proof.
  split; [lia|].
  now rewrite (@regular_to_banded_after_setup Z Z Z_scalar counter_gen true
                 0 3 0 3 3 1 (fun a => a + 1) (fun _ => 0, 0)) by lia.
Defined.

(** ** [make_unit_diagonal] *)

Section UnitDiagonal.
Context {T G : Type}.
Variable s_div : T -> T -> T.
Variable random_generator : G -> T * G.
Implicit Types (m : mem T) (g : G).

(** The scaling loops: line [o] (a row of the lower triangle, a column of
    the upper one) is divided by its diagonal entry, cell [c o q] for
    [q <= o]. *)
Lemma scale_lines_spec (c : Z -> Z -> Z) N m0 :
  0 <= N ->
  (forall o q o' q', 0 <= q <= o -> o < N -> 0 <= q' <= o' -> o' < N ->
     c o q = c o' q' -> o = o' /\ q = q') ->
  let m' := for_lt 0 N (fun o m =>
              let diag := m (c o o) in
              for_le 0 o (fun q m =>
                upd m (c o q) (s_div (m (c o q)) diag)) m) m0 in
  (forall o q, 0 <= q <= o -> o < N ->
     m' (c o q) = s_div (m0 (c o q)) (m0 (c o o)))
  /\ (forall x, (forall o q, 0 <= q <= o -> o < N -> x <> c o q) ->
        m' x = m0 x).
Proof.
  intros HN Hinj.
  pose (P := fun (i : Z) (m : mem T) =>
    (forall o q, 0 <= q <= o -> o < i ->
       m (c o q) = s_div (m0 (c o q)) (m0 (c o o)))
    /\ (forall x, (forall o q, 0 <= q <= o -> o < i -> x <> c o q) ->
          m x = m0 x)).
  apply (for_lt_inv P); unfold P; [exact HN| |].
  - split; [intros o q Hq Ho; lia|reflexivity].
  - intros i m Hi (Hcell & Hframe). cbv zeta. unfold for_le.
    assert (Hrow : forall q, 0 <= q <= i -> m (c i q) = m0 (c i q)).
    { intros q Hq. apply Hframe. intros o q' Hq' Ho Heq.
      destruct (Hinj i q o q') as (E & _); lia. }
    destruct (@seq_update_spec T (fun q => c i q)
                (fun q old new => new = s_div old (m (c i i)))
                (fun q m1 => upd m1 (c i q) (s_div (m1 (c i q)) (m (c i i))))
                (i + 1) m) as (Hline & Hrest).
    + lia.
    + intros q q' Hq Hq' Heq.
      destruct (Hinj i q i q') as (_ & E); lia.
    + intros q m1 Hq. apply upd_same.
    + intros q m1 x Hq Hx. now apply upd_other.
    + split.
      * intros o q Hq Ho. destruct (Z.eq_dec o i) as [->|Hne].
        -- rewrite (Hline q) by lia. now rewrite !Hrow by lia.
        -- rewrite Hrest; [apply Hcell; lia|].
           intros q' Hq' Heq.
           destruct (Hinj o q i q') as (E & _); lia.
      * intros x Hx. rewrite Hrest by (intros q Hq; apply Hx; lia).
        apply Hframe. intros o q Hq Ho. apply Hx; lia.
Qed.

Lemma diagonal_fill_spec hA lda N m0 g :
  0 <= N -> 0 <= lda ->
  let s' := for_lt 0 N (fun i =>
              hipblas_init random_generator (hA + i * lda + i) 1 1 1 0 1)
              (m0, g) in
  snd s' = advance random_generator (Z.to_nat N) g
  /\ (forall i, 0 <= i < N ->
        fst s' (hA + (i + i * lda)) = draw random_generator g (Z.to_nat i))
  /\ (forall x, (forall i, 0 <= i < N -> x <> hA + (i + i * lda)) ->
        fst s' x = m0 x).
Proof.
  intros HN Hlda.
  rewrite (for_lt_ext _ (fun i (s : mem T * G) =>
             let '(m, g) := s in
             let '(v, g') := random_generator g in
             (upd m (hA + (i + i * lda)) v, g'))).
  - apply (@seq_fill_spec T G random_generator
             (fun i => hA + (i + i * lda)) (fun _ v => v) N m0 g 0%nat HN).
    intros i i' _ _ Heq. nia.
  - intros i [m1 g1] _. rewrite hipblas_init_one. cbn [fst snd].
    destruct (random_generator g1) as [v g']. cbn [fst snd].
    now replace (hA + i * lda + i) with (hA + (i + i * lda)) by lia.
Qed.

Lemma unit_diagonal_spec (lower : bool) hA lda N m g :
  0 <= N <= lda ->
  let c := fun o q : Z => if lower then hA + (o + q * lda)
                          else hA + (q + o * lda) in
  let s' := for_lt 0 N (fun i =>
              hipblas_init random_generator (hA + i * lda + i) 1 1 1 0 1)
              (for_lt 0 N (fun o m =>
                 let diag := m (c o o) in
                 for_le 0 o (fun q m =>
                   upd m (c o q) (s_div (m (c o q)) diag)) m) m, g) in
  snd s' = advance random_generator (Z.to_nat N) g
  /\ (forall i, 0 <= i < N ->
        fst s' (hA + (i + i * lda)) = draw random_generator g (Z.to_nat i))
  /\ (forall i j, 0 <= j < i -> i < N ->
        fst s' (c i j) = s_div (m (c i j)) (m (hA + (i + i * lda))))
  /\ (forall i j, 0 <= j < i -> i < N -> fst s' (c j i) = m (c j i))
  /\ (forall a, a < hA \/ hA + N * lda <= a -> fst s' a = m a).
Proof.
  intros HN c s'.
  assert (Hinj : forall o q o' q', 0 <= q <= o -> o < N -> 0 <= q' <= o' ->
            o' < N -> c o q = c o' q' -> o = o' /\ q = q').
  { intros o q o' q' Hq Ho Hq' Ho'. unfold c. destruct lower; intros Heq.
    - destruct (@cell_inj lda o q o' q'); [lia|lia|lia|auto].
    - destruct (@cell_inj lda q o q' o'); [lia|lia|lia|auto]. }
  assert (Hdiag_c : forall i, c i i = hA + (i + i * lda))
    by (intros i; unfold c; now destruct lower).
  destruct (@scale_lines_spec c N m ltac:(lia) Hinj) as (Hscale & Hrest).
  set (m1 := for_lt 0 N (fun o m =>
                 let diag := m (c o o) in
                 for_le 0 o (fun q m =>
                   upd m (c o q) (s_div (m (c o q)) diag)) m) m) in *.
  destruct (@diagonal_fill_spec hA lda N m1 g ltac:(lia) ltac:(lia))
    as (Hg & Hdiag & Hoff).
  fold s' in Hg, Hdiag, Hoff.
  assert (Hne : forall r q i, 0 <= r < N -> 0 <= q < N -> r <> q ->
            0 <= i < N -> hA + (r + q * lda) <> hA + (i + i * lda)).
  { intros r q i Hr Hq Hrq Hi Heq.
    destruct (@cell_inj lda r q i i); [lia|lia|lia|lia]. }
  assert (Hoffdiag : forall r q i, 0 <= r < N -> 0 <= q < N -> r <> q ->
            0 <= i < N -> c r q <> hA + (i + i * lda)).
  { intros r q i Hr Hq Hrq Hi. unfold c. destruct lower; apply Hne; lia. }
  split; [exact Hg|]. split; [exact Hdiag|]. split; [|split].
  - intros i j Hj Hi.
    rewrite Hoff by (intros i' Hi'; apply Hoffdiag; lia).
    rewrite <- Hdiag_c. apply Hscale; lia.
  - intros i j Hj Hi.
    rewrite Hoff by (intros i' Hi'; apply Hoffdiag; lia).
    apply Hrest. intros o q Hq Ho. unfold c. destruct lower; intros Heq.
    + destruct (@cell_inj lda j i o q); [lia|lia|lia|lia].
    + destruct (@cell_inj lda i j q o); [lia|lia|lia|lia].
  - intros a Ha.
    rewrite Hoff by (intros i Hi; nia).
    apply Hrest. intros o q Hq Ho. unfold c. destruct lower; nia.
Qed.

End UnitDiagonal.

(** X12: [make_unit_diagonal] divides every stored entry of the triangle by
    the diagonal entry of its row (lower fill mode) or of its column (any
    other fill mode), then overwrites the diagonal with freshly generated
    values, one per diagonal entry: the strict triangle ends up scaled, the
    diagonal holds generated values (not ones), the other triangle and
    everything outside the matrix is untouched. *)
Theorem make_unit_diagonal_scales :
  forall (T G : Type) (s_div : T -> T -> T) (random_generator : G -> T * G)
         (uplo : hipblasFillMode_t) (hA lda N : Z) (m : mem T) (g : G),
    0 <= N <= lda ->
    let s' := make_unit_diagonal s_div random_generator uplo hA lda N (m, g) in
    let stored := fun i j : Z =>
      match uplo with
      | HIPBLAS_FILL_MODE_LOWER => hA + (i + j * lda)
      | _ => hA + (j + i * lda)
      end in
    snd s' = advance random_generator (Z.to_nat N) g
    /\ (forall i, 0 <= i < N ->
          fst s' (hA + (i + i * lda)) = draw random_generator g (Z.to_nat i))
    /\ (forall i j, 0 <= j < i -> i < N ->
          fst s' (stored i j)
          = s_div (m (stored i j)) (m (hA + (i + i * lda))))
    /\ (forall i j, 0 <= j < i -> i < N -> fst s' (stored j i) = m (stored j i))
    /\ (forall a, a < hA \/ hA + N * lda <= a -> fst s' a = m a).
Proof.
  intros T G s_div random_generator uplo hA lda N m g HN.
  destruct uplo.
  - exact (@unit_diagonal_spec T G s_div random_generator false hA lda N m g
             HN).
  - exact (@unit_diagonal_spec T G s_div random_generator true hA lda N m g
             HN).
  - exact (@unit_diagonal_spec T G s_div random_generator false hA lda N m g
             HN).
Qed.

Lemma make_unit_diagonal_scales_witness :
  (0 <= 2 <= 2 /\ 0 <= 0 < 1 /\ 1 < 2)
  /\ fst (make_unit_diagonal Z.div counter_gen HIPBLAS_FILL_MODE_LOWER 0 2 2
            (fun a => 6 * (a + 1), 0)) (0 + (1 + 0 * 2))
     = (6 * ((0 + (1 + 0 * 2)) + 1)) / (6 * ((0 + (1 + 1 * 2)) + 1)).
Proof.
  split; [lia|].
  destruct (@make_unit_diagonal_scales Z Z Z.div counter_gen
              HIPBLAS_FILL_MODE_LOWER 0 2 2 (fun a => 6 * (a + 1)) 0)
    as (_ & _ & Hscale & _); [lia|].
  apply (Hscale 1 0); lia.
Defined.

(** ** The triangular kind *)

Section TriangularKind.
Context {T G : Type} {ops : Scalar T}.
Variable rand_gen : G -> T * G.
Implicit Types (m : mem T) (g : G).

Lemma triangular_entry_cell uplo A off i j (s : mem T * G) :
  triangular_value rand_gen uplo i j
    (fst (triangular_entry rand_gen uplo A off i j s) (A + off))
  /\ (forall x, x <> A + off ->
        fst (triangular_entry rand_gen uplo A off i j s) x = fst s x).
Proof.
  destruct s as [m g]. unfold triangular_entry, triangular_value.
  destruct (Ascii.eqb uplo "U").
  - rewrite Z.geb_leb. destruct (Z.leb_spec i j), (Z.ltb_spec j i); try lia.
    + destruct (rand_gen g) as [v g'] eqn:E. cbn [fst snd].
      split; [rewrite upd_same; exists g; now rewrite E|].
      intros x Hx. now apply upd_other.
    + cbn [fst snd]. split; [apply upd_same|].
      intros x Hx. now apply upd_other.
  - destruct (Z.leb_spec j i), (Z.ltb_spec i j); try lia.
    + destruct (rand_gen g) as [v g'] eqn:E. cbn [fst snd].
      split; [rewrite upd_same; exists g; now rewrite E|].
      intros x Hx. now apply upd_other.
    + cbn [fst snd]. split; [apply upd_same|].
      intros x Hx. now apply upd_other.
Qed.

End TriangularKind.

(** X13: the triangular kind of [hipblas_init_matrix] stores zero at every
    entry outside the triangle selected by the fill mode (['U']: below the
    diagonal; any other character: above it) and a generated value at every
    entry inside it, for every member of the [M x N] batch matrix; no other
    cell is written. *)
Theorem init_matrix_triangular :
  forall (T G : Type) (ops : Scalar T) (rand_gen : G -> T * G)
         (uplo : ascii) (hA : host_batch_matrix) (m : mem T) (g : G),
    let M := hbm_m hA in
    let N := hbm_n hA in
    let lda := hbm_lda hA in
    0 <= M < 2 ^ 64 -> 0 <= N < 2 ^ 64 -> M <= lda ->
    (forall b1 b2, 0 <= b1 < hbm_batch_count hA ->
                   0 <= b2 < hbm_batch_count hA -> b1 <> b2 ->
                   hbm_ptr hA b1 + N * lda <= hbm_ptr hA b2
                   \/ hbm_ptr hA b2 + N * lda <= hbm_ptr hA b1) ->
    let s' := hipblas_init_matrix rand_gen hipblas_triangular_matrix uplo hA
                (m, g) in
    (forall b i j, 0 <= b < hbm_batch_count hA -> 0 <= i < M -> 0 <= j < N ->
       triangular_value rand_gen uplo i j
         (entry (fst s') (hbm_ptr hA b) lda i j))
    /\ (forall a,
          (forall b i j, 0 <= b < hbm_batch_count hA -> 0 <= i < M ->
                         0 <= j < N -> a <> hbm_ptr hA b + (i + j * lda)) ->
          fst s' a = m a).
Proof.
  intros T G ops rand_gen uplo hA m g M N lda HM HN Hlda Hdisj s'.
  destruct (Z.le_gt_cases 0 (hbm_batch_count hA)) as [HB|HB].
  - unfold s', hipblas_init_matrix, init_matrix_batch.
    fold M N lda. rewrite !to_size_t_id by lia.
    destruct (@box_write_spec T G
                (fun b j i => hbm_ptr hA b + (i + j * lda))
                (fun _ j i v => triangular_value rand_gen uplo i j v)
                (fun b j i => triangular_entry rand_gen uplo (hbm_ptr hA b)
                                               (i + j * lda) i j)
                (hbm_batch_count hA) N M (m, g) HB ltac:(lia) ltac:(lia))
      as (Hcell & Hframe).
    + intros b1 j1 i1 b2 j2 i2 Hb1 Hj1 Hi1 Hb2 Hj2 Hi2 Heq.
      assert (Hr1 : 0 <= i1 + j1 * lda < N * lda) by nia.
      assert (Hr2 : 0 <= i2 + j2 * lda < N * lda) by nia.
      destruct (Z.eq_dec b1 b2) as [->|Hne].
      * destruct (@cell_inj lda i1 j1 i2 j2) as (E1 & E2); [lia|lia|lia|].
        auto.
      * destruct (Hdisj b1 b2 Hb1 Hb2 Hne); lia.
    + intros b j i s Hb Hj Hi. apply triangular_entry_cell.
    + intros b j i s x Hb Hj Hi Hx. now apply triangular_entry_cell.
    + split.
      * intros b i j Hb Hi Hj. unfold entry. now apply Hcell.
      * intros a Ha. apply Hframe. intros b j i Hb Hj Hi. now apply Ha.
  - unfold s', hipblas_init_matrix. rewrite for_lt_empty by lia.
    split; [intros b i j Hb; lia|reflexivity].
Qed.

Lemma init_matrix_triangular_witness :
  (0 <= 2 < 2 ^ 64 /\ 0 <= 2 < 2 ^ 64 /\ 2 <= 2)
  /\ entry (fst (hipblas_init_matrix counter_gen hipblas_triangular_matrix
                   "U"%char
                   {| hbm_m := 2; hbm_n := 2; hbm_lda := 2;
                      hbm_batch_count := 1; hbm_ptr := fun _ => 0 |}
                   (fun _ => 7, 0))) 0 2 1 0 = 0.
Proof.
  split; [lia|].
  destruct (@init_matrix_triangular Z Z Z_scalar counter_gen "U"%char
              {| hbm_m := 2; hbm_n := 2; hbm_lda := 2;
                 hbm_batch_count := 1; hbm_ptr := fun _ => 0 |}
              (fun _ => 7) 0) as (Hcell & _);
    cbn [hbm_m hbm_n hbm_lda hbm_batch_count hbm_ptr]; try lia.
  exact (Hcell 0 1 0 ltac:(cbn; lia) ltac:(cbn; lia) ltac:(cbn; lia)).
Defined.

(** X14: the triangular kind of [hipblas_fill_matrix_type] adds the member
    offset [b * stride] twice (once in the member pointer, once in the
    index), so member [b] is written at [A_data + 2 * b * stride]: there
    the entries outside the selected triangle are zero and the others
    generated values, and no other cell is written.  In a batch of
    non-overlapping members ([stride >= N * lda]) the cells of member 1 at
    [A_data + stride] are therefore left as they were. *)
Theorem fill_matrix_type_triangular_offset :
  forall (T G : Type) (ops : Scalar T) (rand_gen : G -> T * G)
         (uplo : ascii) (A_data M N lda stride batch_count : Z)
         (m : mem T) (g : G),
    0 <= M < 2 ^ 64 -> 0 <= N < 2 ^ 64 -> M <= lda ->
    0 <= batch_count < 2 ^ 64 ->
    batch_count <= 1 \/ N * lda <= 2 * stride ->
    let s' := hipblas_fill_matrix_type rand_gen hipblas_triangular_matrix
                uplo A_data M N lda stride batch_count (m, g) in
    (forall b i j, 0 <= b < batch_count -> 0 <= i < M -> 0 <= j < N ->
       triangular_value rand_gen uplo i j
         (entry (fst s') (A_data + 2 * b * stride) lda i j))
    /\ (forall a,
          (forall b i j, 0 <= b < batch_count -> 0 <= i < M -> 0 <= j < N ->
                         a <> A_data + 2 * b * stride + (i + j * lda)) ->
          fst s' a = m a)
    /\ (N * lda <= stride ->
        forall a, A_data + stride <= a < A_data + stride + N * lda ->
                  fst s' a = m a).
Proof.
  intros T G ops rand_gen uplo A_data M N lda stride batch_count m g
         HM HN Hlda HB Hstride s'.
  unfold s', hipblas_fill_matrix_type, fill_matrix_type_batch.
  rewrite !to_size_t_id by lia.
  destruct (@box_write_spec T G
              (fun b i j => A_data + b * stride + (i + j * lda + b * stride))
              (fun _ i j v => triangular_value rand_gen uplo i j v)
              (fun b i j => triangular_entry rand_gen uplo
                              (A_data + b * stride)
                              (i + j * lda + b * stride) i j)
              batch_count M N (m, g) ltac:(lia) ltac:(lia) ltac:(lia))
    as (Hcell & Hframe).
  - intros b1 i1 j1 b2 i2 j2 Hb1 Hi1 Hj1 Hb2 Hi2 Hj2 Heq.
    destruct (@strided_cell_inj lda (2 * stride) M N batch_count
                b1 i1 j1 b2 i2 j2) as (E1 & E2 & E3);
      try assumption; try lia.
  - intros b i j s Hb Hi Hj. apply triangular_entry_cell.
  - intros b i j s x Hb Hi Hj Hx. now apply triangular_entry_cell.
  - assert (Hframe' : forall a,
              (forall b i j, 0 <= b < batch_count -> 0 <= i < M ->
                             0 <= j < N ->
                             a <> A_data + 2 * b * stride + (i + j * lda)) ->
              fst (for_lt 0 batch_count (fun b =>
                     for_lt 0 M (fun i =>
                       for_lt 0 N (fun j =>
                         triangular_entry rand_gen uplo (A_data + b * stride)
                           (i + j * lda + b * stride) i j))) (m, g)) a = m a).
    { intros a Ha. apply Hframe. intros b i j Hb Hi Hj.
      specialize (Ha b i j Hb Hi Hj). lia. }
    split; [|split].
    + intros b i j Hb Hi Hj. unfold entry.
      replace (A_data + 2 * b * stride + (i + j * lda))
        with (A_data + b * stride + (i + j * lda + b * stride)) by lia.
      now apply Hcell.
    + exact Hframe'.
    + intros Hs a Ha. apply Hframe'. intros b i j Hb Hi Hj.
      assert (Hr : 0 <= i + j * lda < N * lda) by nia.
      destruct (Z.eq_dec b 0) as [->|Hb0]; [lia|].
      assert (2 * stride <= 2 * b * stride) by nia. lia.
Qed.

Lemma fill_matrix_type_triangular_offset_witness :
  (0 <= 2 < 2 ^ 64 /\ 0 <= 2 < 2 ^ 64 /\ 2 <= 2 /\ 0 <= 2 < 2 ^ 64
   /\ (2 <= 1 \/ 2 * 2 <= 2 * 4) /\ 2 * 2 <= 4)
  /\ fst (hipblas_fill_matrix_type counter_gen hipblas_triangular_matrix
            "U"%char 0 2 2 2 4 2 (fun _ => 7, 0)) 4 = 7.
Proof.
  split; [lia|].
  destruct (@fill_matrix_type_triangular_offset Z Z Z_scalar counter_gen
              "U"%char 0 2 2 2 4 2 (fun _ => 7) 0) as (_ & _ & Hmember);
    try lia.
  apply (Hmember ltac:(lia) 4). lia.
Defined.

(** ** [hipblas_init_matrix_type] with trigonometric initialization *)

Section TrigDispatch.
Context {T G : Type} {ops : Scalar T}.
Variable hipblas_seedrand : G -> G.
Variables random_nan_generator random_hpl_generator random_generator
  : G -> T * G.
Variables cos_T sin_T : Z -> T.
Implicit Types (m : mem T) (s : mem T * G).

Lemma init_matrix_trig_no_members matrix_type uplo A M N lda stride
    use_cosine m :
  matrix_type <> hipblas_diagonally_dominant_triangular_matrix ->
  hipblas_init_matrix_trig cos_T sin_T matrix_type uplo A M N lda stride 0
                           use_cosine m = Some m.
Proof.
  intros Hkind. unfold hipblas_init_matrix_trig.
  change (to_size_t 0) with 0.
  destruct matrix_type; rewrite ?for_lt_empty by lia; try reflexivity.
  now elim Hkind.
Qed.

Lemma init_matrix_trig_no_rows matrix_type uplo A N lda stride batch_count
    use_cosine m :
  matrix_type = hipblas_general_matrix
  \/ matrix_type = hipblas_triangular_matrix ->
  hipblas_init_matrix_trig cos_T sin_T matrix_type uplo A 0 N lda stride
                           batch_count use_cosine m = Some m.
Proof.
  intros [-> | ->]; unfold hipblas_init_matrix_trig; f_equal;
    apply for_lt_nop; intros b t _; apply for_lt_nop; intros j u _;
    now apply for_lt_empty.
Qed.

Lemma init_matrix_type_trig matrix_type hA arg M N lda stride_A batch_count
    nan_init seedReset alternating_sign s :
  init_initialization arg = trig_float ->
  (nan_init = hipblas_client_alpha_sets_nan -> init_alpha_isnan arg = false) ->
  (nan_init = hipblas_client_beta_sets_nan -> init_beta_isnan arg = false) ->
  hipblas_init_matrix_type hipblas_seedrand random_nan_generator
    random_hpl_generator random_generator cos_T sin_T matrix_type hA arg
    M N lda stride_A batch_count nan_init seedReset alternating_sign s
  = match hipblas_init_matrix_trig cos_T sin_T matrix_type (init_uplo arg) hA
            (if seedReset then 1 else 0) M N (to_int64 lda) stride_A
            (negb (batch_count =? 0))
            (fst (if seedReset then (fst s, hipblas_seedrand (snd s)) else s))
    with
    | Some m' =>
        Some (m', snd (if seedReset then (fst s, hipblas_seedrand (snd s))
                       else s))
    | None => None
    end.
Proof.
  intros Einit Halpha Hbeta. unfold hipblas_init_matrix_type. cbv zeta.
  rewrite Einit.
  destruct nan_init.
  - rewrite (Halpha eq_refl). reflexivity.
  - rewrite (Hbeta eq_refl). reflexivity.
  - reflexivity.
Qed.

End TrigDispatch.

(** X15: with [arg.initialization == trig_float] (and no NaN
    initialization requested), [hipblas_init_matrix_type] calls the
    pointer overload of [hipblas_init_matrix_trig] with its arguments one
    position late: [seedReset] is taken as the row count, [M] as the column
    count, [N] as the leading dimension, [lda] as the stride, [stride_A] as
    the batch count and [batch_count] as the cosine flag.  Hence nothing is
    written when [stride_A] is zero (for every kind but the diagonally
    dominant one, whose assertion fails), nor when [seedReset] is false and
    the kind is general or triangular; in particular both
    [hipblas_init_matrix] overloads on containers with stride zero leave the
    matrix as it was and only reseed the generator. *)
Theorem init_matrix_type_trig_float :
  forall (T G : Type) (ops : Scalar T) (hipblas_seedrand : G -> G)
         (random_nan_generator random_hpl_generator random_generator
            : G -> T * G)
         (cos_T sin_T : Z -> T) (arg : init_arguments)
         (nan_init : hipblas_client_nan_init),
    init_initialization arg = trig_float ->
    (nan_init = hipblas_client_alpha_sets_nan -> init_alpha_isnan arg = false) ->
    (nan_init = hipblas_client_beta_sets_nan -> init_beta_isnan arg = false) ->
    let init_type :=
      hipblas_init_matrix_type hipblas_seedrand random_nan_generator
        random_hpl_generator random_generator cos_T sin_T in
    let reseeded (seedReset : bool) (s : mem T * G) :=
      if seedReset then (fst s, hipblas_seedrand (snd s)) else s in
    (forall matrix_type hA M N lda stride_A batch_count seedReset
            alternating_sign s,
       init_type matrix_type hA arg M N lda stride_A batch_count nan_init
                 seedReset alternating_sign s
       = match hipblas_init_matrix_trig cos_T sin_T matrix_type
                 (init_uplo arg) hA (if seedReset then 1 else 0) M N
                 (to_int64 lda) stride_A (negb (batch_count =? 0))
                 (fst (reseeded seedReset s)) with
         | Some m' => Some (m', snd (reseeded seedReset s))
         | None => None
         end)
    /\ (forall matrix_type hA M N lda batch_count seedReset alternating_sign s,
          matrix_type <> hipblas_diagonally_dominant_triangular_matrix ->
          init_type matrix_type hA arg M N lda 0 batch_count nan_init
                    seedReset alternating_sign s
          = Some (reseeded seedReset s))
    /\ (forall matrix_type hA M N lda stride_A batch_count alternating_sign s,
          matrix_type = hipblas_general_matrix
          \/ matrix_type = hipblas_triangular_matrix ->
          init_type matrix_type hA arg M N lda stride_A batch_count nan_init
                    false alternating_sign s
          = Some s)
    /\ (forall hA M N lda batch_count seed_reset alternating_sign s,
          hipblas_init_matrix_host_vector hipblas_seedrand
            random_nan_generator random_hpl_generator random_generator
            cos_T sin_T hA arg M N lda 0 batch_count nan_init seed_reset
            alternating_sign s
          = Some (reseeded seed_reset s))
    /\ (forall hA hA_batch_count M N lda matrix_type seed_reset
               alternating_sign s,
          matrix_type <> hipblas_diagonally_dominant_triangular_matrix ->
          hipblas_init_matrix_host_batch_vector hipblas_seedrand
            random_nan_generator random_hpl_generator random_generator
            cos_T sin_T hA hA_batch_count arg M N lda nan_init matrix_type
            seed_reset alternating_sign s
          = Some (reseeded (seed_reset && (0 <? hA_batch_count)) s)).
Proof.
  intros T G ops hipblas_seedrand random_nan_generator random_hpl_generator
         random_generator cos_T sin_T arg nan_init Einit Halpha Hbeta
         init_type reseeded.
  assert (Hcall : forall matrix_type hA M N lda stride_A batch_count seedReset
            alternating_sign s,
       init_type matrix_type hA arg M N lda stride_A batch_count nan_init
                 seedReset alternating_sign s
       = match hipblas_init_matrix_trig cos_T sin_T matrix_type
                 (init_uplo arg) hA (if seedReset then 1 else 0) M N
                 (to_int64 lda) stride_A (negb (batch_count =? 0))
                 (fst (reseeded seedReset s)) with
         | Some m' => Some (m', snd (reseeded seedReset s))
         | None => None
         end).
  { intros. unfold init_type, reseeded.
    now apply init_matrix_type_trig. }
  assert (Hzero : forall matrix_type hA M N lda batch_count seedReset
            alternating_sign s,
          matrix_type <> hipblas_diagonally_dominant_triangular_matrix ->
          init_type matrix_type hA arg M N lda 0 batch_count nan_init
                    seedReset alternating_sign s
          = Some (reseeded seedReset s)).
  { intros matrix_type hA M N lda batch_count seedReset alternating_sign s
           Hkind.
    rewrite Hcall, init_matrix_trig_no_members by exact Hkind.
    now destruct (reseeded seedReset s). }
  split; [exact Hcall|]. split; [exact Hzero|]. split; [|split].
  - intros matrix_type hA M N lda stride_A batch_count alternating_sign s
           Hkind.
    rewrite Hcall, init_matrix_trig_no_rows by exact Hkind.
    unfold reseeded. now destruct s.
  - intros hA M N lda batch_count seed_reset alternating_sign s.
    unfold hipblas_init_matrix_host_vector. apply Hzero. discriminate.
  - intros hA hA_batch_count M N lda matrix_type seed_reset alternating_sign
           s Hkind.
    unfold hipblas_init_matrix_host_batch_vector.
    destruct (Z.le_gt_cases hA_batch_count 0) as [HB|HB].
    + rewrite for_lt_empty by lia.
      replace (0 <? hA_batch_count) with false by (symmetry; now apply Z.ltb_ge).
      now rewrite andb_false_r.
    + pose (P := fun (i : Z) (os : option (mem T * G)) =>
        os = Some (reseeded (seed_reset && (0 <? i)) s)).
      apply (for_lt_inv P); unfold P; [lia| |].
      * change (0 <? 0) with false. now rewrite andb_false_r.
      * intros i os Hi ->.
        fold init_type. rewrite Hzero by exact Hkind.
        f_equal. unfold reseeded.
        replace (0 <? i + 1) with true by (symmetry; apply Z.ltb_lt; lia).
        rewrite andb_true_r.
        destruct (Z.eqb_spec i 0) as [->|Hi0].
        -- change (0 <? 0) with false. now rewrite andb_false_r, andb_true_r.
        -- replace (0 <? i) with true by (symmetry; apply Z.ltb_lt; lia).
           rewrite andb_false_r, andb_true_r. reflexivity.
Qed.

Lemma init_matrix_type_trig_float_witness :
  init_initialization
    {| init_uplo := "U"%char; init_alpha_isnan := false;
       init_beta_isnan := false; init_initialization := trig_float |}
  = trig_float
  /\ hipblas_init_matrix_host_vector (fun _ : Z => 0) counter_gen counter_gen
       counter_gen (fun k : Z => k) (fun k : Z => - k) 0
       {| init_uplo := "U"%char; init_alpha_isnan := false;
          init_beta_isnan := false; init_initialization := trig_float |}
       3 3 3 0 1 hipblas_client_alpha_sets_nan true false (fun _ => 7, 5)
     = Some (fun _ => 7, 0).
Proof.
  split; [reflexivity|].
  destruct (@init_matrix_type_trig_float Z Z Z_scalar (fun _ : Z => 0)
              counter_gen counter_gen counter_gen (fun k : Z => k)
              (fun k : Z => - k)
              {| init_uplo := "U"%char; init_alpha_isnan := false;
                 init_beta_isnan := false; init_initialization := trig_float |}
              hipblas_client_alpha_sets_nan eq_refl (fun _ => eq_refl)
              (fun _ => eq_refl)) as (_ & _ & _ & Hvec & _).
  apply Hvec.
Defined.

(** ** Initial data stays inside the allocated buffers *)

Section InitInBounds.
Context {T G : Type} {ops : Scalar T}.
Implicit Types (m : mem T) (s : mem T * G).

Lemma fill_general_frame (rand_gen : G -> T * G) uplo hA M N lda s a :
  0 <= M < 2 ^ 64 -> 0 <= N < 2 ^ 64 -> M <= lda ->
  a < hA \/ hA + lda * N <= a ->
  fst (hipblas_fill_matrix_type rand_gen hipblas_general_matrix uplo hA M N
         lda 0 1 s) a = fst s a.
Proof.
  intros HM HN Hlda Ha. destruct s as [m g].
  unfold hipblas_fill_matrix_type, fill_matrix_type_batch, general_entry.
  change (to_size_t 1) with 1. rewrite !to_size_t_id by lia.
  destruct (@box_fill_spec T G rand_gen
              (fun b j i => hA + b * 0 + (i + j * lda))
              (fun _ _ _ v => v) 1 N M m g
              ltac:(lia) ltac:(lia) ltac:(lia)) as (_ & _ & Hframe).
  - intros b j i b' j' i' Hb Hj Hi Hb' Hj' Hi' Heq.
    destruct (@cell_inj lda i j i' j') as (E1 & E2); [lia|lia|lia|].
    split; [lia|auto].
  - apply Hframe. intros b j i Hb Hj Hi. nia.
Qed.

Lemma alternating_general_frame (rand_gen : G -> T * G) uplo hA M N lda s a :
  0 <= M <= lda -> 0 <= N -> M + N * lda < 2 ^ 63 ->
  a < hA \/ hA + lda * N <= a ->
  fst (hipblas_init_matrix_alternating_sign hipblas_general_matrix uplo
         rand_gen hA M N lda 0 1 s) a = fst s a.
Proof.
  intros HM HN Hfit Ha. destruct s as [m g].
  rewrite init_matrix_alternating_sign_nest by lia.
  destruct (@box_fill_spec T G rand_gen
              (fun b i j => hA + (i + j * lda + b * 0))
              (fun _ i j v => alternate i j v) 1 M N m g
              ltac:(lia) ltac:(lia) ltac:(lia)) as (_ & _ & Hframe).
  - intros b i j b' i' j' Hb Hi Hj Hb' Hi' Hj' Heq.
    destruct (@cell_inj lda i j i' j') as (E1 & E2); [lia|lia|lia|].
    split; [lia|auto].
  - apply Hframe. intros b i j Hb Hi Hj. nia.
Qed.

End InitInBounds.

(** X16: whatever the initialization mode, the NaN request and the flags,
    [hipblas_init_matrix] on a host vector holding one [M x N] matrix with
    leading dimension [lda >= M] (stride 0, one batch, as the drivers call
    it) succeeds and writes nothing outside the first [lda * N] elements;
    and on a full run [testing_hemv] and [testing_geam] allocate exactly
    [lda * columns] elements for each matrix operand, the leading dimension
    being at least the number of rows. *)
Theorem init_matrix_within_allocation :
  forall (T G : Type) (ops : Scalar T) (hipblas_seedrand : G -> G)
         (random_nan_generator random_hpl_generator random_generator
            : G -> T * G)
         (cos_T sin_T : Z -> T) (double : Type)
         (char2hipblas_fill : ascii -> hipblasFillMode_t)
         (char2hipblas_operation : ascii -> hipblasOperation_t),
    (forall hA (arg : init_arguments) M N lda nan_init seed_reset
            alternating_sign (s : mem T * G),
       0 <= M <= lda -> 0 <= N < 2 ^ 63 -> M + N * lda < 2 ^ 63 ->
       exists s',
         hipblas_init_matrix_host_vector hipblas_seedrand
           random_nan_generator random_hpl_generator random_generator
           cos_T sin_T hA arg M N lda 0 1 nan_init seed_reset
           alternating_sign s = Some s'
         /\ forall a, a < hA \/ hA + lda * N <= a -> fst s' a = fst s a)
    /\ (forall arg : Arguments double,
          let N := to_int (arg_N arg) in
          let lda := to_int (arg_lda arg) in
          let incx := to_int (arg_incx arg) in
          let incy := to_int (arg_incy arg) in
          hemv_invalid_size N lda incx incy = false -> N <> 0 ->
          0 < N <= lda
          /\ exists X_size Y_size,
               testing_hemv char2hipblas_fill arg
               = full_run [lda * N; X_size; Y_size; Y_size; Y_size; Y_size]
                          [lda * N; X_size; Y_size; 1; 1])
    /\ (forall arg : Arguments double,
          let transA := char2hipblas_operation (arg_transA arg) in
          let transB := char2hipblas_operation (arg_transB arg) in
          let M := arg_M arg in
          let N := arg_N arg in
          let lda := arg_lda arg in
          let ldb := arg_ldb arg in
          let ldc := arg_ldc arg in
          let A_row := if op_eqb transA HIPBLAS_OP_N then M else N in
          let A_col := if op_eqb transA HIPBLAS_OP_N then N else M in
          let B_row := if op_eqb transB HIPBLAS_OP_N then M else N in
          let B_col := if op_eqb transB HIPBLAS_OP_N then N else M in
          geam_invalid_size M N lda A_row ldb B_row ldc = false ->
          M <> 0 -> N <> 0 ->
          lda * A_col < 2 ^ 64 -> ldb * B_col < 2 ^ 64 -> ldc * N < 2 ^ 64 ->
          (0 < A_row <= lda /\ 0 < B_row <= ldb /\ 0 < M <= ldc)
          /\ testing_geam char2hipblas_operation arg
             = full_run [lda * A_col; ldb * B_col; ldc * N; ldc * N; ldc * N]
                        [lda * A_col; ldb * B_col; ldc * N; 1; 1]).
Proof.
  intros T G ops hipblas_seedrand random_nan_generator random_hpl_generator
         random_generator cos_T sin_T double char2hipblas_fill
         char2hipblas_operation.
  split; [|split].
  - intros hA arg M N lda nan_init seed_reset alternating_sign s HM HN Hfit.
    unfold hipblas_init_matrix_host_vector, hipblas_init_matrix_type.
    cbv zeta. rewrite !to_int64_id by nia.
    set (s0 := if seed_reset then (fst s, hipblas_seedrand (snd s)) else s).
    assert (Hs0 : forall a, fst s0 a = fst s a)
      by (intros a; unfold s0; now destruct seed_reset).
    assert (Hfill : forall gen : G -> T * G, exists s',
              Some (hipblas_fill_matrix_type gen hipblas_general_matrix
                      (init_uplo arg) hA M N lda 0 1 s0) = Some s'
              /\ forall a, a < hA \/ hA + lda * N <= a -> fst s' a = fst s a).
    { intros gen. eexists. split; [reflexivity|].
      intros a Ha. rewrite fill_general_frame by (try lia; nia).
      apply Hs0. }
    assert (Halt : forall gen : G -> T * G, exists s',
              Some (hipblas_init_matrix_alternating_sign
                      hipblas_general_matrix (init_uplo arg) gen hA M N lda
                      0 1 s0) = Some s'
              /\ forall a, a < hA \/ hA + lda * N <= a -> fst s' a = fst s a).
    { intros gen. eexists. split; [reflexivity|].
      intros a Ha. rewrite alternating_general_frame by (try lia; nia).
      apply Hs0. }
    destruct ((match nan_init with
               | hipblas_client_alpha_sets_nan => true
               | _ => false
               end) && init_alpha_isnan arg); [apply Hfill|].
    destruct ((match nan_init with
               | hipblas_client_beta_sets_nan => true
               | _ => false
               end) && init_beta_isnan arg); [apply Hfill|].
    destruct (init_initialization arg).
    + destruct alternating_sign; [apply Halt|apply Hfill].
    + rewrite init_matrix_trig_no_members by discriminate.
      eexists. split; [reflexivity|]. intros a _. apply Hs0.
    + destruct alternating_sign; [apply Halt|apply Hfill].
  - intros arg N lda incx incy Hvalid HN0.
    assert (Hv : ~ (N < 0 \/ lda < N \/ lda < 1 \/ incx = 0 \/ incy = 0)).
    { rewrite <- hemv_invalid_size_true. now rewrite Hvalid. }
    assert (HNr : - 2 ^ 31 <= N < 2 ^ 31)
      by (unfold N, to_int; pose proof (Z.mod_pos_bound (arg_N arg + 2 ^ 31)
                                          (2 ^ 32)); lia).
    assert (Hlr : - 2 ^ 31 <= lda < 2 ^ 31)
      by (unfold lda, to_int;
          pose proof (Z.mod_pos_bound (arg_lda arg + 2 ^ 31) (2 ^ 32)); lia).
    split; [lia|].
    unfold testing_hemv. cbv zeta. fold N lda incx incy.
    rewrite Hvalid. cbn [orb].
    replace (N =? 0) with false by (symmetry; now apply Z.eqb_neq).
    rewrite (@to_size_t_id lda), (@to_size_t_id N) by lia.
    rewrite (@to_size_t_id (lda * N)) by nia.
    eexists. eexists. reflexivity.
  - intros arg transA transB M N lda ldb ldc A_row A_col B_row B_col
           Hvalid HM0 HN0 HfA HfB HfC.
    assert (Hv : ~ (M < 0 \/ N < 0 \/ lda < A_row \/ ldb < B_row \/ ldc < M)).
    { rewrite <- geam_invalid_size_true. now rewrite Hvalid. }
    assert (HA : 0 < A_row /\ 0 < A_col /\ 0 < B_row /\ 0 < B_col).
    { unfold A_row, A_col, B_row, B_col.
      destruct (op_eqb transA HIPBLAS_OP_N), (op_eqb transB HIPBLAS_OP_N);
        lia. }
    split; [lia|].
    unfold testing_geam. cbv zeta. fold transA transB M N lda ldb ldc.
    replace (if op_eqb transA HIPBLAS_OP_N then (M, N) else (N, M))
      with (A_row, A_col)
      by (unfold A_row, A_col; now destruct (op_eqb transA HIPBLAS_OP_N)).
    replace (if op_eqb transB HIPBLAS_OP_N then (M, N) else (N, M))
      with (B_row, B_col)
      by (unfold B_row, B_col; now destruct (op_eqb transB HIPBLAS_OP_N)).
    rewrite Hvalid. cbn [orb].
    replace (N =? 0) with false by (symmetry; now apply Z.eqb_neq).
    replace (M =? 0) with false by (symmetry; now apply Z.eqb_neq).
    rewrite !to_size_t_id by nia. reflexivity.
Qed.

Lemma init_matrix_within_allocation_witness :
  (0 <= 2 <= 3 /\ 0 <= 2 < 2 ^ 63 /\ 2 + 2 * 3 < 2 ^ 63)
  /\ exists s',
       hipblas_init_matrix_host_vector (fun _ : Z => 0) counter_gen
         counter_gen counter_gen (fun k : Z => k) (fun k : Z => - k) 10
         {| init_uplo := "U"%char; init_alpha_isnan := false;
            init_beta_isnan := false; init_initialization := rand_int |}
         2 2 3 0 1 hipblas_client_never_set_nan true false (fun _ => 7, 5)
       = Some s'
       /\ fst s' 16 = 7.
Proof.
  split; [lia|].
  destruct (@init_matrix_within_allocation Z Z Z_scalar (fun _ : Z => 0)
              counter_gen counter_gen counter_gen (fun k : Z => k)
              (fun k : Z => - k) Q example_char2hipblas_fill
              example_char2hipblas_operation) as (Hinit & _).
  destruct (Hinit 10
              {| init_uplo := "U"%char; init_alpha_isnan := false;
                 init_beta_isnan := false; init_initialization := rand_int |}
              2 2 3 hipblas_client_never_set_nan true false (fun _ => 7, 5))
    as (s' & Es & Hframe); try lia.
  exists s'. split; [exact Es|]. apply (Hframe 16). lia.
Defined.

(** ** The two-generator container initializer *)

(** X17: [hipblas_init_alternating_template] takes the element written at
    loop index [i] of every member from [rand_gen] when [i] is odd and from
    [rand_gen_alt] when [i] is even (for a negative increment loop index
    [i] is the element at offset [(n - 1 - i) * |inc|]), so that whatever
    holds of all values of the one generator ([odd_value]) and of the other
    ([even_value]) alternates along every member; no other cell is written.
    The members must not overlap and the increment must not be zero. *)
Theorem init_alternating_template_pattern :
  forall (T G : Type) (hipblas_seedrand : G -> G)
         (rand_gen rand_gen_alt : G -> T * G)
         (odd_value even_value : T -> Prop)
         (that : host_batch_vector) (seedReset : bool) (m : mem T) (g : G),
    (forall h, odd_value (fst (rand_gen h))) ->
    (forall h, even_value (fst (rand_gen_alt h))) ->
    0 <= hbv_n that -> hbv_inc that <> 0 -> 0 <= hbv_batch_count that ->
    (forall b1 b2, 0 <= b1 < hbv_batch_count that ->
                   0 <= b2 < hbv_batch_count that -> b1 <> b2 ->
       hbv_ptr that b1 + (hbv_n that - 1) * Z.abs (hbv_inc that)
       < hbv_ptr that b2
       \/ hbv_ptr that b2 + (hbv_n that - 1) * Z.abs (hbv_inc that)
          < hbv_ptr that b1) ->
    let s' := hipblas_init_alternating_template upd hipblas_seedrand that
                rand_gen rand_gen_alt seedReset (m, g) in
    (forall b i, 0 <= b < hbv_batch_count that -> 0 <= i < hbv_n that ->
       if Z.odd i
       then odd_value (fst s' (hbv_ptr that b
                               + element_offset (hbv_n that) (hbv_inc that) i))
       else even_value (fst s' (hbv_ptr that b
                                + element_offset (hbv_n that) (hbv_inc that)
                                                 i)))
    /\ (forall a,
          (forall b i, 0 <= b < hbv_batch_count that -> 0 <= i < hbv_n that ->
             a <> hbv_ptr that b
                  + element_offset (hbv_n that) (hbv_inc that) i) ->
          fst s' a = m a).
Proof.
  intros T G hipblas_seedrand rand_gen rand_gen_alt odd_value even_value
         that seedReset m g Hodd Heven Hn Hinc HB Hdisj s'.
  subst s'. unfold hipblas_init_alternating_template.
  set (s0 := if seedReset then (fst (m, g), hipblas_seedrand (snd (m, g)))
             else (m, g)).
  assert (Hs0 : fst s0 = m) by (subst s0; now destruct seedReset).
  rewrite <- Hs0.
  apply (@rect_write_spec T G
           (fun b i => hbv_ptr that b
                       + element_offset (hbv_n that) (hbv_inc that) i)
           (fun _ i v => if Z.odd i then odd_value v else even_value v)
           (fun b i (s : mem T * G) =>
              let '(m, g) := s in
              let '(v, g') := if Z.rem i 2 =? 0 then rand_gen_alt g
                              else rand_gen g in
              (upd m ((if hbv_inc that <? 0
                       then hbv_ptr that b - (hbv_n that - 1) * hbv_inc that
                       else hbv_ptr that b) + i * hbv_inc that) v, g'))
           (hbv_batch_count that) (hbv_n that) s0 HB Hn).
  - intros b i b' i' Hb Hi Hb' Hi'. now apply member_cell_inj.
  - intros b i [m1 g1] Hb Hi. rewrite element_offset_address.
    rewrite Z.rem_mod_nonneg by lia. rewrite <- Zeven_mod, <- Z.negb_odd.
    destruct (Z.odd i); cbn [negb].
    + specialize (Hodd g1). destruct (rand_gen g1) as [v g'].
      cbn [fst snd] in *. now rewrite upd_same.
    + specialize (Heven g1). destruct (rand_gen_alt g1) as [v g'].
      cbn [fst snd] in *. now rewrite upd_same.
  - intros b i [m1 g1] x Hb Hi Hx. rewrite element_offset_address.
    destruct (if Z.rem i 2 =? 0 then rand_gen_alt g1 else rand_gen g1)
      as [v g'].
    cbn [fst snd]. now apply upd_other.
Qed.

Lemma init_alternating_template_pattern_witness :
  (0 <= 3 /\ - 2 <> 0 /\ 0 <= 2)
  /\ 0 < fst (hipblas_init_alternating_template upd (fun _ : Z => 0)
                {| hbv_n := 3; hbv_inc := - 2; hbv_batch_count := 2;
                   hbv_ptr := fun b => 10 * b |}
                counter_gen (fun g => (- (g mod 10 + 1), g + 1)) false
                (fun _ => 0, 0))
             (10 * 1 + element_offset 3 (- 2) 1).
Proof.
  split; [lia|].
  destruct (@init_alternating_template_pattern Z Z (fun _ : Z => 0)
              counter_gen (fun g => (- (g mod 10 + 1), g + 1))
              (fun v => 0 < v) (fun v => v < 0)
              {| hbv_n := 3; hbv_inc := - 2; hbv_batch_count := 2;
                 hbv_ptr := fun b => 10 * b |} false (fun _ => 0) 0)
    as (Hcell & _); cbn [hbv_n hbv_inc hbv_batch_count hbv_ptr];
    try lia.
  - intros h. unfold counter_gen. cbn [fst].
    pose proof (Z.mod_pos_bound h 10). lia.
  - intros h. cbn [fst]. pose proof (Z.mod_pos_bound h 10). lia.
  - apply (Hcell 1 1); cbn [hbv_n hbv_batch_count]; lia.
Defined.

(** ** [make_unit_diagonal] on batch containers *)

Section UnitDiagonalBatched.
Context {T G : Type}.
Variable s_div : T -> T -> T.
Variable random_generator : G -> T * G.
Implicit Types (m : mem T) (g : G) (h_A : host_batch_matrix).

Lemma unit_diagonal_member (uplo : hipblasFillMode_t) hA lda N m g :
  0 <= N <= lda ->
  let s' := make_unit_diagonal s_div random_generator uplo hA lda N (m, g) in
  let stored := fun i j : Z =>
    match uplo with
    | HIPBLAS_FILL_MODE_LOWER => hA + (i + j * lda)
    | _ => hA + (j + i * lda)
    end in
  snd s' = advance random_generator (Z.to_nat N) g
  /\ (forall i, 0 <= i < N ->
        fst s' (hA + (i + i * lda)) = draw random_generator g (Z.to_nat i))
  /\ (forall i j, 0 <= j < i -> i < N ->
        fst s' (stored i j)
        = s_div (m (stored i j)) (m (hA + (i + i * lda))))
  /\ (forall i j, 0 <= j < i -> i < N -> fst s' (stored j i) = m (stored j i))
  /\ (forall a, a < hA \/ hA + N * lda <= a -> fst s' a = m a).
Proof.
  intros HN.
  destruct uplo.
  - exact (@unit_diagonal_spec T G s_div random_generator false hA lda N m g
             HN).
  - exact (@unit_diagonal_spec T G s_div random_generator true hA lda N m g
             HN).
  - exact (@unit_diagonal_spec T G s_div random_generator false hA lda N m g
             HN).
Qed.

(** Within the index range of a member the [size_t] arithmetic of the
    container overload is exact: it runs the pointer overload on every
    member in turn. *)
Lemma make_unit_diagonal_batched_loop (uplo : hipblasFillMode_t) h_A
    (s : mem T * G) :
  0 <= hbm_n h_A <= hbm_lda h_A -> hbm_lda h_A < 2 ^ 64 ->
  hbm_n h_A * hbm_lda h_A < 2 ^ 63 ->
  make_unit_diagonal_batched s_div random_generator uplo h_A s
  = for_lt 0 (hbm_batch_count h_A) (fun b =>
      make_unit_diagonal s_div random_generator uplo (hbm_ptr h_A b)
                         (hbm_lda h_A) (hbm_n h_A)) s.
Proof.
  intros HN Hlda Hfit.
  unfold make_unit_diagonal_batched, make_unit_diagonal.
  rewrite to_size_t_id by lia.
  apply for_lt_ext. intros b [m g] Hb. cbv zeta.
  set (A := hbm_ptr h_A b). set (N := hbm_n h_A) in *.
  set (lda := hbm_lda h_A) in *.
  assert (Hd : forall s0 : mem T * G,
    for_lt 0 N (fun i =>
      hipblas_init random_generator (A + size_t_index (i * lda) + i)
                   1 1 1 0 1) s0
    = for_lt 0 N (fun i =>
        hipblas_init random_generator (A + i * lda + i) 1 1 1 0 1) s0).
  { intros s0. apply for_lt_ext. intros i t Hi.
    rewrite size_t_index_id by nia. reflexivity. }
  rewrite Hd. f_equal. f_equal.
  destruct uplo; apply for_lt_ext; intros o m1 Ho; cbv zeta;
    rewrite (@size_t_index_id (o + o * lda)) by nia;
    unfold for_le; apply for_lt_ext; intros q m2 Hq;
    rewrite size_t_index_id by nia; reflexivity.
Qed.

End UnitDiagonalBatched.

(** When the members are treated in program order (a build without OpenMP),
    [make_unit_diagonal] on a batch container gives the diagonal entry [i]
    of member [b] generated value number [b * N + i] and consumes
    [batch_count * N] values. *)
Lemma make_unit_diagonal_batched_in_order :
  forall (T G : Type) (s_div : T -> T -> T) (random_generator : G -> T * G)
         (uplo : hipblasFillMode_t) (h_A : host_batch_matrix)
         (m : mem T) (g : G),
    let N := hbm_n h_A in
    let lda := hbm_lda h_A in
    let count := hbm_batch_count h_A in
    0 <= N <= lda -> lda < 2 ^ 64 -> N * lda < 2 ^ 63 -> 0 <= count ->
    (forall b1 b2, 0 <= b1 < count -> 0 <= b2 < count -> b1 <> b2 ->
       hbm_ptr h_A b1 + N * lda <= hbm_ptr h_A b2
       \/ hbm_ptr h_A b2 + N * lda <= hbm_ptr h_A b1) ->
    let s' := make_unit_diagonal_batched s_div random_generator uplo h_A
                (m, g) in
    let stored := fun b i j : Z =>
      match uplo with
      | HIPBLAS_FILL_MODE_LOWER => hbm_ptr h_A b + (i + j * lda)
      | _ => hbm_ptr h_A b + (j + i * lda)
      end in
    snd s' = advance random_generator (Z.to_nat (count * N)) g
    /\ (forall b i, 0 <= b < count -> 0 <= i < N ->
          fst s' (hbm_ptr h_A b + (i + i * lda))
          = draw random_generator g (Z.to_nat (b * N + i)))
    /\ (forall b i j, 0 <= b < count -> 0 <= j < i -> i < N ->
          fst s' (stored b i j)
          = s_div (m (stored b i j)) (m (hbm_ptr h_A b + (i + i * lda))))
    /\ (forall a,
          (forall b, 0 <= b < count ->
                     a < hbm_ptr h_A b \/ hbm_ptr h_A b + N * lda <= a) ->
          fst s' a = m a).
Proof.
  intros T G s_div random_generator uplo h_A m g N lda count HN Hlda Hfit
         HB Hdisj s' stored.
  subst s'. rewrite make_unit_diagonal_batched_loop by assumption.
  fold N lda count.
  assert (Hin : forall b i j, 0 <= i < N -> 0 <= j < N ->
            hbm_ptr h_A b <= hbm_ptr h_A b + (i + j * lda)
                          < hbm_ptr h_A b + N * lda) by (intros; nia).
  assert (Hst : forall b i j, 0 <= i < N -> 0 <= j < N ->
            hbm_ptr h_A b <= stored b i j < hbm_ptr h_A b + N * lda).
  { intros b i j Hi Hj. unfold stored. destruct uplo; apply Hin; lia. }
  pose (P := fun (k : Z) (s : mem T * G) =>
    snd s = advance random_generator (Z.to_nat (k * N)) g
    /\ (forall b i, 0 <= b < k -> 0 <= i < N ->
          fst s (hbm_ptr h_A b + (i + i * lda))
          = draw random_generator g (Z.to_nat (b * N + i)))
    /\ (forall b i j, 0 <= b < k -> 0 <= j < i -> i < N ->
          fst s (stored b i j)
          = s_div (m (stored b i j)) (m (hbm_ptr h_A b + (i + i * lda))))
    /\ (forall a,
          (forall b, 0 <= b < k ->
                     a < hbm_ptr h_A b \/ hbm_ptr h_A b + N * lda <= a) ->
          fst s a = m a)).
  apply (for_lt_inv P); unfold P; [exact HB| |].
  - cbn [fst snd]. repeat split; intros; lia.
  - intros k [m1 g1] Hk (Eg & Hdiag & Hscale & Hframe). cbn [fst snd] in *.
    destruct (@unit_diagonal_member T G s_div random_generator uplo
                (hbm_ptr h_A k) lda N m1 g1 HN)
      as (Hg' & Hdiag' & Hscale' & _ & Hframe').
    assert (Hfresh : forall a,
              hbm_ptr h_A k <= a < hbm_ptr h_A k + N * lda -> m1 a = m a).
    { intros a Ha. apply Hframe. intros b Hb.
      destruct (Hdisj b k) as [Hd|Hd]; lia. }
    assert (Hold : forall b a, 0 <= b < k ->
              hbm_ptr h_A b <= a < hbm_ptr h_A b + N * lda ->
              fst (make_unit_diagonal s_div random_generator uplo
                     (hbm_ptr h_A k) lda N (m1, g1)) a = m1 a).
    { intros b a Hb Ha. apply Hframe'.
      destruct (Hdisj b k) as [Hd|Hd]; lia. }
    split; [|split; [|split]].
    + rewrite Hg', Eg, <- advance_add. f_equal. nia.
    + intros b i Hb Hi. destruct (Z.eq_dec b k) as [->|Hne].
      * rewrite Hdiag' by lia. rewrite Eg, draw_advance. f_equal. nia.
      * rewrite (Hold b) by (try apply Hin; lia). apply Hdiag; lia.
    + intros b i j Hb Hj Hi. destruct (Z.eq_dec b k) as [->|Hne].
      * unfold stored at 1. rewrite Hscale' by lia. fold (stored k i j).
        rewrite !Hfresh by (try apply Hst; try apply Hin; lia).
        reflexivity.
      * rewrite (Hold b) by (try apply Hst; lia). apply Hscale; lia.
    + intros a Ha. rewrite Hframe' by (apply Ha; lia).
      apply Hframe. intros b Hb. apply Ha. lia.
Qed.



(** ** The first operand of the rank-k update drivers *)

Section OperandInit.
Context {T G : Type} {ops : Scalar T}.
Variable hipblas_seedrand : G -> G.
Variables random_nan_generator random_hpl_generator random_generator
  : G -> T * G.
Variables cos_T sin_T : Z -> T.
Implicit Types (m : mem T) (g : G).

Lemma for_lt_final {St : Type} lo hi (body : Z -> St -> St) (s : St) :
  lo < hi -> for_lt lo hi body s = body (hi - 1) (for_lt lo (hi - 1) body s).
Proof.
  intros Hlt.
  assert (E := @for_lt_last St lo (hi - 1) body s ltac:(lia)).
  now replace (hi - 1 + 1) with hi in E by lia.
Qed.

(** The last iteration of the general kind writes the last entry of the
    last member, whatever the earlier iterations wrote. *)
Lemma fill_general_last_write (rand_gen : G -> T * G) uplo A M N lda stride B
    (s : mem T * G) :
  0 < M < 2 ^ 64 -> 0 < N < 2 ^ 64 -> 0 < B < 2 ^ 64 ->
  exists h,
    fst (hipblas_fill_matrix_type rand_gen hipblas_general_matrix uplo A M N
           lda stride B s)
        (A + (B - 1) * stride + (M - 1 + (N - 1) * lda))
    = fst (rand_gen h).
Proof.
  intros HM HN HB.
  unfold hipblas_fill_matrix_type, fill_matrix_type_batch.
  rewrite !to_size_t_id by lia.
  rewrite (@for_lt_final _ 0 B) by lia.
  rewrite (@for_lt_final _ 0 N) by lia.
  rewrite (@for_lt_final _ 0 M) by lia.
  match goal with
  | |- context [general_entry _ _ _ _ _ ?t] => destruct t as [m1 g1]
  end.
  unfold general_entry. exists g1.
  destruct (rand_gen g1) as [v g']. cbn [fst snd]. apply upd_same.
Qed.

Lemma fill_general_within (rand_gen : G -> T * G) uplo A M N lda stride B
    (s : mem T * G) a :
  0 <= M < 2 ^ 64 -> 0 <= N < 2 ^ 64 -> 0 <= B < 2 ^ 64 ->
  M <= lda -> N * lda <= stride ->
  a < A \/ A + stride * B <= a ->
  fst (hipblas_fill_matrix_type rand_gen hipblas_general_matrix uplo A M N
         lda stride B s) a = fst s a.
Proof.
  intros HM HN HB Hlda Hstride Ha. destruct s as [m g].
  unfold hipblas_fill_matrix_type, fill_matrix_type_batch, general_entry.
  rewrite !to_size_t_id by lia.
  destruct (@box_fill_spec T G rand_gen
              (fun b j i => A + b * stride + (i + j * lda))
              (fun _ _ _ v => v) B N M m g
              ltac:(lia) ltac:(lia) ltac:(lia)) as (_ & _ & Hframe).
  - intros b j i b' j' i' Hb Hj Hi Hb' Hj' Hi' Heq.
    destruct (@strided_cell_inj lda stride M N B b i j b' i' j')
      as (E1 & E2 & E3); try assumption; lia.
  - apply Hframe. intros b j i Hb Hj Hi.
    assert (0 <= i + j * lda < stride) by nia.
    assert (0 <= stride) by nia.
    assert (0 <= b * stride) by nia.
    assert (b * stride + stride <= stride * B) by nia.
    lia.
Qed.

(** In [rand_int] mode, without a NaN request, the host vector overload
    comes down to the general kind of [hipblas_fill_matrix_type]. *)
Lemma init_matrix_rand_int iarg nan_init hA M N lda stride_A batch_count
    (seed_reset : bool) m g :
  init_initialization iarg = rand_int ->
  init_alpha_isnan iarg = false ->
  nan_init <> hipblas_client_beta_sets_nan ->
  - 2 ^ 63 <= M < 2 ^ 63 -> - 2 ^ 63 <= N < 2 ^ 63 ->
  hipblas_init_matrix_host_vector hipblas_seedrand random_nan_generator
    random_hpl_generator random_generator cos_T sin_T hA iarg M N lda
    stride_A batch_count nan_init seed_reset false (m, g)
  = Some (hipblas_fill_matrix_type random_generator hipblas_general_matrix
            (init_uplo iarg) hA M N lda stride_A batch_count
            (m, if seed_reset then hipblas_seedrand g else g)).
Proof.
  intros Hmode Halpha Hnan HM HN.
  unfold hipblas_init_matrix_host_vector, hipblas_init_matrix_type.
  cbv zeta. rewrite Hmode, Halpha, andb_false_r.
  rewrite !to_int64_id by lia.
  destruct nan_init; [| now elim Hnan |]; cbn [andb];
    now destruct seed_reset.
Qed.

End OperandInit.

(** X19: on a full run with the default stride scale,
    [testing_syrk_strided_batched] and [testing_syr2k_strided_batched]
    allocate [lda * K1 * batch_count] elements for [hA]
    ([K1] is [K] for [HIPBLAS_OP_N] and [N] otherwise) and then initialize
    [batch_count] matrices of [N] rows and [K1] columns in it.  In
    [rand_int] mode this stays inside the allocation when [N <= lda]; for a
    transposed operand whose leading dimension is below [N] (accepted by
    the size check, which only asks for [lda >= K]) a generated value is
    stored [N - 1 - lda] elements past the end of the allocation. *)
Theorem transposed_operand_init_exceeds_allocation :
  forall (T G : Type) (ops : Scalar T) (hipblas_seedrand : G -> G)
         (random_nan_generator random_hpl_generator random_generator
            : G -> T * G)
         (cos_T sin_T : Z -> T) (double : Type) (stride_of : Z -> double -> Z)
         (char2hipblas_fill : ascii -> hipblasFillMode_t)
         (char2hipblas_operation : ascii -> hipblasOperation_t)
         (arg : Arguments double) (iarg : init_arguments)
         (nan_init : hipblas_client_nan_init) (hA : Z) (m : mem T) (g : G),
    let transA := char2hipblas_operation (arg_transA arg) in
    let N := arg_N arg in
    let K := arg_K arg in
    let lda := arg_lda arg in
    let batch_count := arg_batch_count arg in
    let K1 := if op_eqb transA HIPBLAS_OP_N then K else N in
    let A_size := lda * K1 * batch_count in
    syrk_invalid_size transA N K lda (arg_ldc arg) batch_count = false ->
    N <> 0 -> batch_count <> 0 ->
    stride_of (lda * K1) (arg_stride_scale arg) = lda * K1 ->
    N < 2 ^ 63 -> K < 2 ^ 63 -> lda < 2 ^ 63 -> batch_count < 2 ^ 31 ->
    A_size < 2 ^ 64 ->
    init_initialization iarg = rand_int ->
    init_alpha_isnan iarg = false ->
    nan_init <> hipblas_client_beta_sets_nan ->
    (exists C_size,
       testing_syrk_strided_batched stride_of char2hipblas_fill
         char2hipblas_operation arg
       = full_run [A_size; C_size; C_size; C_size] [A_size; C_size; 1; 1])
    /\ (syr2k_invalid_size transA N K lda (arg_ldb arg) (arg_ldc arg)
          batch_count = false ->
        exists B_size C_size,
          testing_syr2k_strided_batched stride_of char2hipblas_fill
            char2hipblas_operation arg
          = full_run [A_size; B_size; C_size; C_size; C_size]
                     [A_size; B_size; C_size; 1; 1])
    /\ exists s',
         init_operand_A stride_of char2hipblas_operation hipblas_seedrand
           random_nan_generator random_hpl_generator random_generator
           cos_T sin_T nan_init arg iarg hA (m, g) = Some s'
         /\ (N <= lda ->
             forall a, a < hA \/ hA + A_size <= a -> fst s' a = m a)
         /\ (lda < N ->
             exists h, fst s' (hA + A_size + (N - 1 - lda))
                       = fst (random_generator h)).
Proof.
  intros T G ops hipblas_seedrand random_nan_generator random_hpl_generator
         random_generator cos_T sin_T double stride_of char2hipblas_fill
         char2hipblas_operation arg iarg nan_init hA m g
         transA N K lda batch_count K1 A_size
         Hvalid HN0 HB0 Hstride HN HK Hlda HB Hsize Hmode Halpha Hnan.
  assert (Hfacts : 0 <= N /\ 0 <= K /\ 0 <= batch_count
                   /\ (if op_eqb transA HIPBLAS_OP_N then N <= lda
                       else K <= lda)).
  { unfold syrk_invalid_size in Hvalid.
    rewrite !orb_false_iff, !Z.ltb_ge in Hvalid.
    destruct Hvalid as (((((H1 & H2) & _) & H4) & H5) & H6).
    repeat split; try assumption.
    destruct (op_eqb transA HIPBLAS_OP_N); cbn [andb negb] in H4, H5.
    - now apply Z.ltb_ge. 
    - now apply Z.ltb_ge. }
  destruct Hfacts as (HN' & HK' & HB' & Hld).
  assert (HK1 : 0 <= K1 < 2 ^ 63)
    by (unfold K1; destruct (op_eqb transA HIPBLAS_OP_N); lia).
  assert (Hlda' : 0 <= lda)
    by (destruct (op_eqb transA HIPBLAS_OP_N); lia).
  assert (Hsz : to_size_t (lda * K1 * batch_count) = A_size)
    by (apply to_size_t_id; unfold A_size; nia).
  split; [|split].
  - unfold testing_syrk_strided_batched. cbv zeta.
    fold transA N K lda batch_count. fold K1.
    rewrite Hvalid.
    destruct (Z.eqb_spec N 0) as [|_]; [contradiction|].
    destruct (Z.eqb_spec batch_count 0) as [|_]; [contradiction|].
    cbn [orb]. rewrite Hstride, Hsz. eexists. reflexivity.
  - intros Hvalid2.
    unfold testing_syr2k_strided_batched. cbv zeta.
    fold transA N K lda batch_count. fold K1.
    rewrite Hvalid2.
    destruct (Z.eqb_spec N 0) as [|_]; [contradiction|].
    destruct (Z.eqb_spec batch_count 0) as [|_]; [contradiction|].
    cbn [orb]. rewrite Hstride, Hsz. eexists. eexists. reflexivity.
  - unfold init_operand_A. cbv zeta.
    fold transA N K lda batch_count. fold K1.
    rewrite Hstride, !to_size_t_id, to_int_id by lia.
    rewrite init_matrix_rand_int by (assumption || lia).
    eexists. split; [reflexivity|]. split.
    + intros Hle a Ha.
      rewrite fill_general_within; [reflexivity| | | | | |]; try lia; nia.
    + intros Hlt.
      assert (EK1 : K1 = N).
      { unfold K1. destruct (op_eqb transA HIPBLAS_OP_N); [lia|reflexivity]. }
      destruct (@fill_general_last_write T G ops random_generator
                  (init_uplo iarg) hA N K1 lda (lda * K1) batch_count
                  (m, hipblas_seedrand g)) as (h & Eh); try lia.
      exists h. rewrite <- Eh. f_equal. unfold A_size. rewrite EK1. lia.
Qed.

Lemma transposed_operand_init_exceeds_allocation_witness :
  exists s',
    init_operand_A example_stride_of example_char2hipblas_operation
      (fun g : Z => g) counter_gen counter_gen counter_gen
      (fun k : Z => k) (fun k : Z => k) hipblas_client_alpha_sets_nan
      example_transposed_arguments example_init_arguments 100
      (fun _ => 0, 0) = Some s'
    /\ exists h, fst s' (100 + 1 * 3 * 2 + (3 - 1 - 1))
                 = fst (counter_gen h).
Proof.
  destruct (@transposed_operand_init_exceeds_allocation Z Z Z_scalar
              (fun g : Z => g) counter_gen counter_gen counter_gen
              (fun k : Z => k) (fun k : Z => k) Q example_stride_of
              example_char2hipblas_fill example_char2hipblas_operation
              example_transposed_arguments example_init_arguments
              hipblas_client_alpha_sets_nan 100 (fun _ => 0) 0)
    as (_ & _ & s' & Es & _ & Hout);
    try reflexivity; try discriminate; try (vm_compute; congruence);
    try (cbn; lia).
  exists s'. split; [exact Es|]. apply Hout. cbn. lia.
Defined.

(** ** The mirrored kinds of [hipblas_init_matrix_trig] *)

Section LoopPost.
Context {St : Type}.

(** What iteration [k] establishes, and no later iteration destroys, holds
    after the loop. *)
Lemma for_lt_post (body : Z -> St -> St) (Q : Z -> St -> Prop) lo hi s0 :
  (forall k s, lo <= k < hi -> Q k (body k s)) ->
  (forall k k' s, lo <= k < k' -> k' < hi -> Q k s -> Q k (body k' s)) ->
  forall k, lo <= k < hi -> Q k (for_lt lo hi body s0).
Proof.
  intros Hpost Hkeep k Hk.
  assert (Hinv : forall k', lo <= k' < hi -> Q k' (for_lt lo hi body s0)).
  { apply (for_lt_inv (fun i s => forall k', lo <= k' < i -> Q k' s));
      [lia|intros; lia|].
    intros i t Hi IH k' Hk'. destruct (Z.eq_dec k' i) as [->|Hne].
    - now apply Hpost.
    - apply Hkeep; [lia|lia|]. apply IH. lia. }
  now apply Hinv.
Qed.

End LoopPost.

Section TrigMirrored.
Context {T : Type} {ops : Scalar T}.
Variable trig : Z -> T.
Variables on_diagonal mirror : T -> T.
Variable uplo : ascii.
Variables A N lda stride B : Z.
Hypothesis HN : 0 <= N <= lda.
Hypothesis Hstride : 0 <= stride.
Hypothesis Hmembers : B <= 1 \/ N * lda <= stride.
Hypothesis Hfit : N * lda + B * stride < 2 ^ 63.
Implicit Types (m : mem T).

Lemma trig_cell_bounds b r c :
  0 <= b < B -> 0 <= r < N -> 0 <= c < N ->
  0 <= b * stride + r + c * lda < 2 ^ 63.
Proof.
  intros Hb Hr Hc.
  assert (0 <= b * stride) by nia.
  assert (b * stride + stride <= B * stride) by nia.
  assert (0 <= r + c * lda < N * lda) by nia.
  lia.
Qed.

Lemma trig_cell_inj b r c b' r' c' :
  0 <= b < B -> 0 <= r < N -> 0 <= c < N ->
  0 <= b' < B -> 0 <= r' < N -> 0 <= c' < N ->
  A + (b * stride + r + c * lda) = A + (b' * stride + r' + c' * lda) ->
  b = b' /\ r = r' /\ c = c'.
Proof.
  intros Hb Hr Hc Hb' Hr' Hc' Heq.
  apply (@strided_cell_inj lda stride N N B b r c b' r' c');
    try assumption; lia.
Qed.

(** The value written for the pair ([i], [j]), [j <= i], at the entry
    (row [j], column [i]) and at the entry (row [i], column [j]). *)
Lemma trig_entry_post b i j m :
  0 <= b < B -> 0 <= j <= i -> i < N ->
  let value := trig (i + j * lda + b * stride) in
  let m' := trig_mirrored_entry trig on_diagonal mirror uplo A lda stride
              b i j m in
  m' (A + (b * stride + j + i * lda))
  = (if i =? j then on_diagonal value
     else if Ascii.eqb uplo "U" then value
     else if Ascii.eqb uplo "L" then s_zero
     else value)
  /\ m' (A + (b * stride + i + j * lda))
     = (if i =? j then on_diagonal value
        else if Ascii.eqb uplo "U" then s_zero
        else if Ascii.eqb uplo "L" then value
        else mirror value).
Proof.
  intros Hb Hj Hi. cbv zeta. unfold trig_mirrored_entry.
  pose proof (@trig_cell_bounds b j i Hb ltac:(lia) ltac:(lia)).
  pose proof (@trig_cell_bounds b i j Hb ltac:(lia) ltac:(lia)).
  rewrite !size_t_index_id by lia.
  rewrite to_size_t_id by lia.
  destruct (Z.eqb_spec i j) as [->|Hne].
  - now rewrite upd_same.
  - assert (Hcells : A + (b * stride + j + i * lda)
                     <> A + (b * stride + i + j * lda)).
    { intros Heq.
      destruct (@trig_cell_inj b j i b i j) as (_ & E & _); try lia. }
    destruct (Ascii.eqb uplo "U"); [|destruct (Ascii.eqb uplo "L")];
      rewrite upd_same, (upd_other _ _ Hcells), upd_same; split; reflexivity.
Qed.

Lemma trig_entry_frame b i j m x :
  0 <= b < B -> 0 <= j <= i -> i < N ->
  x <> A + (b * stride + j + i * lda) ->
  x <> A + (b * stride + i + j * lda) ->
  trig_mirrored_entry trig on_diagonal mirror uplo A lda stride b i j m x
  = m x.
Proof.
  intros Hb Hj Hi Hx1 Hx2. unfold trig_mirrored_entry.
  pose proof (@trig_cell_bounds b j i Hb ltac:(lia) ltac:(lia)).
  pose proof (@trig_cell_bounds b i j Hb ltac:(lia) ltac:(lia)).
  rewrite !size_t_index_id by lia.
  destruct (i =? j); [|destruct (Ascii.eqb uplo "U");
                       [|destruct (Ascii.eqb uplo "L")]];
    now rewrite ?upd_other by assumption.
Qed.

(** An iteration leaves the entries of every other pair as they are. *)
Lemma trig_entry_keeps b i j b' i' j' m (r c : Z) :
  0 <= b < B -> 0 <= j <= i -> i < N ->
  0 <= b' < B -> 0 <= j' <= i' -> i' < N ->
  (b, i, j) <> (b', i', j') ->
  (r = i /\ c = j) \/ (r = j /\ c = i) ->
  trig_mirrored_entry trig on_diagonal mirror uplo A lda stride b' i' j' m
    (A + (b * stride + r + c * lda))
  = m (A + (b * stride + r + c * lda)).
Proof.
  intros Hb Hj Hi Hb' Hj' Hi' Hne Hrc.
  apply trig_entry_frame; try assumption; intros Heq;
    apply Hne;
    [ destruct (@trig_cell_inj b r c b' j' i') as (E1 & E2 & E3)
    | destruct (@trig_cell_inj b r c b' i' j') as (E1 & E2 & E3) ];
    try assumption; try lia; f_equal; try f_equal; lia.
Qed.

Lemma trig_mirrored_spec m b i j :
  0 <= b < B -> 0 <= j <= i -> i < N ->
  let value := trig (i + j * lda + b * stride) in
  let m' := for_lt 0 B (fun b =>
              for_lt 0 N (fun i =>
                for_le 0 i (fun j =>
                  trig_mirrored_entry trig on_diagonal mirror uplo A lda
                                      stride b i j))) m in
  m' (A + (b * stride + j + i * lda))
  = (if i =? j then on_diagonal value
     else if Ascii.eqb uplo "U" then value
     else if Ascii.eqb uplo "L" then s_zero
     else value)
  /\ m' (A + (b * stride + i + j * lda))
     = (if i =? j then on_diagonal value
        else if Ascii.eqb uplo "U" then s_zero
        else if Ascii.eqb uplo "L" then value
        else mirror value).
Proof.
  intros Hb Hj Hi. cbv zeta.
  set (Q := fun (b i j : Z) (m' : mem T) =>
    m' (A + (b * stride + j + i * lda))
    = (if i =? j then on_diagonal (trig (i + j * lda + b * stride))
       else if Ascii.eqb uplo "U" then trig (i + j * lda + b * stride)
       else if Ascii.eqb uplo "L" then s_zero
       else trig (i + j * lda + b * stride))
    /\ m' (A + (b * stride + i + j * lda))
       = (if i =? j then on_diagonal (trig (i + j * lda + b * stride))
          else if Ascii.eqb uplo "U" then s_zero
          else if Ascii.eqb uplo "L" then trig (i + j * lda + b * stride)
          else mirror (trig (i + j * lda + b * stride)))).
  change (Q b i j (for_lt 0 B (fun b =>
              for_lt 0 N (fun i =>
                for_le 0 i (fun j =>
                  trig_mirrored_entry trig on_diagonal mirror uplo A lda
                                      stride b i j))) m)).
  assert (Hkeep : forall b i j b' i' j' m1,
            0 <= b < B -> 0 <= j <= i -> i < N ->
            0 <= b' < B -> 0 <= j' <= i' -> i' < N ->
            (b, i, j) <> (b', i', j') ->
            Q b i j m1 ->
            Q b i j (trig_mirrored_entry trig on_diagonal mirror uplo A lda
                       stride b' i' j' m1)).
  { intros b0 i0 j0 b' i' j' m1 Hb0 Hj0 Hi0 Hb' Hj' Hi' Hne (Q1 & Q2).
    unfold Q.
    rewrite (@trig_entry_keeps b0 i0 j0 b' i' j' m1 j0 i0) by (auto; lia).
    rewrite (@trig_entry_keeps b0 i0 j0 b' i' j' m1 i0 j0) by (auto; lia).
    split; assumption. }
  assert (Hrow : forall b i j b' i' m1,
            0 <= b < B -> 0 <= j <= i -> i < N ->
            0 <= b' < B -> 0 <= i' < N -> (b, i) <> (b', i') ->
            Q b i j m1 ->
            Q b i j (for_le 0 i' (fun j' =>
                       trig_mirrored_entry trig on_diagonal mirror uplo A lda
                                           stride b' i' j') m1)).
  { intros b0 i0 j0 b' i' m1 Hb0 Hj0 Hi0 Hb' Hi' Hne HQ.
    unfold for_le.
    apply (for_lt_inv (fun _ m2 => Q b0 i0 j0 m2)); [lia|exact HQ|].
    intros j' m2 Hj' HQ2. apply Hkeep; try assumption; try lia.
    intros E. apply Hne. congruence. }
  assert (Hmember : forall b i j b' m1,
            0 <= b < B -> 0 <= j <= i -> i < N ->
            0 <= b' < B -> b <> b' ->
            Q b i j m1 ->
            Q b i j (for_lt 0 N (fun i' =>
                       for_le 0 i' (fun j' =>
                         trig_mirrored_entry trig on_diagonal mirror uplo A
                                             lda stride b' i' j')) m1)).
  { intros b0 i0 j0 b' m1 Hb0 Hj0 Hi0 Hb' Hne HQ.
    apply (for_lt_inv (fun _ m2 => Q b0 i0 j0 m2)); [lia|exact HQ|].
    intros i' m2 Hi' HQ2. apply Hrow; try assumption; try lia.
    intros E. apply Hne. congruence. }
  apply (@for_lt_post _ _ (fun b m' => forall i j, 0 <= j <= i -> i < N ->
                                                  Q b i j m') 0 B m);
    [| |exact Hb|exact Hj|exact Hi].
  - intros b0 m1 Hb0 i0 j0 Hj0 Hi0.
    apply (@for_lt_post _ _ (fun i m' => forall j, 0 <= j <= i ->
                                                   Q b0 i j m') 0 N m1);
      [| |lia|exact Hj0].
    + intros i1 m2 Hi1 j1 Hj1. unfold for_le.
      apply (@for_lt_post _ _ (fun j m' => Q b0 i1 j m') 0 (i1 + 1) m2);
        [| |lia].
      * intros j2 m3 Hj2. apply trig_entry_post; lia.
      * intros j2 j3 m3 Hj2 Hj3 HQ. apply Hkeep; try assumption; try lia.
        intros E. inversion E. lia.
    + intros i1 i2 m2 Hi1 Hi2 HQ j1 Hj1.
      apply Hrow; try assumption; try lia.
      * intros E. inversion E. lia.
      * now apply HQ.
  - intros b0 b1 m1 Hb0 Hb1 HQ i0 j0 Hj0 Hi0.
    apply Hmember; try assumption; try lia. now apply HQ.
Qed.

End TrigMirrored.

(** X20: for the hermitian and the symmetric kind,
    [hipblas_init_matrix_trig] computes one value per pair [j <= i], the
    cosine / sine of the offset [i + j * lda + b * stride] of the entry
    (row [i], column [j]), and stores it at the entry (row [j], column [i]):
    with fill mode ['U'] the upper triangle holds the function of the
    mirrored entry's offset and the strict lower triangle is zero; with
    ['L'] the lower triangle holds the function of its own offset and the
    strict upper triangle is zero; with any other character both entries
    are set, the entry (row [i], column [j]) holding the value itself
    (symmetric kind) or its conjugate (hermitian kind).  The diagonal of
    the hermitian kind holds the real part. *)
Theorem init_matrix_trig_mirrored :
  forall (T : Type) (ops : Scalar T) (cos_T sin_T : Z -> T) (uplo : ascii)
         (A M N lda stride batch_count : Z) (use_cosine : bool) (m : mem T),
    0 <= N <= lda -> 0 <= stride -> 0 <= batch_count < 2 ^ 63 ->
    batch_count <= 1 \/ N * lda <= stride ->
    N * lda + batch_count * stride < 2 ^ 63 ->
    exists mh ms,
      hipblas_init_matrix_trig cos_T sin_T hipblas_hermitian_matrix uplo A M
        N lda stride batch_count use_cosine m = Some mh
      /\ hipblas_init_matrix_trig cos_T sin_T hipblas_symmetric_matrix uplo A
           M N lda stride batch_count use_cosine m = Some ms
      /\ forall b i j, 0 <= b < batch_count -> 0 <= j <= i -> i < N ->
           let value := (if use_cosine then cos_T else sin_T)
                          (i + j * lda + b * stride) in
           let upper := A + (b * stride + j + i * lda) in
           let lower := A + (b * stride + i + j * lda) in
           (i = j -> mh upper = hipblas_real value /\ ms upper = value)
           /\ (i <> j ->
               if Ascii.eqb uplo "U"
               then mh upper = value /\ mh lower = s_zero
                    /\ ms upper = value /\ ms lower = s_zero
               else if Ascii.eqb uplo "L"
               then mh upper = s_zero /\ mh lower = value
                    /\ ms upper = s_zero /\ ms lower = value
               else mh upper = value /\ mh lower = hipblas_conjugate value
                    /\ ms upper = value /\ ms lower = value).
Proof.
  intros T ops cos_T sin_T uplo A M N lda stride batch_count use_cosine m
         HN Hstride HB Hmembers Hfit.
  unfold hipblas_init_matrix_trig.
  rewrite to_size_t_id by lia.
  eexists. eexists. split; [reflexivity|]. split; [reflexivity|].
  intros b i j Hb Hj Hi. cbv zeta.
  destruct (@trig_mirrored_spec T ops (if use_cosine then cos_T else sin_T)
              hipblas_real hipblas_conjugate uplo A N lda stride batch_count
              HN Hstride Hmembers Hfit m b i j Hb Hj Hi)
    as (Hh1 & Hh2).
  destruct (@trig_mirrored_spec T ops (if use_cosine then cos_T else sin_T)
              (fun v => v) (fun v => v) uplo A N lda stride batch_count
              HN Hstride Hmembers Hfit m b i j Hb Hj Hi)
    as (Hs1 & Hs2).
  cbv zeta in Hh1, Hh2, Hs1, Hs2.
  split.
  - intros ->. rewrite Z.eqb_refl in Hh1, Hs1. auto.
  - intros Hne. destruct (Z.eqb_spec i j) as [|_]; [contradiction|].
    destruct (Ascii.eqb uplo "U"); [|destruct (Ascii.eqb uplo "L")];
      auto.
Qed.

Lemma init_matrix_trig_mirrored_witness :
  exists mh,
    hipblas_init_matrix_trig (fun k : Z => (k, 1)) (fun k : Z => (k, 2))
      hipblas_hermitian_matrix "A"%char 0 2 2 2 4 1 true (fun _ => (0, 0))
    = Some mh
    /\ mh (0 + (0 * 4 + 1 + 0 * 2)) = (1 + 0 * 2 + 0 * 4, - 1).
Proof.
  destruct (@init_matrix_trig_mirrored (Z * Z) ZZ_scalar
              (fun k : Z => (k, 1)) (fun k : Z => (k, 2)) "A"%char
              0 2 2 2 4 1 true (fun _ => (0, 0)))
    as (mh & ms & Eh & _ & Hcells); try lia.
  exists mh. split; [exact Eh|].
  destruct (Hcells 0 1 0) as (_ & Hne); try lia.
  specialize (Hne ltac:(lia)). cbn in Hne.
  destruct Hne as (_ & Hlower & _). exact Hlower.
Defined.

(** X21: the general kind of [hipblas_init_matrix_trig] is
    [hipblas_init_cos] (when [use_cosine] is set) or [hipblas_init_sin];
    its triangular kind stores zero at every entry outside the triangle
    selected by the fill mode (['U']: below the diagonal; any other
    character: above it) and the cosine / sine of the entry's own offset
    inside it, for every member, and writes no other cell. *)
Theorem init_matrix_trig_triangular :
  forall (T : Type) (ops : Scalar T) (cos_T sin_T : Z -> T) (uplo : ascii)
         (A M N lda stride batch_count : Z) (use_cosine : bool) (m : mem T),
    0 <= M <= lda -> 0 <= N -> 0 <= stride -> 0 <= batch_count < 2 ^ 63 ->
    batch_count <= 1 \/ N * lda <= stride ->
    M + N * lda + batch_count * stride < 2 ^ 63 ->
    let trig := if use_cosine then cos_T else sin_T in
    hipblas_init_matrix_trig cos_T sin_T hipblas_general_matrix uplo A M N
      lda stride batch_count use_cosine m
    = Some (hipblas_init_trig_ptr upd trig A M N lda stride batch_count m)
    /\ exists mt,
         hipblas_init_matrix_trig cos_T sin_T hipblas_triangular_matrix uplo
           A M N lda stride batch_count use_cosine m = Some mt
         /\ (forall b i j, 0 <= b < batch_count -> 0 <= i < M -> 0 <= j < N ->
               mt (A + (i + j * lda + b * stride))
               = if (if Ascii.eqb uplo "U" then j <? i else i <? j)
                 then s_zero
                 else trig (i + j * lda + b * stride))
         /\ (forall a,
               (forall b i j, 0 <= b < batch_count -> 0 <= i < M ->
                              0 <= j < N ->
                              a <> A + (i + j * lda + b * stride)) ->
               mt a = m a).
Proof.
  intros T ops cos_T sin_T uplo A M N lda stride batch_count use_cosine m
         HM HN Hs HB Hmembers Hfit trig.
  assert (Hoff : forall b i j, 0 <= b < batch_count -> 0 <= i < M ->
            0 <= j < N ->
            0 <= j * lda + b * stride
            /\ i + j * lda + b * stride < 2 ^ 63).
  { intros b i j Hb Hi Hj.
    assert (0 <= b * stride) by nia.
    assert (b * stride + stride <= batch_count * stride) by nia.
    assert (0 <= j * lda) by nia.
    assert (j * lda + lda <= N * lda) by nia.
    lia. }
  unfold hipblas_init_matrix_trig. fold trig.
  rewrite !to_size_t_id by lia. split.
  - f_equal. unfold hipblas_init_trig_ptr.
    apply for_lt_ext. intros b t Hb.
    apply for_lt_ext. intros j u Hj. cbv zeta.
    apply for_lt_ext. intros i w Hi.
    destruct (Hoff b i j Hb Hi Hj) as (H1 & H2).
    rewrite (@to_size_t_id (j * lda + b * stride)) by lia.
    rewrite !size_t_index_id by lia. rewrite !to_size_t_id by lia.
    now replace (i + (j * lda + b * stride)) with (i + j * lda + b * stride)
      by lia.
  - eexists. split; [reflexivity|].
    set (val := fun b j i : Z =>
      if (if Ascii.eqb uplo "U" then j <? i else i <? j)
      then s_zero else trig (i + j * lda + b * stride)).
    rewrite (for_lt_ext _ (fun b => for_lt 0 N (fun j => for_lt 0 M
               (fun i (m : mem T) =>
                  upd m (A + (i + j * lda + b * stride)) (val b j i))))).
    2:{ intros b t Hb. apply for_lt_ext. intros j u Hj. cbv zeta.
        apply for_lt_ext. intros i w Hi.
        destruct (Hoff b i j Hb Hi Hj) as (H1 & H2).
        rewrite (@to_size_t_id (j * lda + b * stride)) by lia.
        rewrite !size_t_index_id by lia. rewrite !to_size_t_id by lia.
        replace (i + (j * lda + b * stride)) with (i + j * lda + b * stride)
          by lia.
        f_equal. unfold val.
        rewrite Z.geb_leb, (Z.leb_antisym i j), (Z.leb_antisym j i).
        destruct (Ascii.eqb uplo "U"); [destruct (j <? i)|destruct (i <? j)];
          reflexivity. }
    rewrite (for_lt_box (fun b j i (m : mem T) =>
               upd m (A + (i + j * lda + b * stride)) (val b j i))
               m (proj1 HB) HN (proj1 HM)).
    destruct (@seq_store_spec T
                (fun k => A + ((k mod (N * M)) mod M
                               + (k mod (N * M)) / M * lda
                               + k / (N * M) * stride))
                (fun k => val (k / (N * M)) ((k mod (N * M)) / M)
                              ((k mod (N * M)) mod M))
                (batch_count * (N * M)) m) as (Hcell & Hframe).
    { nia. }
    { intros k k' Hk Hk' Heq.
      destruct (@box_decode k batch_count N M (proj1 HB) HN (proj1 HM) Hk)
        as (Hb & Hj & Hi & _).
      destruct (@box_decode k' batch_count N M (proj1 HB) HN (proj1 HM) Hk')
        as (Hb' & Hj' & Hi' & _).
      destruct (@strided_cell_inj lda stride M N batch_count
                  (k / (N * M)) ((k mod (N * M)) mod M)
                  ((k mod (N * M)) / M)
                  (k' / (N * M)) ((k' mod (N * M)) mod M)
                  ((k' mod (N * M)) / M))
        as (E1 & E2 & E3); try assumption; try lia.
      now rewrite E1, E2, E3. }
    split.
    + intros b i j Hb Hi Hj.
      destruct (@box_encode b j i N M Hj Hi) as (E1 & E2 & E3).
      assert (Hk : 0 <= (b * N + j) * M + i < batch_count * (N * M))
        by now apply box_index_bounds.
      specialize (Hcell _ Hk). cbv beta in Hcell.
      rewrite E1, E2, E3 in Hcell. exact Hcell.
    + intros a Ha. apply Hframe. intros k Hk.
      destruct (@box_decode k batch_count N M (proj1 HB) HN (proj1 HM) Hk)
        as (Hb & Hj & Hi & _).
      now apply Ha.
Qed.

Lemma init_matrix_trig_triangular_witness :
  exists mt,
    hipblas_init_matrix_trig (fun k : Z => k + 100) (fun k : Z => k + 200)
      hipblas_triangular_matrix "U"%char 0 2 2 2 4 2 false (fun _ => 7)
    = Some mt
    /\ mt (0 + (1 + 0 * 2 + 1 * 4)) = 0
    /\ mt (0 + (0 + 1 * 2 + 1 * 4)) = (0 + 1 * 2 + 1 * 4) + 200.
Proof.
  destruct (@init_matrix_trig_triangular Z Z_scalar (fun k : Z => k + 100)
              (fun k : Z => k + 200) "U"%char 0 2 2 2 4 2 false
              (fun _ => 7)) as (_ & mt & Et & Hcell & _); try lia.
  exists mt. split; [exact Et|]. split.
  - apply (Hcell 1 1 0); lia.
  - apply (Hcell 1 0 1); lia.
Defined.

(** X22: the triangular kind of [hipblas_init_matrix_alternating_sign]
    (pointer overload) draws a value for the entries of the triangle
    selected by the fill mode only (['U']: column at or right of the row;
    any other character: at or left of it) and stores it as it is where
    [i + j] is odd and negated where it is even; the other entries receive
    zero, or the negation of zero where [i + j] is even.  No other cell is
    written, and for the hermitian, symmetric and diagonally dominant kinds
    the function writes nothing and draws nothing. *)
Theorem init_matrix_alternating_sign_triangular :
  forall (T G : Type) (ops : Scalar T) (rand_gen : G -> T * G) (uplo : ascii)
         (A M N lda stride batch_count : Z) (m : mem T) (g : G),
    0 <= M <= lda -> 0 <= N -> 0 <= stride -> 0 <= batch_count < 2 ^ 64 ->
    batch_count <= 1 \/ N * lda <= stride ->
    M + N * lda + batch_count * stride < 2 ^ 63 ->
    let s' := hipblas_init_matrix_alternating_sign hipblas_triangular_matrix
                uplo rand_gen A M N lda stride batch_count (m, g) in
    (forall b i j, 0 <= b < batch_count -> 0 <= i < M -> 0 <= j < N ->
       if (if Ascii.eqb uplo "U" then j <? i else i <? j)
       then fst s' (A + (i + j * lda + b * stride))
            = (if Z.odd (i + j) then s_zero else hipblas_negate s_zero)
       else exists h,
              fst s' (A + (i + j * lda + b * stride))
              = (if Z.odd (i + j) then fst (rand_gen h)
                 else hipblas_negate (fst (rand_gen h))))
    /\ (forall a,
          (forall b i j, 0 <= b < batch_count -> 0 <= i < M -> 0 <= j < N ->
                         a <> A + (i + j * lda + b * stride)) ->
          fst s' a = m a)
    /\ (forall matrix_type,
          matrix_type <> hipblas_general_matrix ->
          matrix_type <> hipblas_triangular_matrix ->
          hipblas_init_matrix_alternating_sign matrix_type uplo rand_gen
            A M N lda stride batch_count (m, g) = (m, g)).
Proof.
  intros T G ops rand_gen uplo A M N lda stride batch_count m g
         HM HN Hs HB Hmembers Hfit s'.
  assert (Hspec := @box_write_spec T G
             (fun b i j => A + (i + j * lda + b * stride))
             (fun b i j v =>
                if (if Ascii.eqb uplo "U" then j <? i else i <? j)
                then v = (if Z.odd (i + j) then s_zero
                          else hipblas_negate s_zero)
                else exists h,
                       v = (if Z.odd (i + j) then fst (rand_gen h)
                            else hipblas_negate (fst (rand_gen h))))
             (fun b i j (s : mem T * G) =>
                let '(m, g) := s in
                let '(value, g') :=
                  if Ascii.eqb uplo "U"
                  then (if j >=? i then rand_gen g else (s_zero, g))
                  else (if j <=? i then rand_gen g else (s_zero, g)) in
                (upd m (A + size_t_index (i + j * lda + b * stride))
                     (alternate i j value), g'))
             batch_count M N (m, g)
             (proj1 HB) (proj1 HM) HN).
  cbv zeta in Hspec.
  destruct Hspec as (Hcell & Hframe).
  { intros b i j b' i' j' Hb Hi Hj Hb' Hi' Hj' Heq.
    apply (@strided_cell_inj lda stride M N batch_count b i j b' i' j');
      try assumption; lia. }
  { intros b i j [m1 g1] Hb Hi Hj.
    rewrite size_t_index_id by nia.
    rewrite Z.geb_leb, (Z.leb_antisym i j), (Z.leb_antisym j i).
    destruct (Ascii.eqb uplo "U");
      [destruct (j <? i)|destruct (i <? j)]; cbn [negb];
      try (cbn [fst snd]; rewrite upd_same; apply alternate_parity);
      destruct (rand_gen g1) as [v g'] eqn:E; cbn [fst snd];
      rewrite upd_same; exists g1; rewrite E; apply alternate_parity. }
  { intros b i j [m1 g1] x Hb Hi Hj Hx.
    rewrite size_t_index_id by nia.
    destruct (if Ascii.eqb uplo "U"
              then if j >=? i then rand_gen g1 else (s_zero, g1)
              else if j <=? i then rand_gen g1 else (s_zero, g1))
      as [v g'].
    cbn [fst snd]. now apply upd_other. }
  subst s'. unfold hipblas_init_matrix_alternating_sign at 1 2 3.
  rewrite to_size_t_id by lia.
  split; [intros b i j Hb Hi Hj; exact (Hcell b i j Hb Hi Hj)|].
  split; [intros a Ha; apply Hframe; exact Ha|].
  intros matrix_type Hg Ht.
  destruct matrix_type; try reflexivity; contradiction.
Qed.

Lemma init_matrix_alternating_sign_triangular_witness :
  fst (hipblas_init_matrix_alternating_sign hipblas_triangular_matrix
         "U"%char counter_gen 0 2 2 2 4 2 (fun _ => 7, 0))
      (0 + (1 + 0 * 2 + 1 * 4))
  = 0.
Proof.
  destruct (@init_matrix_alternating_sign_triangular Z Z Z_scalar counter_gen
              "U"%char 0 2 2 2 4 2 (fun _ => 7) 0) as (Hcell & _); try lia.
  exact (Hcell 1 1 0 ltac:(lia) ltac:(lia) ltac:(lia)).
Defined.
